(** * A shallow embedding of the C analysis pipeline

    The development follows the four JavaScript modules of the repository:
    the recursive-descent parser ([Parser]), the three-phase semantic
    analyzer ([Semantic]) and the three-address code generator
    ([CodeGen]).  Source text and identifiers are ASCII strings, offsets
    and counters are natural numbers, JavaScript objects with a fixed
    shape are records, AST nodes are one inductive type discriminated
    like the [type] tag of the source. *)

From Stdlib Require Import String Ascii List Arith ZArith Lia Bool.
From Stdlib Require Import DecimalString Decimal.
Import ListNotations.
Open Scope string_scope.
Open Scope list_scope.
Open Scope nat_scope.

(** Strict equality and concatenation of strings, written as in the
    source. *)
Infix "===" := String.eqb (at level 70, no associativity).
Notation "a !== b" := (negb (String.eqb a b)) (at level 70, no associativity).
Infix "+++" := String.append (at level 60, right associativity).

Set Warnings "-register-all".

(** ** JavaScript helpers *)

Module JS.

(** [`${n}`] for a non-negative integer. *)
Definition ofNat (n : nat) : string := NilEmpty.string_of_uint (Nat.to_uint n).

(** [`${n}`] for a large non-negative integer (a timestamp). *)
Definition ofN (n : N) : string := NilEmpty.string_of_uint (N.to_uint n).

(** [s.startsWith(p)] *)
Definition startsWith (s p : string) : bool := String.prefix p s.

(** [s.includes(p)] *)
Fixpoint includes (s p : string) : bool :=
  String.prefix p s ||
  match s with
  | EmptyString => false
  | String _ s' => includes s' p
  end.

(** [l.includes(x)] on an array of strings *)
Definition inList (x : string) (l : list string) : bool :=
  existsb (String.eqb x) l.

(** [l.join(sep)] *)
Fixpoint join (sep : string) (l : list string) : string :=
  match l with
  | [] => EmptyString
  | [x] => x
  | x :: rest => x +++ sep +++ join sep rest
  end.

(** Truthiness of a string: only the empty string is falsy. *)
Definition truthy (s : string) : bool :=
  match s with EmptyString => false | _ => true end.

(** [x || d] where [x] is a possibly missing number: [undefined] and [0]
    are both falsy. *)
Definition orNat (x : option nat) (d : nat) : nat :=
  match x with
  | Some (S k) => S k
  | _ => d
  end.

(** [a || b] on possibly missing strings. *)
Definition orStr (x : option string) (d : string) : string :=
  match x with
  | Some s => if truthy s then s else d
  | None => d
  end.

Definition isSome {A} (o : option A) : bool :=
  match o with Some _ => true | None => false end.

(** The one-character strings that cannot be written inside a literal. *)
Definition dquote : string := String (ascii_of_nat 34) EmptyString.
Definition newline : string := String (ascii_of_nat 10) EmptyString.

(** Characters matched by [\s], [\w] and the line terminators excluded by
    [.] (ASCII range). *)
Definition isSpace (c : ascii) : bool :=
  let n := nat_of_ascii c in
  (n =? 32) || ((9 <=? n) && (n <=? 13)).

Definition isWord (c : ascii) : bool :=
  let n := nat_of_ascii c in
  ((48 <=? n) && (n <=? 57)) || ((65 <=? n) && (n <=? 90)) ||
  ((97 <=? n) && (n <=? 122)) || (n =? 95).

Definition isLineTerminator (c : ascii) : bool :=
  let n := nat_of_ascii c in (n =? 10) || (n =? 13).

Fixpoint dropSpaces (s : string) : string :=
  match s with
  | String c s' => if isSpace c then dropSpaces s' else s
  | EmptyString => EmptyString
  end.

Fixpoint rev_string (s acc : string) : string :=
  match s with
  | EmptyString => acc
  | String c s' => rev_string s' (String c acc)
  end.

(** [s.trim()] *)
Definition trim (s : string) : string :=
  rev_string (dropSpaces (rev_string (dropSpaces s) EmptyString)) EmptyString.

(** [s.split("\n")] *)
Fixpoint splitLines (s cur : string) : list string :=
  match s with
  | EmptyString => [rev_string cur EmptyString]
  | String c s' =>
      if (nat_of_ascii c =? 10) then
        rev_string cur EmptyString :: splitLines s' EmptyString
      else splitLines s' (String c cur)
  end.

(** [s.substring(0, n)] *)
Definition substring0 (n : nat) (s : string) : string := String.substring 0 n s.

End JS.

(** ** Abstract syntax *)

Record location := mkLoc { loc_start : nat; loc_end : nat }.

(** An [Identifier] object: [{type, name, location}]. *)
Record ident := mkIdent { name : string; id_location : location }.

(** The members of [DeclarationSpecifiers.specifiers]:
    [{type, name, location}] for a type or a qualifier,
    [{type: "ComplexType", kind, name, location}] for a tag, whose [name]
    is [null] when the tag is anonymous. *)
Record specifier := mkSpecifier {
  spec_type : string;
  spec_kind : option string;
  spec_name : option string;
  spec_location : location
}.

Record DeclarationSpecifiers := mkDeclSpecs {
  specifiers : list specifier;
  ds_location : location
}.

Record Param := mkParam {
  paramType : DeclarationSpecifiers;
  param_name : string;
  param_isArray : bool;
  param_isPointer : bool;
  param_location : location
}.

(** Constructor arguments are listed in the order in which the parser
    writes the keys of the object, which is the order [for (key in node)]
    visits them.  An [option] child is a key the parser sets to [null]. *)
Inductive node :=
| Program (body : list node)
| Include (header : string) (system : bool) (loc : location)
| PreprocessorDirective (directive : string) (loc : location)
| Typedef (typeSpecifiers : DeclarationSpecifiers) (id : ident) (loc : location)
| FunctionDeclaration (id : ident) (returnType : DeclarationSpecifiers)
    (isPointerReturn : bool) (params : list Param) (body : option node)
    (loc : location)
| VariableDeclaration (declarations : list declarator)
    (typeSpecifiers : DeclarationSpecifiers) (loc : location)
| BlockStatement (body : list node) (loc : location)
| IfStatement (test consequent alternate : option node) (loc : location)
| WhileStatement (test body : option node) (loc : location)
| ForStatement (init test update body : option node) (loc : location)
| ReturnStatement (argument : option node) (loc : location)
| ExpressionStatement (expression : node) (loc : location)
| BreakStatement (loc : location)
| ContinueStatement (loc : location)
| Identifier (i : ident)
| Literal (value : string) (valueType : string) (loc : location)
| BinaryExpression (operator : string) (left right : node) (loc : location)
| UnaryExpression (operator : string) (argument : node) (prefix : bool)
    (loc : location)
| AssignmentExpression (operator : string) (left right : node) (loc : location)
| CallExpression (callee : ident) (arguments : list node) (loc : location)
with declarator :=
| VariableDeclarator (id : ident) (isArray : bool) (initializer : option node)
    (loc : location) (isPointer : bool).

(** [node.location]; a [Program] has none. *)
Definition node_location (n : node) : option location :=
  match n with
  | Program _ => None
  | Include _ _ l | PreprocessorDirective _ l | Typedef _ _ l
  | FunctionDeclaration _ _ _ _ _ l | VariableDeclaration _ _ l
  | BlockStatement _ l | IfStatement _ _ _ l | WhileStatement _ _ l
  | ForStatement _ _ _ _ l | ReturnStatement _ l | ExpressionStatement _ l
  | BreakStatement l | ContinueStatement l | Literal _ _ l
  | BinaryExpression _ _ _ l | UnaryExpression _ _ _ l
  | AssignmentExpression _ _ _ l | CallExpression _ _ l => Some l
  | Identifier i => Some (id_location i)
  end.

Definition declarator_location (d : declarator) : location :=
  match d with VariableDeclarator _ _ _ l _ => l end.

(** Nested induction over the syntax: list and optional children carry the
    property too. *)
Section node_induction.
Variable P : node -> Prop.
Variable Pd : declarator -> Prop.

Definition OptP (o : option node) : Prop :=
  match o with Some n => P n | None => True end.

Hypothesis HProgram : forall body, Forall P body -> P (Program body).
Hypothesis HInclude : forall h s l, P (Include h s l).
Hypothesis HDirective : forall d l, P (PreprocessorDirective d l).
Hypothesis HTypedef : forall ts i l, P (Typedef ts i l).
Hypothesis HFunction : forall i rt ptr ps body l,
  OptP body -> P (FunctionDeclaration i rt ptr ps body l).
Hypothesis HVarDecl : forall ds ts l,
  Forall Pd ds -> P (VariableDeclaration ds ts l).
Hypothesis HBlock : forall body l, Forall P body -> P (BlockStatement body l).
Hypothesis HIf : forall t c a l,
  OptP t -> OptP c -> OptP a -> P (IfStatement t c a l).
Hypothesis HWhile : forall t b l, OptP t -> OptP b -> P (WhileStatement t b l).
Hypothesis HFor : forall i t u b l,
  OptP i -> OptP t -> OptP u -> OptP b -> P (ForStatement i t u b l).
Hypothesis HReturn : forall a l, OptP a -> P (ReturnStatement a l).
Hypothesis HExprStmt : forall e l, P e -> P (ExpressionStatement e l).
Hypothesis HBreak : forall l, P (BreakStatement l).
Hypothesis HContinue : forall l, P (ContinueStatement l).
Hypothesis HIdentifier : forall i, P (Identifier i).
Hypothesis HLiteral : forall v vt l, P (Literal v vt l).
Hypothesis HBinary : forall op a b l, P a -> P b -> P (BinaryExpression op a b l).
Hypothesis HUnary : forall op a p l, P a -> P (UnaryExpression op a p l).
Hypothesis HAssign : forall op a b l,
  P a -> P b -> P (AssignmentExpression op a b l).
Hypothesis HCall : forall c args l, Forall P args -> P (CallExpression c args l).
Hypothesis HDeclarator : forall i arr init l ptr,
  OptP init -> Pd (VariableDeclarator i arr init l ptr).

Fixpoint node_nested_ind (n : node) : P n :=
  let list_ind :=
    fix go (l : list node) : Forall P l :=
      match l with
      | [] => Forall_nil P
      | x :: r => Forall_cons x (node_nested_ind x) (go r)
      end in
  let opt_ind := fun (o : option node) =>
    match o return OptP o with
    | Some x => node_nested_ind x
    | None => I
    end in
  match n with
  | Program body => HProgram body (list_ind body)
  | Include h s l => HInclude h s l
  | PreprocessorDirective d l => HDirective d l
  | Typedef ts i l => HTypedef ts i l
  | FunctionDeclaration i rt ptr ps body l =>
      HFunction i rt ptr ps body l (opt_ind body)
  | VariableDeclaration ds ts l =>
      HVarDecl ds ts l
        ((fix go (l : list declarator) : Forall Pd l :=
            match l with
            | [] => Forall_nil Pd
            | d :: r => Forall_cons d (declarator_nested_ind d) (go r)
            end) ds)
  | BlockStatement body l => HBlock body l (list_ind body)
  | IfStatement t c a l => HIf t c a l (opt_ind t) (opt_ind c) (opt_ind a)
  | WhileStatement t b l => HWhile t b l (opt_ind t) (opt_ind b)
  | ForStatement i t u b l =>
      HFor i t u b l (opt_ind i) (opt_ind t) (opt_ind u) (opt_ind b)
  | ReturnStatement a l => HReturn a l (opt_ind a)
  | ExpressionStatement e l => HExprStmt e l (node_nested_ind e)
  | BreakStatement l => HBreak l
  | ContinueStatement l => HContinue l
  | Identifier i => HIdentifier i
  | Literal v vt l => HLiteral v vt l
  | BinaryExpression op a b l =>
      HBinary op a b l (node_nested_ind a) (node_nested_ind b)
  | UnaryExpression op a p l => HUnary op a p l (node_nested_ind a)
  | AssignmentExpression op a b l =>
      HAssign op a b l (node_nested_ind a) (node_nested_ind b)
  | CallExpression c args l => HCall c args l (list_ind args)
  end
with declarator_nested_ind (d : declarator) : Pd d :=
  match d with
  | VariableDeclarator i arr init l ptr =>
      HDeclarator i arr init l ptr
        (match init return OptP init with
         | Some x => node_nested_ind x
         | None => I
         end)
  end.
End node_induction.

(** ** The parser (utils/parser.js) *)

Module Parser.

Record Token := mkToken {
  tok_type : string;
  tok_value : string;
  tok_start : nat;
  tok_end : nat;
  tok_line : nat;
  tok_column : nat
}.

Record SyntaxError := mkError { message : string; err_location : location }.

(** The mutable variables of the closure: the cursor [current] and the
    [errors] array.  [steps] is not in the source: it counts the calls of
    [advance], the unit of work of the parser. *)
Record pstate := mkState {
  current : nat;
  errors : list SyntaxError;
  steps : nat
}.

(** A call returns, throws (a [TypeError] on a [null] dereference), or
    runs out of recursion depth in the model. *)
Inductive outcome (A : Type) :=
| Ret (a : A) (s : pstate)
| Throw (msg : string) (s : pstate)
| OutOfFuel.
Arguments Ret {A} a s.
Arguments Throw {A} msg s.
Arguments OutOfFuel {A}.

Definition M (A : Type) := pstate -> outcome A.

Definition ret {A} (a : A) : M A := fun s => Ret a s.

Definition bind {A B} (m : M A) (f : A -> M B) : M B :=
  fun s =>
    match m s with
    | Ret a s' => f a s'
    | Throw e s' => Throw e s'
    | OutOfFuel => OutOfFuel
    end.

Definition throw {A} (msg : string) : M A := fun s => Throw msg s.

Definition outOfFuel {A} : M A := fun _ => OutOfFuel.

(** [try { m } catch (e) { h(e.message) }] *)
Definition tryCatch {A} (m : M A) (h : string -> M A) : M A :=
  fun s =>
    match m s with
    | Throw e s' => h e s'
    | r => r
    end.

Notation "x <- m ;; k" := (bind m (fun x => k))
  (at level 61, m at next level, right associativity).
Notation "m ;;; k" := (bind m (fun _ => k))
  (at level 61, right associativity).

Definition getCurrent : M nat := fun s => Ret (current s) s.

Definition setCurrent (c : nat) : M unit :=
  fun s => Ret tt (mkState c (errors s) (steps s)).

Definition pushError (msg : string) (l : location) : M unit :=
  fun s => Ret tt (mkState (current s) (errors s ++ [mkError msg l]) (steps s)).

(** Reading a property of [o]: a [TypeError] when [o] is [null] or
    [undefined]. *)
Definition prop {A} (o : option A) (key : string) : M A :=
  match o with
  | Some a => ret a
  | None => throw ("Cannot read properties of null (reading '" +++ key +++ "')")
  end.

Definition getLoc (n : node) : M location :=
  match node_location n with
  | Some l => ret l
  | None => throw "Cannot read properties of undefined (reading 'start')"
  end.

Definition tokLoc (t : Token) : location := mkLoc (tok_start t) (tok_end t).

(** [peek() && peek().value === v] and [peek() && peek().value !== v] *)
Definition valueIs (p : option Token) (v : string) : bool :=
  match p with Some t => tok_value t === v | None => false end.

Definition valueIsNot (p : option Token) (v : string) : bool :=
  match p with Some t => tok_value t !== v | None => false end.

Definition typeIs (p : option Token) (ty : string) : bool :=
  match p with Some t => tok_type t === ty | None => false end.

(** [peek() ? peek().end : d] *)
Definition endOr (p : option Token) (d : nat) : nat :=
  match p with Some t => tok_end t | None => d end.

Definition isSpecifierStart (t : Token) : bool :=
  (tok_type t === "type") || (tok_type t === "qualifier") ||
  (tok_value t === "struct") || (tok_value t === "union") ||
  (tok_value t === "enum").

Definition isTag (v : string) : bool :=
  (v === "struct") || (v === "union") || (v === "enum").

(** The [operators] table of [parseBinaryExpression]. *)
Definition operators (v : string) : option (nat * string) :=
  if v === "+" then Some (4, "left") else
  if v === "-" then Some (4, "left") else
  if v === "*" then Some (5, "left") else
  if v === "/" then Some (5, "left") else
  if v === "%" then Some (5, "left") else
  if v === "<" then Some (3, "left") else
  if v === ">" then Some (3, "left") else
  if v === "<=" then Some (3, "left") else
  if v === ">=" then Some (3, "left") else
  if v === "==" then Some (2, "left") else
  if v === "!=" then Some (2, "left") else
  if v === "&&" then Some (1, "left") else
  if v === "||" then Some (0, "left") else None.

Definition unaryOperators : list string := ["!"; "-"; "~"; "++"; "--"; "&"; "*"].

(** The header name without its quote characters (single or double). *)
Fixpoint removeQuotes (s : string) : string :=
  match s with
  | EmptyString => EmptyString
  | String c s' =>
      if (nat_of_ascii c =? 34) || (nat_of_ascii c =? 39) then removeQuotes s'
      else String c (removeQuotes s')
  end.

Definition setPointer (d : declarator) : declarator :=
  match d with VariableDeclarator i arr init l _ => VariableDeclarator i arr init l true end.

(** The functions that are called recursively, at the depth below. *)
Record Parsers := mkParsers {
  rec_parsePrimaryExpression : M (option node);
  rec_parseUnaryExpression : M (option node);
  rec_parseBinaryExpression : nat -> M (option node);
  rec_parseAssignmentExpression : M (option node);
  rec_parseExpression : M (option node);
  rec_parseStatement : M (option node)
}.

Definition bottom : Parsers :=
  mkParsers outOfFuel outOfFuel (fun _ => outOfFuel) outOfFuel outOfFuel outOfFuel.

Section Grammar.

Variable tokens : list Token.
Variable self : Parsers.

(** Every loop of the parser consumes a token per iteration; this bounds
    the iterations in the model. *)
Definition loopFuel : nat := S (length tokens).

Definition peek : M (option Token) :=
  fun s => Ret (nth_error tokens (current s)) s.

(** [current++; return tokens[current - 1]] *)
Definition advance : M (option Token) :=
  fun s =>
    Ret (nth_error tokens (current s))
        (mkState (S (current s)) (errors s) (S (steps s))).

(** The location reported at the end of the input:
    [tokens[tokens.length - 1]?.end || 0]. *)
Definition eofLocation : location :=
  let e := JS.orNat (option_map tok_end (nth_error tokens (length tokens - 1))) 0 in
  mkLoc e e.

Definition expect (type message : string) : M (option Token) :=
  token <- peek ;;
  match token with
  | Some t =>
      if tok_type t === type then advance
      else
        pushError
          (if JS.truthy message then message
           else "Expected token of type " +++ type +++ ", got " +++
                (if JS.truthy (tok_type t) then tok_type t else "end of file"))
          (tokLoc t) ;;;
        ret None
  | None =>
      pushError
        (if JS.truthy message then message
         else "Expected token of type " +++ type +++ ", got end of file")
        eofLocation ;;;
      ret None
  end.

Definition expectValue (value message : string) : M (option Token) :=
  token <- peek ;;
  match token with
  | Some t =>
      if tok_value t === value then advance
      else
        pushError
          (if JS.truthy message then message
           else "Expected '" +++ value +++ "', got '" +++
                (if JS.truthy (tok_value t) then tok_value t else "end of file")
                +++ "'")
          (tokLoc t) ;;;
        ret None
  | None =>
      pushError
        (if JS.truthy message then message
         else "Expected '" +++ value +++ "', got 'end of file'")
        eofLocation ;;;
      ret None
  end.

(** [while (peek() && peek().value !== ">") { headerName += ...; advance() }] *)
Fixpoint includeHeaderLoop (k : nat) (headerName : string) : M string :=
  match k with
  | 0 => outOfFuel
  | S k' =>
      p <- peek ;;
      match p with
      | Some t =>
          if tok_value t !== ">" then
            advance ;;; includeHeaderLoop k' (headerName +++ tok_value t)
          else ret headerName
      | None => ret headerName
      end
  end.

Definition parseInclude : M (option node) :=
  startToken <- peek ;;
  advance ;;;
  headerToken <- peek ;;
  match headerToken with
  | None =>
      st <- prop startToken "start" ;;
      pushError "Expected header name after #include" (tokLoc st) ;;;
      ret None
  | Some headerToken =>
      if tok_value headerToken === "<" then
        advance ;;;
        headerName <- includeHeaderLoop loopFuel EmptyString ;;
        closing <- expectValue ">" "Expected '>' after header name" ;;
        match closing with
        | None => ret None
        | Some _ =>
            st <- prop startToken "start" ;;
            p <- peek ;;
            ret (Some (Include headerName true
                         (mkLoc (tok_start st) (endOr p (tok_end st)))))
        end
      else if tok_type headerToken === "string" then
        advance ;;;
        st <- prop startToken "start" ;;
        ret (Some (Include (removeQuotes (tok_value headerToken)) true
                     (mkLoc (tok_start st) (tok_end headerToken))))
      else
        pushError
          ("Invalid include directive, expected <header> or " +++
           JS.dquote +++ "header" +++ JS.dquote)
          (tokLoc headerToken) ;;;
        ret None
  end.

(** The [do { ... } while (peek() && braceCount > 0)] that skips the body
    of a struct, union or enum definition. *)
Fixpoint skipBraces (k : nat) (braceCount : Z) : M unit :=
  match k with
  | 0 => outOfFuel
  | S k' =>
      p <- peek ;;
      t <- prop p "value" ;;
      let braceCount := if tok_value t === "{" then (braceCount + 1)%Z else braceCount in
      let braceCount := if tok_value t === "}" then (braceCount - 1)%Z else braceCount in
      advance ;;;
      p <- peek ;;
      if JS.isSome p && (0 <? braceCount)%Z then skipBraces k' braceCount
      else ret tt
  end.

Fixpoint declarationSpecifierLoop (k : nat) (specifiers : list specifier)
  : M (list specifier) :=
  match k with
  | 0 => outOfFuel
  | S k' =>
      p <- peek ;;
      match p with
      | Some pt =>
          if isSpecifierStart pt then
            token <- advance ;;
            token <- prop token "value" ;;
            if isTag (tok_value token) then
              let tagType := tok_value token in
              p <- peek ;;
              tagName <-
                (if typeIs p "identifier" then
                   nameToken <- advance ;;
                   nameToken <- prop nameToken "value" ;;
                   ret (Some (tok_value nameToken))
                 else ret None) ;;
              p <- peek ;;
              let spec :=
                mkSpecifier "ComplexType" (Some tagType) tagName
                  (mkLoc (tok_start token)
                     (JS.orNat (option_map tok_end p) (tok_end token))) in
              p <- peek ;;
              (if valueIs p "{" then skipBraces loopFuel 0%Z else ret tt) ;;;
              declarationSpecifierLoop k' (specifiers ++ [spec])
            else
              declarationSpecifierLoop k'
                (specifiers ++
                 [mkSpecifier
                    (if tok_type token === "qualifier" then "TypeQualifier"
                     else "TypeSpecifier")
                    None (Some (tok_value token)) (tokLoc token)])
          else ret specifiers
      | None => ret specifiers
      end
  end.

Definition parseDeclarationSpecifiers : M (option DeclarationSpecifiers) :=
  p <- peek ;;
  let startPos := JS.orNat (option_map tok_start p) 0 in
  specifiers <- declarationSpecifierLoop loopFuel [] ;;
  match List.last (map Some specifiers) None with
  | None => ret None
  | Some lastSpec =>
      ret (Some (mkDeclSpecs specifiers
                   (mkLoc startPos (loc_end (spec_location lastSpec)))))
  end.

(** *** Expressions *)

Fixpoint argumentLoop (k : nat) (args : list node) : M (list node) :=
  match k with
  | 0 => outOfFuel
  | S k' =>
      p <- peek ;;
      if valueIsNot p ")" then
        arg <- rec_parseExpression self ;;
        let args := match arg with Some a => args ++ [a] | None => args end in
        p <- peek ;;
        if valueIs p "," then advance ;;; argumentLoop k' args
        else ret args
      else ret args
  end.

Definition parsePrimaryExpression : M (option node) :=
  token <- peek ;;
  match token with
  | None => ret None
  | Some token =>
      if tok_type token === "comment" then
        advance ;;; rec_parsePrimaryExpression self
      else if tok_type token === "string" then
        stringToken <- advance ;;
        stringToken <- prop stringToken "value" ;;
        ret (Some (Literal (tok_value stringToken) "string" (tokLoc stringToken)))
      else if tok_type token === "number" then
        numberToken <- advance ;;
        numberToken <- prop numberToken "value" ;;
        ret (Some (Literal (tok_value numberToken) "number" (tokLoc numberToken)))
      else if tok_type token === "identifier" then
        identifier <- advance ;;
        identifier <- prop identifier "value" ;;
        p <- peek ;;
        if valueIs p "(" then
          advance ;;;
          p <- peek ;;
          args <-
            (if valueIs p ")" then advance ;;; ret []
             else
               args <- argumentLoop loopFuel [] ;;
               p <- peek ;;
               (if valueIs p ")" then advance ;;; ret tt
                else pushError "Expected ')' after function arguments"
                       (tokLoc identifier)) ;;;
               ret args) ;;
          p <- peek ;;
          ret (Some (CallExpression
                       (mkIdent (tok_value identifier) (tokLoc identifier))
                       args
                       (mkLoc (tok_start identifier)
                          (endOr p (tok_end identifier)))))
        else
          ret (Some (Identifier (mkIdent (tok_value identifier) (tokLoc identifier))))
      else if tok_value token === "(" then
        advance ;;;
        expr <- rec_parseExpression self ;;
        p <- peek ;;
        (if valueIs p ")" then advance ;;; ret tt
         else pushError "Expected ')' after expression" (tokLoc token)) ;;;
        ret expr
      else if (tok_value token === ")") || (tok_value token === ";") ||
              (tok_value token === ",") then
        ret None
      else
        pushError ("Unexpected token in expression: " +++ tok_value token)
          (tokLoc token) ;;;
        advance ;;;
        ret None
  end.

Definition parseUnaryExpression : M (option node) :=
  p <- peek ;;
  match p with
  | Some pt =>
      if JS.inList (tok_value pt) unaryOperators then
        operatorToken <- advance ;;
        operatorToken <- prop operatorToken "value" ;;
        argument <- rec_parseUnaryExpression self ;;
        match argument with
        | None => ret None
        | Some argument =>
            al <- getLoc argument ;;
            ret (Some (UnaryExpression (tok_value operatorToken) argument true
                         (mkLoc (tok_start operatorToken) (loc_end al))))
        end
      else parsePrimaryExpression
  | None => parsePrimaryExpression
  end.

(** The [while] of [parseBinaryExpression]: operators of precedence at
    least [precedence] are folded into [left]. *)
Fixpoint binaryLoop (k : nat) (precedence : nat) (left_ : node) : M (option node) :=
  match k with
  | 0 => outOfFuel
  | S k' =>
      p <- peek ;;
      match p with
      | Some pt =>
          match operators (tok_value pt) with
          | Some (prec, _) =>
              if precedence <=? prec then
                operatorToken <- advance ;;
                operatorToken <- prop operatorToken "value" ;;
                let operator := tok_value operatorToken in
                let nextPrecedence :=
                  match operators operator with
                  | Some (prec', assoc) => prec' + (if assoc === "left" then 1 else 0)
                  | None => 0
                  end in
                right_ <- rec_parseBinaryExpression self nextPrecedence ;;
                match right_ with
                | None => ret None
                | Some right_ =>
                    ll <- getLoc left_ ;;
                    rl <- getLoc right_ ;;
                    binaryLoop k' precedence
                      (BinaryExpression operator left_ right_
                         (mkLoc (loc_start ll) (loc_end rl)))
                end
              else ret (Some left_)
          | None => ret (Some left_)
          end
      | None => ret (Some left_)
      end
  end.

Definition parseBinaryExpression (precedence : nat) : M (option node) :=
  left_ <- parseUnaryExpression ;;
  match left_ with
  | None => ret None
  | Some left_ => binaryLoop loopFuel precedence left_
  end.

Definition parseAssignmentExpression : M (option node) :=
  left_ <- parseBinaryExpression 0 ;;
  match left_ with
  | None => ret None
  | Some left_ =>
      p <- peek ;;
      if valueIs p "=" then
        operatorToken <- advance ;;
        operatorToken <- prop operatorToken "value" ;;
        right_ <- rec_parseAssignmentExpression self ;;
        match right_ with
        | None => ret None
        | Some right_ =>
            ll <- getLoc left_ ;;
            rl <- getLoc right_ ;;
            ret (Some (AssignmentExpression (tok_value operatorToken) left_ right_
                         (mkLoc (loc_start ll) (loc_end rl))))
        end
      else ret (Some left_)
  end.

Definition parseExpression : M (option node) := parseAssignmentExpression.

(** *** Declarations and statements *)

Definition parseVariableDeclarator (typeSpecifiers : DeclarationSpecifiers)
  : M (option declarator) :=
  identifierToken <- expect "identifier" "Expected variable name" ;;
  match identifierToken with
  | None => ret None
  | Some identifierToken =>
      p <- peek ;;
      isArray <-
        (if valueIs p "[" then
           advance ;;;
           p <- peek ;;
           (if valueIsNot p "]" then parseExpression ;;; ret tt else ret tt) ;;;
           expectValue "]" "Expected ']' after array dimension" ;;;
           ret true
         else ret false) ;;
      p <- peek ;;
      initializer <-
        (if valueIs p "=" then advance ;;; parseExpression else ret None) ;;
      endPos <-
        match initializer with
        | Some i => il <- getLoc i ;; ret (loc_end il)
        | None => ret (tok_end identifierToken)
        end ;;
      ret (Some (VariableDeclarator
                   (mkIdent (tok_value identifierToken) (tokLoc identifierToken))
                   isArray initializer
                   (mkLoc (tok_start identifierToken) endPos)
                   false))
  end.

(** The [while (true)] over the declarators of one declaration. *)
Fixpoint declaratorLoop (k : nat) (typeSpecifiers : DeclarationSpecifiers)
    (declarators : list declarator) : M (list declarator) :=
  match k with
  | 0 => outOfFuel
  | S k' =>
      p <- peek ;;
      isPointer <- (if valueIs p "*" then advance ;;; ret true else ret false) ;;
      d <- parseVariableDeclarator typeSpecifiers ;;
      match d with
      | None => ret declarators
      | Some d =>
          let declarators :=
            declarators ++ [if isPointer : bool then setPointer d else d] in
          p <- peek ;;
          if valueIs p "," then
            advance ;;; declaratorLoop k' typeSpecifiers declarators
          else ret declarators
      end
  end.

Definition parseVariableDeclaration : M (option node) :=
  typeSpecifiers <- parseDeclarationSpecifiers ;;
  match typeSpecifiers with
  | None =>
      p <- peek ;;
      pushError "Expected type specifier"
        (match p with Some t => tokLoc t | None => mkLoc 0 0 end) ;;;
      ret None
  | Some typeSpecifiers =>
      declarators <- declaratorLoop loopFuel typeSpecifiers [] ;;
      expectValue ";" "Expected ';' after variable declaration" ;;;
      p <- peek ;;
      ret (Some (VariableDeclaration declarators typeSpecifiers
                   (mkLoc (loc_start (ds_location typeSpecifiers))
                      (JS.orNat (option_map tok_end p)
                         (match List.last (map Some declarators) None with
                          | Some d => loc_end (declarator_location d)
                          | None => loc_end (ds_location typeSpecifiers)
                          end)))))
  end.

Definition parseReturnStatement : M (option node) :=
  returnToken <- advance ;;
  p <- peek ;;
  argument <- (if valueIsNot p ";" then parseExpression else ret None) ;;
  expectValue ";" "Expected ';' after return statement" ;;;
  returnToken <- prop returnToken "start" ;;
  p <- peek ;;
  ret (Some (ReturnStatement argument
               (mkLoc (tok_start returnToken) (endOr p (tok_end returnToken))))).

Fixpoint blockLoop (k : nat) (body : list node) : M (list node) :=
  match k with
  | 0 => outOfFuel
  | S k' =>
      p <- peek ;;
      if valueIsNot p "}" then
        statement <- rec_parseStatement self ;;
        match statement with
        | Some st => blockLoop k' (body ++ [st])
        | None =>
            p <- peek ;;
            if valueIsNot p "}" then advance ;;; blockLoop k' body
            else ret body
        end
      else ret body
  end.

Definition parseBlockStatement : M (option node) :=
  startToken <- peek ;;
  opening <- expectValue "{" "Expected '{' for block statement" ;;
  match opening with
  | None => ret None
  | Some _ =>
      body <- blockLoop loopFuel [] ;;
      closingBrace <- expectValue "}" "Expected '}' after block statement" ;;
      startToken <- prop startToken "start" ;;
      endPos <-
        match closingBrace with
        | Some c => ret (tok_end c)
        | None =>
            match List.last (map Some body) None with
            | Some b => bl <- getLoc b ;; ret (loc_end bl)
            | None => ret (tok_end startToken)
            end
        end ;;
      ret (Some (BlockStatement body (mkLoc (tok_start startToken) endPos)))
  end.

Definition parseIfStatement : M (option node) :=
  startToken <- peek ;;
  advance ;;;
  opening <- expectValue "(" "Expected '(' after 'if'" ;;
  match opening with
  | None => ret None
  | Some _ =>
      test <- parseExpression ;;
      closing <- expectValue ")" "Expected ')' after if condition" ;;
      match closing with
      | None => ret None
      | Some _ =>
          consequent <- rec_parseStatement self ;;
          p <- peek ;;
          alternate <-
            (if valueIs p "else" then advance ;;; rec_parseStatement self
             else ret None) ;;
          startToken <- prop startToken "start" ;;
          endPos <-
            match alternate with
            | Some a => al <- getLoc a ;; ret (loc_end al)
            | None =>
                c <- prop consequent "location" ;;
                cl <- getLoc c ;;
                ret (loc_end cl)
            end ;;
          ret (Some (IfStatement test consequent alternate
                       (mkLoc (tok_start startToken) endPos)))
      end
  end.

Definition parseWhileStatement : M (option node) :=
  startToken <- peek ;;
  advance ;;;
  opening <- expectValue "(" "Expected '(' after 'while'" ;;
  match opening with
  | None => ret None
  | Some _ =>
      test <- parseExpression ;;
      closing <- expectValue ")" "Expected ')' after while condition" ;;
      match closing with
      | None => ret None
      | Some _ =>
          body <- rec_parseStatement self ;;
          startToken <- prop startToken "start" ;;
          endPos <-
            match body with
            | Some b => bl <- getLoc b ;; ret (loc_end bl)
            | None => ret (tok_end startToken)
            end ;;
          ret (Some (WhileStatement test body
                       (mkLoc (tok_start startToken) endPos)))
      end
  end.

Definition parseForStatement : M (option node) :=
  startToken <- peek ;;
  advance ;;;
  expectValue "(" "Expected '(' after 'for'" ;;;
  p <- peek ;;
  init <-
    (if valueIsNot p ";" then
       if typeIs p "type" || typeIs p "qualifier" then parseVariableDeclaration
       else
         init <- parseExpression ;;
         expectValue ";" "Expected ';' after for loop initialization" ;;;
         ret init
     else advance ;;; ret None) ;;
  p <- peek ;;
  test <- (if valueIsNot p ";" then parseExpression else ret None) ;;
  expectValue ";" "Expected ';' after for loop condition" ;;;
  p <- peek ;;
  update <- (if valueIsNot p ")" then parseExpression else ret None) ;;
  p <- peek ;;
  (if valueIs p ")" then advance ;;; ret tt else ret tt) ;;;
  body <- rec_parseStatement self ;;
  startToken <- prop startToken "start" ;;
  endPos <-
    match body with
    | Some b => bl <- getLoc b ;; ret (loc_end bl)
    | None => ret (tok_end startToken)
    end ;;
  ret (Some (ForStatement init test update body
               (mkLoc (tok_start startToken) endPos))).

Definition parseExpressionStatement : M (option node) :=
  expr <- parseExpression ;;
  match expr with
  | None =>
      p <- peek ;;
      (if JS.isSome p then advance ;;; ret tt else ret tt) ;;;
      ret None
  | Some expr =>
      expectValue ";" "Expected ';' after expression" ;;;
      el <- getLoc expr ;;
      p <- peek ;;
      ret (Some (ExpressionStatement expr
                   (mkLoc (loc_start el) (endOr p (loc_end el)))))
  end.

Definition parseStatement : M (option node) :=
  token <- peek ;;
  match token with
  | None => ret None
  | Some token =>
      if isSpecifierStart token then parseVariableDeclaration
      else if tok_value token === "return" then parseReturnStatement
      else if tok_value token === "if" then parseIfStatement
      else if tok_value token === "for" then parseForStatement
      else if tok_value token === "while" then parseWhileStatement
      else if tok_value token === "{" then parseBlockStatement
      else parseExpressionStatement
  end.

(** *** Functions and the program level *)

Fixpoint parameterLoop (k : nat) (params : list Param) : M (list Param) :=
  match k with
  | 0 => outOfFuel
  | S k' =>
      p <- peek ;;
      if valueIsNot p ")" then
        typeSpecifiers <- parseDeclarationSpecifiers ;;
        match typeSpecifiers with
        | None =>
            p <- peek ;;
            pushError "Expected parameter type"
              (match p with Some t => tokLoc t | None => mkLoc 0 0 end) ;;;
            ret params
        | Some typeSpecifiers =>
            p <- peek ;;
            isPointer <-
              (if valueIs p "*" then advance ;;; ret true else ret false) ;;
            nameToken <- expect "identifier" "Expected parameter name" ;;
            params <-
              match nameToken with
              | Some nameToken =>
                  p <- peek ;;
                  isArray <-
                    (if valueIs p "[" then
                       advance ;;;
                       p <- peek ;;
                       (if valueIsNot p "]" then parseExpression ;;; ret tt
                        else ret tt) ;;;
                       expectValue "]" "Expected ']' after array parameter" ;;;
                       ret true
                     else ret false) ;;
                  ret (params ++
                       [mkParam typeSpecifiers (tok_value nameToken) isArray
                          isPointer
                          (mkLoc (loc_start (ds_location typeSpecifiers))
                             (tok_end nameToken))])
              | None => ret params
              end ;;
            p <- peek ;;
            if valueIs p "," then advance ;;; parameterLoop k' params
            else ret params
        end
      else ret params
  end.

Definition parseParameters : M (list Param) :=
  opening <- expectValue "(" "Expected '(' for function parameters" ;;
  match opening with
  | None => ret []
  | Some _ =>
      p <- peek ;;
      isVoidList <-
        (if typeIs p "type" && valueIs p "void" then
           advance ;;;
           p <- peek ;;
           if valueIs p ")" then advance ;;; ret true
           else
             c <- getCurrent ;;
             setCurrent (c - 1) ;;;
             ret false
         else ret false) ;;
      if isVoidList : bool then ret []
      else
        p <- peek ;;
        if valueIs p ")" then advance ;;; ret []
        else
          params <- parameterLoop loopFuel [] ;;
          expectValue ")" "Expected ')' after function parameters" ;;;
          ret params
  end.

Definition parseFunctionBody : M (option node) := parseBlockStatement.

Definition parseFunctionDeclaration : M (option node) :=
  p <- peek ;;
  let startPos := JS.orNat (option_map tok_start p) 0 in
  returnTypeSpecifiers <- parseDeclarationSpecifiers ;;
  match returnTypeSpecifiers with
  | None =>
      p <- peek ;;
      pushError "Expected function return type"
        (match p with Some t => tokLoc t | None => mkLoc 0 0 end) ;;;
      ret None
  | Some returnTypeSpecifiers =>
      p <- peek ;;
      isPointerReturn <-
        (if valueIs p "*" then advance ;;; ret true else ret false) ;;
      nameToken <- expect "identifier" "Expected function name" ;;
      match nameToken with
      | None => ret None
      | Some nameToken =>
          params <- parseParameters ;;
          p <- peek ;;
          body <-
            (if valueIs p "{" then parseFunctionBody
             else
               expectValue ";" "Expected ';' after function forward declaration" ;;;
               ret None) ;;
          endPos <-
            match body with
            | Some b => bl <- getLoc b ;; ret (loc_end bl)
            | None => p <- peek ;; ret (endOr p (tok_end nameToken))
            end ;;
          ret (Some (FunctionDeclaration
                       (mkIdent (tok_value nameToken) (tokLoc nameToken))
                       returnTypeSpecifiers isPointerReturn params body
                       (mkLoc startPos endPos)))
      end
  end.

Definition parseTypedef : M (option node) :=
  startToken <- peek ;;
  advance ;;;
  typeSpecifiers <- parseDeclarationSpecifiers ;;
  match typeSpecifiers with
  | None =>
      startToken <- prop startToken "start" ;;
      pushError "Expected type specifier after typedef" (tokLoc startToken) ;;;
      ret None
  | Some typeSpecifiers =>
      nameToken <- expect "identifier" "Expected identifier for typedef name" ;;
      match nameToken with
      | None => ret None
      | Some nameToken =>
          expectValue ";" "Expected ';' after typedef" ;;;
          startToken <- prop startToken "start" ;;
          p <- peek ;;
          ret (Some (Typedef typeSpecifiers
                       (mkIdent (tok_value nameToken) (tokLoc nameToken))
                       (mkLoc (tok_start startToken)
                          (endOr p (tok_end nameToken)))))
      end
  end.

(** [while (peek() && !peek().value.includes("\n")) advance()] *)
Fixpoint defineLoop (k : nat) : M unit :=
  match k with
  | 0 => outOfFuel
  | S k' =>
      p <- peek ;;
      match p with
      | Some t =>
          if negb (JS.includes (tok_value t) JS.newline) then
            advance ;;; defineLoop k'
          else ret tt
      | None => ret tt
      end
  end.

Definition parsePreprocessorDirective : M (option node) :=
  token <- peek ;;
  token <- prop token "value" ;;
  if tok_value token === "#include" then parseInclude
  else if tok_value token === "#define" then
    advance ;;;
    defineLoop loopFuel ;;;
    p <- peek ;;
    ret (Some (PreprocessorDirective "define"
                 (mkLoc (tok_start token) (endOr p (tok_end token)))))
  else
    pushError ("Unrecognized preprocessor directive: " +++ tok_value token)
      (tokLoc token) ;;;
    advance ;;;
    ret None.

(** The body of the [try] of [parseProgram]; the result is the node pushed
    on [ast.body], if any. *)
Definition parseTopLevel (token : Token) : M (option node) :=
  if JS.startsWith (tok_value token) "#" then parsePreprocessorDirective
  else if tok_value token === "typedef" then parseTypedef
  else if isSpecifierStart token then
    savedPosition <- getCurrent ;;
    typeSpecifiers <- parseDeclarationSpecifiers ;;
    p <- peek ;;
    if JS.isSome typeSpecifiers && typeIs p "identifier" then
      advance ;;;
      p <- peek ;;
      (if valueIs p "*" then advance ;;; ret tt else ret tt) ;;;
      p <- peek ;;
      if valueIs p "(" then
        setCurrent savedPosition ;;; parseFunctionDeclaration
      else
        setCurrent savedPosition ;;; parseVariableDeclaration
    else
      setCurrent savedPosition ;;;
      pushError "Unrecognized declaration" (tokLoc token) ;;;
      advance ;;;
      ret None
  else if tok_type token === "identifier" then parseStatement
  else if tok_value token === "return" then parseReturnStatement
  else if tok_value token === "{" then parseBlockStatement
  else if tok_value token === "}" then advance ;;; ret None
  else
    pushError ("Unexpected token at program level: " +++ tok_value token)
      (tokLoc token) ;;;
    advance ;;;
    ret None.

(** [while (current < tokens.length) { ... try ... catch ... }] *)
Fixpoint programLoop (k : nat) (body : list node) : M (list node) :=
  match k with
  | 0 => outOfFuel
  | S k' =>
      c <- getCurrent ;;
      if c <? length tokens then
        token <- peek ;;
        match token with
        | None => ret body
        | Some token =>
            pushed <-
              tryCatch (parseTopLevel token)
                (fun e =>
                   pushError ("Parser error: " +++ e) (tokLoc token) ;;;
                   advance ;;;
                   ret None) ;;
            programLoop k'
              (match pushed with Some n => body ++ [n] | None => body end)
        end
      else ret body
  end.

Definition parseProgram : M node :=
  body <- programLoop loopFuel [] ;;
  ret (Program body).

Definition build : Parsers :=
  mkParsers parsePrimaryExpression parseUnaryExpression parseBinaryExpression
    parseAssignmentExpression parseExpression parseStatement.

End Grammar.

(** The recursive functions unfolded to depth [fuel]. *)
Fixpoint parsers (tokens : list Token) (fuel : nat) : Parsers :=
  match fuel with
  | 0 => bottom
  | S f => build tokens (parsers tokens f)
  end.

(** [parser(tokens)]: a depth of one more than the number of tokens is
    enough for every input, as is proved below. *)
Definition parser (tokens : list Token) : outcome node :=
  parseProgram tokens (parsers tokens (S (length tokens))) (mkState 0 [] 0).

Definition parser_ast (tokens : list Token) : option node :=
  match parser tokens with Ret ast _ => Some ast | _ => None end.

Definition parser_errors (tokens : list Token) : list SyntaxError :=
  match parser tokens with Ret _ s => errors s | _ => [] end.

(** The number of calls of [advance] made by [parser(tokens)]. *)
Definition parser_steps (tokens : list Token) : nat :=
  match parser tokens with Ret _ s => steps s | _ => 0 end.

End Parser.

(** ** The semantic analyzer (utils/semanticAnalyzer.js) *)

Module Semantic.

(** [forEach] over an array, threading the state of the closure. *)
Definition forEach {A St : Type} (l : list A) (f : A -> St -> St) : St -> St :=
  (fix each (l : list A) (st : St) : St :=
     match l with
     | [] => st
     | a :: r => each r (f a st)
     end) l.

(** [forEach((item, i) => ...)] *)
Definition forEachI {A St : Type} (l : list A) (f : A -> nat -> St -> St)
  : nat -> St -> St :=
  (fix each (l : list A) (i : nat) (st : St) : St :=
     match l with
     | [] => st
     | a :: r => each r (S i) (f a i st)
     end) l.

Record ParamInfo := mkParamInfo { pi_name : string; pi_type : string }.

(** A symbol; a flag the source leaves [undefined] is [false], a key it
    leaves out is [None]. *)
Record Symbol := mkSymbol {
  sym_name : string;
  sym_type : string;
  sym_returnType : option string;
  sym_scope : string;
  sym_line : nat;
  sym_initialized : bool;
  sym_params : option (list ParamInfo);
  sym_isVarArgs : bool;
  sym_isParameter : bool;
  sym_isArray : bool;
  sym_isPointer : bool;
  sym_value : option string
}.

Definition setInitialized (s : Symbol) : Symbol :=
  mkSymbol (sym_name s) (sym_type s) (sym_returnType s) (sym_scope s)
    (sym_line s) true (sym_params s) (sym_isVarArgs s) (sym_isParameter s)
    (sym_isArray s) (sym_isPointer s) (sym_value s).

Record Diagnostic := mkDiagnostic {
  message : string;
  line : nat;
  code : string;
  description : string;
  severity : option string
}.

(** An object used as a map: keys in insertion order, an assignment to an
    existing key keeps its place.  (No key here is an array index: the
    keys of the symbol table contain a colon, display names are
    identifiers.) *)
Definition table (V : Type) := list (string * V).

Fixpoint tableGet {V} (key : string) (t : table V) : option V :=
  match t with
  | [] => None
  | (k, v) :: r => if k === key then Some v else tableGet key r
  end.

Fixpoint tableSet {V} (key : string) (v : V) (t : table V) : table V :=
  match t with
  | [] => [(key, v)]
  | (k, v') :: r =>
      if k === key then (k, v) :: r else (k, v') :: tableSet key v r
  end.

(** The entries of the display-friendly table built by
    [formatSymbolTable]. *)
Record DisplaySymbol := mkDisplay {
  d_type : string;
  d_scope : string;
  d_line : nat;
  d_initialized : bool;
  d_params : option (list ParamInfo);
  d_isArray : bool;
  d_isPointer : bool;
  d_value : option string
}.

Record Result := mkResult {
  symbolTable : table DisplaySymbol;
  errors : list Diagnostic
}.

(** [Date.now()] and [Math.random().toString(36).substr(2, 9)] are the
    only inputs of the analyzer besides its arguments: the k-th call of
    each returns [dateNow k] and [randomTag k]. *)
Record Clock := mkClock {
  dateNow : nat -> N;
  randomTag : nat -> string
}.

(** The variables of the closure.  ([typeHierarchy] is never used and
    [functionCalls] is only written, so neither is kept.) *)
Record astate := mkAState {
  st_table : table Symbol;
  st_errors : list Diagnostic;
  variableUses : list string;
  nowCalls : nat;
  randomCalls : nat
}.

Definition setTable (t : table Symbol) (st : astate) : astate :=
  mkAState t (st_errors st) (variableUses st) (nowCalls st) (randomCalls st).

Definition pushError (d : Diagnostic) (st : astate) : astate :=
  mkAState (st_table st) (st_errors st ++ [d]) (variableUses st) (nowCalls st)
    (randomCalls st).

(** [variableUses.add(name)] *)
Definition addUse (name : string) (st : astate) : astate :=
  mkAState (st_table st) (st_errors st)
    (if JS.inList name (variableUses st) then variableUses st
     else variableUses st ++ [name])
    (nowCalls st) (randomCalls st).

Definition getSymbolKey (name scope : string) : string := scope +++ ":" +++ name.

(** [specifiers.map((s) => s.name || s.kind || "").filter(Boolean).join(" ")] *)
Definition specifierNames (ds : DeclarationSpecifiers) : string :=
  JS.join " "
    (filter JS.truthy
       (map (fun s => JS.orStr (spec_name s) (JS.orStr (spec_kind s) EmptyString))
          (specifiers ds))).

(** *** Type compatibility *)

Fixpoint skipSpaces (s : string) : string * nat :=
  match s with
  | String c s' =>
      if JS.isSpace c then let (r, k) := skipSpaces s' in (r, S k) else (s, 0)
  | EmptyString => (s, 0)
  end.

Fixpoint dropN (k : nat) (s : string) : string :=
  match k, s with
  | S k', String _ s' => dropN k' s'
  | _, _ => s
  end.

(** [type.replace(/\bconst\s+|\bvolatile\s+/g, "")]: [skip] characters of
    a match are still to be dropped, [prevWord] tells whether the
    character before [s] is a word character. *)
Fixpoint stripQualifiers (s : string) (skip : nat) (prevWord : bool) : string :=
  match s with
  | EmptyString => EmptyString
  | String c s' =>
      match skip with
      | S k => stripQualifiers s' k (JS.isWord c)
      | 0 =>
          let matched (kw : string) : option nat :=
            if negb prevWord && String.prefix kw s then
              let (_, k) := skipSpaces (dropN (String.length kw) s) in
              if 0 <? k then Some (String.length kw + k) else None
            else None in
          match matched "const" with
          | Some len => stripQualifiers s' (len - 1) (JS.isWord c)
          | None =>
              match matched "volatile" with
              | Some len => stripQualifiers s' (len - 1) (JS.isWord c)
              | None => String c (stripQualifiers s' 0 (JS.isWord c))
              end
          end
      end
  end.

Definition normalizeType (type : string) : string :=
  JS.trim (stripQualifiers type 0 false).

Definition numericTypes : list string :=
  ["int"; "float"; "double"; "char"; "short"; "long"; "long long";
   "unsigned int"; "unsigned char"; "unsigned short"; "unsigned long"].

Definition endsWith (s suffix : string) : bool :=
  String.prefix (JS.rev_string suffix EmptyString) (JS.rev_string s EmptyString).

(** [s.slice(0, -k)] *)
Definition sliceEnd (k : nat) (s : string) : string :=
  String.substring 0 (String.length s - k) s.

(** [areTypesCompatible]; each recursive call is on a shorter string, so
    the length of the first argument bounds the depth. *)
Fixpoint areTypesCompatibleFuel (fuel : nat) (targetType sourceType : string) : bool :=
  if negb (JS.truthy targetType) || negb (JS.truthy sourceType) then false
  else if targetType === sourceType then true
  else
    let normalizedTarget := normalizeType targetType in
    let normalizedSource := normalizeType sourceType in
    if normalizedTarget === normalizedSource then true
    else if JS.inList normalizedTarget numericTypes &&
            JS.inList normalizedSource numericTypes then true
    else
      match fuel with
      | 0 => false
      | S fuel' =>
          if endsWith normalizedTarget "*" && endsWith normalizedSource "*" then
            if (normalizedTarget === "void*") || (normalizedSource === "void*")
            then true
            else
              areTypesCompatibleFuel fuel'
                (JS.trim (sliceEnd 1 normalizedTarget))
                (JS.trim (sliceEnd 1 normalizedSource))
          else if endsWith normalizedTarget "*" && endsWith normalizedSource "[]" then
            areTypesCompatibleFuel fuel'
              (JS.trim (sliceEnd 1 normalizedTarget))
              (JS.trim (sliceEnd 2 normalizedSource))
          else false
      end.

Definition areTypesCompatible (targetType sourceType : string) : bool :=
  areTypesCompatibleFuel (String.length targetType) targetType sourceType.

(** *** Scanning the source text for directives *)

Fixpoint takeWhile (p : ascii -> bool) (s : string) : string * string :=
  match s with
  | String c s' =>
      if p c then let (a, b) := takeWhile p s' in (String c a, b)
      else (EmptyString, s)
  | EmptyString => (EmptyString, EmptyString)
  end.

Definition isHeaderEnd (c : ascii) : bool :=
  (nat_of_ascii c =? 62) || (nat_of_ascii c =? 34).

Definition isHeaderStart (c : ascii) : bool :=
  (nat_of_ascii c =? 60) || (nat_of_ascii c =? 34).

(** A match of the include pattern (the directive, optional spaces, an
    opening bracket or quote, the header name, a closing bracket or
    quote) at the start of [s]: the header and the length of the match. *)
Definition matchInclude (s : string) : option (string * nat) :=
  if String.prefix "#include" s then
    let (rest, k) := skipSpaces (dropN 8 s) in
    match rest with
    | String c rest' =>
        if isHeaderStart c then
          let (header, after) := takeWhile (fun c => negb (isHeaderEnd c)) rest' in
          match header, after with
          | String _ _, String c' _ =>
              if isHeaderEnd c' then
                Some (header, 8 + k + 1 + String.length header + 1)
              else None
          | _, _ => None
          end
        else None
    | EmptyString => None
    end
  else None.

(** A match of the define pattern at the start of [s]: the macro name, the
    text captured as its value (if the optional group took part) and
    the length of the match. *)
Definition matchDefine (s : string) : option (string * option string * nat) :=
  if String.prefix "#define" s then
    let (rest, k) := skipSpaces (dropN 7 s) in
    if 0 <? k then
      let (macroName, after) := takeWhile JS.isWord rest in
      match macroName with
      | EmptyString => None
      | String _ _ =>
          match after with
          | EmptyString => Some (macroName, None, 7 + k + String.length macroName)
          | String c _ =>
              if JS.isSpace c then
                let (rest2, j) := skipSpaces after in
                let (v, _) := takeWhile (fun c => negb (JS.isLineTerminator c)) rest2 in
                Some (macroName, Some v,
                      7 + k + String.length macroName + j + String.length v)
              else None
          end
      end
    else None
  else None.

(** The successive matches of a global pattern ([regex.exec] in a loop):
    what is matched and the index of the match. *)
Fixpoint execAll {A} (matchAt : string -> option (A * nat)) (s : string)
    (index skip : nat) : list (A * nat) :=
  match s with
  | EmptyString => []
  | String _ s' =>
      match skip with
      | S k => execAll matchAt s' (S index) k
      | 0 =>
          match matchAt s with
          | Some (a, len) => (a, index) :: execAll matchAt s' (S index) (len - 1)
          | None => execAll matchAt s' (S index) 0
          end
      end
  end.

Section Analyzer.

Variable clock : Clock.
Variable source : string.

(** [getLineNumber(position)] *)
Definition getLineNumber (position : option nat) : nat :=
  match position with
  | None => 1
  | Some p =>
      if negb (JS.truthy source) then 1
      else length (JS.splitLines (JS.substring0 p source) EmptyString)
  end.

(** [getCodeLine(position)] *)
Definition getCodeLine (position : option nat) : string :=
  match position with
  | None => EmptyString
  | Some _ =>
      if negb (JS.truthy source) then EmptyString
      else
        match nth_error (JS.splitLines source EmptyString)
                (getLineNumber position - 1) with
        | Some l => JS.trim l
        | None => EmptyString
        end
  end.

Definition startOf (n : node) : option nat :=
  option_map loc_start (node_location n).

(** [resolveVariable]: the symbol found and the key it is stored under
    (each symbol object is the value of one key). *)
Definition resolveVariable (name currentScope : string) (scopeStack : list string)
    (t : table Symbol) : option (string * Symbol) :=
  if negb (JS.truthy name) then None
  else
    let try (scope : string) :=
      option_map (fun s => (getSymbolKey name scope, s))
        (tableGet (getSymbolKey name scope) t) in
    let fix search (scopes : list string) :=
      match scopes with
      | [] => None
      | sc :: r => match try sc with Some x => Some x | None => search r end
      end in
    search (currentScope :: List.rev scopeStack ++ ["builtin"]).

(** *** Recording uses *)

Definition usedBeforeInitialization (i : ident) : Diagnostic :=
  mkDiagnostic ("Variable '" +++ name i +++ "' used before initialization")
    (getLineNumber (Some (loc_start (id_location i))))
    (getCodeLine (Some (loc_start (id_location i))))
    "Using uninitialized variable may lead to undefined behavior"
    (Some "error").

(** The [Identifier] case of [markVariablesAsUsed]. *)
Definition markIdentifier (i : ident) (scope : string) (scopeStack : list string)
    (st : astate) : astate :=
  match resolveVariable (name i) scope scopeStack (st_table st) with
  | Some (_, variable) =>
      let st := addUse (name i) st in
      if negb (sym_initialized variable) && negb (sym_isParameter variable) then
        pushError (usedBeforeInitialization i) st
      else st
  | None => st
  end.

Fixpoint markVariablesAsUsed (n : node) (scope : string) (scopeStack : list string)
    (st : astate) {struct n} : astate :=
  let mark := fun (m : node) => markVariablesAsUsed m scope scopeStack in
  let markOpt := fun (o : option node) (st : astate) =>
    match o with Some m => markVariablesAsUsed m scope scopeStack st | None => st end in
  match n with
  | Identifier i => markIdentifier i scope scopeStack st
  | BinaryExpression _ l r _ => mark r (mark l st)
  | UnaryExpression _ a _ _ => mark a st
  | AssignmentExpression _ _ r _ => mark r st
  | CallExpression _ args _ => forEach args mark st
  (* default: every object-valued key, in order *)
  | Program body => forEach body mark st
  | Include _ _ _ | PreprocessorDirective _ _ | Literal _ _ _
  | BreakStatement _ | ContinueStatement _ => st
  | Typedef _ id _ => markIdentifier id scope scopeStack st
  | FunctionDeclaration id _ _ _ body _ =>
      markOpt body (markIdentifier id scope scopeStack st)
  | VariableDeclaration ds _ _ =>
      forEach ds
        (fun d st =>
           match d with
           | VariableDeclarator id _ init _ _ =>
               markOpt init (markIdentifier id scope scopeStack st)
           end) st
  | BlockStatement body _ => forEach body mark st
  | IfStatement t c a _ => markOpt a (markOpt c (markOpt t st))
  | WhileStatement t b _ => markOpt b (markOpt t st)
  | ForStatement i t u b _ => markOpt b (markOpt u (markOpt t (markOpt i st)))
  | ReturnStatement a _ => markOpt a st
  | ExpressionStatement e _ => mark e st
  end.

Definition markOptional (o : option node) (scope : string)
    (scopeStack : list string) (st : astate) : astate :=
  match o with Some m => markVariablesAsUsed m scope scopeStack st | None => st end.

(** *** Expression types *)

Definition comparisonOperators : list string :=
  ["=="; "!="; "<"; ">"; "<="; ">="; "&&"; "||"].

Definition arithmeticOperators : list string := ["+"; "-"; "*"; "/"; "%"].

Definition truthyType (t : option string) : bool :=
  match t with Some s => JS.truthy s | None => false end.

Definition binaryType (operator : string) (leftType rightType : option string)
  : option string :=
  if JS.inList operator comparisonOperators then Some "int"
  else if JS.inList operator arithmeticOperators then
    match leftType, rightType with
    | Some lt, Some rt =>
        if negb (JS.truthy lt) || negb (JS.truthy rt) then None
        else if JS.includes lt "double" || JS.includes rt "double" then Some "double"
        else if JS.includes lt "float" || JS.includes rt "float" then Some "float"
        else if JS.includes lt "long" || JS.includes rt "long" then Some "long"
        else if (JS.includes lt "*" || JS.includes rt "*") &&
                ((operator === "+") || (operator === "-")) then
          Some (if JS.includes lt "*" then lt else rt)
        else Some "int"
    | _, _ => None
    end
  else None.

Definition unaryType (operator : string) (argType : option string) : option string :=
  match argType with
  | None => None
  | Some t =>
      if negb (JS.truthy t) then None
      else if operator === "&" then Some (t +++ "*")
      else if operator === "*" then
        if endsWith t "*" then Some (JS.trim (sliceEnd 1 t)) else None
      else if operator === "!" then Some "int"
      else if JS.inList operator ["-"; "+"; "~"; "++"; "--"] then Some t
      else None
  end.

Fixpoint getExpressionType (n : node) (scope : string) (scopeStack : list string)
    (st : astate) {struct n} : option string * astate :=
  match n with
  | Identifier i =>
      match resolveVariable (name i) scope scopeStack (st_table st) with
      | Some (_, variable) => (Some (sym_type variable), addUse (name i) st)
      | None => (None, st)
      end
  | Literal v vt _ =>
      (Some (if vt === "string" then "char*"
             else if vt === "number" then
               if JS.truthy v && JS.includes v "." then "float" else "int"
             else "int"), st)
  | BinaryExpression op l r _ =>
      let (leftType, st) := getExpressionType l scope scopeStack st in
      let (rightType, st) := getExpressionType r scope scopeStack st in
      (binaryType op leftType rightType, st)
  | UnaryExpression op a _ _ =>
      let (argType, st) := getExpressionType a scope scopeStack st in
      (unaryType op argType, st)
  | AssignmentExpression _ l _ _ => getExpressionType l scope scopeStack st
  | CallExpression callee _ _ =>
      (match resolveVariable (name callee) scope scopeStack (st_table st) with
       | Some (_, funcSymbol) =>
           match sym_returnType funcSymbol with
           | Some rt => if JS.truthy rt then Some rt else None
           | None => None
           end
       | None => None
       end, st)
  | _ => (None, st)
  end.

(** *** Phase 1: the symbol table *)

(** [Date.now()] *)
Definition now (st : astate) : N * astate :=
  (dateNow clock (nowCalls st),
   mkAState (st_table st) (st_errors st) (variableUses st) (S (nowCalls st))
     (randomCalls st)).

(** [Math.random().toString(36).substr(2, 9)] *)
Definition random (st : astate) : string * astate :=
  (randomTag clock (randomCalls st),
   mkAState (st_table st) (st_errors st) (variableUses st) (nowCalls st)
     (S (randomCalls st))).

Definition timedScope (kind scope : string) (st : astate) : string * astate :=
  let (t, st) := now st in
  (kind +++ "_" +++ scope +++ "_" +++ JS.ofN t, st).

Definition blockScopeName (scope : string) (st : astate) : string * astate :=
  let (prefix, st) := timedScope "block" scope st in
  let (r, st) := random st in
  (prefix +++ "_" +++ r, st).

Definition declareSymbol (key : string) (s : Symbol) (st : astate) : astate :=
  setTable (tableSet key s (st_table st)) st.

Definition paramTypeName (p : Param) : string :=
  let t := specifierNames (paramType p) in
  let t := if param_isPointer p then t +++ "*" else t in
  if param_isArray p then t +++ "[]" else t.

(** The parser writes the key [initializer] of every declarator ([null]
    when there is none), so the [initialized] flag
    [declarator.initializer !== undefined] of a declared variable is
    [true]. *)
Definition initializedFlag (init : option node) : bool :=
  match init with Some _ => true | None => true end.

Fixpoint buildSymbolTable (n : node) (scope : string)
    (localScopeStack : list string) (st : astate) {struct n} : astate :=
  let build := fun (m : node) => buildSymbolTable m scope localScopeStack in
  let mark := fun (m : node) => markVariablesAsUsed m scope localScopeStack in
  let buildIn := fun (o : option node) (sc : string) (stack : list string)
                     (st : astate) =>
    match o with Some m => buildSymbolTable m sc stack st | None => st end in
  match n with
  | Program body => forEach body build st
  | Include _ _ _ | PreprocessorDirective _ _ => st
  | FunctionDeclaration id rt isPointerReturn params body loc =>
      let functionName := name id in
      if negb (JS.truthy functionName) then
        pushError
          (mkDiagnostic "Function declaration missing name"
             (getLineNumber (Some (loc_start loc)))
             (getCodeLine (Some (loc_start loc)))
             "Invalid function declaration" None) st
      else
        let returnType := specifierNames rt in
        let returnType := if isPointerReturn then returnType +++ "*" else returnType in
        let st :=
          declareSymbol (getSymbolKey functionName "global")
            (mkSymbol functionName (returnType +++ " function") (Some returnType)
               "global" (getLineNumber (Some (loc_start loc)))
               (JS.isSome body)
               (Some (map (fun p =>
                             mkParamInfo
                               (if JS.truthy (param_name p) then param_name p
                                else "unnamed")
                               (specifierNames (paramType p))) params))
               false false false false None) st in
        match body with
        | Some b =>
            let functionScope := functionName in
            let newScopeStack := localScopeStack ++ [functionScope] in
            let st :=
              forEach params
                (fun p st =>
                   if negb (JS.truthy (param_name p)) then st
                   else
                     declareSymbol (getSymbolKey (param_name p) functionScope)
                       (mkSymbol (param_name p) (paramTypeName p) None
                          functionScope
                          (getLineNumber (Some (loc_start (param_location p))))
                          true None false true false false None) st) st in
            buildSymbolTable b functionScope newScopeStack st
        | None => st
        end
  | VariableDeclaration ds ts loc =>
      let varType := specifierNames ts in
      forEach ds
        (fun d st =>
           match d with
           | VariableDeclarator id isArray init _ isPointer =>
               if negb (JS.truthy (name id)) then st
               else
                 let varName := name id in
                 let finalType := if isPointer then varType +++ "*" else varType in
                 let finalType := if isArray then finalType +++ "[]" else finalType in
                 let varKey := getSymbolKey varName scope in
                 let position :=
                   Some (match loc_start (id_location id) with
                         | 0 => loc_start loc
                         | p => p
                         end) in
                 match tableGet varKey (st_table st) with
                 | Some _ =>
                     pushError
                       (mkDiagnostic
                          ("Redeclaration of variable '" +++ varName +++ "' in "
                           +++ scope +++ " scope")
                          (getLineNumber position) (getCodeLine position)
                          "Variable already declared in this scope" None) st
                 | None =>
                     let st :=
                       declareSymbol varKey
                         (mkSymbol varName finalType None scope
                            (getLineNumber position) (initializedFlag init)
                            None false false isArray isPointer None) st in
                     match init with
                     | Some i =>
                         markVariablesAsUsed i scope localScopeStack
                           (buildSymbolTable i scope localScopeStack st)
                     | None => st
                     end
                 end
           end) st
  | BlockStatement body _ =>
      let (blockScope, st) := blockScopeName scope st in
      let newScopeStack := localScopeStack ++ [blockScope] in
      forEach body (fun stmt => buildSymbolTable stmt blockScope newScopeStack) st
  | IfStatement test consequent alternate _ =>
      let (ifScope, st) := timedScope "if" scope st in
      let newScopeStack := localScopeStack ++ [ifScope] in
      let st := markOptional test scope localScopeStack st in
      let st := buildIn test ifScope newScopeStack st in
      let st := buildIn consequent ifScope newScopeStack st in
      match alternate with
      | Some a =>
          let (elseScope, st) := timedScope "else" scope st in
          buildSymbolTable a elseScope (localScopeStack ++ [elseScope]) st
      | None => st
      end
  | ForStatement init test update body _ =>
      let (forScope, st) := timedScope "for" scope st in
      let newScopeStack := localScopeStack ++ [forScope] in
      let st := buildIn init forScope newScopeStack st in
      let st :=
        match test with
        | Some t =>
            buildSymbolTable t forScope newScopeStack
              (markVariablesAsUsed t scope localScopeStack st)
        | None => st
        end in
      let st :=
        match update with
        | Some u =>
            buildSymbolTable u forScope newScopeStack
              (markVariablesAsUsed u scope localScopeStack st)
        | None => st
        end in
      buildIn body forScope newScopeStack st
  | WhileStatement test body _ =>
      let (whileScope, st) := timedScope "while" scope st in
      let newScopeStack := localScopeStack ++ [whileScope] in
      let st := markOptional test scope localScopeStack st in
      let st := buildIn test whileScope newScopeStack st in
      buildIn body whileScope newScopeStack st
  | ReturnStatement argument _ =>
      match argument with
      | Some a => mark a (build a st)
      | None => st
      end
  | ExpressionStatement e _ => mark e (build e st)
  | AssignmentExpression _ l r _ =>
      let st := mark r (build r (build l st)) in
      match l with
      | Identifier i =>
          match resolveVariable (name i) scope localScopeStack (st_table st) with
          | Some (varKey, variable) =>
              declareSymbol varKey (setInitialized variable) st
          | None => st
          end
      | _ => st
      end
  | CallExpression callee args _ =>
      let funcName := name callee in
      let st :=
        if JS.inList funcName ["printf"; "fprintf"; "sprintf"; "scanf"] then
          forEach args
            (fun arg st =>
               mark arg
                 (match arg with
                  | Identifier i => addUse (name i) st
                  | _ => st
                  end)) st
        else st in
      forEach args (fun arg st => mark arg (build arg st)) st
  (* default: every object-valued key, in order; [buildSymbolTable] of an
     [Identifier], of declaration specifiers or of a location does
     nothing *)
  | Typedef _ id _ => markIdentifier id scope localScopeStack st
  | Identifier _ | Literal _ _ _ | BreakStatement _ | ContinueStatement _ => st
  | BinaryExpression _ l r _ => mark r (build r (mark l (build l st)))
  | UnaryExpression _ a _ _ => mark a (build a st)
  end.

(** *** Phase 2: types *)

Definition isVarArgsCall (funcSymbol : Symbol) : bool :=
  sym_isVarArgs funcSymbol || JS.inList (sym_name funcSymbol) ["printf"; "scanf"].

Definition orEmpty (params : option (list ParamInfo)) : list ParamInfo :=
  match params with Some l => l | None => [] end.

Definition typeText (t : option string) : string :=
  match t with Some s => s | None => EmptyString end.

Fixpoint checkTypes (n : node) (scope : string) (localScopeStack : list string)
    (st : astate) {struct n} : astate :=
  let check := fun (m : node) => checkTypes m scope localScopeStack in
  let checkOpt := fun (o : option node) (st : astate) =>
    match o with Some m => checkTypes m scope localScopeStack st | None => st end in
  match n with
  | Program body => forEach body check st
  | AssignmentExpression _ l r loc =>
      let (leftType, st) := getExpressionType l scope localScopeStack st in
      let (rightType, st) := getExpressionType r scope localScopeStack st in
      let st :=
        if truthyType leftType && truthyType rightType &&
           negb (areTypesCompatible (typeText leftType) (typeText rightType))
        then
          pushError
            (mkDiagnostic
               ("Type mismatch in assignment: cannot assign '" +++
                typeText rightType +++ "' to '" +++ typeText leftType +++ "'")
               (getLineNumber (Some (loc_start loc)))
               (getCodeLine (Some (loc_start loc)))
               "Incompatible types in assignment" None) st
        else st in
      check r (check l st)
  | CallExpression callee args loc =>
      let funcName := name callee in
      match resolveVariable funcName scope localScopeStack (st_table st) with
      | None =>
          pushError
            (mkDiagnostic ("Call to undefined function '" +++ funcName +++ "'")
               (getLineNumber (Some (loc_start loc)))
               (getCodeLine (Some (loc_start loc)))
               "Function must be declared before use" None) st
      | Some (_, funcSymbol) =>
          let expectedParams := orEmpty (sym_params funcSymbol) in
          let st :=
            if negb (isVarArgsCall funcSymbol) &&
               negb (length args =? length expectedParams)
            then
              pushError
                (mkDiagnostic
                   ("Function '" +++ funcName +++ "' called with " +++
                    JS.ofNat (length args) +++ " arguments, but expected " +++
                    JS.ofNat (length expectedParams))
                   (getLineNumber (Some (loc_start loc)))
                   (getCodeLine (Some (loc_start loc)))
                   "Incorrect number of arguments in function call" None) st
            else st in
          forEachI args
            (fun arg i st =>
               let st := checkTypes arg scope localScopeStack st in
               match nth_error expectedParams i with
               | Some expected =>
                   let (argType, st) :=
                     getExpressionType arg scope localScopeStack st in
                   let paramType := pi_type expected in
                   if truthyType argType && JS.truthy paramType &&
                      negb (areTypesCompatible paramType (typeText argType))
                   then
                     pushError
                       (mkDiagnostic
                          ("Type mismatch in argument " +++ JS.ofNat (i + 1) +++
                           " of call to '" +++ funcName +++ "': expected '" +++
                           paramType +++ "', got '" +++ typeText argType +++ "'")
                          (getLineNumber (startOf arg))
                          (getCodeLine (startOf arg))
                          "Incompatible argument type" None) st
                   else st
               | None => st
               end) 0 st
      end
  (* default: every object-valued key, in order *)
  | Include _ _ _ | PreprocessorDirective _ _ | Typedef _ _ _ | Identifier _
  | Literal _ _ _ | BreakStatement _ | ContinueStatement _ => st
  | FunctionDeclaration _ _ _ _ body _ => checkOpt body st
  | VariableDeclaration ds _ _ =>
      forEach ds
        (fun d st =>
           match d with VariableDeclarator _ _ init _ _ => checkOpt init st end) st
  | BlockStatement body _ => forEach body check st
  | IfStatement t c a _ => checkOpt a (checkOpt c (checkOpt t st))
  | WhileStatement t b _ => checkOpt b (checkOpt t st)
  | ForStatement i t u b _ => checkOpt b (checkOpt u (checkOpt t (checkOpt i st)))
  | ReturnStatement a _ => checkOpt a st
  | ExpressionStatement e _ => check e st
  | BinaryExpression _ l r _ => check r (check l st)
  | UnaryExpression _ a _ _ => check a st
  end.

(** *** Phase P: the source text *)

Definition stdFunc (name returnType : string) (params : list (string * string))
    (isVarArgs : bool) : string * Symbol :=
  (getSymbolKey name "builtin",
   mkSymbol name (returnType +++ " function") (Some returnType) "builtin" 0 true
     (Some (map (fun p => mkParamInfo (fst p) (snd p)) params))
     isVarArgs false false false None).

Definition stdFuncs : list (string * Symbol) :=
  [ stdFunc "printf" "int" [("format", "const char*")] true;
    stdFunc "scanf" "int" [("format", "const char*")] true;
    stdFunc "malloc" "void*" [("size", "size_t")] false;
    stdFunc "free" "void" [("ptr", "void*")] false;
    stdFunc "strcpy" "char*" [("dest", "char*"); ("src", "const char*")] false;
    stdFunc "strlen" "size_t" [("str", "const char*")] false;
    stdFunc "puts" "int" [("str", "const char*")] false;
    stdFunc "putchar" "int" [("char", "int")] false;
    stdFunc "getchar" "int" [] false;
    stdFunc "fopen" "FILE*"
      [("filename", "const char*"); ("mode", "const char*")] false;
    stdFunc "fclose" "int" [("stream", "FILE*")] false;
    stdFunc "exit" "void" [("status", "int")] false;
    stdFunc "memcpy" "void*"
      [("dest", "void*"); ("src", "const void*"); ("n", "size_t")] false;
    stdFunc "memset" "void*"
      [("str", "void*"); ("c", "int"); ("n", "size_t")] false ].

Definition addStandardLibraryFunctions (st : astate) : astate :=
  forEach stdFuncs (fun f st => declareSymbol (fst f) (snd f) st) st.

Definition processPreprocessorDirectives (st : astate) : astate :=
  if negb (JS.truthy source) then st
  else
    let st := addStandardLibraryFunctions st in
    let st :=
      forEach (execAll matchInclude source 0 0)
        (fun m st =>
           let header := fst m in
           declareSymbol (getSymbolKey ("#include_" +++ header) "preprocessor")
             (mkSymbol ("#include_" +++ header) "preprocessor" None "preprocessor"
                (getLineNumber (Some (snd m))) true None false false false false
                None) st) st in
    forEach (execAll matchDefine source 0 0)
      (fun m st =>
         let macroName := fst (fst m) in
         let macroValue :=
           match snd (fst m) with
           | Some v => if JS.truthy v then JS.trim v else EmptyString
           | None => EmptyString
           end in
         declareSymbol (getSymbolKey macroName "global")
           (mkSymbol macroName "macro" None "global"
              (getLineNumber (Some (snd m))) true None false false false false
              (Some macroValue)) st) st.

(** *** Phase 3: final checks *)

Definition missingMain : Diagnostic :=
  mkDiagnostic "Missing 'main' function" 1 EmptyString
    "C program requires a 'main' function" None.

Definition unusedVariable (symbol : Symbol) : Diagnostic :=
  mkDiagnostic ("Unused variable '" +++ sym_name symbol +++ "'")
    (sym_line symbol) (getCodeLine (Some (sym_line symbol)))
    "Variable is declared but never used" (Some "warning").

(** The symbols the unused-variable check skips. *)
Definition exemptFromUse (symbol : Symbol) : bool :=
  JS.includes (sym_type symbol) "function" ||
  (sym_scope symbol === "builtin") || (sym_scope symbol === "preprocessor") ||
  sym_isParameter symbol || (sym_type symbol === "macro").

Definition performSemanticChecks (st : astate) : astate :=
  let hasMainFunction := tableGet (getSymbolKey "main" "global") (st_table st) in
  let st :=
    if negb (JS.isSome hasMainFunction) && (0 <? length (st_table st)) then
      pushError missingMain st
    else st in
  forEach (st_table st)
    (fun entry st =>
       let symbol := snd entry in
       if exemptFromUse symbol then st
       else if negb (JS.inList (sym_name symbol) (variableUses st)) then
         pushError (unusedVariable symbol) st
       else st) st.

Definition formatSymbolTable (st : astate) : table DisplaySymbol :=
  forEach (st_table st)
    (fun entry display =>
       let symbol := snd entry in
       if (sym_scope symbol === "builtin") || (sym_scope symbol === "preprocessor")
       then display
       else
         let displayName :=
           if sym_scope symbol === "global" then sym_name symbol
           else sym_scope symbol +++ "." +++ sym_name symbol in
         tableSet displayName
           (mkDisplay (sym_type symbol) (sym_scope symbol) (sym_line symbol)
              (sym_initialized symbol) (sym_params symbol) (sym_isArray symbol)
              (sym_isPointer symbol)
              (match sym_value symbol with
               | Some v => if JS.truthy v then Some v else None
               | None => None
               end)) display) [].

(** The state after the preprocessing pass and phases 1 and 2. *)
Definition analysis (ast : node) : astate :=
  let st := processPreprocessorDirectives (mkAState [] [] [] 0 0) in
  let st := buildSymbolTable ast "global" ["global"] st in
  checkTypes ast "global" ["global"] st.

Definition semanticAnalyzer (ast : node) : Result :=
  let st := performSemanticChecks (analysis ast) in
  mkResult (formatSymbolTable st) (st_errors st).

End Analyzer.

Definition isWarning (d : Diagnostic) : bool :=
  match severity d with Some s => s === "warning" | None => false end.

Definition warnings (r : Result) : list Diagnostic := filter isWarning (errors r).

Definition errorsOnly (r : Result) : list Diagnostic :=
  filter (fun d => negb (isWarning d)) (errors r).

End Semantic.

(** ** The code generator (utils/codeGenerator.js) *)

Module CodeGen.

Import Semantic (forEach, forEachI).

(** An operand of an instruction is a string (a name, a literal, a
    label) or a number (the argument count of a [CALL]). *)
Inductive operand :=
| Str (s : string)
| Num (n : nat).

Definition operand_eqb (a b : operand) : bool :=
  match a, b with
  | Str s, Str s' => s === s'
  | Num n, Num n' => n =? n'
  | _, _ => false
  end.

(** [a === b] on operands that may be [null]. *)
Definition same (a b : option operand) : bool :=
  match a, b with
  | Some x, Some y => operand_eqb x y
  | None, None => true
  | _, _ => false
  end.

(** [x || null]: the empty string and zero are falsy. *)
Definition orNull (x : option operand) : option operand :=
  match x with
  | Some (Str s) => if JS.truthy s then x else None
  | Some (Num 0) => None
  | _ => x
  end.

Definition operandText (o : operand) : string :=
  match o with Str s => s | Num n => JS.ofNat n end.

Record Instruction := mkInstruction {
  operation : string;
  arg1 : option operand;
  arg2 : option operand;
  result : option operand;
  label : option string;
  lineNumber : nat
}.

Record CodegenError := mkCodegenError { message : string; type : string }.

(** A loop frame of [context.loopStack]. *)
Record LoopFrame := mkFrame {
  startLabel : string;
  continueLabel : string;
  endLabel : string
}.

(** The variables of the closure and the fields of [context], except
    [loopStack], which is threaded on its own (only [generateStatement]
    touches it).  [hasStdlib], [hasString], [registerAllocation] and
    [currentRegister] are never written. *)
Record gstate := mkGState {
  intermediateCode : list Instruction;
  errors : list CodegenError;
  tempVarCounter : nat;
  labelCounter : nat;
  currentFunction : option string;
  scopeLevel : nat;
  stringLiterals : list (string * string);
  stringCounter : nat;
  hasStdio : bool
}.

Definition initial : gstate := mkGState [] [] 0 0 None 0 [] 0 false.

Definition withCode (c : list Instruction) (st : gstate) : gstate :=
  mkGState c (errors st) (tempVarCounter st) (labelCounter st)
    (currentFunction st) (scopeLevel st) (stringLiterals st) (stringCounter st)
    (hasStdio st).

Definition emit (op : string) (a1 a2 res : option operand) (st : gstate) : gstate :=
  withCode
    (intermediateCode st ++
     [mkInstruction op (orNull a1) (orNull a2) (orNull res) None
        (length (intermediateCode st))]) st.

Definition emitLabel (l : string) (st : gstate) : gstate :=
  withCode
    (intermediateCode st ++
     [mkInstruction "LABEL" None None None (Some l) (length (intermediateCode st))])
    st.

Definition pushError (msg : string) (st : gstate) : gstate :=
  mkGState (intermediateCode st) (errors st ++ [mkCodegenError msg "codegen"])
    (tempVarCounter st) (labelCounter st) (currentFunction st) (scopeLevel st)
    (stringLiterals st) (stringCounter st) (hasStdio st).

Definition generateTempVar (st : gstate) : string * gstate :=
  ("t" +++ JS.ofNat (tempVarCounter st),
   mkGState (intermediateCode st) (errors st) (S (tempVarCounter st))
     (labelCounter st) (currentFunction st) (scopeLevel st) (stringLiterals st)
     (stringCounter st) (hasStdio st)).

Definition generateLabel (prefix : string) (st : gstate) : string * gstate :=
  (prefix +++ JS.ofNat (labelCounter st),
   mkGState (intermediateCode st) (errors st) (tempVarCounter st)
     (S (labelCounter st)) (currentFunction st) (scopeLevel st)
     (stringLiterals st) (stringCounter st) (hasStdio st)).

Definition newStringLiteral (value : string) (st : gstate) : string * gstate :=
  let stringLabel := "str" +++ JS.ofNat (stringCounter st) in
  (stringLabel,
   mkGState (intermediateCode st) (errors st) (tempVarCounter st)
     (labelCounter st) (currentFunction st) (scopeLevel st)
     (Semantic.tableSet stringLabel value (stringLiterals st))
     (S (stringCounter st)) (hasStdio st)).

Definition setScopeLevel (f : nat -> nat) (st : gstate) : gstate :=
  mkGState (intermediateCode st) (errors st) (tempVarCounter st)
    (labelCounter st) (currentFunction st) (f (scopeLevel st))
    (stringLiterals st) (stringCounter st) (hasStdio st).

Definition setCurrentFunction (f : option string) (st : gstate) : gstate :=
  mkGState (intermediateCode st) (errors st) (tempVarCounter st)
    (labelCounter st) f (scopeLevel st) (stringLiterals st) (stringCounter st)
    (hasStdio st).

Definition setHasStdio (st : gstate) : gstate :=
  mkGState (intermediateCode st) (errors st) (tempVarCounter st)
    (labelCounter st) (currentFunction st) (scopeLevel st) (stringLiterals st)
    (stringCounter st) true.

Definition binaryOperation (operator : string) : option string :=
  if operator === "+" then Some "ADD" else
  if operator === "-" then Some "SUB" else
  if operator === "*" then Some "MUL" else
  if operator === "/" then Some "DIV" else
  if operator === "%" then Some "MOD" else
  if operator === "==" then Some "EQ" else
  if operator === "!=" then Some "NE" else
  if operator === "<" then Some "LT" else
  if operator === ">" then Some "GT" else
  if operator === "<=" then Some "LE" else
  if operator === ">=" then Some "GE" else
  if operator === "&&" then Some "AND" else
  if operator === "||" then Some "OR" else None.

Definition str (s : string) : option operand := Some (Str s).

(** [generateExpression]: the value returned ([None] for [null] and
    [undefined]) and the state. *)
Fixpoint generateExpression (n : node) (st : gstate) {struct n}
  : option operand * gstate :=
  match n with
  | Identifier i => (str (name i), st)
  | Literal value valueType _ =>
      if valueType === "string" then
        let (stringLabel, st) := newStringLiteral value st in
        (str stringLabel, st)
      else (str value, st)
  | BinaryExpression operator l r _ =>
      let (leftOperand, st) := generateExpression l st in
      let (rightOperand, st) := generateExpression r st in
      let (tempVar, st) := generateTempVar st in
      match binaryOperation operator with
      | Some op => (str tempVar, emit op leftOperand rightOperand (str tempVar) st)
      | None => (None, pushError ("Unsupported binary operator: " +++ operator) st)
      end
  | UnaryExpression operator a prefix _ =>
      let (operand, st) := generateExpression a st in
      let (tempVar, st) := generateTempVar st in
      if operator === "-" then
        (str tempVar, emit "NEG" operand None (str tempVar) st)
      else if operator === "!" then
        (str tempVar, emit "NOT" operand None (str tempVar) st)
      else if operator === "++" then
        if prefix then (operand, emit "ADD" operand (str "1") operand st)
        else
          (str tempVar,
           emit "ADD" operand (str "1") operand
             (emit "ASSIGN" operand None (str tempVar) st))
      else if operator === "--" then
        if prefix then (operand, emit "SUB" operand (str "1") operand st)
        else
          (str tempVar,
           emit "SUB" operand (str "1") operand
             (emit "ASSIGN" operand None (str tempVar) st))
      else if operator === "&" then
        (str tempVar, emit "ADDR" operand None (str tempVar) st)
      else if operator === "*" then
        (str tempVar, emit "DEREF" operand None (str tempVar) st)
      else (None, pushError ("Unsupported unary operator: " +++ operator) st)
  | AssignmentExpression _ l r _ =>
      let (rightOperand, st) := generateExpression r st in
      let leftOperand :=
        match l with Identifier i => str (name i) | _ => None end in
      (leftOperand, emit "ASSIGN" rightOperand None leftOperand st)
  | CallExpression callee args _ =>
      let funcName := name callee in
      let st :=
        forEachI args
          (fun arg index st =>
             let (argResult, st) := generateExpression arg st in
             emit "PARAM" argResult None (str ("param" +++ JS.ofNat index)) st)
          0 st in
      let (tempVar, st) := generateTempVar st in
      (str tempVar,
       emit "CALL" (str funcName) (Some (Num (length args))) (str tempVar) st)
  | _ => (None, st)
  end.

Definition generateOptionalExpression (o : option node) (st : gstate)
  : option operand * gstate :=
  match o with
  | Some n => generateExpression n st
  | None => (None, st)
  end.

Definition generateDeclarators (ds : list declarator) (st : gstate) : gstate :=
  forEach ds
    (fun d st =>
       match d with
       | VariableDeclarator id _ init _ _ =>
           let varName := name id in
           if negb (JS.truthy varName) then st
           else
             let st := emit "DECLARE" (str varName) None None st in
             match init with
             | Some i =>
                 let (initValue, st) := generateExpression i st in
                 emit "ASSIGN" initValue None (str varName) st
             | None => st
             end
       end) st.

(** [generateVariableDeclaration(node)] *)
Definition generateVariableDeclaration (n : node) (st : gstate) : gstate :=
  match n with
  | VariableDeclaration ds _ _ => generateDeclarators ds st
  | _ => st
  end.

(** [loopStack[loopStack.length - 1]] *)
Definition currentLoop (loopStack : list LoopFrame) : option LoopFrame :=
  List.last (map Some loopStack) None.

(** [generateStatement]; the first component of the state is
    [context.loopStack], an array that grows at its end. *)
Fixpoint generateStatement (n : node) (loopStack : list LoopFrame) (st : gstate)
    {struct n} : list LoopFrame * gstate :=
  let generateOptional := fun (o : option node) (ls : list LoopFrame) (st : gstate) =>
    match o with Some m => generateStatement m ls st | None => (ls, st) end in
  match n with
  | ExpressionStatement e _ => (loopStack, snd (generateExpression e st))
  | ReturnStatement argument _ =>
      match argument with
      | Some a =>
          let (returnValue, st) := generateExpression a st in
          (loopStack, emit "RETURN" returnValue None None st)
      | None => (loopStack, emit "RETURN" None None None st)
      end
  | IfStatement test consequent alternate _ =>
      let (condition, st) := generateOptionalExpression test st in
      let (elseLabel, st) := generateLabel "ELSE" st in
      let (endLabel, st) := generateLabel "END_IF" st in
      let st := emit "IF_FALSE" condition None (str elseLabel) st in
      let (loopStack, st) := generateOptional consequent loopStack st in
      match alternate with
      | Some a =>
          let st := emit "GOTO" None None (str endLabel) st in
          let st := emitLabel elseLabel st in
          let (loopStack, st) := generateStatement a loopStack st in
          (loopStack, emitLabel endLabel st)
      | None => (loopStack, emitLabel elseLabel st)
      end
  | WhileStatement test body _ =>
      let (startLabel, st) := generateLabel "WHILE_START" st in
      let (endLabel, st) := generateLabel "WHILE_END" st in
      let loopStack := loopStack ++ [mkFrame startLabel startLabel endLabel] in
      let st := emitLabel startLabel st in
      let (condition, st) := generateOptionalExpression test st in
      let st := emit "IF_FALSE" condition None (str endLabel) st in
      let (loopStack, st) := generateOptional body loopStack st in
      let st := emit "GOTO" None None (str startLabel) st in
      let st := emitLabel endLabel st in
      (removelast loopStack, st)
  | ForStatement init test update body _ =>
      let (startLabel, st) := generateLabel "FOR_START" st in
      let (continueLabel, st) := generateLabel "FOR_CONTINUE" st in
      let (endLabel, st) := generateLabel "FOR_END" st in
      let loopStack := loopStack ++ [mkFrame startLabel continueLabel endLabel] in
      let st :=
        match init with
        | Some (VariableDeclaration ds _ _) => generateDeclarators ds st
        | Some i => snd (generateExpression i st)
        | None => st
        end in
      let st := emitLabel startLabel st in
      let st :=
        match test with
        | Some t =>
            let (condition, st) := generateExpression t st in
            emit "IF_FALSE" condition None (str endLabel) st
        | None => st
        end in
      let (loopStack, st) := generateOptional body loopStack st in
      let st := emitLabel continueLabel st in
      let st :=
        match update with
        | Some u => snd (generateExpression u st)
        | None => st
        end in
      let st := emit "GOTO" None None (str startLabel) st in
      let st := emitLabel endLabel st in
      (removelast loopStack, st)
  | BlockStatement body _ =>
      let st := setScopeLevel S st in
      let (loopStack, st) :=
        forEach body
          (fun stmt (acc : list LoopFrame * gstate) =>
             match stmt with
             | VariableDeclaration ds _ _ =>
                 (fst acc, generateDeclarators ds (snd acc))
             | _ => generateStatement stmt (fst acc) (snd acc)
             end) (loopStack, st) in
      (loopStack, setScopeLevel Nat.pred st)
  | BreakStatement _ =>
      match currentLoop loopStack with
      | Some frame => (loopStack, emit "GOTO" None None (str (endLabel frame)) st)
      | None => (loopStack, pushError "Break statement outside of loop" st)
      end
  | ContinueStatement _ =>
      match currentLoop loopStack with
      | Some frame =>
          (loopStack, emit "GOTO" None None (str (continueLabel frame)) st)
      | None => (loopStack, pushError "Continue statement outside of loop" st)
      end
  | _ => (loopStack, st)
  end.

Definition generateFunctionDeclaration (id : ident) (params : list Param)
    (body : option node) (loopStack : list LoopFrame) (st : gstate)
  : list LoopFrame * gstate :=
  let funcName := name id in
  if negb (JS.truthy funcName) then (loopStack, st)
  else
    let st := setCurrentFunction (Some funcName) st in
    let st := emitLabel funcName st in
    let st := emit "FUNCTION_START" (str funcName) None None st in
    let st :=
      forEach params
        (fun p st => emit "PARAM_DECL" (str (param_name p)) None None st) st in
    let (loopStack, st) :=
      match body with
      | Some b => generateStatement b loopStack st
      | None => (loopStack, st)
      end in
    let st := emit "FUNCTION_END" (str funcName) None None st in
    (loopStack, setCurrentFunction None st).

Definition generateCode (n : node) (loopStack : list LoopFrame) (st : gstate)
  : list LoopFrame * gstate :=
  match n with
  | Program body =>
      forEach body
        (fun stmt (acc : list LoopFrame * gstate) =>
           match stmt with
           | FunctionDeclaration id _ _ params b _ =>
               generateFunctionDeclaration id params b (fst acc) (snd acc)
           | VariableDeclaration ds _ _ =>
               (fst acc, generateDeclarators ds (snd acc))
           | _ => generateStatement stmt (fst acc) (snd acc)
           end) (loopStack, st)
  | _ => generateStatement n loopStack st
  end.

(** *** The strings of a tree

    [JSON.stringify(ast).includes("stdio.h")]: the text of the directive
    has no character that JSON escapes, and no key or tag contains it,
    so it occurs in the serialization exactly when it occurs in one of
    the string values of the tree. *)

Definition specifierStrings (s : specifier) : list string :=
  spec_type s ::
  match spec_kind s with Some k => [k] | None => [] end ++
  match spec_name s with Some k => [k] | None => [] end.

Definition declSpecStrings (ds : DeclarationSpecifiers) : list string :=
  flat_map specifierStrings (specifiers ds).

Fixpoint nodeStrings (n : node) : list string :=
  let opt := fun (o : option node) =>
    match o with Some m => nodeStrings m | None => [] end in
  match n with
  | Program body => flat_map nodeStrings body
  | Include header _ _ => [header]
  | PreprocessorDirective directive _ => [directive]
  | Typedef ts id _ => declSpecStrings ts ++ [name id]
  | FunctionDeclaration id rt _ params body _ =>
      name id :: declSpecStrings rt ++
      flat_map (fun p => declSpecStrings (paramType p) ++ [param_name p]) params ++
      opt body
  | VariableDeclaration ds ts _ =>
      flat_map
        (fun d =>
           match d with
           | VariableDeclarator id _ init _ _ => name id :: opt init
           end) ds ++
      declSpecStrings ts
  | BlockStatement body _ => flat_map nodeStrings body
  | IfStatement t c a _ => opt t ++ opt c ++ opt a
  | WhileStatement t b _ => opt t ++ opt b
  | ForStatement i t u b _ => opt i ++ opt t ++ opt u ++ opt b
  | ReturnStatement a _ => opt a
  | ExpressionStatement e _ => nodeStrings e
  | BreakStatement _ | ContinueStatement _ => []
  | Identifier i => [name i]
  | Literal value valueType _ => [value; valueType]
  | BinaryExpression operator l r _ => operator :: nodeStrings l ++ nodeStrings r
  | UnaryExpression operator a _ _ => operator :: nodeStrings a
  | AssignmentExpression operator l r _ => operator :: nodeStrings l ++ nodeStrings r
  | CallExpression callee args _ => name callee :: flat_map nodeStrings args
  end.

Definition mentionsStdio (ast : node) : bool :=
  existsb (fun s => JS.includes s "stdio.h") (nodeStrings ast).

(** *** The optimizer *)

Section Optimizer.

(** The numeric primitives of JavaScript on operands: [isNaN(x)] and
    the text of [parseFloat(a) + parseFloat(b)] (and of the difference
    and the product), which are floating-point computations. *)
Variable isNaN : option operand -> bool.
Variable sumText differenceText productText :
  option operand -> option operand -> string.

Definition isOp (i : Instruction) (op : string) : bool := operation i === op.

Definition isText (o : option operand) (s : string) : bool := same o (str s).

(** [{ ...current, operation: "ASSIGN", arg1: a, arg2: null }] *)
Definition asAssign (current : Instruction) (a : option operand) : Instruction :=
  mkInstruction "ASSIGN" a None (result current) (label current)
    (lineNumber current).

(** Constant folding and the algebraic simplifications, tried in the
    order of the source. *)
Definition simplify (current : Instruction) : option Instruction :=
  if isOp current "ADD" && negb (isNaN (arg1 current)) && negb (isNaN (arg2 current))
  then Some (asAssign current (str (sumText (arg1 current) (arg2 current))))
  else if isOp current "SUB" && negb (isNaN (arg1 current)) &&
          negb (isNaN (arg2 current))
  then Some (asAssign current (str (differenceText (arg1 current) (arg2 current))))
  else if isOp current "MUL" && negb (isNaN (arg1 current)) &&
          negb (isNaN (arg2 current))
  then Some (asAssign current (str (productText (arg1 current) (arg2 current))))
  else if isOp current "ADD" && isText (arg2 current) "0"
  then Some (asAssign current (arg1 current))
  else if isOp current "MUL" &&
          (isText (arg2 current) "1" || isText (arg1 current) "1")
  then Some (asAssign current
               (if isText (arg2 current) "1" then arg1 current else arg2 current))
  else if isOp current "MUL" &&
          (isText (arg2 current) "0" || isText (arg1 current) "0")
  then Some (asAssign current (str "0"))
  else None.

(** The dead-store test on [current] and [next = optimized[i + 1]]. *)
Definition deadStore (current : Instruction) (rest : list Instruction) : bool :=
  isOp current "ASSIGN" &&
  match rest with
  | next :: _ => isOp next "ASSIGN" && same (result current) (result next)
  | [] => false
  end.

(** One pass of the [for] loop: the new sequence and [changed]. *)
Fixpoint optimizePass (optimized : list Instruction) : list Instruction * bool :=
  match optimized with
  | [] => ([], false)
  | current :: rest =>
      let (newOptimized, changed) := optimizePass rest in
      if deadStore current rest then (newOptimized, true)
      else
        match simplify current with
        | Some i => (i :: newOptimized, true)
        | None => (current :: newOptimized, changed)
        end
  end.

(** [while (changed && passes < maxPasses)]: [budget] is
    [maxPasses - passes]; the result carries [passes]. *)
Fixpoint optimizeLoop (budget : nat) (optimized : list Instruction) (passes : nat)
  : list Instruction * nat :=
  match budget with
  | 0 => (optimized, passes)
  | S b =>
      let (newOptimized, changed) := optimizePass optimized in
      if changed then optimizeLoop b newOptimized (S passes)
      else (newOptimized, S passes)
  end.

Definition maxPasses : nat := 5.

(** [optimizeCode] on an instruction sequence. *)
Definition optimizeCode (code : list Instruction) : list Instruction :=
  fst (optimizeLoop maxPasses code 0).

(** The number of passes [optimizeCode] runs (its local [passes]). *)
Definition passesRun (code : list Instruction) : nat :=
  snd (optimizeLoop maxPasses code 0).

(** *** Output *)

Definition padStart3 (s : string) : string :=
  match String.length s with
  | 0 => "   " +++ s
  | 1 => "  " +++ s
  | 2 => " " +++ s
  | _ => s
  end.

Definition formatInstruction (index : nat) (i : Instruction) : string :=
  if isOp i "LABEL" then
    match label i with Some l => l | None => "null" end +++ ":"
  else
    let opt := fun (o : option operand) =>
      match o with Some x => [operandText x] | None => [] end in
    let parts :=
      [operation i] ++ opt (arg1 i) ++ opt (arg2 i) ++
      match result i with Some r => ["-> " +++ operandText r] | None => [] end in
    padStart3 (JS.ofNat index) +++ ": " +++ JS.join " " parts.

Fixpoint formatLines (index : nat) (code : list Instruction) : list string :=
  match code with
  | [] => []
  | i :: r => formatInstruction index i :: formatLines (S index) r
  end.

Definition formatIntermediateCode (code : list Instruction) : string :=
  JS.join JS.newline (formatLines 0 code).

Record IncludedHeaders := mkHeaders {
  stdio : bool;
  stdlib : bool;
  string_h : bool
}.

Record Statistics := mkStatistics {
  instructionCount : nat;
  optimizedInstructionCount : nat;
  tempVariables : nat;
  labels : nat;
  optimizationPasses : nat;
  includedHeaders : IncludedHeaders
}.

(** The result of [codeGenerator], without the assembly and
    machine-code listings; [tac] and [optimizedTac] are the instruction
    arrays that [intermediateCode] and [optimizedCode] print. *)
Record Generated := mkGenerated {
  tac : list Instruction;
  optimizedTac : list Instruction;
  intermediateCodeText : string;
  optimizedCodeText : string;
  generatedStringLiterals : list (string * string);
  statistics : Statistics;
  generatedErrors : list CodegenError
}.

(** The state after [generateCode(ast)]. *)
Definition generated (ast : node) : gstate :=
  let st :=
    if mentionsStdio ast then
      setHasStdio (emit "INCLUDE" (str "stdio.h") None None initial)
    else initial in
  snd (generateCode ast [] st).

Definition codeGenerator (ast : node) : Generated :=
  let st := generated ast in
  let optimizedCode := optimizeCode (intermediateCode st) in
  mkGenerated (intermediateCode st) optimizedCode
    (formatIntermediateCode (intermediateCode st))
    (formatIntermediateCode optimizedCode)
    (stringLiterals st)
    (mkStatistics (length (intermediateCode st)) (length optimizedCode)
       (tempVarCounter st) (labelCounter st) 5
       (mkHeaders (hasStdio st) false false))
    (errors st).

End Optimizer.

(** *** The label discipline in the words of the specification

    [lexicalStatement enclosing n] lowers [n] with the frame of the
    innermost enclosing loop passed down explicitly: a [while] or a
    [for] lowers its body under its own frame, [break] jumps to the end
    label of [enclosing] and [continue] to its continue label, and
    without an enclosing loop each is a diagnostic. *)
Fixpoint lexicalStatement (enclosing : option LoopFrame) (n : node) (st : gstate)
    {struct n} : gstate :=
  let lexicalOptional := fun (e : option LoopFrame) (o : option node) (st : gstate) =>
    match o with Some m => lexicalStatement e m st | None => st end in
  match n with
  | ExpressionStatement e _ => snd (generateExpression e st)
  | ReturnStatement argument _ =>
      match argument with
      | Some a =>
          let (returnValue, st) := generateExpression a st in
          emit "RETURN" returnValue None None st
      | None => emit "RETURN" None None None st
      end
  | IfStatement test consequent alternate _ =>
      let (condition, st) := generateOptionalExpression test st in
      let (Lelse, st) := generateLabel "ELSE" st in
      let (Lend, st) := generateLabel "END_IF" st in
      let st := emit "IF_FALSE" condition None (str Lelse) st in
      let st := lexicalOptional enclosing consequent st in
      match alternate with
      | Some a =>
          let st := emit "GOTO" None None (str Lend) st in
          let st := emitLabel Lelse st in
          let st := lexicalStatement enclosing a st in
          emitLabel Lend st
      | None => emitLabel Lelse st
      end
  | WhileStatement test body _ =>
      let (Lstart, st) := generateLabel "WHILE_START" st in
      let (Lend, st) := generateLabel "WHILE_END" st in
      let st := emitLabel Lstart st in
      let (condition, st) := generateOptionalExpression test st in
      let st := emit "IF_FALSE" condition None (str Lend) st in
      let st := lexicalOptional (Some (mkFrame Lstart Lstart Lend)) body st in
      let st := emit "GOTO" None None (str Lstart) st in
      emitLabel Lend st
  | ForStatement init test update body _ =>
      let (Lstart, st) := generateLabel "FOR_START" st in
      let (Lcontinue, st) := generateLabel "FOR_CONTINUE" st in
      let (Lend, st) := generateLabel "FOR_END" st in
      let st :=
        match init with
        | Some (VariableDeclaration ds _ _) => generateDeclarators ds st
        | Some i => snd (generateExpression i st)
        | None => st
        end in
      let st := emitLabel Lstart st in
      let st :=
        match test with
        | Some t =>
            let (condition, st) := generateExpression t st in
            emit "IF_FALSE" condition None (str Lend) st
        | None => st
        end in
      let st := lexicalOptional (Some (mkFrame Lstart Lcontinue Lend)) body st in
      let st := emitLabel Lcontinue st in
      let st :=
        match update with
        | Some u => snd (generateExpression u st)
        | None => st
        end in
      let st := emit "GOTO" None None (str Lstart) st in
      emitLabel Lend st
  | BlockStatement body _ =>
      let st := setScopeLevel S st in
      let st :=
        forEach body
          (fun stmt st =>
             match stmt with
             | VariableDeclaration ds _ _ => generateDeclarators ds st
             | _ => lexicalStatement enclosing stmt st
             end) st in
      setScopeLevel Nat.pred st
  | BreakStatement _ =>
      match enclosing with
      | Some frame => emit "GOTO" None None (str (endLabel frame)) st
      | None => pushError "Break statement outside of loop" st
      end
  | ContinueStatement _ =>
      match enclosing with
      | Some frame => emit "GOTO" None None (str (continueLabel frame)) st
      | None => pushError "Continue statement outside of loop" st
      end
  | _ => st
  end.

(** A function body and a statement of the program level are inside no
    loop. *)
Definition lexicalFunction (id : ident) (params : list Param) (body : option node)
    (st : gstate) : gstate :=
  let funcName := name id in
  if negb (JS.truthy funcName) then st
  else
    let st := setCurrentFunction (Some funcName) st in
    let st := emitLabel funcName st in
    let st := emit "FUNCTION_START" (str funcName) None None st in
    let st :=
      forEach params
        (fun p st => emit "PARAM_DECL" (str (param_name p)) None None st) st in
    let st :=
      match body with
      | Some b => lexicalStatement None b st
      | None => st
      end in
    let st := emit "FUNCTION_END" (str funcName) None None st in
    setCurrentFunction None st.

Definition lexicalCode (n : node) (st : gstate) : gstate :=
  match n with
  | Program body =>
      forEach body
        (fun stmt st =>
           match stmt with
           | FunctionDeclaration id _ _ params b _ => lexicalFunction id params b st
           | VariableDeclaration ds _ _ => generateDeclarators ds st
           | _ => lexicalStatement None stmt st
           end) st
  | _ => lexicalStatement None n st
  end.

End CodeGen.

(** ** Inputs of the scenarios *)

Module Scenario.

Import Parser.

(** Modelled from the spec: the lexer (utils/lexer.js) is not among the
    sources.  [lex text words] is the token stream of section 4.1 for
    [text], given the kind and the lexeme of each token in order: the
    offsets are those of the lexemes in the text, separated by white
    space.  (The parser reads the kind of a token in its [type] field and
    never reads [line] and [column].) *)
Fixpoint lexFrom (text : string) (offset : nat) (words : list (string * string))
  : list Token :=
  match words with
  | [] => []
  | (kind, lexeme) :: rest =>
      let (text', skipped) := Semantic.skipSpaces text in
      let start := offset + skipped in
      let finish := start + String.length lexeme in
      mkToken kind lexeme start finish 1 (S start) ::
      lexFrom (Semantic.dropN (String.length lexeme) text') finish rest
  end.

Definition lex (text : string) (words : list (string * string)) : list Token :=
  lexFrom text 0 words.

Definition ty (s : string) := ("type", s).
Definition id (s : string) := ("identifier", s).
Definition kw (s : string) := ("keyword", s).
Definition op (s : string) := ("operator", s).
Definition pn (s : string) := ("punctuation", s).
Definition num (s : string) := ("number", s).

(** The tree [parser] returns on the token stream, an empty program if it
    did not return. *)
Definition parsed (tokens : list Token) : node :=
  match parser_ast tokens with Some ast => ast | None => Program [] end.

(** Scenario 2. *)
Definition globalReadText : string := "int x; int main() { return x; }".

Definition globalReadTokens : list Token :=
  lex globalReadText
    [ty "int"; id "x"; pn ";"; ty "int"; id "main"; pn "("; pn ")"; pn "{";
     kw "return"; id "x"; pn ";"; pn "}"].

(** Scenario 4. *)
Definition forLoopText : string :=
  "int main() { for (int i = 0; i < 3; i = i + 1) { } return 0; }".

Definition forLoopTokens : list Token :=
  lex forLoopText
    [ty "int"; id "main"; pn "("; pn ")"; pn "{"; kw "for"; pn "("; ty "int";
     id "i"; op "="; num "0"; pn ";"; id "i"; op "<"; num "3"; pn ";"; id "i";
     op "="; id "i"; op "+"; num "1"; pn ")"; pn "{"; pn "}"; kw "return";
     num "0"; pn ";"; pn "}"].

(** A local variable declared in a block. *)
Definition localText : string := "int main() { int y = 0; return y; }".

Definition localTokens : list Token :=
  lex localText
    [ty "int"; id "main"; pn "("; pn ")"; pn "{"; ty "int"; id "y"; op "=";
     num "0"; pn ";"; kw "return"; id "y"; pn ";"; pn "}"].



(** A variable shadowed in an inner block, where only the outer one is
    read. *)
Definition shadowText : string :=
  "int main() { int y = 1; { int y = 2; } return y; }".

Definition shadowTokens : list Token :=
  lex shadowText
    [ty "int"; id "main"; pn "("; pn ")"; pn "{"; ty "int"; id "y"; op "=";
     num "1"; pn ";"; pn "{"; ty "int"; id "y"; op "="; num "2"; pn ";"; pn "}";
     kw "return"; id "y"; pn ";"; pn "}"].

(** A program without any declaration. *)
Definition statementText : string := "x;".

Definition statementTokens : list Token := lex statementText [id "x"; pn ";"].

(** Expressions, and the semicolon that closes an expression statement. *)
Definition semicolonAfter (expr : list Token) : Token :=
  let e :=
    match List.last (map Some expr) None with
    | Some t => tok_end t
    | None => 0
    end in
  mkToken "punctuation" ";" e (S e) 1 (S e).

Definition statementOf (expr : list Token) : list Token :=
  expr ++ [semicolonAfter expr].

Definition subtractionTokens : list Token :=
  lex "a - b - c" [id "a"; op "-"; id "b"; op "-"; id "c"].

Definition assignmentTokens : list Token :=
  lex "a = b = c" [id "a"; op "="; id "b"; op "="; id "c"].

Definition mixedTokens : list Token :=
  lex "x = a || b && c == d < e + f * g - h"
    [id "x"; op "="; id "a"; op "||"; id "b"; op "&&"; id "c"; op "=="; id "d";
     op "<"; id "e"; op "+"; id "f"; op "*"; id "g"; op "-"; id "h"].

(** Two runs that read different clocks and random numbers. *)
Definition clockA : Semantic.Clock :=
  Semantic.mkClock (fun _ => 1762041600000%N) (fun _ => "k3j9x0q2a").

Definition clockB : Semantic.Clock :=
  Semantic.mkClock (fun _ => 1762041600001%N) (fun _ => "z8w1m5c7e").

(** The text [int int ... int], [n] times, as the lexer tokenizes it. *)
Definition typeTokens (n : nat) : list Token :=
  map (fun i => mkToken "type" "int" (4 * i) (4 * i + 3) 1 (S (4 * i))) (seq 0 n).

(** The names a program declares: its functions, their parameters and
    its variables. *)
Fixpoint declaredNames (n : node) : list string :=
  let opt := fun (o : option node) =>
    match o with Some m => declaredNames m | None => [] end in
  match n with
  | Program body => flat_map declaredNames body
  | FunctionDeclaration id _ _ params body _ =>
      name id :: map param_name params ++ opt body
  | VariableDeclaration ds _ _ =>
      flat_map
        (fun d =>
           match d with VariableDeclarator id _ init _ _ => name id :: opt init end)
        ds
  | BlockStatement body _ => flat_map declaredNames body
  | IfStatement t c a _ => opt t ++ opt c ++ opt a
  | WhileStatement t b _ => opt t ++ opt b
  | ForStatement i t u b _ => opt i ++ opt t ++ opt u ++ opt b
  | ReturnStatement a _ => opt a
  | ExpressionStatement e _ => declaredNames e
  | BinaryExpression _ l r _ => declaredNames l ++ declaredNames r
  | UnaryExpression _ a _ _ => declaredNames a
  | AssignmentExpression _ l r _ => declaredNames l ++ declaredNames r
  | CallExpression _ args _ => flat_map declaredNames args
  | Typedef _ id _ => [name id]
  | Include _ _ _ | PreprocessorDirective _ _ | BreakStatement _
  | ContinueStatement _ | Identifier _ | Literal _ _ _ => []
  end.


End Scenario.

(** * Predicates of the statements *)

(** ** Outcomes of a parser computation *)

Module ParserLogic.

Import Parser.

(** [wp m s Q E]: run from [s], the computation [m] does not exhaust its
    budget; it returns a value and a state in [Q], or throws in a state
    in [E]. *)
Definition wp {A} (m : M A) (s : pstate) (Q : A -> pstate -> Prop)
    (E : pstate -> Prop) : Prop :=
  match m s with
  | Ret a s' => Q a s'
  | Throw _ s' => E s'
  | OutOfFuel => False
  end.

(** The position never moves backwards: on an exception, on a return,
    and with strict progress when a node is returned. *)
Definition exc (s : pstate) : pstate -> Prop :=
  fun s' => current s <= current s'.
Definition mono {A} (s : pstate) : A -> pstate -> Prop :=
  fun _ s' => current s <= current s'.
Definition prog {A} (s : pstate) : option A -> pstate -> Prop :=
  fun a s' =>
    current s <= current s' /\ (JS.isSome a = true -> current s < current s').

Section Tokens.

Variable tokens : list Token.

Definition startsSpecifier (s : pstate) : Prop :=
  exists t, nth_error tokens (current s) = Some t /\ isSpecifierStart t = true.

(** What is assumed of the functions called recursively, at depth [f]. *)
Record SelfOK (f : nat) (self : Parsers) : Prop := {
  ok_primary : forall s, length tokens - current s < f ->
    wp (rec_parsePrimaryExpression self) s (prog s) (exc s);
  ok_unary : forall s, length tokens - current s < f ->
    wp (rec_parseUnaryExpression self) s (prog s) (exc s);
  ok_binary : forall p s, length tokens - current s < f ->
    wp (rec_parseBinaryExpression self p) s (prog s) (exc s);
  ok_assignment : forall s, length tokens - current s < f ->
    wp (rec_parseAssignmentExpression self) s (prog s) (exc s);
  ok_expression : forall s, length tokens - current s < f ->
    wp (rec_parseExpression self) s (prog s) (exc s);
  ok_statement : forall s, length tokens - current s < f ->
    wp (rec_parseStatement self) s
       (fun _ s' => current s <= current s' /\
                    (current s < length tokens -> current s < current s'))
       (exc s)
}.

End Tokens.

Arguments ok_primary {tokens f self} _.
Arguments ok_unary {tokens f self} _.
Arguments ok_binary {tokens f self} _.
Arguments ok_assignment {tokens f self} _.
Arguments ok_expression {tokens f self} _.
Arguments ok_statement {tokens f self} _.

End ParserLogic.

(** ** Diagnostics of the analyzer *)

Module AnalyzerLogic.

Import Semantic.

(** A message of the preprocessing pass or of phases 1 and 2 starts with
    one of these letters; the two messages of phase 3 do not. *)
Definition early (d : Diagnostic) : bool :=
  match message d with
  | String c _ =>
      let n := nat_of_ascii c in
      (n =? 86) || (n =? 82) || (n =? 70) || (n =? 84) || (n =? 67)
  | EmptyString => false
  end.

(** [st'] is reached from [st] by steps that only add early diagnostics
    and never empty the symbol table. *)
Definition extends (st st' : astate) : Prop :=
  (exists l, st_errors st' = st_errors st ++ l /\ forallb early l = true) /\
  (st_table st <> [] -> st_table st' <> []).

Section Phase3.

Variable source : string.

(** The warnings of the unused-variable check for the entries [t], given
    the recorded uses. *)
Definition unusedWarnings (uses : list string) (t : table Symbol) : list Diagnostic :=
  map (unusedVariable source)
    (filter (fun s => negb (exemptFromUse s) && negb (JS.inList (sym_name s) uses))
       (map snd t)).

(** The body of the loop over the entries of the symbol table. *)
Definition unusedStep (entry : string * Symbol) (st : astate) : astate :=
  let symbol := snd entry in
  if exemptFromUse symbol then st
  else if negb (JS.inList (sym_name symbol) (variableUses st)) then
    pushError (unusedVariable source symbol) st
  else st.

End Phase3.

(** The test of the missing-main check. *)
Definition lacksMain (st : astate) : bool :=
  negb (JS.isSome (tableGet (getSymbolKey "main" "global") (st_table st))) &&
  (0 <? length (st_table st)).

End AnalyzerLogic.

(** ** Fixed points of the optimizer *)

Module OptimizerLogic.

Import CodeGen.

Section Rules.

Variable isNaN : option operand -> bool.
Variable sumText differenceText productText :
  option operand -> option operand -> string.

(** No rewriting rule applies to any instruction. *)
Definition settled (l : list Instruction) : Prop :=
  Forall (fun i => simplify isNaN sumText differenceText productText i = None) l.

(** A pass changes nothing. *)
Definition stable (l : list Instruction) : Prop :=
  optimizePass isNaN sumText differenceText productText l = (l, false).

End Rules.

End OptimizerLogic.

(** ** Grouping of expressions *)

Module Precedence.

Import Parser.

(** An expression without its locations: a name, a binary operation or
    an assignment. *)
Inductive tree :=
| Leaf (x : string)
| Bin (op : string) (l r : tree)
| Asg (l r : tree).

(** The tree of an expression node made of identifiers, binary
    operations and assignments. *)
Fixpoint shape (n : node) : option tree :=
  match n with
  | Identifier i => Some (Leaf (name i))
  | BinaryExpression op l r _ =>
      match shape l, shape r with
      | Some a, Some b => Some (Bin op a b)
      | _, _ => None
      end
  | AssignmentExpression op l r _ =>
      match shape l, shape r with
      | Some a, Some b => if op === "=" then Some (Asg a b) else None
      | _, _ => None
      end
  | _ => None
  end.

(** The words of an expression, from left to right. *)
Fixpoint words (t : tree) : list string :=
  match t with
  | Leaf x => [x]
  | Bin op l r => words l ++ [op] ++ words r
  | Asg l r => words l ++ ["="] ++ words r
  end.

(** The precedence levels of the specification, from the lowest. *)
Definition level (op : string) : option nat :=
  if op === "||" then Some 0 else
  if op === "&&" then Some 1 else
  if (op === "==") || (op === "!=") then Some 2 else
  if (op === "<") || (op === ">") || (op === "<=") || (op === ">=") then Some 3 else
  if (op === "+") || (op === "-") then Some 4 else
  if (op === "*") || (op === "/") || (op === "%") then Some 5 else None.

(** How tightly the operation at the root of a tree binds: an assignment
    binds the least, then the binary operators by level, and a name is
    never split. *)
Definition rank (t : tree) : nat :=
  match t with
  | Asg _ _ => 0
  | Bin op _ _ => match level op with Some k => S k | None => 0 end
  | Leaf _ => 7
  end.

(** A tree is grouped by precedence and associativity when, at every
    binary operation, the left operand binds at least as tightly as the
    operator (operators of one level group to the left) and the right
    operand binds strictly tighter; and when, at every assignment, the
    left operand is no assignment (assignments group to the right, below
    every binary operator). *)
Fixpoint grouped (t : tree) : bool :=
  match t with
  | Leaf _ => true
  | Bin op l r =>
      match level op with
      | Some k => grouped l && grouped r && (S k <=? rank l) && (S k <? rank r)
      | None => false
      end
  | Asg l r => grouped l && grouped r && (0 <? rank l)
  end.

(** The values on which the parser chooses a statement or a declaration;
    the lexer gives none of them the kind of an identifier. *)
Definition reserved : list string :=
  ["typedef"; "struct"; "union"; "enum"; "return"; "if"; "for"; "while"; "{"].

(** A name as operand: an identifier token that is no prefix operator
    and no reserved word. *)
Definition isOperand (t : Token) : bool :=
  (tok_type t === "identifier") &&
  negb (JS.inList (tok_value t) unaryOperators) &&
  negb (JS.inList (tok_value t) reserved) &&
  negb (JS.startsWith (tok_value t) "#").

(** A binary operator of the specification, or the assignment sign. *)
Definition isOperator (t : Token) : bool :=
  JS.isSome (level (tok_value t)) || (tok_value t === "=").

(** Operands separated by operators. *)
Fixpoint alternates (l : list Token) : bool :=
  match l with
  | [] => false
  | x :: r =>
      isOperand x &&
      match r with
      | [] => true
      | o :: r' => isOperator o && alternates r'
      end
  end.

(** The values of the first [j] tokens. *)
Definition upTo (tokens : list Token) (j : nat) : list string :=
  map tok_value (firstn j tokens).

(** The token at position [j], if it is a binary operator, is of a level
    below [p]. *)
Definition belowLevel (tokens : list Token) (j p : nat) : Prop :=
  forall o q a,
    nth_error tokens j = Some o -> operators (tok_value o) = Some (q, a) -> q < p.

(** The outcome [r] of parsing a binary expression from position [i] in
    state [s], at precedence [p]: the parser returns a grouped tree of
    the words from [i] to where it stops, which is before an operator
    of a level below [p], an assignment sign or the end. *)
Definition parsedTo (tokens : list Token) (bound : nat) (p i : nat)
    (r : outcome (option node)) (s : pstate) : Prop :=
  exists e s' t,
    r = Ret (Some e) s' /\ errors s' = errors s /\
    i < current s' <= bound /\ (exists k, current s' = 2 * k + 1) /\
    shape e = Some t /\ grouped t = true /\ p < rank t /\
    upTo tokens (current s') = upTo tokens i ++ words t /\
    belowLevel tokens (current s') p.

(** The outcome [r] of parsing an expression in state [s]: the parser
    returns a grouped tree of the words up to position [bound]. *)
Definition parsedAll (tokens : list Token) (bound : nat)
    (r : outcome (option node)) (s : pstate) : Prop :=
  exists e s' t,
    r = Ret (Some e) s' /\ errors s' = errors s /\ current s' = bound /\
    shape e = Some t /\ grouped t = true /\
    upTo tokens bound = upTo tokens (current s) ++ words t.

(** The tree of the expression of a program that is one expression
    statement. *)
Definition groupingOf (ast : node) : option tree :=
  match ast with
  | Program [ExpressionStatement e _] => shape e
  | _ => None
  end.

End Precedence.


(** ** The generated code *)

Module TacLogic.
Import CodeGen.

(** The instructions the optimizer may remove or rewrite. *)
Definition arithmetic (i : Instruction) : bool :=
  isOp i "ASSIGN" || isOp i "ADD" || isOp i "SUB" || isOp i "MUL".

(** The other instructions of a sequence, in order. *)
Definition others (code : list Instruction) : list Instruction :=
  filter (fun i => negb (arithmetic i)) code.

(** The line numbers are the positions. *)
Definition numbered (code : list Instruction) : Prop :=
  map lineNumber code = seq 0 (length code).

(** The labels a sequence defines and the labels it jumps to. *)
Definition labelsOf (code : list Instruction) : list string :=
  flat_map
    (fun i =>
       if isOp i "LABEL" then match label i with Some l => [l] | None => [] end
       else []) code.

Definition targetsOf (code : list Instruction) : list string :=
  flat_map
    (fun i =>
       if isOp i "GOTO" || isOp i "IF_FALSE" then
         match result i with Some (Str l) => [l] | _ => [] end
       else []) code.

(** Every jump of [l] goes to a label of [l] or to one of [outer]. *)
Definition closed (outer : list string) (l : list Instruction) : Prop :=
  incl (targetsOf l) (labelsOf l ++ outer).

(** A jump names its target. *)
Definition hasTarget (i : Instruction) : bool :=
  if isOp i "GOTO" || isOp i "IF_FALSE" then
    match result i with Some (Str _) => true | _ => false end
  else true.

(** [st'] has the instructions of [st], then new ones numbered by their
    positions, whose jumps go to labels among them or to [outer]; and
    every jump names its target, if no label of [outer] is empty. *)
Definition appends (outer : list string) (st st' : gstate) : Prop :=
  exists l,
    intermediateCode st' = intermediateCode st ++ l /\
    map lineNumber l = seq (length (intermediateCode st)) (length l) /\
    closed outer l /\
    (Forall (fun t => JS.truthy t = true) outer -> forallb hasTarget l = true).

Definition frameLabels (enclosing : option LoopFrame) : list string :=
  match enclosing with
  | Some f => [startLabel f; continueLabel f; endLabel f]
  | None => []
  end.

End TacLogic.

(** ** The phases of the analyzer *)

Module PhaseLogic.
Import Semantic AnalyzerLogic.

(** The number of lines of the source text. *)
Definition lineCount (source : string) : nat :=
  length (JS.splitLines source EmptyString).

(** The number of line feeds of a text. *)
Fixpoint newlines (s : string) : nat :=
  match s with
  | EmptyString => 0
  | String c s' => (if nat_of_ascii c =? 10 then 1 else 0) + newlines s'
  end.

(** The message of the undefined-function diagnostic. *)
Definition undefinedCall (g : string) : string :=
  "Call to undefined function '" +++ g +++ "'".

Definition startsWithC (d : Diagnostic) : bool :=
  match message d with
  | String c _ => nat_of_ascii c =? 67
  | EmptyString => false
  end.

(** The search of [resolveVariable] through a list of scopes. *)
Fixpoint searchScopes (x : string) (t : table Symbol) (scopes : list string)
  : option (string * Symbol) :=
  match scopes with
  | [] => None
  | sc :: r =>
      match tableGet (getSymbolKey x sc) t with
      | Some s => Some (getSymbolKey x sc, s)
      | None => searchScopes x t r
      end
  end.

Section Steps.

Variable source : string.

(** What a phase may report in a given state, besides the conditions
    common to all early diagnostics. *)
Variable allowed : astate -> Diagnostic -> Prop.

(** Whether the phase enters symbols. *)
Variable declaring : bool.

(** A diagnostic of the preprocessing pass or of phases 1 and 2: located
    by [getLineNumber] and [getCodeLine] at one position, and no
    warning. *)
Definition phaseDiagnostic (d : Diagnostic) : Prop :=
  (exists p, line d = getLineNumber source p /\ code d = getCodeLine source p) /\
  isWarning d = false /\ early d = true.

(** A symbol as the analyzer enters it: under the key of its scope and
    name, at line 0 when it is a library function and at a line computed
    by [getLineNumber] otherwise. *)
Definition declared (k : string) (s : Symbol) : Prop :=
  k = getSymbolKey (sym_name s) (sym_scope s) /\
  ((sym_line s = 0 /\ sym_scope s = "builtin") \/
   exists p, sym_line s = getLineNumber source p).

(** The elementary updates of the state of the analyzer. *)
Inductive step : astate -> astate -> Prop :=
| step_use x st : step st (addUse x st)
| step_counters st a b :
    step st (mkAState (st_table st) (st_errors st) (variableUses st) a b)
| step_error d st :
    phaseDiagnostic d -> allowed st d -> step st (pushError d st)
| step_declare k s st :
    declaring = true -> declared k s -> step st (declareSymbol k s st)
| step_initialize k v st :
    declaring = true -> tableGet k (st_table st) = Some v ->
    step st (declareSymbol k (setInitialized v) st).

Inductive reach : astate -> astate -> Prop :=
| reach_refl st : reach st st
| reach_step a b c : step a b -> reach b c -> reach a c.

End Steps.

(** Phase 1 reports no undefined function. *)
Definition buildAllowed (_ : astate) (d : Diagnostic) : Prop :=
  startsWithC d = false.

(** Phase 2 reports an undefined function only for a name that
    [resolveVariable] does not find from [scope] and [stack]. *)
Definition checkAllowed (scope : string) (stack : list string)
    (st : astate) (d : Diagnostic) : Prop :=
  startsWithC d = true ->
  exists g, message d = undefinedCall g /\
            resolveVariable g scope stack (st_table st) = None.

End PhaseLogic.

(** ** The trees of the parser *)

Module GrammarLogic.
Import Parser.

(** [wlp m s Q E]: if [m], run from [s], returns, the value and the
    state are in [Q]; if it throws, the state is in [E]. *)
Definition wlp {A} (m : M A) (s : pstate) (Q : A -> pstate -> Prop)
    (E : pstate -> Prop) : Prop :=
  match m s with
  | Ret a s' => Q a s'
  | Throw _ s' => E s'
  | OutOfFuel => True
  end.

Definition optb {A} (p : A -> bool) (o : option A) : bool :=
  match o with Some a => p a | None => true end.

(** The expressions the parser builds: operators of its tables, prefix
    unary operators only, the plain assignment only, string and number
    literals. *)
Fixpoint expr (n : node) : bool :=
  match n with
  | Identifier _ => true
  | Literal _ valueType _ => (valueType === "string") || (valueType === "number")
  | BinaryExpression operator l r _ =>
      JS.isSome (operators operator) && expr l && expr r
  | UnaryExpression operator a prefix _ =>
      JS.inList operator unaryOperators && prefix && expr a
  | AssignmentExpression operator l r _ => (operator === "=") && expr l && expr r
  | CallExpression _ args _ => forallb expr args
  | _ => false
  end.

Definition declaratorOk (d : declarator) : bool :=
  match d with VariableDeclarator _ _ init _ _ => optb expr init end.

Definition declaration (n : node) : bool :=
  match n with
  | VariableDeclaration ds _ _ => forallb declaratorOk ds
  | _ => false
  end.

(** The statements the parser builds: no break and no continue. *)
Fixpoint stmt (n : node) : bool :=
  match n with
  | VariableDeclaration ds _ _ => forallb declaratorOk ds
  | BlockStatement body _ => forallb stmt body
  | IfStatement t c a _ => optb expr t && optb stmt c && optb stmt a
  | WhileStatement t b _ => optb expr t && optb stmt b
  | ForStatement i t u b _ =>
      optb (fun m => declaration m || expr m) i && optb expr t && optb expr u &&
      optb stmt b
  | ReturnStatement a _ => optb expr a
  | ExpressionStatement e _ => expr e
  | _ => false
  end.

(** The members of the body of a program. *)
Definition topLevel (n : node) : bool :=
  match n with
  | Include _ _ _ | PreprocessorDirective _ _ | Typedef _ _ _ => true
  | FunctionDeclaration _ _ _ _ body _ => optb stmt body
  | _ => stmt n
  end.

Definition program (n : node) : bool :=
  match n with
  | Program body => forallb topLevel body
  | _ => false
  end.

(** What is assumed of the functions called recursively. *)
Record SelfShaped (tokens : list Token) (self : Parsers) : Prop := {
  sh_primary : forall s,
    wlp (rec_parsePrimaryExpression self) s
      (fun a _ => optb expr a = true) (fun _ => True);
  sh_unary : forall s,
    wlp (rec_parseUnaryExpression self) s
      (fun a _ => optb expr a = true) (fun _ => True);
  sh_binary : forall p s,
    wlp (rec_parseBinaryExpression self p) s
      (fun a _ => optb expr a = true) (fun _ => True);
  sh_assignment : forall s,
    wlp (rec_parseAssignmentExpression self) s
      (fun a _ => optb expr a = true) (fun _ => True);
  sh_expression : forall s,
    wlp (rec_parseExpression self) s
      (fun a _ => optb expr a = true) (fun _ => True);
  sh_statement : forall s,
    wlp (rec_parseStatement self) s
      (fun a _ => optb stmt a = true) (fun _ => True)
}.

(** The one diagnostic the code generator has for a tree of the
    parser. *)
Definition tildeError : CodeGen.CodegenError :=
  CodeGen.mkCodegenError "Unsupported unary operator: ~" "codegen".

(** [st'] has the diagnostics of [st], then only that one. *)
Definition complains (st st' : CodeGen.gstate) : Prop :=
  exists l, CodeGen.errors st' = CodeGen.errors st ++ l /\
            Forall (fun e => e = tildeError) l.

End GrammarLogic.

(** ** The work of the parser *)

Module CostLogic.
Import Parser GrammarLogic.

(** From [s] to [s'] the cursor only moved forward, one call of
    [advance] for each position, and not beyond [j] positions after the
    last token unless it was there already. *)
Definition linear (tokens : list Token) (j : nat) (s s' : pstate) : Prop :=
  current s <= current s' /\
  steps s' + current s = steps s + current s' /\
  current s' <= Nat.max (current s) (length tokens + j).

(** The same, but for one call of [advance] that may have been undone. *)
Definition almost (tokens : list Token) (j : nat) (s s' : pstate) : Prop :=
  current s <= current s' /\
  steps s + current s' <= steps s' + current s /\
  steps s' + current s <= steps s + current s' + 1 /\
  current s' <= Nat.max (current s) (length tokens + j).

(** One round of the top-level loop, started on a token: the calls of
    [advance] are bounded by the tokens left plus the positions moved. *)
Definition round (tokens : list Token) (j : nat) (s s' : pstate) : Prop :=
  steps s' + 2 * current s <= steps s + length tokens + current s' /\
  current s' <= length tokens + j.

Record SelfLinear (tokens : list Token) (self : Parsers) : Prop := {
  li_primary : forall s,
    wlp (rec_parsePrimaryExpression self) s
      (fun _ => linear tokens 0 s) (linear tokens 0 s);
  li_unary : forall s,
    wlp (rec_parseUnaryExpression self) s
      (fun _ => linear tokens 0 s) (linear tokens 0 s);
  li_binary : forall p s,
    wlp (rec_parseBinaryExpression self p) s
      (fun _ => linear tokens 0 s) (linear tokens 0 s);
  li_assignment : forall s,
    wlp (rec_parseAssignmentExpression self) s
      (fun _ => linear tokens 0 s) (linear tokens 0 s);
  li_expression : forall s,
    wlp (rec_parseExpression self) s
      (fun _ => linear tokens 0 s) (linear tokens 0 s);
  li_statement : forall s,
    wlp (rec_parseStatement self) s
      (fun _ => linear tokens 1 s) (linear tokens 1 s)
}.

End CostLogic.

(** ** The names of a program *)

Module ProgramLogic.
Import Semantic.

(** The names the [#define] pattern finds in the source text. *)
Definition definedNames (source : string) : list string :=
  map (fun m => fst (fst m)) (execAll matchDefine source 0 0).

(** The source text holds ASCII characters only. *)
Definition plainText (source : string) : bool :=
  forallb (fun c => nat_of_ascii c <? 128) (list_ascii_of_string source).

(** [st'] has the table and the counters of [st], and at least its
    recorded uses. *)
Definition framed (st st' : astate) : Prop :=
  st_table st' = st_table st /\ nowCalls st' = nowCalls st /\
  randomCalls st' = randomCalls st /\
  incl (variableUses st) (variableUses st').

(** Every symbol of the table has a name in [P]. *)
Definition named (P : string -> Prop) (st : astate) : Prop :=
  Forall (fun e => P (sym_name (snd e))) (st_table st).

End ProgramLogic.

(** ** Reads at a place where the name is visible *)

Module ReadLogic.
Import Semantic.

(** [markVariablesAsUsed] reaches an identifier named [x] in [n]. *)
Fixpoint marked (x : string) (n : node) : bool :=
  let opt := fun (o : option node) =>
    match o with Some m => marked x m | None => false end in
  match n with
  | Identifier i => name i === x
  | BinaryExpression _ l r _ => marked x l || marked x r
  | UnaryExpression _ a _ _ => marked x a
  | AssignmentExpression _ _ r _ => marked x r
  | CallExpression _ args _ => existsb (marked x) args
  | Program body => existsb (marked x) body
  | Typedef _ id _ => name id === x
  | FunctionDeclaration id _ _ _ body _ => (name id === x) || opt body
  | VariableDeclaration ds _ _ =>
      existsb
        (fun d =>
           match d with
           | VariableDeclarator id _ init _ _ => (name id === x) || opt init
           end) ds
  | BlockStatement body _ => existsb (marked x) body
  | IfStatement t c a _ => opt t || opt c || opt a
  | WhileStatement t b _ => opt t || opt b
  | ForStatement i t u b _ => opt i || opt t || opt u || opt b
  | ReturnStatement a _ => opt a
  | ExpressionStatement e _ => marked x e
  | Include _ _ _ | PreprocessorDirective _ _ | Literal _ _ _
  | BreakStatement _ | ContinueStatement _ => false
  end.

(** The declarator enters a variable named [x]. *)
Definition declaresVar (x : string) (d : declarator) : bool :=
  match d with
  | VariableDeclarator id _ _ _ _ => JS.truthy (name id) && (name id === x)
  end.

(** The parameter is named [x]. *)
Definition declaresParam (x : string) (p : Param) : bool :=
  JS.truthy (param_name p) && (param_name p === x).

(** Once [buildSymbolTable] has processed the statement, a symbol named
    [x] is in the table for the rest of the enclosing scope: a variable
    of that scope, or a function. *)
Definition declares (x : string) (n : node) : bool :=
  match n with
  | VariableDeclaration ds _ _ => existsb (declaresVar x) ds
  | FunctionDeclaration id _ _ _ _ _ => JS.truthy (name id) && (name id === x)
  | _ => false
  end.

(** A sequence of statements of one scope: [vis] tells whether a symbol
    named [x] is visible before the first one. *)
Fixpoint seqRead (f : bool -> node -> bool) (d : node -> bool) (vis : bool)
    (l : list node) : bool :=
  match l with
  | [] => false
  | m :: r => f vis m || seqRead f d (vis || d m) r
  end.

(** The declarators of one declaration: the initializer of each is
    walked and marked after its variable is entered. *)
Fixpoint declaratorsRead (f : bool -> node -> bool) (x : string) (vis : bool)
    (ds : list declarator) : bool :=
  match ds with
  | [] => false
  | d :: r =>
      match d with
      | VariableDeclarator id _ init _ _ =>
          JS.truthy (name id) &&
          match init with
          | Some i =>
              let v := vis || (name id === x) in f v i || (v && marked x i)
          | None => false
          end
      end || declaratorsRead f x (vis || declaresVar x d) r
  end.

(** An identifier passed directly to one of the formatted input and
    output functions. *)
Definition directArgument (x : string) (a : node) : bool :=
  match a with Identifier i => name i === x | _ => false end.

(** The tree [n] holds a read of [x] at a place where a symbol named
    [x] is visible: [vis] tells whether one is visible where [n]
    starts, and a declaration of [x] makes it visible for the rest of
    its block (or of its function, for a parameter, or of its loop, for
    a variable of the initializer of a for statement).  A read is an
    identifier that [markVariablesAsUsed] reaches in an expression the
    analyzer marks; an identifier passed directly to printf, fprintf,
    sprintf or scanf counts wherever it stands.  With [inits] the reads
    in the initializers of variable declarations count as well; the
    analyzer skips the initializer of a variable it reports as
    redeclared. *)
Fixpoint visibleRead (inits : bool) (x : string) (vis : bool) (n : node)
    {struct n} : bool :=
  let both := fun (v : bool) (m : node) =>
    visibleRead inits x v m || (v && marked x m) in
  let walk := fun (v : bool) (o : option node) =>
    match o with Some m => visibleRead inits x v m | None => false end in
  let mark := fun (v : bool) (o : option node) =>
    match o with Some m => v && marked x m | None => false end in
  match n with
  | Program body => seqRead (visibleRead inits x) (declares x) vis body
  | BlockStatement body _ => seqRead (visibleRead inits x) (declares x) vis body
  | FunctionDeclaration id _ _ params body _ =>
      JS.truthy (name id) &&
      walk (vis || (name id === x) || existsb (declaresParam x) params) body
  | VariableDeclaration ds _ _ =>
      inits && declaratorsRead (visibleRead inits x) x vis ds
  | IfStatement t c a _ => mark vis t || walk vis t || walk vis c || walk vis a
  | ForStatement i t u b _ =>
      let v := vis || match i with Some m => declares x m | None => false end in
      walk vis i || mark vis t || walk v t || mark vis u || walk v u || walk v b
  | WhileStatement t b _ => mark vis t || walk vis t || walk vis b
  | ReturnStatement a _ =>
      match a with Some m => both vis m | None => false end
  | ExpressionStatement e _ => both vis e
  | AssignmentExpression _ l r _ => visibleRead inits x vis l || both vis r
  | CallExpression callee args _ =>
      (JS.inList (name callee) ["printf"; "fprintf"; "sprintf"; "scanf"] &&
       existsb (directArgument x) args) ||
      existsb (both vis) args
  | BinaryExpression _ l r _ => both vis l || both vis r
  | UnaryExpression _ a _ _ => both vis a
  | Typedef _ id _ => vis && (name id === x)
  | Include _ _ _ | PreprocessorDirective _ _ | Identifier _ | Literal _ _ _
  | BreakStatement _ | ContinueStatement _ => false
  end.

(** The diagnostic of a redeclared variable. *)
Definition redeclaration (d : Diagnostic) : bool :=
  String.prefix "Redeclaration of variable" (message d).

(** A symbol named [x] is in the table under one of the scopes of the
    stack. *)
Definition visible (x : string) (stack : list string) (st : astate) : Prop :=
  JS.truthy x = true /\
  exists sc, In sc stack /\ tableGet (getSymbolKey x sc) (st_table st) <> None.

(** The use of [x] is recorded, or (when initializers count) a
    redeclaration is reported. *)
Definition recorded (inits : bool) (x : string) (st : astate) : Prop :=
  In x (variableUses st) \/
  (inits = true /\ Exists (fun d => redeclaration d = true) (st_errors st)).

(** From [st] to [st'] no key leaves the table, no recorded use is
    lost and diagnostics are only added. *)
Definition grew (st st' : astate) : Prop :=
  (forall k, tableGet k (st_table st) <> None ->
             tableGet k (st_table st') <> None) /\
  incl (variableUses st) (variableUses st') /\
  exists l, st_errors st' = st_errors st ++ l.

(** Every read of [x] in [n] at a place where a symbol named [x] is
    visible is recorded when [buildSymbolTable] has walked [n]. *)
Definition readsRecorded (clock : Clock) (source : string) (inits : bool)
    (x : string) (n : node) : Prop :=
  forall vis scope stack st,
    In scope stack -> In "global" stack ->
    (vis = true -> visible x stack st) ->
    visibleRead inits x vis n = true ->
    recorded inits x (buildSymbolTable clock source n scope stack st).

(** A statement at the top level of the program enters a symbol named
    [x] in the global scope. *)
Definition declaredAtTop (x : string) (ast : node) : bool :=
  match ast with
  | Program body => existsb (declares x) body
  | _ => false
  end.

End ReadLogic.

(** ** The readings of the clock *)

Module ClockLogic.
Import Semantic.

(** The number of scopes [buildSymbolTable] can open in the tree with a
    name made from the clock: one for each block, if, else, for and
    while. *)
Fixpoint timeReadings (n : node) : nat :=
  let opt := fun (o : option node) =>
    match o with Some m => timeReadings m | None => 0 end in
  match n with
  | Program body => list_sum (map timeReadings body)
  | FunctionDeclaration _ _ _ _ body _ => opt body
  | VariableDeclaration ds _ _ =>
      list_sum
        (map (fun d => match d with VariableDeclarator _ _ init _ _ => opt init end)
           ds)
  | BlockStatement body _ => S (list_sum (map timeReadings body))
  | IfStatement t c a _ =>
      S (opt t + opt c +
         match a with Some m => S (timeReadings m) | None => 0 end)
  | ForStatement i t u b _ => S (opt i + opt t + opt u + opt b)
  | WhileStatement t b _ => S (opt t + opt b)
  | ReturnStatement a _ => opt a
  | ExpressionStatement e _ => timeReadings e
  | AssignmentExpression _ l r _ => timeReadings l + timeReadings r
  | CallExpression _ args _ => list_sum (map timeReadings args)
  | BinaryExpression _ l r _ => timeReadings l + timeReadings r
  | UnaryExpression _ a _ _ => timeReadings a
  | Include _ _ _ | PreprocessorDirective _ _ | Typedef _ _ _ | Identifier _
  | Literal _ _ _ | BreakStatement _ | ContinueStatement _ => 0
  end.

(** The number of scopes with a name that also holds a random tag: one
    for each block. *)
Fixpoint randomReadings (n : node) : nat :=
  let opt := fun (o : option node) =>
    match o with Some m => randomReadings m | None => 0 end in
  match n with
  | Program body => list_sum (map randomReadings body)
  | FunctionDeclaration _ _ _ _ body _ => opt body
  | VariableDeclaration ds _ _ =>
      list_sum
        (map (fun d => match d with VariableDeclarator _ _ init _ _ => opt init end)
           ds)
  | BlockStatement body _ => S (list_sum (map randomReadings body))
  | IfStatement t c a _ => opt t + opt c + opt a
  | ForStatement i t u b _ => opt i + opt t + opt u + opt b
  | WhileStatement t b _ => opt t + opt b
  | ReturnStatement a _ => opt a
  | ExpressionStatement e _ => randomReadings e
  | AssignmentExpression _ l r _ => randomReadings l + randomReadings r
  | CallExpression _ args _ => list_sum (map randomReadings args)
  | BinaryExpression _ l r _ => randomReadings l + randomReadings r
  | UnaryExpression _ a _ _ => randomReadings a
  | Include _ _ _ | PreprocessorDirective _ _ | Typedef _ _ _ | Identifier _
  | Literal _ _ _ | BreakStatement _ | ContinueStatement _ => 0
  end.

Section Sync.
Variables c1 c2 : Clock.

(** The two clocks give the same first [b] readings. *)
Definition sameTimes (b : nat) : Prop :=
  forall i, i < b -> dateNow c1 i = dateNow c2 i.

Definition sameTags (b : nat) : Prop :=
  forall i, i < b -> randomTag c1 i = randomTag c2 i.

(** From [st], the run under the first clock reaches [s1] with at most
    [T] readings of the time and [R] of the random generator, and the
    run under the second clock reaches the same state if the clocks
    agree that far. *)
Definition sync (T R : nat) (st s1 s2 : astate) : Prop :=
  (nowCalls st <= nowCalls s1 <= nowCalls st + T) /\
  (randomCalls st <= randomCalls s1 <= randomCalls st + R) /\
  (sameTimes (nowCalls st + T) -> sameTags (randomCalls st + R) -> s2 = s1).

End Sync.

End ClockLogic.

(** ** The depth of the type comparison *)

Module TypeLogic.
Import Semantic.

(** [areTypesCompatible] with its nested calls counted: the answer of
    the function when it is reached with at most [depth] calls nested
    in one another, and nothing when a call more would be needed. *)
Fixpoint compatibleWithin (depth : nat) (targetType sourceType : string)
    : option bool :=
  match depth with
  | 0 => None
  | S depth' =>
      if negb (JS.truthy targetType) || negb (JS.truthy sourceType) then Some false
      else if targetType === sourceType then Some true
      else
        let normalizedTarget := normalizeType targetType in
        let normalizedSource := normalizeType sourceType in
        if normalizedTarget === normalizedSource then Some true
        else if JS.inList normalizedTarget numericTypes &&
                JS.inList normalizedSource numericTypes then Some true
        else if endsWith normalizedTarget "*" && endsWith normalizedSource "*" then
          if (normalizedTarget === "void*") || (normalizedSource === "void*")
          then Some true
          else
            compatibleWithin depth'
              (JS.trim (sliceEnd 1 normalizedTarget))
              (JS.trim (sliceEnd 1 normalizedSource))
        else if endsWith normalizedTarget "*" && endsWith normalizedSource "[]" then
          compatibleWithin depth'
            (JS.trim (sliceEnd 1 normalizedTarget))
            (JS.trim (sliceEnd 2 normalizedSource))
        else Some false
  end.

End TypeLogic.

(** ** More inputs *)

Module MoreScenario.

Import Parser Scenario.

(** A call to a function that is declared nowhere. *)
Definition undefinedCallText : string := "int main() { f(); return 0; }".

Definition undefinedCallTokens : list Token :=
  lex undefinedCallText
    [ty "int"; id "main"; pn "("; pn ")"; pn "{"; id "f"; pn "("; pn ")";
     pn ";"; kw "return"; num "0"; pn ";"; pn "}"].

(** A clock that returns what the first clock returns to the first two
    calls, and something else afterwards. *)
Definition clockDrift : Semantic.Clock :=
  Semantic.mkClock
    (fun i => if i <? 2 then 1762041600000%N else 1762041600001%N)
    (fun i => if i <? 2 then "k3j9x0q2a" else "z8w1m5c7e").

End MoreScenario.

(** * Properties *)

Lemma forEach_cons A St (f : A -> St -> St) a l st :
  Semantic.forEach (a :: l) f st = Semantic.forEach l f (f a st).
Proof. reflexivity. Qed.

(** ** The parser returns *)

Module ParserProofs.

Import Parser ParserLogic.

(** *** Rules of the calculus *)

Section Calculus.
Variable tokens : list Token.

Lemma wp_ret A (a : A) s Q E : Q a s -> wp (ret a) s Q E.
Proof. exact (fun H => H). Qed.

Lemma wp_bind A B (m : M A) (f : A -> M B) s Q E :
  wp m s (fun a s' => wp (f a) s' Q E) E -> wp (bind m f) s Q E.
Proof. unfold wp, bind. destruct (m s); auto. Qed.

Lemma wp_conseq A (m : M A) s (Q Q' : A -> pstate -> Prop) (E E' : pstate -> Prop) :
  wp m s Q E -> (forall a s', Q a s' -> Q' a s') -> (forall s', E s' -> E' s') ->
  wp m s Q' E'.
Proof. unfold wp. destruct (m s); auto. Qed.

Lemma wp_throw A msg s (Q : A -> pstate -> Prop) (E : pstate -> Prop) :
  E s -> wp (throw msg) s Q E.
Proof. exact (fun H => H). Qed.

Lemma wp_peek s (Q : option Token -> pstate -> Prop) E :
  Q (nth_error tokens (current s)) s -> wp (peek tokens) s Q E.
Proof. exact (fun H => H). Qed.

Lemma wp_advance s (Q : option Token -> pstate -> Prop) E :
  (forall s', current s' = S (current s) -> steps s' = S (steps s) ->
              Q (nth_error tokens (current s)) s') ->
  wp (advance tokens) s Q E.
Proof. intros H. apply H; reflexivity. Qed.

Lemma wp_pushError msg l s (Q : unit -> pstate -> Prop) E :
  (forall s', current s' = current s -> steps s' = steps s -> Q tt s') ->
  wp (pushError msg l) s Q E.
Proof. intros H. apply H; reflexivity. Qed.

Lemma wp_getCurrent s (Q : nat -> pstate -> Prop) E :
  Q (current s) s -> wp getCurrent s Q E.
Proof. exact (fun H => H). Qed.

Lemma wp_setCurrent c s (Q : unit -> pstate -> Prop) E :
  (forall s', current s' = c -> steps s' = steps s -> Q tt s') ->
  wp (setCurrent c) s Q E.
Proof. intros H. apply H; reflexivity. Qed.

Lemma wp_prop A (o : option A) key s (Q : A -> pstate -> Prop) (E : pstate -> Prop) :
  (forall a, o = Some a -> Q a s) -> (o = None -> E s) -> wp (prop o key) s Q E.
Proof. destruct o; intros H1 H2; [apply H1 | apply H2]; reflexivity. Qed.

Lemma wp_getLoc n s (Q : location -> pstate -> Prop) (E : pstate -> Prop) :
  (forall l, Q l s) -> E s -> wp (getLoc n) s Q E.
Proof. unfold getLoc. destruct (node_location n); intros H1 H2; [apply H1 | apply H2]. Qed.

Lemma wp_tryCatch A (m : M A) h s (Q : A -> pstate -> Prop) E :
  wp m s Q (fun s' => forall e, wp (h e) s' Q E) -> wp (tryCatch m h) s Q E.
Proof. unfold wp, tryCatch. destruct (m s); auto. intros H. apply H. Qed.

Lemma nth_error_present (i : nat) (t : Token) :
  nth_error tokens i = Some t -> i < length tokens.
Proof. intros H. apply nth_error_Some. congruence. Qed.

Lemma wp_expect ty msg s (Q : option Token -> pstate -> Prop) E :
  (forall t s', nth_error tokens (current s) = Some t -> tok_type t = ty ->
                current s' = S (current s) -> Q (Some t) s') ->
  (forall s', current s' = current s -> Q None s') ->
  wp (expect tokens ty msg) s Q E.
Proof.
  intros H1 H2. unfold expect. apply wp_bind, wp_peek.
  destruct (nth_error tokens (current s)) as [t|] eqn:Hp.
  - destruct (tok_type t === ty) eqn:Ht.
    + apply wp_advance. intros s' Hc _. rewrite Hp.
      apply H1; auto. now apply String.eqb_eq.
    + apply wp_bind, wp_pushError. intros s' Hc _. apply wp_ret, H2, Hc.
  - apply wp_bind, wp_pushError. intros s' Hc _. apply wp_ret, H2, Hc.
Qed.

Lemma wp_expectValue v msg s (Q : option Token -> pstate -> Prop) E :
  (forall t s', nth_error tokens (current s) = Some t -> tok_value t = v ->
                current s' = S (current s) -> Q (Some t) s') ->
  (forall s', valueIs (nth_error tokens (current s)) v = false ->
              current s' = current s -> Q None s') ->
  wp (expectValue tokens v msg) s Q E.
Proof.
  intros H1 H2. unfold expectValue. apply wp_bind, wp_peek.
  destruct (nth_error tokens (current s)) as [t|] eqn:Hp.
  - destruct (tok_value t === v) eqn:Ht.
    + apply wp_advance. intros s' Hc _. rewrite Hp.
      apply H1; auto. now apply String.eqb_eq.
    + apply wp_bind, wp_pushError. intros s' Hc _. apply wp_ret, H2; auto.
  - apply wp_bind, wp_pushError. intros s' Hc _. apply wp_ret, H2; auto.
Qed.

End Calculus.

Lemma valueIs_present tokens c v :
  valueIs (nth_error tokens c) v = true -> c < length tokens.
Proof.
  destruct (nth_error tokens c) eqn:H; simpl; [|discriminate].
  intros _. eapply nth_error_present; eauto.
Qed.

Lemma valueIsNot_present tokens c v :
  valueIsNot (nth_error tokens c) v = true -> c < length tokens.
Proof.
  destruct (nth_error tokens c) eqn:H; simpl; [|discriminate].
  intros _. eapply nth_error_present; eauto.
Qed.

Lemma typeIs_present tokens c v :
  typeIs (nth_error tokens c) v = true -> c < length tokens.
Proof.
  destruct (nth_error tokens c) eqn:H; simpl; [|discriminate].
  intros _. eapply nth_error_present; eauto.
Qed.

Lemma isSome_present (tokens : list Token) c :
  JS.isSome (nth_error tokens c) = true -> c < length tokens.
Proof.
  destruct (nth_error tokens c) eqn:H; simpl; [|discriminate].
  intros _. eapply nth_error_present; eauto.
Qed.

Lemma isSome_absent (tokens : list Token) c :
  JS.isSome (nth_error tokens c) = false -> length tokens <= c.
Proof.
  destruct (nth_error tokens c) eqn:H; simpl; [discriminate|].
  intros _. now apply nth_error_None.
Qed.

Ltac learn H :=
  let T := type of H in
  lazymatch goal with
  | _ : T |- _ => fail
  | _ => pose proof H
  end.

Ltac learn_present :=
  repeat match goal with
  | H : nth_error _ _ = Some _ |- _ => learn (nth_error_present _ _ _ H)
  | H : nth_error _ _ = None |- _ => learn (proj1 (nth_error_None _ _) H)
  | H : valueIs (nth_error _ _) _ = true |- _ => learn (valueIs_present _ _ _ H)
  | H : valueIsNot (nth_error _ _) _ = true |- _ => learn (valueIsNot_present _ _ _ H)
  | H : typeIs (nth_error _ _) _ = true |- _ => learn (typeIs_present _ _ _ H)
  | H : JS.isSome (nth_error _ _) = true |- _ => learn (isSome_present _ _ H)
  | H : JS.isSome (nth_error _ _) = false |- _ => learn (isSome_absent _ _ H)
  | H : (_ && _)%bool = true |- _ => apply andb_prop in H; destruct H
  end.

Ltac wp_step :=
  lazymatch goal with
  | |- wp (bind _ _) _ _ _ => apply wp_bind
  | |- wp (ret _) _ _ _ => apply wp_ret
  | |- wp (peek _) _ _ _ => apply wp_peek
  | |- wp (advance _) _ _ _ => apply wp_advance; intros ? ? ?
  | |- wp (pushError _ _) _ _ _ => apply wp_pushError; intros ? ? ?
  | |- wp getCurrent _ _ _ => apply wp_getCurrent
  | |- wp (setCurrent _) _ _ _ => apply wp_setCurrent; intros ? ? ?
  | |- wp (throw _) _ _ _ => apply wp_throw
  | |- wp (prop _ _) _ _ _ => apply wp_prop; [intros ? ? | intros ?]
  | |- wp (getLoc _) _ _ _ => apply wp_getLoc; [intros ? | ]
  | |- wp (expectValue _ _ _) _ _ _ =>
      apply wp_expectValue; [intros ? ? ? ? ? | intros ? ? ?]
  | |- wp (expect _ _ _) _ _ _ => apply wp_expect; [intros ? ? ? ? ? | intros ? ?]
  | |- wp (if ?b then _ else _) _ _ _ => destruct b eqn:?
  | |- wp (match ?x with _ => _ end) _ _ _ => destruct x eqn:?
  end; cbv beta zeta.

Ltac finish :=
  unfold exc, mono, prog, loopFuel in *;
  learn_present; cbn [JS.isSome] in *;
  intuition (try discriminate; try congruence; try lia).

Ltac wp_steps := repeat wp_step; try solve [finish].

(** Use a specification at a call. *)
Ltac wp_use L :=
  eapply wp_conseq;
  [ eapply L; try solve [finish | eassumption]
  | cbv beta; intros ? ? ?
  | cbv beta; intros ? ?; try solve [finish] ].

Ltac wp_last L :=
  eapply wp_conseq;
  [ eapply L; try solve [finish | eassumption]
  | cbv beta; intros ? ? ?; try solve [intuition finish]
  | cbv beta; intros ? ?; try solve [finish] ].

(** *** The functions of the grammar

    Every function returns or throws without moving the cursor
    backwards, and every loop is entered with a budget larger than the
    number of tokens left, which each iteration consumes. *)

Section Bodies.
Variable tokens : list Token.
Local Abbreviation n := (length tokens).
Local Abbreviation cur := current.
Local Abbreviation startsSpecifier := (ParserLogic.startsSpecifier tokens).
Local Abbreviation SelfOK := (ParserLogic.SelfOK tokens).


Lemma L_includeHeaderLoop k : forall h s,
  n - cur s < k -> wp (includeHeaderLoop tokens k h) s (mono s) (exc s).
Proof.
  unfold mono, exc.
  induction k; intros h s Hk; [lia|]. cbn [includeHeaderLoop].
  wp_steps.
  eapply wp_conseq; [apply IHk; finish| |]; cbv beta; intros; finish.
Qed.

Lemma L_skipBraces k : forall b s,
  n - cur s < k -> wp (skipBraces tokens k b) s (fun _ s' => cur s < cur s') (exc s).
Proof.
  unfold exc.
  induction k; intros b s Hk; [lia|]. cbn [skipBraces].
  wp_steps.
  eapply wp_conseq; [apply IHk; finish| |]; cbv beta; intros; finish.
Qed.

Lemma L_declarationSpecifierLoop k : forall acc s,
  n - cur s < k ->
  wp (declarationSpecifierLoop tokens k acc) s
     (fun out s' => cur s <= cur s' /\
                    exists l, out = acc ++ l /\
                              (l <> [] -> cur s < cur s') /\
                              (startsSpecifier s -> l <> []))
     (exc s).
Proof.
  induction k; intros acc s Hk; [lia|]. cbn [declarationSpecifierLoop].
  wp_steps.
  all: try (wp_use L_skipBraces; wp_steps).
  all: try (eapply wp_conseq; [apply IHk; finish| |]; cbv beta; intros; [|finish]).
  all: try match goal with
       | H : _ /\ (exists _, _) |- _ =>
           destruct H as (? & l & -> & ? & ?); split; [finish|];
           eexists; split; [symmetry; apply app_assoc|];
           split; [intros; finish | intros _; discriminate]
       end.
  - split; [lia|]. exists []. rewrite app_nil_r. repeat split; try congruence.
    intros (t' & Ht' & Hs). congruence.
  - split; [lia|]. exists []. rewrite app_nil_r. repeat split; try congruence.
    intros (t' & Ht' & Hs). congruence.
Qed.

Lemma L_parseDeclarationSpecifiers s :
  wp (parseDeclarationSpecifiers tokens) s
     (fun a s' => cur s <= cur s' /\
                  (JS.isSome a = true -> cur s < cur s') /\
                  (startsSpecifier s -> JS.isSome a = true))
     (exc s).
Proof.
  unfold parseDeclarationSpecifiers. wp_steps.
  wp_use L_declarationSpecifierLoop.
  destruct H as (? & l & -> & Hl & Hs). cbn [List.app] in *.
  wp_steps.
  - split; [lia|]. split; [|reflexivity]. intros _. apply Hl.
    intros ->. discriminate.
  - split; [lia|]. split; [discriminate|]. intros Hst.
    destruct l as [|x l] using rev_ind; [now apply Hs in Hst|].
    rewrite map_app in Heqo. cbn [map] in Heqo. rewrite last_last in Heqo. discriminate.
Qed.

Section Level.
Variable f : nat.
Variable self : Parsers.
Hypothesis Hself : SelfOK f self.

Lemma L_argumentLoop k : forall args s,
  n - cur s < k -> n - cur s < f ->
  wp (argumentLoop tokens self k args) s (mono s) (exc s).
Proof.
  induction k; intros args s Hk Hf; [lia|]. cbn [argumentLoop].
  wp_steps.
  wp_use (ok_expression Hself). wp_steps.
  eapply wp_conseq; [apply IHk; finish| |]; cbv beta; intros; finish.
Qed.

Lemma L_parsePrimaryExpression s :
  n - cur s <= f ->
  wp (parsePrimaryExpression tokens self) s (prog s) (exc s).
Proof.
  intros Hf. unfold parsePrimaryExpression. wp_steps.
  - wp_use (ok_primary Hself). finish.
  - wp_use L_argumentLoop. wp_steps.
  - wp_use (ok_expression Hself). wp_steps.
Qed.

Lemma L_parseUnaryExpression s :
  n - cur s <= f ->
  wp (parseUnaryExpression tokens self) s (prog s) (exc s).
Proof.
  intros Hf. unfold parseUnaryExpression. wp_steps.
  - wp_use (ok_unary Hself). wp_steps.
  - wp_use L_parsePrimaryExpression. finish.
  - wp_use L_parsePrimaryExpression. finish.
Qed.

Lemma L_binaryLoop k : forall p l s,
  n - cur s < k -> n - cur s <= f ->
  wp (binaryLoop tokens self k p l) s (mono s) (exc s).
Proof.
  induction k; intros p l s Hk Hf; [lia|]. cbn [binaryLoop].
  wp_steps.
  wp_use (ok_binary Hself). wp_steps.
  eapply wp_conseq; [apply IHk; finish| |]; cbv beta; intros; finish.
Qed.

Lemma L_parseBinaryExpression p s :
  n - cur s <= f ->
  wp (parseBinaryExpression tokens self p) s (prog s) (exc s).
Proof.
  intros Hf. unfold parseBinaryExpression. wp_steps.
  wp_use L_parseUnaryExpression. wp_steps.
  wp_use L_binaryLoop. finish.
Qed.

Lemma L_parseAssignmentExpression s :
  n - cur s <= f ->
  wp (parseAssignmentExpression tokens self) s (prog s) (exc s).
Proof.
  intros Hf. unfold parseAssignmentExpression. wp_steps.
  wp_use L_parseBinaryExpression. wp_steps.
  wp_use (ok_assignment Hself). wp_steps.
Qed.

Lemma L_parseExpression s :
  n - cur s <= f ->
  wp (parseExpression tokens self) s (prog s) (exc s).
Proof. apply L_parseAssignmentExpression. Qed.

Lemma L_parseVariableDeclarator ts s :
  n - cur s <= f ->
  wp (parseVariableDeclarator tokens self ts) s (prog s) (exc s).
Proof.
  intros Hf. unfold parseVariableDeclarator. wp_steps.
  all: repeat (wp_use L_parseExpression; wp_steps).
Qed.

Lemma L_declaratorLoop k : forall ts acc s,
  n - cur s < k -> n - cur s <= f ->
  wp (declaratorLoop tokens self k ts acc) s (mono s) (exc s).
Proof.
  induction k; intros ts acc s Hk Hf; [lia|]. cbn [declaratorLoop].
  wp_steps.
  all: wp_use L_parseVariableDeclarator; wp_steps.
  all: eapply wp_conseq; [apply IHk; finish| |]; cbv beta; intros; finish.
Qed.

Lemma L_parseVariableDeclaration s :
  n - cur s <= f ->
  wp (parseVariableDeclaration tokens self) s
     (fun a s' => cur s <= cur s' /\
                  (JS.isSome a = true -> cur s < cur s') /\
                  (startsSpecifier s -> cur s < cur s'))
     (exc s).
Proof.
  intros Hf. unfold parseVariableDeclaration. wp_steps.
  wp_use L_parseDeclarationSpecifiers. wp_steps.
  wp_use L_declaratorLoop. wp_steps.
Qed.

Lemma L_parseReturnStatement s :
  n - cur s <= f ->
  wp (parseReturnStatement tokens self) s (fun _ s' => cur s < cur s') (exc s).
Proof.
  intros Hf. unfold parseReturnStatement. wp_steps.
  all: repeat (wp_use L_parseExpression; wp_steps).
Qed.

Lemma L_blockLoop k : forall body s,
  n - cur s < k -> n - cur s < f ->
  wp (blockLoop tokens self k body) s (mono s) (exc s).
Proof.
  induction k; intros body s Hk Hf; [lia|]. cbn [blockLoop].
  wp_steps.
  wp_use (ok_statement Hself). wp_steps.
  all: eapply wp_conseq; [apply IHk; finish| |]; cbv beta; intros; finish.
Qed.

Lemma L_parseBlockStatement s :
  n - cur s <= f ->
  wp (parseBlockStatement tokens self) s
     (fun a s' => cur s <= cur s' /\
                  (JS.isSome a = true -> cur s < cur s') /\
                  (valueIs (nth_error tokens (cur s)) "{" = true -> cur s < cur s'))
     (exc s).
Proof.
  intros Hf. unfold parseBlockStatement. wp_steps.
  wp_use L_blockLoop. wp_steps.
Qed.

Lemma L_parseIfStatement s :
  n - cur s <= f -> cur s < n ->
  wp (parseIfStatement tokens self) s (fun _ s' => cur s < cur s') (exc s).
Proof.
  intros Hf Hn. unfold parseIfStatement. wp_steps.
  wp_use L_parseExpression. wp_steps.
  wp_use (ok_statement Hself). wp_steps.
  all: try (wp_use (ok_statement Hself); wp_steps).
Qed.

Lemma L_parseWhileStatement s :
  n - cur s <= f -> cur s < n ->
  wp (parseWhileStatement tokens self) s (fun _ s' => cur s < cur s') (exc s).
Proof.
  intros Hf Hn. unfold parseWhileStatement. wp_steps.
  wp_use L_parseExpression. wp_steps.
  wp_use (ok_statement Hself). wp_steps.
Qed.

Lemma L_parseForStatement s :
  n - cur s <= f -> cur s < n ->
  wp (parseForStatement tokens self) s (fun _ s' => cur s < cur s') (exc s).
Proof.
  intros Hf Hn. unfold parseForStatement. wp_steps.
  all: repeat first
         [ wp_use L_parseVariableDeclaration; wp_steps
         | wp_use L_parseExpression; wp_steps
         | wp_use (ok_statement Hself); wp_steps ].
Qed.

Lemma L_parseExpressionStatement s :
  n - cur s <= f ->
  wp (parseExpressionStatement tokens self) s
     (fun _ s' => cur s <= cur s' /\ (cur s < n -> cur s < cur s')) (exc s).
Proof.
  intros Hf. unfold parseExpressionStatement. wp_steps.
  wp_use L_parseExpression. wp_steps.
Qed.

Lemma L_parseStatement s :
  n - cur s <= f ->
  wp (parseStatement tokens self) s
     (fun _ s' => cur s <= cur s' /\ (cur s < n -> cur s < cur s')) (exc s).
Proof.
  intros Hf. unfold parseStatement. wp_steps.
  - wp_use L_parseVariableDeclaration.
    assert (startsSpecifier s) by (eexists; eauto). finish.
  - wp_use L_parseReturnStatement. finish.
  - wp_use L_parseIfStatement. finish.
  - wp_use L_parseForStatement. finish.
  - wp_use L_parseWhileStatement. finish.
  - wp_use L_parseBlockStatement.
    assert (valueIs (nth_error tokens (cur s)) "{" = true)
      by (rewrite Heqo; assumption).
    finish.
  - wp_use L_parseExpressionStatement. finish.
Qed.

Lemma build_ok : SelfOK (S f) (build tokens self).
Proof.
  constructor; cbn [build rec_parsePrimaryExpression rec_parseUnaryExpression
    rec_parseBinaryExpression rec_parseAssignmentExpression rec_parseExpression
    rec_parseStatement]; intros.
  - apply L_parsePrimaryExpression; lia.
  - apply L_parseUnaryExpression; lia.
  - apply L_parseBinaryExpression; lia.
  - apply L_parseAssignmentExpression; lia.
  - apply L_parseExpression; lia.
  - apply L_parseStatement; lia.
Qed.

End Level.

Lemma parsers_ok f : SelfOK f (parsers tokens f).
Proof.
  induction f as [|f IH].
  - constructor; intros; lia.
  - cbn [parsers]. now apply build_ok.
Qed.


Section Top.
Let top : Parsers := parsers tokens (S n).
Let Htop : SelfOK (S n) top := parsers_ok (S n).

Lemma L_parameterLoop k : forall ps s,
  n - cur s < k -> wp (parameterLoop tokens top k ps) s (mono s) (exc s).
Proof.
  induction k; intros ps s Hk; [lia|]. cbn [parameterLoop].
  wp_steps.
  wp_use L_parseDeclarationSpecifiers. wp_steps.
  all: repeat (wp_use (L_parseExpression _ _ Htop); wp_steps).
  all: eapply wp_conseq; [apply IHk; finish| |]; cbv beta; intros; finish.
Qed.

Lemma L_parseParameters s :
  wp (parseParameters tokens top) s (mono s) (exc s).
Proof.
  unfold parseParameters. wp_steps.
  all: wp_use L_parameterLoop; wp_steps.
Qed.

Lemma L_parseFunctionDeclaration s :
  wp (parseFunctionDeclaration tokens top) s
     (fun _ s' => cur s <= cur s' /\ (startsSpecifier s -> cur s < cur s'))
     (exc s).
Proof.
  unfold parseFunctionDeclaration, parseFunctionBody. wp_steps.
  wp_use L_parseDeclarationSpecifiers. wp_steps.
  all: wp_use L_parseParameters; wp_steps.
  all: wp_use (L_parseBlockStatement _ _ Htop); wp_steps.
Qed.

Lemma L_parseTypedef s :
  wp (parseTypedef tokens) s (fun _ s' => cur s < cur s') (exc s).
Proof.
  unfold parseTypedef. wp_steps.
  wp_use L_parseDeclarationSpecifiers. wp_steps.
Qed.

Lemma L_defineLoop k : forall s,
  n - cur s < k -> wp (defineLoop tokens k) s (mono s) (exc s).
Proof.
  induction k; intros s Hk; [lia|]. cbn [defineLoop].
  wp_steps.
  eapply wp_conseq; [apply IHk; finish| |]; cbv beta; intros; finish.
Qed.

Lemma L_parseInclude s :
  wp (parseInclude tokens) s (fun _ s' => cur s < cur s') (exc s).
Proof.
  unfold parseInclude. wp_steps.
  wp_use L_includeHeaderLoop. wp_steps.
Qed.

Lemma L_parsePreprocessorDirective s :
  wp (parsePreprocessorDirective tokens) s (fun _ s' => cur s < cur s') (exc s).
Proof.
  unfold parsePreprocessorDirective. wp_steps.
  - wp_use L_parseInclude. finish.
  - wp_use L_defineLoop. wp_steps.
Qed.

Lemma L_parseTopLevel token s :
  nth_error tokens (cur s) = Some token ->
  wp (parseTopLevel tokens top token) s (fun _ s' => cur s < cur s') (exc s).
Proof.
  intros Htok. unfold parseTopLevel. wp_steps.
  - wp_use L_parsePreprocessorDirective. finish.
  - wp_use L_parseTypedef. finish.
  - wp_use L_parseDeclarationSpecifiers. wp_steps.
    all: try (wp_use L_parseFunctionDeclaration).
    all: try (wp_use (L_parseVariableDeclaration _ _ Htop)).
    all: try match goal with
         | Hc : current ?s1 = current ?s0,
           Ht : nth_error tokens (current ?s0) = Some ?tk |- _ =>
             assert (startsSpecifier s1)
               by (exists tk; rewrite Hc; split; assumption)
         end.
    all: finish.
  - wp_use (L_parseStatement _ _ Htop). finish.
  - wp_use (L_parseReturnStatement _ _ Htop). finish.
  - wp_use (L_parseBlockStatement _ _ Htop).
    assert (valueIs (nth_error tokens (cur s)) "{" = true)
      by (rewrite Htok; assumption).
    finish.
Qed.

Lemma L_programLoop k : forall body s,
  n - cur s < k ->
  wp (programLoop tokens top k body) s (fun _ _ => True) (fun _ => False).
Proof.
  induction k; intros body s Hk; [lia|]. cbn [programLoop].
  wp_steps.
  apply wp_tryCatch.
  eapply wp_conseq; [apply L_parseTopLevel; eassumption | |]; cbv beta; intros.
  - eapply wp_conseq; [apply IHk; finish| |]; cbv beta; intros; auto.
  - wp_steps.
    eapply wp_conseq; [apply IHk; finish| |]; cbv beta; intros; auto.
Qed.

Lemma L_parseProgram :
  exists body s,
    parseProgram tokens top (mkState 0 [] 0) = Ret (Program body) s.
Proof.
  pose proof (L_programLoop (loopFuel tokens) [] (mkState 0 [] 0)) as H.
  unfold wp, parseProgram, bind, ret in *.
  destruct (programLoop tokens top (loopFuel tokens) [] (mkState 0 [] 0)).
  - eauto.
  - exfalso. apply H. unfold loopFuel. simpl. lia.
  - exfalso. apply H. unfold loopFuel. simpl. lia.
Qed.

End Top.
End Bodies.

(** C8 (amended): for every token list the parser returns normally, with
    a program node and the state that holds its error list; it neither
    throws out of its top-level loop nor runs forever. *)
Theorem parser_returns tokens :
  exists body s, parser tokens = Ret (Program body) s.
Proof. apply L_parseProgram. Qed.

(** *** A quadratic family of inputs *)

Lemma bind_Ret {A B} (m : M A) (f : A -> M B) s a s' :
  m s = Ret a s' -> bind m f s = f a s'.
Proof. unfold bind. now intros ->. Qed.

Section Quadratic.
Variable n : nat.
Variable self : Parsers.
Let tokens := Scenario.typeTokens n.

Lemma typeTokens_length : length tokens = n.
Proof. unfold tokens, Scenario.typeTokens. now rewrite length_map, length_seq. Qed.

Lemma typeTokens_nth c :
  c < n ->
  nth_error tokens c = Some (mkToken "type" "int" (4 * c) (4 * c + 3) 1 (S (4 * c))).
Proof.
  intros H. unfold tokens, Scenario.typeTokens.
  rewrite nth_error_map, nth_error_seq.
  destruct (Nat.ltb_spec c n); [reflexivity | lia].
Qed.

Lemma typeTokens_end c : n <= c -> nth_error tokens c = None.
Proof. intros H. apply nth_error_None. now rewrite typeTokens_length. Qed.

Lemma specifierLoop_typeTokens k : forall acc c errs st,
  c <= n -> n - c < k ->
  exists l,
    declarationSpecifierLoop tokens k acc (mkState c errs st) =
    Ret (acc ++ l) (mkState n errs (st + (n - c))) /\ length l = n - c.
Proof.
  induction k; intros acc c errs st Hc Hk; [lia|].
  cbn [declarationSpecifierLoop]. unfold bind at 1, peek at 1. cbn [current].
  destruct (Nat.eq_dec c n) as [->|Hne].
  - rewrite typeTokens_end by lia. exists []. rewrite app_nil_r.
    unfold ret. split; [|simpl; lia]. f_equal. f_equal. lia.
  - rewrite typeTokens_nth by lia. cbn.
    rewrite typeTokens_nth by lia. cbn.
    destruct (IHk (acc ++
      [mkSpecifier "TypeSpecifier" None (Some "int") (mkLoc (4 * c) (4 * c + 3))])
      (S c) errs (S st)) as (l & Hl & Hlen); [lia | lia |].
    unfold tokLoc in *. cbn in *. rewrite Hl. eexists. rewrite <- app_assoc.
    split; [f_equal; f_equal; lia | simpl; lia].
Qed.

Lemma parseDeclarationSpecifiers_typeTokens c errs st :
  c < n ->
  exists ds,
    parseDeclarationSpecifiers tokens (mkState c errs st) =
    Ret (Some ds) (mkState n errs (st + (n - c))).
Proof.
  intros Hc. unfold parseDeclarationSpecifiers, bind at 1, peek at 1.
  cbn [current]. unfold bind.
  destruct (specifierLoop_typeTokens (loopFuel tokens) [] c errs st)
    as (l & Hl & Hlen); [lia | unfold loopFuel; rewrite typeTokens_length; lia |].
  rewrite Hl. cbn [List.app].
  destruct l as [|x l] using rev_ind; [simpl in Hlen; lia|].
  rewrite map_app. cbn [map]. rewrite last_last. unfold ret. eauto.
Qed.

Lemma parseTopLevel_typeTokens c errs st :
  c < n ->
  exists errs',
    parseTopLevel tokens self
      (mkToken "type" "int" (4 * c) (4 * c + 3) 1 (S (4 * c))) (mkState c errs st) =
    Ret None (mkState (S c) errs' (S (st + (n - c)))).
Proof.
  intros Hc. unfold parseTopLevel. cbn [tok_value tok_type].
  change ("int" === "typedef") with false.
  change (isSpecifierStart _) with true.
  change (JS.startsWith "int" "#") with false. cbv iota.
  destruct (parseDeclarationSpecifiers_typeTokens c errs st Hc) as (ds & Hds).
  erewrite bind_Ret by reflexivity. cbn [current].
  erewrite bind_Ret by exact Hds.
  erewrite bind_Ret by reflexivity. cbn [current].
  rewrite typeTokens_end by lia. cbn. eauto.
Qed.

Lemma programLoop_typeTokens k : forall body c errs st,
  c <= n -> n - c < k ->
  exists body' errs',
    programLoop tokens self k body (mkState c errs st) =
    Ret body' (mkState n errs' (st + (n - c) * (n - c + 3) / 2)).
Proof.
  induction k; intros body c errs st Hc Hk; [lia|].
  cbn [programLoop].
  erewrite bind_Ret by reflexivity. cbn [current].
  rewrite typeTokens_length.
  destruct (Nat.ltb_spec c n) as [Hlt|Hge].
  - erewrite bind_Ret by (unfold peek; cbn [current]; rewrite typeTokens_nth by lia; reflexivity).
    destruct (parseTopLevel_typeTokens c errs st Hlt) as (errs' & Htop).
    erewrite bind_Ret by (unfold tryCatch; rewrite Htop; reflexivity).
    destruct (IHk body (S c) errs' (S (st + (n - c)))) as (b' & e' & ->);
      [lia | lia |].
    do 2 eexists. f_equal. f_equal.
    replace (n - c) with (S (n - S c)) by lia.
    set (m := n - S c).
    replace (S m * (S m + 3)) with (m * (m + 3) + (m + 2) * 2) by lia.
    rewrite Nat.div_add by lia. lia.
  - assert (c = n) by lia. subst c. unfold ret. do 2 eexists. f_equal. f_equal.
    rewrite Nat.sub_diag. simpl. lia.
Qed.
End Quadratic.

Lemma parser_steps_typeTokens n :
  parser_steps (Scenario.typeTokens n) = n * (n + 3) / 2.
Proof.
  unfold parser_steps, parser, parseProgram, bind.
  destruct (programLoop_typeTokens n
              (parsers (Scenario.typeTokens n) (S (length (Scenario.typeTokens n))))
              (loopFuel (Scenario.typeTokens n)) [] 0 [] 0)
    as (b & e & ->); [lia | unfold loopFuel; rewrite typeTokens_length; lia |].
  unfold ret. cbn [steps]. rewrite Nat.sub_0_r. reflexivity.
Qed.

(** The number of calls of [advance] is bounded by no linear function of
    the number of tokens. *)
Lemma parser_not_linear :
  ~ exists a b, forall tokens, parser_steps tokens <= a * length tokens + b.
Proof.
  intros (a & b & H).
  specialize (H (Scenario.typeTokens (2 * a + 2 * b + 2))).
  rewrite parser_steps_typeTokens, typeTokens_length in H.
  set (m := 2 * a + 2 * b + 2) in *.
  assert (Hd : m * (m + 3) / 2 * 2 <= (a * m + b) * 2) by lia.
  assert (He : m * (m + 3) <= m * (m + 3) / 2 * 2 + 1).
  { pose proof (Nat.div_mod_eq (m * (m + 3)) 2) as E.
    pose proof (Nat.mod_upper_bound (m * (m + 3)) 2). lia. }
  nia.
Qed.

(** *** Grouping of expressions *)

Import Precedence.

Lemma operators_level v q a :
  operators v = Some (q, a) -> level v = Some q /\ a = "left" /\ q <= 5.
Proof.
  unfold operators, level.
  repeat match goal with
  | |- context [v === ?c] => destruct (v === c) eqn:?
  end; cbn [orb]; intros H; inversion H; subst; repeat split; try lia;
    repeat match goal with
    | E : (v === _) = true |- _ => apply String.eqb_eq in E; subst v
    end; try discriminate.
Qed.

Lemma level_operators v q :
  level v = Some q -> operators v = Some (q, "left").
Proof.
  unfold operators, level.
  repeat match goal with
  | |- context [v === ?c] => destruct (v === c) eqn:?
  end; cbn [orb]; intros H; inversion H; subst; try reflexivity;
    repeat match goal with
    | E : (v === _) = true |- _ => apply String.eqb_eq in E; subst v
    end; try discriminate.
Qed.

Lemma shape_location e t : shape e = Some t -> exists l, node_location e = Some l.
Proof. destruct e; simpl; try discriminate; eauto. Qed.

Lemma getLoc_shape e t s :
  shape e = Some t -> exists l, getLoc e s = Ret l s.
Proof.
  intros H. destruct (shape_location e t H) as (l & Hl).
  exists l. unfold getLoc. now rewrite Hl.
Qed.

Lemma expectValue_present tokens v msg s t :
  nth_error tokens (current s) = Some t -> tok_value t = v ->
  expectValue tokens v msg s =
  Ret (Some t) (mkState (S (current s)) (errors s) (S (steps s))).
Proof.
  intros Ht Hv. unfold expectValue. erewrite bind_Ret by reflexivity.
  rewrite Ht, Hv, String.eqb_refl. unfold advance. now rewrite Ht.
Qed.

Lemma upTo_S tokens j x :
  nth_error tokens j = Some x -> upTo tokens (S j) = upTo tokens j ++ [tok_value x].
Proof.
  unfold upTo. revert tokens. induction j; intros [|y l] H; try discriminate.
  - simpl in *. now inversion H.
  - simpl in H. rewrite !firstn_cons. cbn [map]. rewrite (IHj l H). reflexivity.
Qed.


Section Chain.
Variable tokens : list Token.
Variable len : nat.
Hypothesis Hlen : exists m, len = 2 * m + 1.
Hypothesis Hoperand : forall k, 2 * k < len ->
  exists x, nth_error tokens (2 * k) = Some x /\ isOperand x = true.
Hypothesis Hoperator : forall k, 2 * k + 1 < len ->
  exists o, nth_error tokens (2 * k + 1) = Some o /\ isOperator o = true.
Hypothesis Hsemi : exists semi, nth_error tokens len = Some semi /\ tok_value semi = ";".
Hypothesis Hlength : length tokens = S len.

Local Abbreviation upTo := (Precedence.upTo tokens).
Local Abbreviation belowLevel := (Precedence.belowLevel tokens).
Local Abbreviation parsedTo := (Precedence.parsedTo tokens len).
Local Abbreviation parsedAll := (Precedence.parsedAll tokens len).

Lemma operator_not_call o :
  isOperator o = true -> (tok_value o === "(") = false.
Proof.
  unfold isOperator, level. intros H.
  destruct (tok_value o === "(") eqn:E; [|reflexivity].
  apply String.eqb_eq in E. rewrite E in H. discriminate.
Qed.

(** After an operand comes no opening parenthesis. *)
Lemma next_not_call k :
  2 * k < len -> valueIs (nth_error tokens (S (2 * k))) "(" = false.
Proof.
  intros Hk. destruct Hlen as (m & Hm).
  destruct (Nat.eq_dec (S (2 * k)) len) as [E|E].
  - destruct Hsemi as (semi & Hs & Hv). rewrite E, Hs. simpl. now rewrite Hv.
  - destruct (Hoperator k) as (o & Ho & Hop); [lia|].
    replace (S (2 * k)) with (2 * k + 1) by lia. rewrite Ho. simpl.
    now apply operator_not_call.
Qed.

(** A binary operator stands before the end of the expression. *)
Lemma operator_inside j o q a :
  j <= len -> nth_error tokens j = Some o ->
  operators (tok_value o) = Some (q, a) -> j < len.
Proof.
  intros Hj Ho Hq. destruct (Nat.eq_dec j len) as [->|]; [|lia].
  destruct Hsemi as (semi & Hs & Hv). rewrite Hs in Ho. inversion Ho; subst o.
  rewrite Hv in Hq. discriminate.
Qed.

Section Depth.
Variable f : nat.
Variable self : Parsers.

Hypothesis HrecB : forall p s,
  p <= 6 -> (exists m, current s = 2 * m) -> current s < len -> len - current s <= f ->
  parsedTo p (current s) (rec_parseBinaryExpression self p s) s.

Lemma parseUnary_operand s x :
  nth_error tokens (current s) = Some x -> isOperand x = true ->
  valueIs (nth_error tokens (S (current s))) "(" = false ->
  parseUnaryExpression tokens self s =
  Ret (Some (Identifier (mkIdent (tok_value x) (tokLoc x))))
      (mkState (S (current s)) (errors s) (S (steps s))).
Proof.
  intros Hx Hop Hnext. unfold isOperand in Hop.
  apply andb_prop in Hop. destruct Hop as [Hop _].
  apply andb_prop in Hop. destruct Hop as [Hop _].
  apply andb_prop in Hop. destruct Hop as [Hty Hun].
  apply String.eqb_eq in Hty. apply negb_true_iff in Hun.
  unfold parseUnaryExpression.
  erewrite bind_Ret by reflexivity. rewrite Hx, Hun.
  unfold parsePrimaryExpression.
  erewrite bind_Ret by reflexivity. rewrite Hx, Hty.
  cbn [String.eqb Ascii.eqb Bool.eqb].
  erewrite bind_Ret by reflexivity. rewrite Hx.
  erewrite bind_Ret by reflexivity.
  erewrite bind_Ret by reflexivity. cbn [current]. rewrite Hnext.
  reflexivity.
Qed.


Lemma binaryLoop_grouped k : forall p e t s i,
  len - current s < k -> len - current s <= S f ->
  (exists m, current s = 2 * m + 1) -> i < current s <= len ->
  shape e = Some t -> grouped t = true -> p < rank t ->
  belowLevel (current s) (rank t) ->
  upTo (current s) = upTo i ++ words t ->
  parsedTo p i (binaryLoop tokens self k p e s) s.
Proof.
  induction k; intros p e t s i Hk Hf Hodd Hi Hsh Hg Hp Hb Hup; [lia|].
  cbn [binaryLoop]. erewrite bind_Ret by reflexivity.
  destruct (nth_error tokens (current s)) as [o|] eqn:Ho.
  - destruct (operators (tok_value o)) as [[q a]|] eqn:Hq.
    + destruct (operators_level _ _ _ Hq) as (Hlv & -> & Hq5).
      destruct (p <=? q) eqn:Hpq.
      * apply Nat.leb_le in Hpq.
        pose proof (operator_inside _ _ _ _ (proj2 Hi) Ho Hq) as Hin.
        erewrite bind_Ret by reflexivity. rewrite Ho.
        erewrite bind_Ret by reflexivity. rewrite Hq.
        cbn [String.eqb Ascii.eqb Bool.eqb].
        set (s1 := mkState (S (current s)) (errors s) (S (steps s))).
        destruct Hodd as (m & Hm). destruct Hlen as (M & HM).
        destruct (HrecB (q + 1) s1)
          as (er & s2 & tr & Hr & He & Hrange & Hodd2 & Hshr & Hgr & Hrk & Hupr & Hbr);
          [lia | exists (S m); cbn; lia | cbn; lia | cbn; lia |].
        subst s1. cbn [current errors] in *.
        erewrite bind_Ret by exact Hr.
        destruct (getLoc_shape e t s2 Hsh) as (ll & Hll).
        destruct (getLoc_shape er tr s2 Hshr) as (rl & Hrl).
        erewrite bind_Ret by exact Hll. erewrite bind_Ret by exact Hrl.
        destruct (IHk p (BinaryExpression (tok_value o) e er
                           (mkLoc (loc_start ll) (loc_end rl)))
                    (Bin (tok_value o) t tr) s2 i)
          as (e' & s' & t' & H1 & H2 & H3 & H4 & H5 & H6 & H7 & H8 & H9);
          try lia; try assumption.
        -- cbn [shape]. now rewrite Hsh, Hshr.
        -- cbn [grouped]. rewrite Hlv, Hg, Hgr. cbn [andb].
           apply andb_true_intro. split.
           ++ apply Nat.leb_le. exact (Hb _ _ _ Ho Hq).
           ++ apply Nat.ltb_lt. lia.
        -- cbn [rank]. rewrite Hlv. lia.
        -- cbn [rank]. rewrite Hlv. intros o' q' a' Ho' Hq'.
           specialize (Hbr _ _ _ Ho' Hq'). lia.
        -- rewrite Hupr, (upTo_S _ _ _ Ho), Hup. cbn [words].
           now rewrite <- !app_assoc.
        -- exists e', s', t'. repeat split; try assumption; try lia. congruence.
      * apply Nat.leb_gt in Hpq.
        exists e, s, t. repeat split; try assumption; try lia.
        intros o' q' a' Ho' Hq'. rewrite Ho in Ho'. inversion Ho'; subst o'.
        rewrite Hq in Hq'. inversion Hq'; subst. exact Hpq.
    + exists e, s, t. repeat split; try assumption; try lia.
      intros o' q' a' Ho' Hq'. rewrite Ho in Ho'. inversion Ho'; subst o'.
      congruence.
  - exists e, s, t. repeat split; try assumption; try lia.
    intros o' q a Ho'. congruence.
Qed.

Lemma parseBinary_grouped p s :
  p <= 6 -> (exists m, current s = 2 * m) -> current s < len ->
  len - current s <= S f ->
  parsedTo p (current s) (parseBinaryExpression tokens self p s) s.
Proof.
  intros Hp (m & Hm) Hc Hf. unfold parseBinaryExpression.
  destruct (Hoperand m) as (x & Hx & Hop); [lia|]. rewrite <- Hm in Hx.
  erewrite bind_Ret
    by (apply (parseUnary_operand s x Hx Hop); rewrite Hm; apply next_not_call; lia).
  destruct (binaryLoop_grouped (loopFuel tokens) p
              (Identifier (mkIdent (tok_value x) (tokLoc x)))
              (Leaf (tok_value x))
              (mkState (S (current s)) (errors s) (S (steps s))) (current s))
    as (e' & s' & t' & H1 & H2 & H3);
    cbn [current errors shape grouped rank name];
    try reflexivity; try lia.
  - unfold loopFuel. lia.
  - exists m. lia.
  - intros o q a _ Hq. apply operators_level in Hq. lia.
  - apply upTo_S. exact Hx.
  - exists e', s', t'. auto.
Qed.

Hypothesis HrecA : forall s,
  (exists m, current s = 2 * m) -> current s < len -> len - current s <= f ->
  parsedAll (rec_parseAssignmentExpression self s) s.

Lemma parseAssignment_grouped s :
  (exists m, current s = 2 * m) -> current s < len -> len - current s <= S f ->
  parsedAll (parseAssignmentExpression tokens self s) s.
Proof.
  intros Heven Hc Hf. unfold parseAssignmentExpression.
  destruct (parseBinary_grouped 0 s)
    as (e & s1 & t & Hr & He & Hrange & (k & Hk) & Hsh & Hg & Hrk & Hup & Hb);
    try assumption; try lia.
  erewrite bind_Ret by exact Hr. cbv beta iota.
  erewrite bind_Ret by reflexivity.
  destruct Hlen as (M & HM).
  destruct (valueIs (nth_error tokens (current s1)) "=") eqn:Hv.
  - destruct (nth_error tokens (current s1)) as [o|] eqn:Ho; [|discriminate].
    cbn [valueIs] in Hv. apply String.eqb_eq in Hv.
    assert (Hin : current s1 < len).
    { destruct (Nat.eq_dec (current s1) len) as [E|]; [|lia].
      destruct Hsemi as (semi & Hs & Hsv). rewrite E, Hs in Ho.
      inversion Ho; subst o. rewrite Hsv in Hv. discriminate. }
    erewrite bind_Ret by reflexivity. rewrite Ho.
    erewrite bind_Ret by reflexivity.
    set (s2 := mkState (S (current s1)) (errors s1) (S (steps s1))).
    destruct (HrecA s2) as (er & s3 & tr & Hr3 & He3 & Hc3 & Hshr & Hgr & Hupr);
      [exists (S k); cbn; lia | cbn; lia | cbn; lia |].
    subst s2. cbn [current errors] in *.
    erewrite bind_Ret by exact Hr3.
    destruct (getLoc_shape e t s3 Hsh) as (ll & Hll).
    destruct (getLoc_shape er tr s3 Hshr) as (rl & Hrl).
    erewrite bind_Ret by exact Hll. erewrite bind_Ret by exact Hrl.
    eexists _, s3, (Asg t tr). split; [reflexivity|].
    repeat split; try assumption; try congruence.
    + cbn [shape]. now rewrite Hsh, Hshr, Hv.
    + cbn [grouped]. rewrite Hg, Hgr. cbn [andb]. apply Nat.ltb_lt. lia.
    + rewrite Hupr, (upTo_S _ _ _ Ho), Hup, Hv. cbn [words].
      now rewrite <- !app_assoc.
  - assert (Hend : current s1 = len).
    { destruct (Nat.eq_dec (current s1) len) as [E|E]; [exact E|exfalso].
      destruct (Hoperator k) as (o & Ho & Hop); [lia|].
      rewrite <- Hk in Ho. rewrite Ho in Hv. cbn [valueIs] in Hv.
      unfold isOperator in Hop. rewrite Hv, orb_false_r in Hop.
      destruct (level (tok_value o)) as [q|] eqn:Hl; [|discriminate].
      apply level_operators in Hl. specialize (Hb _ _ _ Ho Hl). lia. }
    exists e, s1, t. rewrite <- Hend. repeat split; assumption.
Qed.

End Depth.

Lemma grouped_at_depth f :
  (forall p s,
     p <= 6 -> (exists m, current s = 2 * m) -> current s < len ->
     len - current s <= f ->
     parsedTo p (current s) (rec_parseBinaryExpression (parsers tokens f) p s) s) /\
  (forall s,
     (exists m, current s = 2 * m) -> current s < len -> len - current s <= f ->
     parsedAll (rec_parseAssignmentExpression (parsers tokens f) s) s).
Proof.
  induction f as [|f [IHB IHA]]; [split; intros; lia|].
  cbn [parsers build rec_parseBinaryExpression rec_parseAssignmentExpression].
  split; intros.
  - apply (parseBinary_grouped f); auto.
  - apply (parseAssignment_grouped f); auto.
Qed.

Lemma operand_dispatch x :
  isOperand x = true ->
  tok_type x = "identifier" /\
  JS.startsWith (tok_value x) "#" = false /\
  (tok_value x === "typedef") = false /\
  (tok_value x === "struct") = false /\
  (tok_value x === "union") = false /\
  (tok_value x === "enum") = false /\
  (tok_value x === "return") = false /\
  (tok_value x === "if") = false /\
  (tok_value x === "for") = false /\
  (tok_value x === "while") = false /\
  (tok_value x === "{") = false.
Proof.
  unfold isOperand, reserved, JS.inList. cbn [existsb]. intros H.
  repeat match goal with
  | H : (_ && _)%bool = true |- _ => apply andb_prop in H; destruct H
  | H : negb _ = true |- _ => apply negb_true_iff in H
  | H : (_ || _)%bool = false |- _ => apply orb_false_elim in H; destruct H
  | H : (_ === _) = true |- _ => apply String.eqb_eq in H
  end.
  repeat split; assumption.
Qed.

Lemma parseStatement_chain s :
  current s = 0 ->
  exists e l s' t,
    parseStatement tokens (parsers tokens (S (length tokens))) s =
      Ret (Some (ExpressionStatement e l)) s' /\
    errors s' = errors s /\ current s' = S len /\
    shape e = Some t /\ grouped t = true /\ words t = upTo len.
Proof.
  intros Hc. destruct Hlen as (M & HM).
  destruct (Hoperand 0) as (x & Hx & Hop); [lia|].
  destruct (operand_dispatch x Hop)
    as (Hty & _ & _ & H1 & H2 & H3 & H4 & H5 & H6 & H7 & H8).
  unfold parseStatement. erewrite bind_Ret by reflexivity.
  rewrite Hc. change (2 * 0) with 0 in Hx. rewrite Hx.
  unfold isSpecifierStart. rewrite Hty, H1, H2, H3, H4, H5, H6, H7, H8.
  cbn [String.eqb Ascii.eqb Bool.eqb orb].
  unfold parseExpressionStatement, parseExpression.
  destruct (grouped_at_depth (S (length tokens))) as [HB HA].
  destruct (parseAssignment_grouped (S (length tokens)) _ HB HA s)
    as (e & s1 & t & Hr & He & Hc1 & Hsh & Hg & Hup);
    [exists 0; lia | lia | lia |].
  erewrite bind_Ret by exact Hr. cbv beta iota.
  destruct Hsemi as (semi & Hs & Hv).
  erewrite bind_Ret
    by (apply (expectValue_present _ _ _ _ semi); [now rewrite Hc1 | exact Hv]).
  destruct (getLoc_shape e t (mkState (S (current s1)) (errors s1) (S (steps s1))) Hsh)
    as (l & Hl).
  erewrite bind_Ret by exact Hl. erewrite bind_Ret by reflexivity.
  eexists _, _, _, t. split; [reflexivity|]. cbn [current errors].
  repeat split; try assumption; try congruence.
  rewrite Hup, Hc. reflexivity.
Qed.

Lemma parser_chain :
  exists e l s t,
    parser tokens = Ret (Program [ExpressionStatement e l]) s /\
    errors s = [] /\
    shape e = Some t /\ grouped t = true /\ words t = upTo len.
Proof.
  destruct (parseStatement_chain (mkState 0 [] 0) eq_refl)
    as (e & l & s' & t & Hr & He & Hc & Hsh & Hg & Hw).
  destruct (Hoperand 0) as (x & Hx & Hop); [destruct Hlen; lia|].
  destruct (operand_dispatch x Hop) as (Hty & Hh & Ht & H1 & H2 & H3 & _).
  change (2 * 0) with 0 in Hx.
  exists e, l, s', t. split; [|auto].
  rewrite Hlength in Hr.
  assert (Hend : forall k body,
            programLoop tokens (parsers tokens (S (S len))) (S k) body s' =
            Ret body s').
  { intros k body. cbn [programLoop].
    erewrite bind_Ret by reflexivity. rewrite Hc, Hlength.
    now rewrite Nat.ltb_irrefl. }
  assert (Hloop : forall k,
            programLoop tokens (parsers tokens (S (S len))) (S (S k)) []
              (mkState 0 [] 0) = Ret [ExpressionStatement e l] s').
  { intros k. remember (S k) as k' eqn:Hk'. cbn [programLoop].
    erewrite bind_Ret by reflexivity. cbn [current]. rewrite Hlength.
    change (0 <? S len) with true. cbv iota.
    erewrite bind_Ret
      by (unfold peek; cbn [current]; exact (f_equal (fun o => Ret o _) Hx)).
    cbv iota.
    erewrite bind_Ret.
    2:{ unfold tryCatch, parseTopLevel, isSpecifierStart.
        rewrite Hh, Ht, Hty, H1, H2, H3.
        cbn [String.eqb Ascii.eqb Bool.eqb orb].
        rewrite Hr. reflexivity. }
    subst k'. apply Hend. }
  unfold parser, parseProgram, loopFuel. rewrite Hlength.
  erewrite bind_Ret by apply Hloop. reflexivity.
Qed.

End Chain.

Lemma alternates_cons x o r :
  alternates (x :: o :: r) = isOperand x && (isOperator o && alternates r).
Proof. reflexivity. Qed.

Lemma alternates_positions n : forall l,
  length l <= n -> alternates l = true ->
  (exists m, length l = 2 * m + 1) /\
  (forall k, 2 * k < length l ->
     exists x, nth_error l (2 * k) = Some x /\ isOperand x = true) /\
  (forall k, 2 * k + 1 < length l ->
     exists o, nth_error l (2 * k + 1) = Some o /\ isOperator o = true).
Proof.
  induction n as [|n IH]; intros [|x [|o r]] Hn H; try discriminate;
    try (simpl in Hn; lia).
  - cbn [alternates] in H. rewrite andb_true_r in H.
    split; [exists 0; reflexivity|]. split; intros k Hk; simpl in Hk.
    + assert (k = 0) by lia. subst k. exists x. auto.
    + lia.
  - rewrite alternates_cons in H.
    apply andb_prop in H. destruct H as [Hx H].
    apply andb_prop in H. destruct H as [Ho Hr].
    destruct (IH r) as ((m & Hm) & Hev & Hod); [simpl in Hn; lia | exact Hr |].
    cbn [length]. split; [exists (S m); lia|]. split; intros k Hk.
    + destruct k as [|k]; [exists x; auto|].
      replace (2 * S k) with (S (S (2 * k))) by lia. cbn [nth_error].
      apply Hev. lia.
    + destruct k as [|k]; [exists o; auto|].
      replace (2 * S k + 1) with (S (S (2 * k + 1))) by lia. cbn [nth_error].
      apply Hod. lia.
Qed.

(** C6: on operands separated by binary operators and assignment signs
    and closed by a semicolon, the parser reports no error and returns
    one expression statement; the tree of its expression has the words
    of the input in their order and is grouped by the precedence levels
    of the specification: operators of one level to the left, a tighter
    operator below a looser one, and assignments to the right, below
    every binary operator. *)
Theorem expression_grouping (expr : list Token) (semi : Token) :
  alternates expr = true -> tok_value semi = ";" ->
  exists e l s t,
    parser (expr ++ [semi]) = Ret (Program [ExpressionStatement e l]) s /\
    errors s = [] /\
    shape e = Some t /\ grouped t = true /\ words t = map tok_value expr.
Proof.
  intros Hexpr Hsemi.
  destruct (alternates_positions (length expr) expr (le_n _) Hexpr)
    as (Hlen & Hev & Hod).
  destruct (parser_chain (expr ++ [semi]) (length expr)) as (e & l & s & t & H);
    try assumption.
  - intros k Hk. rewrite nth_error_app1 by exact Hk. now apply Hev.
  - intros k Hk. rewrite nth_error_app1 by exact Hk. now apply Hod.
  - exists semi. rewrite nth_error_app2, Nat.sub_diag by lia. auto.
  - rewrite length_app. simpl. lia.
  - exists e, l, s, t.
    replace (map tok_value expr) with (upTo (expr ++ [semi]) (length expr));
      [exact H|].
    unfold upTo. rewrite firstn_app, Nat.sub_diag, firstn_all. cbn [firstn].
    now rewrite app_nil_r.
Qed.

End ParserProofs.

(** ** The diagnostics of the analyzer *)

Module AnalyzerProofs.

Import Semantic AnalyzerLogic.

Lemma extends_refl st : extends st st.
Proof. split; [exists []; now rewrite app_nil_r | auto]. Qed.

Lemma extends_trans a b c : extends a b -> extends b c -> extends a c.
Proof.
  intros [(l1 & E1 & F1) T1] [(l2 & E2 & F2) T2]. split; [|auto].
  exists (l1 ++ l2). rewrite E2, E1, app_assoc. split; [reflexivity|].
  now rewrite forallb_app, F1, F2.
Qed.

Lemma tableSet_nonempty V key (v : V) t : tableSet key v t <> [].
Proof. destruct t as [|[k v'] r]; simpl; [discriminate|]. destruct (k === key); discriminate. Qed.

Lemma extends_addUse x st : extends st (addUse x st).
Proof. split; [exists []; simpl; now rewrite app_nil_r | auto]. Qed.

Lemma extends_counters st u a b :
  extends st (mkAState (st_table st) (st_errors st) u a b).
Proof. split; [exists []; simpl; now rewrite app_nil_r | auto]. Qed.

Lemma extends_declare k s st : extends st (declareSymbol k s st).
Proof.
  split; [exists []; simpl; now rewrite app_nil_r |].
  intros _. apply tableSet_nonempty.
Qed.

Lemma extends_pushError d st : early d = true -> extends st (pushError d st).
Proof. intros H. split; [exists [d]; simpl; now rewrite H | auto]. Qed.

Lemma extends_forEach A (f : A -> astate -> astate) l :
  Forall (fun a => forall st, extends st (f a st)) l ->
  forall st, extends st (forEach l f st).
Proof.
  induction 1 as [|a l Ha _ IH]; intros st; simpl.
  - apply extends_refl.
  - eapply extends_trans; [apply Ha | apply IH].
Qed.

Lemma extends_forEach_all A (f : A -> astate -> astate) l :
  (forall a st, extends st (f a st)) -> forall st, extends st (forEach l f st).
Proof. intros H. apply extends_forEach. apply Forall_forall. auto. Qed.

Lemma extends_forEachI A (f : A -> nat -> astate -> astate) l :
  Forall (fun a => forall i st, extends st (f a i st)) l ->
  forall i st, extends st (forEachI l f i st).
Proof.
  induction 1 as [|a l Ha _ IH]; intros i st; simpl.
  - apply extends_refl.
  - eapply extends_trans; [apply Ha | apply IH].
Qed.

Section Inv.
Variable clock : Clock.
Variable source : string.

Lemma extends_markIdentifier i scope stack st :
  extends st (markIdentifier source i scope stack st).
Proof.
  unfold markIdentifier.
  destruct (resolveVariable _ _ _ _) as [[k v]|]; [|apply extends_refl].
  destruct (_ && _).
  - eapply extends_trans; [apply extends_addUse | now apply extends_pushError].
  - apply extends_addUse.
Qed.

Ltac ext_step :=
  first
    [ apply extends_refl
    | assumption
    | apply extends_markIdentifier
    | apply extends_addUse
    | apply extends_declare
    | solve [apply extends_pushError; reflexivity]
    | match goal with
      | H : forall _ _ _, extends _ _ |- extends ?s _ => solve [apply H]
      | |- extends ?s (match ?o with Some _ => _ | None => _ end) =>
          destruct o; cbn [OptP] in *
      | |- extends ?s (mkAState (st_table ?s) (st_errors ?s) _ _ _) =>
          apply extends_counters
      | |- extends ?s (mkAState (st_table ?x) (st_errors ?x) _ _ _) =>
          apply extends_trans with x; [|apply extends_counters]
      | |- extends ?s (forEach _ _ ?s) =>
          first
            [ apply extends_forEach; eapply Forall_impl; [|eassumption];
              cbv beta; intros
            | apply extends_forEach_all; intros; cbv beta ]
      | |- extends ?s (forEachI _ _ _ ?s) =>
          apply extends_forEachI; eapply Forall_impl; [|eassumption];
          cbv beta; intros
      | |- extends ?s (match ?d with VariableDeclarator _ _ _ _ _ => _ end) =>
          destruct d; cbn [OptP] in *
      | |- extends ?s (if ?b then _ else _) => destruct b
      | |- extends ?s (let (_, _) := ?p in _) => destruct p eqn:?
      | |- extends ?s (?f _ _ _ ?s') =>
          lazymatch s with s' => fail | _ => apply extends_trans with s' end
      | |- extends ?s (?f _ ?s') =>
          lazymatch s with s' => fail | _ => apply extends_trans with s' end
      | |- extends ?s (?f _ _ ?s') =>
          lazymatch s with s' => fail | _ => apply extends_trans with s' end
      end ].

Ltac ext_chain := repeat ext_step.

Lemma extends_mark n : forall scope stack st,
  extends st (markVariablesAsUsed source n scope stack st).
Proof.
  induction n using node_nested_ind with
    (Pd := fun d => forall scope stack st,
       extends st (match d with
                   | VariableDeclarator id _ init _ _ =>
                       match init with
                       | Some m => markVariablesAsUsed source m scope stack
                                     (markIdentifier source id scope stack st)
                       | None => markIdentifier source id scope stack st
                       end
                   end));
    intros scope stack st; cbn [markVariablesAsUsed OptP] in *.
  all: try solve [ext_chain].
  all: try solve [apply extends_forEach;
                  eapply Forall_impl; [|eassumption]; cbv beta; intros; auto].
Qed.

Lemma extends_getExpressionType n : forall scope stack st,
  extends st (snd (getExpressionType n scope stack st)).
Proof.
  induction n using node_nested_ind with (Pd := fun _ => True);
    try exact I; intros scope stack st; cbn [getExpressionType]; auto.
  all: try solve [apply extends_refl].
  all: try solve [destruct (resolveVariable _ _ _ _) as [[k v]|]; cbn [snd];
      [apply extends_addUse | apply extends_refl]].
  all: repeat match goal with
       | H : forall _ _ _, extends _ (snd (getExpressionType ?n _ _ _))
         |- context [getExpressionType ?n ?sc ?sk ?s] =>
           let H' := fresh in
           pose proof (H sc sk s) as H';
           destruct (getExpressionType n sc sk s); cbn [snd] in H'
       end; cbn [snd].
  all: try solve [eauto using extends_trans, extends_refl].
Qed.

Ltac ext_step2 :=
  first
    [ apply extends_refl
    | assumption
    | apply extends_markIdentifier
    | apply extends_addUse
    | apply extends_declare
    | solve [apply extends_pushError; reflexivity]
    | match goal with
      | H : forall _ _ _, extends _ _ |- extends ?s _ => solve [apply H]
      | |- extends ?s (match ?o with Some _ => _ | None => _ end) =>
          destruct o; cbn [OptP] in *
      | |- extends ?s (mkAState (st_table ?s) (st_errors ?s) _ _ _) =>
          apply extends_counters
      | |- extends ?s (mkAState (st_table ?x) (st_errors ?x) _ _ _) =>
          apply extends_trans with x; [|apply extends_counters]
      | |- extends ?s (markVariablesAsUsed _ _ _ _ ?s) => apply extends_mark
      | |- extends ?s (snd (getExpressionType _ _ _ ?s)) =>
          apply extends_getExpressionType
      | |- extends ?s (forEach _ _ ?s) =>
          first
            [ apply extends_forEach; eapply Forall_impl; [|eassumption];
              cbv beta; intros
            | apply extends_forEach_all; intros; cbv beta ]
      | |- extends ?s (forEachI _ _ _ ?s) =>
          apply extends_forEachI; eapply Forall_impl; [|eassumption];
          cbv beta; intros
      | |- extends ?s (match ?d with VariableDeclarator _ _ _ _ _ => _ end) =>
          destruct d; cbn [OptP] in *
      | |- extends ?s (if ?b then _ else _) => destruct b
      | |- extends ?s (let (_, _) := ?p in _) => destruct p eqn:?
      | |- extends ?s (?f _ _ _ ?s') =>
          lazymatch s with s' => fail | _ => apply extends_trans with s' end
      | |- extends ?s (?f _ ?s') =>
          lazymatch s with s' => fail | _ => apply extends_trans with s' end
      | |- extends ?s (?f _ _ ?s') =>
          lazymatch s with s' => fail | _ => apply extends_trans with s' end
      end ].


Ltac ext_chain2 := repeat ext_step2.

Lemma extends_build n : forall scope stack st,
  extends st (buildSymbolTable clock source n scope stack st).
Proof.
  induction n using node_nested_ind with
    (Pd := fun d =>
       match d with
       | VariableDeclarator _ _ init _ _ =>
           OptP (fun n => forall scope stack st,
                   extends st (buildSymbolTable clock source n scope stack st))
                init
       end);
    intros; cbn [buildSymbolTable OptP] in *; try assumption.
  all: unfold markOptional, blockScopeName, timedScope, random, now.
  all: cbv zeta; cbn [st_table st_errors variableUses nowCalls randomCalls].
  all: try solve [ext_chain2].
  - match goal with
    | |- context [markVariablesAsUsed source n2 scope stack ?x] =>
        set (X := markVariablesAsUsed source n2 scope stack x)
    end.
    assert (HX : extends st X) by (subst X; ext_chain2).
    destruct n1; try exact HX.
    destruct (resolveVariable _ _ _ _) as [[k v]|]; [|exact HX].
    eapply extends_trans; [exact HX | apply extends_declare].
  - match goal with
    | |- extends _ (forEach _ _ ?x) => apply extends_trans with x
    end.
    + destruct (JS.inList _ _); [|apply extends_refl].
      apply extends_forEach_all. intros a st'.
      eapply extends_trans; [|apply extends_mark].
      destruct a; try apply extends_refl. apply extends_addUse.
    + ext_chain2.
Qed.

Ltac ext_step3 :=
  first
    [ apply extends_refl
    | assumption
    | match goal with
      | |- extends ?s (buildSymbolTable _ _ _ _ _ ?s) => apply extends_build
      | |- extends _ (let (_, _) := getExpressionType ?n ?sc ?sk ?s in _) =>
          let H := fresh in
          pose proof (extends_getExpressionType n sc sk s) as H;
          destruct (getExpressionType n sc sk s) as [? ?]; cbn [snd] in H
      | |- extends _ (match resolveVariable ?a ?b ?c ?d with _ => _ end) =>
          destruct (resolveVariable a b c d) as [[? ?]|]
      | H : extends ?a ?b |- extends ?s ?b =>
          apply extends_trans with a; [|exact H]
      end
    | ext_step2 ].

Lemma extends_check n : forall scope stack st,
  extends st (checkTypes source n scope stack st).
Proof.
  induction n using node_nested_ind with
    (Pd := fun d =>
       match d with
       | VariableDeclarator _ _ init _ _ =>
           OptP (fun n => forall scope stack st,
                   extends st (checkTypes source n scope stack st))
                init
       end);
    intros; cbn [checkTypes OptP] in *; try assumption.
  all: try solve [repeat ext_step3].
Qed.

Lemma extends_preprocess st :
  extends st (processPreprocessorDirectives source st).
Proof.
  unfold processPreprocessorDirectives, addStandardLibraryFunctions.
  repeat ext_step3.
Qed.

Lemma analysis_extends ast :
  extends (mkAState [] [] [] 0 0) (analysis clock source ast).
Proof.
  unfold analysis.
  eapply extends_trans; [apply extends_preprocess|].
  eapply extends_trans; [apply extends_build | apply extends_check].
Qed.

Lemma analysis_early ast :
  forallb early (st_errors (analysis clock source ast)) = true.
Proof.
  destruct (analysis_extends ast) as [(l & E & F) _]. now rewrite E.
Qed.

Lemma preprocess_nonempty st :
  source <> EmptyString ->
  st_table (processPreprocessorDirectives source st) <> [].
Proof.
  intros Hs. unfold processPreprocessorDirectives.
  destruct source; [congruence|]. cbn [JS.truthy negb].
  match goal with
  | |- st_table (forEach _ _ (forEach _ _ ?x)) <> [] =>
      assert (Hx : st_table x <> [])
  end.
  { unfold addStandardLibraryFunctions, stdFuncs. cbn [forEach].
    apply tableSet_nonempty. }
  match goal with
  | |- st_table (forEach ?l2 ?f2 (forEach ?l1 ?f1 ?x)) <> [] =>
      assert (H1 : extends x (forEach l1 f1 x)) by (repeat ext_step3);
      assert (H2 : extends (forEach l1 f1 x) (forEach l2 f2 (forEach l1 f1 x)))
        by (repeat ext_step3)
  end.
  apply H2, H1, Hx.
Qed.

Lemma analysis_nonempty ast :
  source <> EmptyString -> st_table (analysis clock source ast) <> [].
Proof.
  intros Hs. unfold analysis.
  match goal with
  | |- st_table (checkTypes _ _ _ _ (buildSymbolTable _ _ _ _ _ ?x)) <> [] =>
      pose proof (extends_build ast "global" ["global"] x) as H1;
      pose proof (extends_check ast "global" ["global"]
                    (buildSymbolTable clock source ast "global" ["global"] x)) as H2
  end.
  apply H2, H1, preprocess_nonempty, Hs.
Qed.
End Inv.

(** Phase 3 *)
Section Phase3.
Variable source : string.

Local Abbreviation unusedWarnings := (AnalyzerLogic.unusedWarnings source).
Local Abbreviation unusedStep := (AnalyzerLogic.unusedStep source).

Lemma unused_forEach t : forall st,
  st_errors (forEach t unusedStep st) =
    st_errors st ++ unusedWarnings (variableUses st) t /\
  variableUses (forEach t unusedStep st) = variableUses st /\
  st_table (forEach t unusedStep st) = st_table st.
Proof.
  induction t as [|[k s] t IH]; intros st.
  - unfold unusedWarnings. simpl. now rewrite app_nil_r.
  - rewrite forEach_cons.
    destruct (IH (unusedStep (k, s) st)) as (E & U & T). rewrite E, U, T.
    unfold unusedStep, unusedWarnings. cbn [snd map filter].
    destruct (exemptFromUse s); cbn [negb andb]; [auto|].
    destruct (JS.inList (sym_name s) (variableUses st)) eqn:Hu; cbn [negb]; [auto|].
    cbn [pushError st_errors variableUses st_table map].
    rewrite <- app_assoc. auto.
Qed.

Lemma performSemanticChecks_errors st :
  st_errors (performSemanticChecks source st) =
  st_errors st ++ (if lacksMain st then [missingMain] else []) ++
  unusedWarnings (variableUses st) (st_table st).
Proof.
  unfold performSemanticChecks, lacksMain. cbv zeta.
  change (fun (entry : string * Symbol) (st0 : astate) =>
            if exemptFromUse (snd entry) then st0
            else if negb (JS.inList (sym_name (snd entry)) (variableUses st0))
                 then pushError (unusedVariable source (snd entry)) st0
                 else st0) with unusedStep.
  destruct (_ && _).
  - destruct (unused_forEach (st_table (pushError missingMain st))
                (pushError missingMain st)) as (E & _ & _).
    rewrite E. cbn [pushError st_errors variableUses st_table].
    now rewrite <- app_assoc.
  - destruct (unused_forEach (st_table st) st) as (E & _ & _).
    rewrite E. reflexivity.
Qed.
End Phase3.

Lemma early_not_missing l :
  forallb early l = true -> ~ In "Missing 'main' function" (map message l).
Proof.
  induction l as [|d l IH]; simpl; [tauto|].
  intros H. apply andb_prop in H. destruct H as [Hd Hl].
  intros [E|HIn]; [|now apply IH].
  unfold early in Hd. rewrite E in Hd. discriminate.
Qed.


Lemma unused_not_missing source uses t :
  ~ In "Missing 'main' function" (map message (unusedWarnings source uses t)).
Proof.
  unfold unusedWarnings. rewrite map_map. intros H.
  apply in_map_iff in H. destruct H as (s & E & _). discriminate.
Qed.

Lemma append_length a b : String.length (a +++ b) = String.length a + String.length b.
Proof. induction a; simpl; auto. Qed.

Lemma append_cancel_r a b c : a +++ c = b +++ c -> a = b.
Proof.
  revert b. induction a as [|x a IH]; intros [|y b] H; auto.
  - exfalso. apply (f_equal String.length) in H.
    simpl in H. rewrite append_length in H. lia.
  - exfalso. apply (f_equal String.length) in H.
    simpl in H. rewrite append_length in H. lia.
  - simpl in H. injection H as -> H. f_equal. now apply IH.
Qed.

Lemma append_cancel_l p a b : p +++ a = p +++ b -> a = b.
Proof. induction p; simpl; intros H; auto. injection H as H. auto. Qed.




(** The final check reports a missing main function exactly when the
    symbol table it is given has no entry under the key of a global main
    and is not empty; and the table is not empty as soon as the source
    text is not, since the preprocessing pass enters the library
    functions. *)
Lemma missingMain_guard clock source ast :
  let st := analysis clock source ast in
  (In "Missing 'main' function"
      (map message (errors (semanticAnalyzer clock source ast))) <->
   tableGet "global:main" (st_table st) = None /\ st_table st <> []) /\
  (source <> EmptyString -> st_table st <> []).
Proof.
  cbn zeta. split; [|apply analysis_nonempty].
  unfold semanticAnalyzer. cbn [errors].
  rewrite performSemanticChecks_errors, !map_app, !in_app_iff.
  pose proof (early_not_missing _ (analysis_early clock source ast)) as He.
  pose proof (unused_not_missing source
                (variableUses (analysis clock source ast))
                (st_table (analysis clock source ast))) as Hu.
  unfold lacksMain. change (getSymbolKey "main" "global") with "global:main".
  destruct (tableGet "global:main" (st_table (analysis clock source ast))) eqn:Hm;
    cbn [JS.isSome negb andb].
  - split; [intros [H|[H|H]]; try tauto; destruct H | intros [H _]; discriminate].
  - destruct (st_table (analysis clock source ast)) eqn:Ht; cbn [length Nat.ltb Nat.leb].
    + split; [intros [H|[H|H]]; try tauto; destruct H | intros [_ H]; congruence].
    + split; [intros _; split; [reflexivity | discriminate] |].
      intros _. right. left. simpl. auto.
Qed.


End AnalyzerProofs.

(** ** The code generator and its optimizer *)

Module CodeGenProofs.

Import Semantic (forEach, forEachI).
Import CodeGen.

Lemma same_eq a b : same a b = true <-> a = b.
Proof.
  destruct a as [[s|n]|], b as [[s'|n']|]; simpl; split; intros H;
    try discriminate; try reflexivity.
  - apply String.eqb_eq in H. now subst.
  - injection H as ->. apply String.eqb_refl.
  - apply Nat.eqb_eq in H. now subst.
  - injection H as ->. apply Nat.eqb_refl.
Qed.

Section Opt.
Variable isNaN : option operand -> bool.
Variable sumText differenceText productText :
  option operand -> option operand -> string.

Local Abbreviation simplify := (simplify isNaN sumText differenceText productText).
Local Abbreviation optimizePass := (optimizePass isNaN sumText differenceText productText).
Local Abbreviation optimizeLoop := (optimizeLoop isNaN sumText differenceText productText).
Local Abbreviation optimizeCode := (optimizeCode isNaN sumText differenceText productText).
Local Abbreviation passesRun := (passesRun isNaN sumText differenceText productText).
Local Abbreviation settled := (OptimizerLogic.settled isNaN sumText differenceText productText).
Local Abbreviation stable := (OptimizerLogic.stable isNaN sumText differenceText productText).

Lemma optimizePass_length l : length (fst (optimizePass l)) <= length l.
Proof.
  induction l as [|c rest IH]; simpl; [lia|].
  destruct (optimizePass rest) as [out ch]. simpl in IH.
  destruct (deadStore c rest); simpl; [lia|].
  destruct (simplify c); simpl; lia.
Qed.

Lemma optimizeLoop_length b : forall l p,
  length (fst (optimizeLoop b l p)) <= length l.
Proof.
  induction b as [|b IH]; intros l p; simpl; [lia|].
  pose proof (optimizePass_length l) as H.
  destruct (optimizePass l) as [out ch]. simpl in H.
  destruct ch; [|simpl; lia].
  specialize (IH out (S p)). lia.
Qed.

Lemma simplify_asAssign i a : simplify (asAssign i a) = None.
Proof. reflexivity. Qed.

Lemma simplify_Some_settled i j : simplify i = Some j -> simplify j = None.
Proof.
  unfold CodeGen.simplify. intros H.
  repeat match type of H with
         | (if ?b then _ else _) = _ => destruct b
         end; try discriminate; injection H as <-; reflexivity.
Qed.

Lemma optimizePass_settled l : settled (fst (optimizePass l)).
Proof.
  induction l as [|c rest IH]; simpl; [constructor|].
  destruct (optimizePass rest) as [out ch]. simpl in IH.
  destruct (deadStore c rest); simpl; [assumption|].
  destruct (simplify c) eqn:Hs; simpl; constructor; auto.
  eapply simplify_Some_settled; eauto.
Qed.

Lemma optimizePass_unchanged l :
  snd (optimizePass l) = false -> fst (optimizePass l) = l.
Proof.
  induction l as [|c rest IH]; simpl; [reflexivity|].
  destruct (optimizePass rest) as [out ch]. simpl in IH.
  destruct (deadStore c rest); simpl; [discriminate|].
  destruct (simplify c); simpl; [discriminate|].
  intros ->. now rewrite IH.
Qed.

(** On a settled sequence a pass keeps the head up to a run of dead
    stores, which all write the same place. *)
Lemma optimizePass_head rest :
  settled rest ->
  match rest with
  | [] => fst (optimizePass rest) = []
  | r1 :: _ =>
      exists h out, fst (optimizePass rest) = h :: out /\
        isOp h "ASSIGN" = isOp r1 "ASSIGN" /\
        (isOp r1 "ASSIGN" = true -> result h = result r1)
  end.
Proof.
  induction rest as [|r1 rest IH]; intros Hs; [reflexivity|].
  inversion Hs as [|? ? Hr1 Hrest]; subst. specialize (IH Hrest).
  simpl. destruct (optimizePass rest) as [out ch]. simpl in IH.
  destruct (deadStore r1 rest) eqn:Hd; simpl.
  - unfold deadStore in Hd. apply andb_prop in Hd. destruct Hd as [Ha Hd].
    destruct rest as [|r2 rest']; [discriminate|].
    apply andb_prop in Hd. destruct Hd as [Ha2 Hsame].
    apply same_eq in Hsame.
    destruct IH as (h & out' & -> & Hop & Hres).
    exists h, out'. repeat split; [congruence|].
    intros _. rewrite Hres by assumption. congruence.
  - rewrite Hr1. simpl. eauto.
Qed.

Lemma deadStore_after_pass c rest :
  settled rest -> deadStore c (fst (optimizePass rest)) = deadStore c rest.
Proof.
  intros Hs. pose proof (optimizePass_head rest Hs) as H.
  destruct rest as [|r1 rest']; [now rewrite H|].
  destruct H as (h & out & -> & Hop & Hres).
  unfold deadStore. destruct (isOp c "ASSIGN"); [|reflexivity]. simpl.
  rewrite Hop. destruct (isOp r1 "ASSIGN"); [|reflexivity].
  now rewrite Hres.
Qed.

Lemma optimizePass_stable l : settled l -> stable (fst (optimizePass l)).
Proof.
  unfold stable.
  induction l as [|c rest IH]; intros Hs; [reflexivity|].
  inversion Hs as [|? ? Hc Hrest]; subst. specialize (IH Hrest).
  pose proof (deadStore_after_pass c rest Hrest) as Hd.
  simpl. destruct (optimizePass rest) as [out ch]. simpl in *.
  destruct (deadStore c rest) eqn:Hdc; simpl; [assumption|].
  rewrite Hc. simpl. rewrite IH, Hd, Hc. reflexivity.
Qed.

Lemma optimizeLoop_stable l p :
  stable (fst (optimizeLoop maxPasses l p)) /\
  snd (optimizeLoop maxPasses l p) <= p + 3.
Proof.
  unfold maxPasses. cbn [CodeGen.optimizeLoop].
  pose proof (optimizePass_settled l) as S1.
  pose proof (optimizePass_unchanged l) as U1.
  destruct (optimizePass l) as [l1 ch1] eqn:E1. simpl in *.
  destruct ch1.
  2:{ simpl. split; [|lia]. unfold stable. rewrite U1 in * by reflexivity.
      assumption. }
  pose proof (optimizePass_stable l1 S1) as T2.
  pose proof (optimizePass_unchanged l1) as U2.
  destruct (optimizePass l1) as [l2 ch2] eqn:E2. simpl in *.
  destruct ch2.
  2:{ simpl. split; [|lia]. unfold stable. rewrite U2 in * by reflexivity.
      assumption. }
  unfold stable in T2. rewrite T2. simpl. split; [exact T2 | lia].
Qed.

Lemma optimizeCode_stable l : optimizeCode (optimizeCode l) = optimizeCode l.
Proof.
  unfold CodeGen.optimizeCode.
  destruct (optimizeLoop_stable l 0) as [H _].
  set (r := fst (optimizeLoop maxPasses l 0)) in *.
  unfold maxPasses. cbn [CodeGen.optimizeLoop]. unfold stable in H. now rewrite H.
Qed.

(** C3: for every tree the statistics satisfy
    optimizedInstructionCount <= instructionCount, and running the
    optimizer on its own output returns that output unchanged. *)
Theorem optimizer_monotone_idempotent ast :
  let g := codeGenerator isNaN sumText differenceText productText ast in
  optimizedInstructionCount (statistics g) <= instructionCount (statistics g) /\
  optimizeCode (optimizedTac g) = optimizedTac g.
Proof.
  cbn zeta. unfold codeGenerator.
  cbn [statistics optimizedInstructionCount instructionCount optimizedTac].
  split; [apply optimizeLoop_length | apply optimizeCode_stable].
Qed.

(** C9: for every tree the statistics report five optimization passes,
    whereas the optimizer ran between one and three. *)
Theorem reported_passes_constant ast :
  let g := codeGenerator isNaN sumText differenceText productText ast in
  optimizationPasses (statistics g) = 5 /\
  1 <= passesRun (tac g) <= 3.
Proof.
  cbn zeta. unfold codeGenerator. cbn [statistics optimizationPasses tac].
  split; [reflexivity|].
  unfold CodeGen.passesRun.
  destruct (optimizeLoop_stable (intermediateCode (generated ast)) 0) as [_ H].
  split; [|lia].
  unfold maxPasses. cbn [CodeGen.optimizeLoop].
  destruct (optimizePass _) as [l1 [|]]; [|simpl; lia].
  destruct (optimizePass l1) as [l2 [|]]; [|simpl; lia].
  destruct (optimizePass l2) as [l3 [|]]; [|simpl; lia].
  destruct (optimizePass l3) as [l4 [|]]; [|simpl; lia].
  destruct (optimizePass l4) as [l5 [|]]; simpl; lia.
Qed.
End Opt.

Lemma currentLoop_push ls f : currentLoop (ls ++ [f]) = Some f.
Proof. unfold currentLoop. rewrite map_app. cbn [map]. apply last_last. Qed.

Lemma forEach_statements (body : list node)
    (g : node -> list LoopFrame * gstate -> list LoopFrame * gstate)
    (h : node -> gstate -> gstate) :
  forall ls st,
  Forall (fun stmt => forall st, g stmt (ls, st) = (ls, h stmt st)) body ->
  forEach body g (ls, st) = (ls, forEach body h st).
Proof.
  intros ls st H. revert st.
  induction H as [|a l Ha _ IH]; intros st; [reflexivity|].
  rewrite !forEach_cons, Ha. apply IH.
Qed.

Lemma generateStatement_lexical n : forall ls st,
  generateStatement n ls st = (ls, lexicalStatement (currentLoop ls) n st).
Proof.
  induction n using node_nested_ind with (Pd := fun _ => True);
    try exact I; intros ls st;
    cbn [generateStatement lexicalStatement OptP] in *; try reflexivity.
  all: repeat (cbn beta iota; cbn [fst snd OptP] in *; match goal with
       | H : forall _ _, generateStatement ?m _ _ = _
         |- context [generateStatement ?m ?l ?s] => rewrite (H l s)
       | _ => rewrite currentLoop_push
       | _ => rewrite removelast_last
       | |- context [match ?o with Some _ => _ | None => _ end] => destruct o
       | |- context [generateOptionalExpression ?t ?s] =>
           destruct (generateOptionalExpression t s)
       | |- context [generateExpression ?t ?s] =>
           destruct (generateExpression t s)
       | |- context [generateLabel ?p ?s] =>
           destruct (generateLabel p s)
       end); try reflexivity.
  - erewrite forEach_statements; [reflexivity|].
    eapply Forall_impl; [|eassumption]. cbv beta. intros stmt IH st'.
    destruct stmt; cbn [fst snd]; try apply IH; reflexivity.
Qed.

Lemma generateFunction_lexical id params body st :
  generateFunctionDeclaration id params body [] st =
  ([], lexicalFunction id params body st).
Proof.
  unfold generateFunctionDeclaration, lexicalFunction.
  destruct (negb _); [reflexivity|].
  destruct body; [rewrite generateStatement_lexical|]; reflexivity.
Qed.

Lemma generateCode_lexical ast st :
  generateCode ast [] st = ([], lexicalCode ast st).
Proof.
  destruct ast; cbn [generateCode lexicalCode];
    try apply generateStatement_lexical.
  apply forEach_statements. apply Forall_forall. intros stmt _ st'.
  destruct stmt; cbn [fst snd]; try apply generateStatement_lexical.
  - apply generateFunction_lexical.
  - reflexivity.
Qed.

(** C7: the generator, which keeps the loops it is inside of on a stack,
    emits the instructions of the lexical lowering, in which a break
    jumps to the end label of the innermost enclosing loop, a continue
    to its continue label (the start label for a while loop), and each
    of them outside any loop is a diagnostic and emits no instruction;
    the stack is the same after a statement as before it. *)
Theorem break_continue_targets :
  (forall n loopStack st,
     generateStatement n loopStack st =
     (loopStack, lexicalStatement (currentLoop loopStack) n st)) /\
  (forall ast st, generateCode ast [] st = ([], lexicalCode ast st)) /\
  (forall frame l st,
     lexicalStatement (Some frame) (BreakStatement l) st =
       emit "GOTO" None None (str (endLabel frame)) st /\
     lexicalStatement (Some frame) (ContinueStatement l) st =
       emit "GOTO" None None (str (continueLabel frame)) st) /\
  (forall l st,
     intermediateCode (lexicalStatement None (BreakStatement l) st) =
       intermediateCode st /\
     intermediateCode (lexicalStatement None (ContinueStatement l) st) =
       intermediateCode st /\
     errors (lexicalStatement None (BreakStatement l) st) =
       errors st ++ [mkCodegenError "Break statement outside of loop" "codegen"] /\
     errors (lexicalStatement None (ContinueStatement l) st) =
       errors st ++ [mkCodegenError "Continue statement outside of loop" "codegen"]).
Proof.
  split; [apply generateStatement_lexical|].
  split; [apply generateCode_lexical|].
  split; intros; repeat split.
Qed.

End CodeGenProofs.

(** ** The scenarios *)

Module ScenarioProofs.

Import Parser Scenario.

(** C2 (amended): for the source of the for-loop scenario the parser
    reports no error and the generated code is, line by line: the
    initialization, the label FOR_START0, the test with its IF_FALSE
    jump to FOR_END2, the (empty) body, the label FOR_CONTINUE1, the
    update, the jump back to FOR_START0 and the label FOR_END2; the
    three labels draw from one counter. *)
Theorem for_loop_labels isNaN sumText differenceText productText :
  parser_errors forLoopTokens = [] /\
  CodeGen.formatLines 0
    (CodeGen.tac
       (CodeGen.codeGenerator isNaN sumText differenceText productText
          (parsed forLoopTokens))) =
  ["main:";
   "  1: FUNCTION_START main";
   "  2: DECLARE i";
   "  3: ASSIGN 0 -> i";
   "FOR_START0:";
   "  5: LT i 3 -> t0";
   "  6: IF_FALSE t0 -> FOR_END2";
   "FOR_CONTINUE1:";
   "  8: ADD i 1 -> t1";
   "  9: ASSIGN t1 -> i";
   " 10: GOTO -> FOR_START0";
   "FOR_END2:";
   " 12: RETURN 0";
   " 13: FUNCTION_END main"].
Proof.
  split; [vm_compute; reflexivity|].
  unfold CodeGen.codeGenerator. cbn [CodeGen.tac]. vm_compute. reflexivity.
Qed.

(** No instruction of that code carries the label FOR_CONTINUE0 or
    FOR_END0, nor jumps to FOR_END0. *)
Lemma for_loop_labels_not_zero :
  Forall (fun i => CodeGen.label i <> Some "FOR_CONTINUE0" /\
                   CodeGen.label i <> Some "FOR_END0" /\
                   CodeGen.result i <> CodeGen.str "FOR_END0")
    (CodeGen.intermediateCode (CodeGen.generated (parsed forLoopTokens))).
Proof. vm_compute. repeat constructor; discriminate. Qed.

(** C4 (amended): for the source of the global-read scenario the parser
    reports no error and the analyzer emits no warning; the read of x in
    the return statement is recorded, which is why x is not reported as
    unused. *)
Theorem global_read_diagnostics clock :
  parser_errors globalReadTokens = [] /\
  Semantic.warnings
    (Semantic.semanticAnalyzer clock globalReadText (parsed globalReadTokens)) = [] /\
  In "x" (Semantic.variableUses
            (Semantic.analysis clock globalReadText (parsed globalReadTokens))).
Proof.
  split; [vm_compute; reflexivity|]. split; [vm_compute; reflexivity|].
  vm_compute. auto.
Qed.

(** The analyzer emits no diagnostic at all for that source. *)
Lemma global_read_no_error :
  Semantic.errors
    (Semantic.semanticAnalyzer clockA globalReadText (parsed globalReadTokens)) = [].
Proof. vm_compute. reflexivity. Qed.

(** Two runs on the same tree and text, under different clocks, differ
    in the scope key of a local variable. *)
Lemma scope_keys_follow_clock :
  parser_errors localTokens = [] /\
  Semantic.semanticAnalyzer clockA localText (parsed localTokens) <>
  Semantic.semanticAnalyzer clockB localText (parsed localTokens).
Proof. split; [vm_compute; reflexivity|]. vm_compute. discriminate. Qed.

(** A program without any declaration is reported to lack main. *)
Lemma missing_main_without_declarations :
  parser_errors statementTokens = [] /\
  declaredNames (parsed statementTokens) = [] /\
  In "Missing 'main' function"
     (map Semantic.message
        (Semantic.errors
           (Semantic.semanticAnalyzer clockA statementText (parsed statementTokens)))).
Proof. vm_compute. auto. Qed.


(** The expression x = a || b && c == d < e + f * g - h satisfies the
    premises of the grouping theorem. *)
Lemma expression_grouping_witness :
  Precedence.alternates mixedTokens = true /\
  tok_value (semicolonAfter mixedTokens) = ";" /\
  exists e l s t,
    parser (mixedTokens ++ [semicolonAfter mixedTokens]) =
      Ret (Program [ExpressionStatement e l]) s /\
    errors s = [] /\
    Precedence.shape e = Some t /\ Precedence.grouped t = true /\
    Precedence.words t = map tok_value mixedTokens.
Proof.
  split; [reflexivity|]. split; [reflexivity|].
  apply (ParserProofs.expression_grouping mixedTokens (semicolonAfter mixedTokens));
    reflexivity.
Defined.

(** The trees of the three expressions. *)
Example subtraction_groups_left :
  Precedence.groupingOf (parsed (statementOf subtractionTokens)) =
  Some (Precedence.Bin "-"
          (Precedence.Bin "-" (Precedence.Leaf "a") (Precedence.Leaf "b"))
          (Precedence.Leaf "c")).
Proof. vm_compute. reflexivity. Qed.

Example assignment_groups_right :
  Precedence.groupingOf (parsed (statementOf assignmentTokens)) =
  Some (Precedence.Asg (Precedence.Leaf "a")
          (Precedence.Asg (Precedence.Leaf "b") (Precedence.Leaf "c"))).
Proof. vm_compute. reflexivity. Qed.

Example levels_nest :
  Precedence.groupingOf (parsed (statementOf mixedTokens)) =
  Some
    (Precedence.Asg (Precedence.Leaf "x")
       (Precedence.Bin "||" (Precedence.Leaf "a")
          (Precedence.Bin "&&" (Precedence.Leaf "b")
             (Precedence.Bin "==" (Precedence.Leaf "c")
                (Precedence.Bin "<" (Precedence.Leaf "d")
                   (Precedence.Bin "-"
                      (Precedence.Bin "+" (Precedence.Leaf "e")
                         (Precedence.Bin "*" (Precedence.Leaf "f")
                            (Precedence.Leaf "g")))
                      (Precedence.Leaf "h"))))))).
Proof. vm_compute. reflexivity. Qed.

End ScenarioProofs.

(** ** The generated code: numbering, jumps and the optimizer *)

Module CodeGenMore.
Import Semantic (forEach, forEachI).
Import CodeGen TacLogic CodeGenProofs.

Section Opt.
Variable isNaN : option operand -> bool.
Variable sumText differenceText productText :
  option operand -> option operand -> string.

Local Abbreviation simplify := (simplify isNaN sumText differenceText productText).
Local Abbreviation optimizePass := (optimizePass isNaN sumText differenceText productText).
Local Abbreviation optimizeLoop := (optimizeLoop isNaN sumText differenceText productText).
Local Abbreviation optimizeCode := (optimizeCode isNaN sumText differenceText productText).

Lemma simplify_arithmetic c i :
  simplify c = Some i -> arithmetic c = true /\ arithmetic i = true.
Proof.
  unfold CodeGen.simplify, arithmetic. intros H.
  repeat match type of H with
  | (if ?b then _ else _) = _ => destruct b eqn:?
  end; try discriminate; inversion H; subst i; clear H;
    (split; [|reflexivity]);
    repeat match goal with
    | H : (_ && _)%bool = true |- _ => apply andb_prop in H; destruct H
    end;
    repeat match goal with
    | H : isOp c _ = true |- _ => rewrite H
    end; cbn [orb]; rewrite ?orb_true_r; reflexivity.
Qed.

Lemma optimizePass_others l : others (fst (optimizePass l)) = others l.
Proof.
  induction l as [|c rest IH]; [reflexivity|].
  cbn [CodeGen.optimizePass].
  destruct (optimizePass rest) as [out ch]. cbn [fst] in *.
  unfold others in *. cbn [filter].
  destruct (deadStore c rest) eqn:Hd.
  - cbn [fst]. unfold deadStore in Hd. apply andb_prop in Hd. destruct Hd as [Hc _].
    unfold arithmetic. rewrite Hc. cbn [orb negb]. exact IH.
  - destruct (simplify c) as [i|] eqn:Hs; cbn [fst filter].
    + destruct (simplify_arithmetic _ _ Hs) as [-> ->]. cbn [negb]. exact IH.
    + now rewrite IH.
Qed.

Lemma optimizeLoop_others b : forall l p,
  others (fst (optimizeLoop b l p)) = others l.
Proof.
  induction b as [|b IH]; intros l p; [reflexivity|].
  cbn [CodeGen.optimizeLoop].
  pose proof (optimizePass_others l) as H.
  destruct (optimizePass l) as [l' ch]. cbn [fst] in H.
  destruct ch; [rewrite IH|]; exact H.
Qed.

(** X: the optimizer removes or rewrites only ASSIGN, ADD, SUB and MUL
    instructions: every other instruction of a sequence (labels, jumps,
    calls, returns, declarations) is in the optimized sequence, unchanged
    and in the same order. *)
Theorem optimizer_keeps_other_instructions code :
  others (optimizeCode code) = others code.
Proof. apply optimizeLoop_others. Qed.

End Opt.

(** *** Generation appends numbered instructions with closed jumps *)

Lemma targetsOf_app l1 l2 : targetsOf (l1 ++ l2) = targetsOf l1 ++ targetsOf l2.
Proof. apply flat_map_app. Qed.

Lemma labelsOf_app l1 l2 : labelsOf (l1 ++ l2) = labelsOf l1 ++ labelsOf l2.
Proof. apply flat_map_app. Qed.

Lemma closed_app P l1 l2 : closed P l1 -> closed P l2 -> closed P (l1 ++ l2).
Proof.
  unfold closed. intros H1 H2 x. rewrite targetsOf_app, labelsOf_app, !in_app_iff.
  intros [H|H]; [apply H1 in H | apply H2 in H];
    rewrite in_app_iff in H; tauto.
Qed.

Lemma appends_refl P st : appends P st st.
Proof.
  exists []. rewrite app_nil_r. repeat split. apply incl_nil_l.
Qed.

Lemma appends_trans P a b c : appends P a b -> appends P b c -> appends P a c.
Proof.
  intros (l1 & E1 & N1 & C1 & T1) (l2 & E2 & N2 & C2 & T2). exists (l1 ++ l2).
  rewrite E2, E1, app_assoc. split; [reflexivity|]. split; [|split].
  - rewrite map_app, N1, N2, E1, !length_app, seq_app. reflexivity.
  - now apply closed_app.
  - intros F. now rewrite forallb_app, T1, T2.
Qed.

Lemma appends_mono P Q a b : incl P Q -> appends P a b -> appends Q a b.
Proof.
  intros I (l & E & N & C & T). exists l. repeat split; try assumption.
  - intros x Hx. apply C in Hx. rewrite in_app_iff in *.
    destruct Hx as [Hx|Hx]; [now left | right; now apply I].
  - intros F. apply T. rewrite Forall_forall in *. auto.
Qed.

Lemma appends_code P st st' :
  intermediateCode st' = intermediateCode st -> appends P st st'.
Proof.
  intros E. exists []. rewrite E, app_nil_r. repeat split. apply incl_nil_l.
Qed.

Lemma appends_emit P op a b r st :
  ((op === "GOTO") || (op === "IF_FALSE") = true ->
   exists t, r = str t /\ In t P) ->
  appends P st (emit op a b r st).
Proof.
  intros H. eexists. split; [reflexivity|]. split; [reflexivity|].
  unfold closed, targetsOf, labelsOf, hasTarget, isOp.
  cbn [flat_map forallb operation result List.app].
  destruct ((op === "GOTO") || (op === "IF_FALSE")) eqn:Hj;
    [|split; [apply incl_nil_l | reflexivity]].
  destruct (H eq_refl) as (t & -> & I). unfold orNull, str. split.
  - destruct (JS.truthy t); [|apply incl_nil_l].
    intros x [<-|[]]. rewrite app_nil_r. apply in_or_app. now right.
  - intros F. rewrite Forall_forall in F. now rewrite (F t I).
Qed.

Lemma appends_label_after P s a b :
  JS.truthy s = true -> appends (s :: P) a b -> appends P a (emitLabel s b).
Proof.
  intros Hs (l & E & N & C & T).
  exists (l ++ [mkInstruction "LABEL" None None None (Some s)
                  (length (intermediateCode b))]).
  cbn [emitLabel withCode intermediateCode]. rewrite E, app_assoc.
  split; [reflexivity|]. split; [|split].
  - rewrite map_app, N, !length_app, seq_app. reflexivity.
  - intros x. unfold closed in C. rewrite targetsOf_app, labelsOf_app, !in_app_iff.
    intros [Hx|[]]. apply C in Hx. rewrite in_app_iff in Hx.
    destruct Hx as [Hx|[<-|Hx]]; [tauto | left; right; now left | tauto].
  - intros F. rewrite forallb_app, T; [reflexivity|]. now constructor.
Qed.

Lemma appends_label_before P s a b :
  JS.truthy s = true -> appends (s :: P) (emitLabel s a) b -> appends P a b.
Proof.
  intros Hs (l & E & N & C & T).
  exists (mkInstruction "LABEL" None None None (Some s)
            (length (intermediateCode a)) :: l).
  cbn [emitLabel withCode intermediateCode] in E, N.
  rewrite E, <- app_assoc. split; [reflexivity|]. split; [|split].
  - cbn [map lineNumber length seq]. f_equal.
    rewrite N, length_app. cbn [length]. now rewrite Nat.add_1_r.
  - intros x Hx. unfold closed in C.
    change (In x (targetsOf l)) in Hx. apply C in Hx.
    change (In x ((s :: labelsOf l) ++ P)).
    rewrite in_app_iff in *. cbn [In] in *. tauto.
  - intros F. cbn [forallb]. rewrite T; [reflexivity|]. now constructor.
Qed.

Lemma appends_forEach P A (f : A -> gstate -> gstate) l :
  Forall (fun a => forall st, appends P st (f a st)) l ->
  forall st, appends P st (forEach l f st).
Proof.
  induction 1 as [|a l Ha _ IH]; intros st; [apply appends_refl|].
  rewrite forEach_cons. eapply appends_trans; [apply Ha | apply IH].
Qed.

Lemma appends_forEachI P A (f : A -> nat -> gstate -> gstate) l :
  Forall (fun a => forall i st, appends P st (f a i st)) l ->
  forall i st, appends P st (forEachI l f i st).
Proof.
  induction 1 as [|a l Ha _ IH]; intros i st; [apply appends_refl|].
  change (forEachI (a :: l) f i st) with (forEachI l f (S i) (f a i st)).
  eapply appends_trans; [apply Ha | apply IH].
Qed.

Lemma binaryOperation_plain o op :
  binaryOperation o = Some op -> (op === "GOTO") || (op === "IF_FALSE") = false.
Proof.
  unfold binaryOperation. intros H.
  repeat match type of H with
  | (if ?b then _ else _) = _ => destruct b
  end; inversion H; reflexivity.
Qed.

Ltac incl_solve :=
  first [ apply incl_nil_l | apply incl_refl
        | intros ? ?;
          cbn [frameLabels In startLabel continueLabel endLabel] in *;
          solve [intuition auto] ].

Ltac truthy_side := first [reflexivity | assumption].

Ltac emit_side :=
  let Hj := fresh in
  intros Hj;
  first
    [ match goal with
      | H : binaryOperation _ = Some _ |- _ =>
          rewrite (binaryOperation_plain _ _ H) in Hj; discriminate Hj
      end
    | vm_compute in Hj; discriminate Hj
    | eexists; split;
      [ reflexivity
      | cbn [frameLabels In startLabel continueLabel endLabel];
        solve [intuition auto] ] ].

Ltac app_solve :=
  repeat match goal with
  | |- appends _ ?s ?s => apply appends_refl
  | H : appends ?Q ?a ?b |- appends ?P ?a _ =>
      apply appends_trans with b;
        [apply (appends_mono Q P); [incl_solve | exact H]|]; clear H
  | H : appends _ ?L _ |- appends _ ?a _ =>
      match L with
      | context [emitLabel ?s a] =>
          apply appends_label_before with s; [truthy_side|]
      end
  | |- appends _ ?a ?X =>
      match X with
      | context [emitLabel ?s a] =>
          apply appends_label_before with s; [truthy_side|]
      end
  | |- appends _ _ (emitLabel _ _) => apply appends_label_after; [truthy_side|]
  | |- appends _ ?s (emit _ _ _ _ ?s') =>
      apply appends_trans with s'; [|apply appends_emit; emit_side]
  | |- appends _ ?s (pushError _ ?s') =>
      apply appends_trans with s'; [|apply appends_code; reflexivity]
  | |- appends _ ?s (setScopeLevel _ ?s') =>
      apply appends_trans with s'; [|apply appends_code; reflexivity]
  | |- appends _ ?s (setCurrentFunction _ ?s') =>
      apply appends_trans with s'; [|apply appends_code; reflexivity]
  | |- appends _ ?s (mkGState (intermediateCode ?s') _ _ _ _ _ _ _ _) =>
      apply appends_trans with s'; [|apply appends_code; reflexivity]
  | H : appends ?Q ?a ?b |- appends ?P _ ?b =>
      apply appends_trans with a;
        [|apply (appends_mono Q P); [incl_solve | exact H]]; clear H
  end.

Ltac app_expr :=
  repeat match goal with
  | IH : forall st, appends [] st (snd (generateExpression ?n st))
    |- context [generateExpression ?n ?s] =>
      let H := fresh in
      pose proof (IH s) as H;
      destruct (generateExpression n s) as [? ?]; cbn [snd] in H
  end.

Lemma appends_expression n : forall st,
  appends [] st (snd (generateExpression n st)).
Proof.
  induction n using node_nested_ind with (Pd := fun _ => True);
    try exact I; intros st; cbn [generateExpression snd];
    try apply appends_refl.
  - destruct (_ === _); unfold newStringLiteral; cbn [snd]; app_solve.
  - app_expr. unfold generateTempVar.
    destruct (binaryOperation op) eqn:Hop; cbn [snd]; app_solve.
  - app_expr. unfold generateTempVar.
    repeat match goal with
    | |- context [if ?b then _ else _] => destruct b
    end; cbn [snd]; app_solve.
  - app_expr. cbn [snd]. app_solve.
  - unfold generateTempVar. cbn [snd].
    match goal with
    | |- appends _ ?s (emit _ _ _ _ (mkGState (intermediateCode ?x) _ _ _ _ _ _ _ _)) =>
        assert (Hx : appends [] s x)
    end.
    { apply appends_forEachI. eapply Forall_impl; [|eassumption].
      cbv beta. intros a IH i st'. app_expr. app_solve. }
    app_solve.
Qed.

Lemma appends_declarators ds st : appends [] st (generateDeclarators ds st).
Proof.
  unfold generateDeclarators. apply appends_forEach.
  apply Forall_forall. intros [id arr init l ptr] _ st'.
  destruct (negb _); [apply appends_refl|].
  destruct init as [i|]; [|app_solve].
  pose proof (appends_expression i (emit "DECLARE" (str (name id)) None None st')) as H.
  destruct (generateExpression i _) as [v st2]. cbn [snd] in H. app_solve.
Qed.

Ltac app_known s s' :=
  lazymatch goal with
  | _ : appends _ s s' |- _ => fail
  | _ => idtac
  end.

Ltac innermost s :=
  lazymatch s with
  | context [generateExpression _ _] => fail
  | context [generateOptionalExpression _ _] => fail
  | context [generateLabel _ _] => fail
  | _ => idtac
  end.

Ltac app_sub :=
  repeat (match goal with
  | |- context [generateDeclarators ?ds ?s] =>
      innermost s; app_known s (generateDeclarators ds s);
      pose proof (appends_declarators ds s)
  | IH : forall e st, appends (frameLabels e) st (lexicalStatement e ?n st)
    |- context [lexicalStatement ?e ?n ?s] =>
      innermost s; app_known s (lexicalStatement e n s);
      pose proof (IH e s)
  | |- context [generateLabel ?p ?s] =>
      innermost s;
      let H := fresh in
      assert (H : appends [] s (snd (generateLabel p s)))
        by (apply appends_code; reflexivity);
      let Ht := fresh in
      assert (Ht : JS.truthy (fst (generateLabel p s)) = true) by reflexivity;
      destruct (generateLabel p s) as [? ?]; cbn [snd] in H; cbn [fst] in Ht
  | |- context [generateOptionalExpression ?o ?s] =>
      innermost s;
      let H := fresh in
      assert (H : appends [] s (snd (generateOptionalExpression o s)))
        by (destruct o; [apply appends_expression | apply appends_refl]);
      destruct (generateOptionalExpression o s) as [? ?]; cbn [snd] in H
  | |- context [generateExpression ?n ?s] =>
      innermost s;
      let H := fresh in
      pose proof (appends_expression n s) as H;
      destruct (generateExpression n s) as [? ?]; cbn [snd] in H
  end; cbv beta iota zeta; cbn [snd]).

Lemma appends_statement n : forall enclosing st,
  appends (frameLabels enclosing) st (lexicalStatement enclosing n st).
Proof.
  induction n using node_nested_ind with (Pd := fun _ => True);
    try exact I; intros enclosing st; cbn [lexicalStatement OptP] in *;
    try apply appends_refl.
  all: cbv beta iota zeta.
  all: try solve [app_sub;
                  repeat (match goal with
                          | |- context [match ?o with Some _ => _ | None => _ end] =>
                              destruct o; cbn [OptP] in *
                          end; app_sub);
                  app_solve].
  - app_solve. apply appends_trans with (setScopeLevel S st); [app_solve|].
    apply appends_forEach. eapply Forall_impl; [|eassumption].
    cbv beta. intros stmt IH st'.
    destruct stmt; try apply IH.
    eapply appends_mono; [apply incl_nil_l | apply appends_declarators].
  - destruct i as [i|]; [destruct i|];
      destruct t as [t|]; destruct u as [u|]; destruct b as [b|];
      cbn [OptP] in *; cbv beta iota zeta;
      app_sub; app_solve.
Qed.

Lemma appends_function id params body st :
  appends [] st (lexicalFunction id params body st).
Proof.
  unfold lexicalFunction.
  destruct (negb (JS.truthy (name id))) eqn:Hn; [apply appends_refl|].
  apply negb_false_iff in Hn.
  app_solve.
  match goal with
  | |- appends _ ?s (match body with Some b => _ | None => ?x end) =>
      apply appends_trans with x
  end.
  - app_solve.
    apply appends_trans with (emit "FUNCTION_START" (str (name id)) None None
      (emitLabel (name id) (setCurrentFunction (Some (name id)) st))); [app_solve|].
    apply appends_forEach. apply Forall_forall. intros p _ st'. app_solve.
  - destruct body; [apply (appends_statement _ None) | apply appends_refl].
Qed.

Lemma appends_code_all ast st : appends [] st (lexicalCode ast st).
Proof.
  destruct ast; cbn [lexicalCode]; try apply (appends_statement _ None).
  apply appends_forEach. apply Forall_forall. intros stmt _ st'.
  destruct stmt; try apply (appends_statement _ None).
  - apply appends_function.
  - apply appends_declarators.
Qed.

Lemma appends_generated ast : appends [] initial (generated ast).
Proof.
  unfold generated. rewrite generateCode_lexical. cbn [snd].
  eapply appends_trans; [|apply appends_code_all].
  destruct (mentionsStdio ast); [|apply appends_refl].
  apply appends_trans with (emit "INCLUDE" (str "stdio.h") None None initial);
    [app_solve | apply appends_code; reflexivity].
Qed.

Lemma flat_map_filter A B (f : A -> list B) (p : A -> bool) l :
  (forall a, p a = false -> f a = []) ->
  flat_map f (filter p l) = flat_map f l.
Proof.
  intros H. induction l as [|a l IH]; [reflexivity|].
  cbn [filter flat_map]. destruct (p a) eqn:Hp; cbn [flat_map].
  - now rewrite IH.
  - now rewrite IH, (H a Hp).
Qed.

Lemma arithmetic_operation i :
  negb (arithmetic i) = false ->
  isOp i "LABEL" = false /\ isOp i "GOTO" || isOp i "IF_FALSE" = false.
Proof.
  intros Ha. apply negb_false_iff in Ha. unfold arithmetic, isOp in *.
  repeat (apply orb_prop in Ha; destruct Ha as [Ha|Ha]);
    apply String.eqb_eq in Ha; rewrite Ha; split; reflexivity.
Qed.

Lemma targetsOf_others code : targetsOf (others code) = targetsOf code.
Proof.
  apply flat_map_filter. intros i Ha.
  destruct (arithmetic_operation i Ha) as [_ ->]. reflexivity.
Qed.

Lemma labelsOf_others code : labelsOf (others code) = labelsOf code.
Proof.
  apply flat_map_filter. intros i Ha.
  destruct (arithmetic_operation i Ha) as [-> _]. reflexivity.
Qed.

Lemma hasTarget_others code :
  forallb hasTarget (others code) = forallb hasTarget code.
Proof.
  induction code as [|i code IH]; [reflexivity|].
  unfold others in *. cbn [filter forallb].
  destruct (negb (arithmetic i)) eqn:Ha; cbn [forallb]; rewrite IH;
    [reflexivity|].
  unfold hasTarget. destruct (arithmetic_operation i Ha) as [_ ->].
  reflexivity.
Qed.

Section Generated.
Variable isNaN : option operand -> bool.
Variable sumText differenceText productText :
  option operand -> option operand -> string.

Local Abbreviation codeGenerator :=
  (codeGenerator isNaN sumText differenceText productText).

(** Code generation only appends: the instructions emitted before a
    statement are kept, in place, by the generation of the statement;
    and in the generated code the line number of every instruction is
    its position. *)
Theorem generated_code_numbered :
  (forall n loopStack st,
     exists l,
       intermediateCode (snd (generateStatement n loopStack st)) =
       intermediateCode st ++ l) /\
  (forall ast, numbered (tac (codeGenerator ast))).
Proof.
  split.
  - intros n ls st. rewrite generateStatement_lexical. cbn [snd].
    destruct (appends_statement n (currentLoop ls) st) as (l & E & _). eauto.
  - intros ast. unfold CodeGen.codeGenerator. cbn [tac].
    destruct (appends_generated ast) as (l & E & N & _).
    unfold numbered. rewrite E. exact N.
Qed.

(** No jump of the generated code is dangling: every GOTO and IF_FALSE
    instruction names a target, and the target is the label of a LABEL
    instruction of the same listing, in the intermediate code and in
    the optimized code. *)
Theorem jumps_reach_labels ast :
  (forallb hasTarget (tac (codeGenerator ast)) = true /\
   incl (targetsOf (tac (codeGenerator ast)))
        (labelsOf (tac (codeGenerator ast)))) /\
  (forallb hasTarget (optimizedTac (codeGenerator ast)) = true /\
   incl (targetsOf (optimizedTac (codeGenerator ast)))
        (labelsOf (optimizedTac (codeGenerator ast)))).
Proof.
  unfold CodeGen.codeGenerator. cbn [tac optimizedTac].
  assert (H : forallb hasTarget (intermediateCode (generated ast)) = true /\
              incl (targetsOf (intermediateCode (generated ast)))
                   (labelsOf (intermediateCode (generated ast)))).
  { destruct (appends_generated ast) as (l & E & _ & C & T).
    rewrite E. unfold closed in C. rewrite app_nil_r in C.
    split; [apply T; constructor | exact C]. }
  split; [exact H|].
  rewrite <- hasTarget_others, <- targetsOf_others, <- labelsOf_others.
  unfold CodeGen.optimizeCode. rewrite optimizeLoop_others.
  now rewrite hasTarget_others, targetsOf_others, labelsOf_others.
Qed.

End Generated.

End CodeGenMore.

(** ** The analyzer: lines, phases and lookup *)

Module AnalyzerMore.
Import Semantic AnalyzerLogic PhaseLogic AnalyzerProofs.

(** *** Line numbers *)

Lemma splitLines_length s : forall cur,
  length (JS.splitLines s cur) = S (newlines s).
Proof.
  induction s as [|c s IH]; intros cur; cbn [JS.splitLines newlines]; [reflexivity|].
  destruct (nat_of_ascii c =? 10); cbn [length]; now rewrite IH.
Qed.

Lemma newlines_substring s : forall p q,
  p <= q -> newlines (String.substring 0 p s) <= newlines (String.substring 0 q s).
Proof.
  induction s as [|c s IH]; intros p q Hpq.
  - destruct p, q; cbn; lia.
  - destruct p as [|p]; [cbn [String.substring newlines]; lia|].
    destruct q as [|q]; [lia|].
    cbn [String.substring newlines]. specialize (IH p q). lia.
Qed.

Lemma substring_all s : String.substring 0 (String.length s) s = s.
Proof. induction s as [|c s IH]; cbn; [reflexivity|]. now rewrite IH. Qed.

Lemma substring_beyond s : forall p,
  String.length s <= p -> String.substring 0 p s = s.
Proof.
  induction s as [|c s IH]; intros p Hp.
  - destruct p; reflexivity.
  - destruct p as [|p]; [cbn in Hp; lia|]. cbn [String.substring].
    rewrite IH; [reflexivity | cbn in Hp; lia].
Qed.

Lemma newlines_prefix s p : newlines (String.substring 0 p s) <= newlines s.
Proof.
  destruct (le_lt_dec p (String.length s)) as [H|H].
  - rewrite <- (substring_all s) at 2. now apply newlines_substring.
  - rewrite substring_beyond; lia.
Qed.

Section Lines.
Variable source : string.

Lemma getLineNumber_bounds p :
  1 <= getLineNumber source p <= lineCount source.
Proof.
  unfold getLineNumber, lineCount. rewrite splitLines_length.
  destruct p as [p|]; [|lia].
  destruct (negb (JS.truthy source)); [lia|].
  unfold JS.substring0. rewrite splitLines_length.
  pose proof (newlines_prefix source p). lia.
Qed.

(** The line number of a position is a line of the source text, a later
    position is not on an earlier line, and [getCodeLine] always finds
    the line it looks up. *)
Theorem line_numbers_in_range :
  (forall p, 1 <= getLineNumber source p <= lineCount source) /\
  (forall p q, p <= q ->
     getLineNumber source (Some p) <= getLineNumber source (Some q)) /\
  (forall p, exists l,
     nth_error (JS.splitLines source EmptyString)
       (getLineNumber source p - 1) = Some l).
Proof.
  split; [exact getLineNumber_bounds|]. split.
  - intros p q Hpq. unfold getLineNumber.
    destruct (negb (JS.truthy source)); [lia|].
    unfold JS.substring0. rewrite !splitLines_length.
    pose proof (newlines_substring source p q Hpq). lia.
  - intros p. pose proof (getLineNumber_bounds p) as H. unfold lineCount in H.
    destruct (nth_error _ _) as [l|] eqn:E; [eauto|].
    apply nth_error_None in E. lia.
Qed.

End Lines.


(** *** The elementary updates *)

Section Reach.
Variable source : string.
Variable allowed : astate -> Diagnostic -> Prop.
Variable declaring : bool.

Local Abbreviation reach := (reach source allowed declaring).
Local Abbreviation step := (step source allowed declaring).

Lemma reach_trans a b c : reach a b -> reach b c -> reach a c.
Proof.
  induction 1 as [|a b b' S _ IH]; [auto|]. intros H.
  eapply reach_step; [exact S | auto].
Qed.

Lemma reach_one a b : step a b -> reach a b.
Proof. intros S. eapply reach_step; [exact S | apply reach_refl]. Qed.

Lemma reach_addUse x st : reach st (addUse x st).
Proof. apply reach_one, step_use. Qed.

Lemma reach_counters st a b :
  reach st (mkAState (st_table st) (st_errors st) (variableUses st) a b).
Proof. apply reach_one, step_counters. Qed.

Lemma reach_declare k s st :
  declaring = true -> declared source k s -> reach st (declareSymbol k s st).
Proof. intros D H. now apply reach_one, step_declare. Qed.

Lemma reach_pushError d st :
  phaseDiagnostic source d -> allowed st d -> reach st (pushError d st).
Proof. intros H A. now apply reach_one, step_error. Qed.

Lemma reach_forEach A (f : A -> astate -> astate) l :
  Forall (fun a => forall st, reach st (f a st)) l ->
  forall st, reach st (forEach l f st).
Proof.
  induction 1 as [|a l Ha _ IH]; intros st; [apply reach_refl|].
  rewrite forEach_cons. eapply reach_trans; [apply Ha | apply IH].
Qed.

Lemma reach_forEach_all A (f : A -> astate -> astate) l :
  (forall a st, reach st (f a st)) -> forall st, reach st (forEach l f st).
Proof. intros H. apply reach_forEach. apply Forall_forall. auto. Qed.

Lemma reach_forEachI A (f : A -> nat -> astate -> astate) l :
  Forall (fun a => forall i st, reach st (f a i st)) l ->
  forall i st, reach st (forEachI l f i st).
Proof.
  induction 1 as [|a l Ha _ IH]; intros i st; [apply reach_refl|].
  change (forEachI (a :: l) f i st) with (forEachI l f (S i) (f a i st)).
  eapply reach_trans; [apply Ha | apply IH].
Qed.

End Reach.

Lemma reach_mono source (P Q : astate -> Diagnostic -> Prop) a b :
  (forall st d, P st d -> Q st d) ->
  PhaseLogic.reach source P true a b -> PhaseLogic.reach source Q true a b.
Proof.
  intros H. induction 1 as [|a b c S _ IH]; [apply reach_refl|].
  eapply reach_step; [|exact IH].
  destruct S;
    [ apply step_use | apply step_counters | apply step_error; auto
    | now apply step_declare | now apply step_initialize ].
Qed.

(** [resolveVariable] returns an entry of the table. *)
Lemma resolveVariable_search x scope stack t :
  resolveVariable x scope stack t =
  if negb (JS.truthy x) then None
  else searchScopes x t (scope :: List.rev stack ++ ["builtin"]).
Proof.
  unfold resolveVariable. destruct (negb (JS.truthy x)); [reflexivity|].
  cbv zeta. generalize (List.rev stack ++ ["builtin"]). intros l.
  cbn [searchScopes].
  destruct (tableGet (getSymbolKey x scope) t); cbn [option_map]; [reflexivity|].
  induction l as [|sc l IH]; [reflexivity|]. cbn [searchScopes].
  destruct (tableGet (getSymbolKey x sc) t); cbn [option_map]; [reflexivity|].
  exact IH.
Qed.

Lemma resolveVariable_entry x scope stack t k v :
  resolveVariable x scope stack t = Some (k, v) ->
  tableGet k t = Some v /\
  exists sc, In sc (scope :: List.rev stack ++ ["builtin"]) /\
             k = getSymbolKey x sc.
Proof.
  rewrite resolveVariable_search. destruct (negb (JS.truthy x)); [discriminate|].
  generalize (scope :: List.rev stack ++ ["builtin"]). intros l.
  induction l as [|sc l IH]; cbn [searchScopes]; [discriminate|].
  destruct (tableGet (getSymbolKey x sc) t) as [s|] eqn:E.
  - intros H. injection H as <- <-. split; [exact E|].
    exists sc. split; [now left | reflexivity].
  - intros H. destruct (IH H) as (G & sc' & I & K).
    split; [exact G|]. exists sc'. split; [now right | exact K].
Qed.

Lemma resolveVariable_none x scope stack t sc :
  resolveVariable x scope stack t = None ->
  In sc (scope :: List.rev stack ++ ["builtin"]) ->
  x = EmptyString \/ tableGet (getSymbolKey x sc) t = None.
Proof.
  rewrite resolveVariable_search. destruct x as [|c x]; [now left|].
  cbn [JS.truthy negb]. right. revert H H0.
  generalize (scope :: List.rev stack ++ ["builtin"]). intros l.
  induction l as [|sc' l IH]; cbn [searchScopes]; [intros _ []|].
  destruct (tableGet (getSymbolKey (String c x) sc') t) as [s|] eqn:E;
    [discriminate|].
  intros H [<-|I]; [exact E | now apply IH].
Qed.

Ltac diag_side :=
  lazymatch goal with
  | |- phaseDiagnostic _ _ =>
      split; [eexists; split; reflexivity | split; reflexivity]
  | |- buildAllowed _ _ => reflexivity
  | |- checkAllowed _ _ _ _ =>
      let H := fresh in
      intros H;
      first [ discriminate H
            | eexists; split; [reflexivity | eassumption] ]
  | |- declared _ _ _ =>
      split;
      [ reflexivity
      | first [ left; split; reflexivity | right; eexists; reflexivity ] ]
  end.

Ltac rch_step :=
  first
    [ apply reach_refl
    | assumption
    | apply reach_addUse
    | solve [apply reach_declare; [reflexivity | diag_side]]
    | solve [apply reach_pushError; diag_side]
    | match goal with
      | H : forall _ _ _, PhaseLogic.reach _ _ _ _ _ |- PhaseLogic.reach _ _ _ ?s _ =>
          solve [apply H]
      | |- PhaseLogic.reach _ _ _ ?s (match ?o with Some _ => _ | None => _ end) =>
          destruct o eqn:?; cbn [OptP] in *
      | |- PhaseLogic.reach _ _ _ ?s
             (mkAState (st_table ?s) (st_errors ?s) (variableUses ?s) _ _) =>
          apply reach_counters
      | |- PhaseLogic.reach _ _ _ ?s
             (mkAState (st_table ?x) (st_errors ?x) (variableUses ?x) _ _) =>
          apply reach_trans with x; [|apply reach_counters]
      | |- PhaseLogic.reach _ _ _ ?s (forEach _ _ ?s) =>
          first
            [ apply reach_forEach; eapply Forall_impl; [|eassumption];
              cbv beta; intros
            | apply reach_forEach_all; intros; cbv beta ]
      | |- PhaseLogic.reach _ _ _ ?s (forEachI _ _ _ ?s) =>
          apply reach_forEachI; eapply Forall_impl; [|eassumption];
          cbv beta; intros
      | |- PhaseLogic.reach _ _ _ ?s
             (match ?d with VariableDeclarator _ _ _ _ _ => _ end) =>
          destruct d; cbn [OptP] in *
      | |- PhaseLogic.reach _ _ _ ?s (if ?b then _ else _) => destruct b
      | |- PhaseLogic.reach _ _ _ ?s (let (_, _) := ?p in _) => destruct p eqn:?
      | |- PhaseLogic.reach _ _ _ ?s (?f _ _ _ ?s') =>
          lazymatch s with s' => fail | _ => apply reach_trans with s' end
      | |- PhaseLogic.reach _ _ _ ?s (?f _ ?s') =>
          lazymatch s with s' => fail | _ => apply reach_trans with s' end
      | |- PhaseLogic.reach _ _ _ ?s (?f _ _ ?s') =>
          lazymatch s with s' => fail | _ => apply reach_trans with s' end
      end ].

Section Traversals.
Variable clock : Clock.
Variable source : string.

Lemma reach_markIdentifier i scope stack st :
  reach source buildAllowed true st (markIdentifier source i scope stack st).
Proof.
  unfold markIdentifier.
  destruct (resolveVariable _ _ _ _) as [[k v]|]; [|apply reach_refl].
  destruct (_ && _); [|apply reach_addUse].
  eapply reach_trans; [apply reach_addUse|].
  apply reach_pushError; diag_side.
Qed.

Lemma reach_mark n : forall scope stack st,
  reach source buildAllowed true st (markVariablesAsUsed source n scope stack st).
Proof.
  induction n using node_nested_ind with
    (Pd := fun d => forall scope stack st,
       reach source buildAllowed true st
         (match d with
          | VariableDeclarator id _ init _ _ =>
              match init with
              | Some m => markVariablesAsUsed source m scope stack
                            (markIdentifier source id scope stack st)
              | None => markIdentifier source id scope stack st
              end
          end));
    intros scope stack st; cbn [markVariablesAsUsed OptP] in *.
  all: try solve [repeat first [apply reach_markIdentifier | rch_step]].
  all: try solve [apply reach_forEach;
                  eapply Forall_impl; [|eassumption]; cbv beta; intros; auto].
Qed.


Lemma reach_getExpressionType allowed declaring n : forall scope stack st,
  reach source allowed declaring st (snd (getExpressionType n scope stack st)).
Proof.
  induction n using node_nested_ind with (Pd := fun _ => True);
    try exact I; intros scope stack st; cbn [getExpressionType]; auto.
  all: try solve [apply reach_refl].
  all: try solve [destruct (resolveVariable _ _ _ _) as [[k v]|]; cbn [snd];
      [apply reach_addUse | apply reach_refl]].
  all: repeat match goal with
       | H : forall _ _ _, reach _ _ _ _ (snd (getExpressionType ?n _ _ _))
         |- context [getExpressionType ?n ?sc ?sk ?s] =>
           let H' := fresh in
           pose proof (H sc sk s) as H';
           destruct (getExpressionType n sc sk s); cbn [snd] in H'
       end; cbn [snd].
  all: try solve [eauto using reach_trans, reach_refl].
Qed.

Ltac rch_step2 :=
  first
    [ apply reach_refl
    | assumption
    | apply reach_markIdentifier
    | match goal with
      | |- reach _ _ _ ?s (markVariablesAsUsed _ _ _ _ ?s) => apply reach_mark
      | |- reach _ _ _ ?s (snd (getExpressionType _ _ _ ?s)) =>
          apply reach_getExpressionType
      end
    | rch_step ].

Lemma reach_build n : forall scope stack st,
  reach source buildAllowed true st (buildSymbolTable clock source n scope stack st).
Proof.
  induction n using node_nested_ind with
    (Pd := fun d =>
       match d with
       | VariableDeclarator _ _ init _ _ =>
           OptP (fun n => forall scope stack st,
                   reach source buildAllowed true st
                     (buildSymbolTable clock source n scope stack st))
                init
       end);
    intros; cbn [buildSymbolTable OptP] in *; try assumption.
  all: unfold markOptional, blockScopeName, timedScope, random, now.
  all: cbv zeta; cbn [st_table st_errors variableUses nowCalls randomCalls].
  all: try solve [repeat rch_step2].
  - match goal with
    | |- context [markVariablesAsUsed source n2 scope stack ?x] =>
        set (X := markVariablesAsUsed source n2 scope stack x)
    end.
    assert (HX : reach source buildAllowed true st X) by (subst X; repeat rch_step2).
    destruct n1; try exact HX.
    destruct (resolveVariable _ _ _ _) as [[k v]|] eqn:R; [|exact HX].
    eapply reach_trans; [exact HX|].
    apply reach_one, step_initialize; [reflexivity|].
    now apply resolveVariable_entry in R.
  - match goal with
    | |- reach _ _ _ _ (forEach _ _ ?x) => apply reach_trans with x
    end.
    + destruct (JS.inList _ _); [|apply reach_refl].
      apply reach_forEach_all. intros a st'.
      eapply reach_trans; [|apply reach_mark].
      destruct a; try apply reach_refl. apply reach_addUse.
    + repeat rch_step2.
Qed.

Ltac rch_step3 :=
  first
    [ apply reach_refl
    | assumption
    | match goal with
      | |- reach _ _ _ _ (let (_, _) := getExpressionType ?n ?sc ?sk ?s in _) =>
          let H := fresh in
          pose proof (reach_getExpressionType (checkAllowed sc sk) false n sc sk s) as H;
          destruct (getExpressionType n sc sk s) as [? ?]; cbn [snd] in H
      | |- reach _ _ _ _ (match resolveVariable ?a ?b ?c ?d with _ => _ end) =>
          destruct (resolveVariable a b c d) as [[? ?]|] eqn:?
      | H : reach _ _ _ ?a ?b |- reach _ _ _ ?s ?b =>
          apply reach_trans with a; [|exact H]
      end
    | rch_step2 ].

Lemma reach_check n : forall scope stack st,
  reach source (checkAllowed scope stack) false st (checkTypes source n scope stack st).
Proof.
  induction n using node_nested_ind with
    (Pd := fun d =>
       match d with
       | VariableDeclarator _ _ init _ _ =>
           OptP (fun n => forall scope stack st,
                   reach source (checkAllowed scope stack) false st
                     (checkTypes source n scope stack st))
                init
       end);
    intros; cbn [checkTypes OptP] in *; try assumption.
  all: try solve [repeat rch_step3].
Qed.


Lemma stdFuncs_declared :
  Forall (fun f => declared source (fst f) (snd f)) stdFuncs.
Proof. unfold stdFuncs. repeat constructor. Qed.

Lemma reach_preprocess st :
  reach source buildAllowed true st (processPreprocessorDirectives source st).
Proof.
  unfold processPreprocessorDirectives, addStandardLibraryFunctions.
  destruct (negb (JS.truthy source)); [apply reach_refl|].
  repeat match goal with
  | |- reach _ _ _ ?s (forEach _ _ ?s') =>
      lazymatch s with s' => fail | _ => apply reach_trans with s' end
  end.
  - apply reach_forEach. eapply Forall_impl; [|apply stdFuncs_declared].
    cbv beta. intros f D st'. now apply reach_declare.
  - apply reach_forEach_all. intros m st'.
    apply reach_declare; [reflexivity | diag_side].
  - apply reach_forEach_all. intros m st'.
    apply reach_declare; [reflexivity | diag_side].
Qed.

Lemma reach_analysis_build ast :
  reach source buildAllowed true (mkAState [] [] [] 0 0)
    (buildSymbolTable clock source ast "global" ["global"]
       (processPreprocessorDirectives source (mkAState [] [] [] 0 0))).
Proof.
  eapply reach_trans; [apply reach_preprocess | apply reach_build].
Qed.

End Traversals.

(** *** What the elementary updates keep *)

Lemma tableGet_tableSet V k (v : V) t k' :
  tableGet k' (tableSet k v t) = if k === k' then Some v else tableGet k' t.
Proof.
  induction t as [|[k0 v0] t IH]; cbn [tableSet tableGet].
  - reflexivity.
  - destruct (k0 === k) eqn:E0; cbn [tableGet].
    + apply String.eqb_eq in E0. subst k0. destruct (k === k'); reflexivity.
    + destruct (k0 === k') eqn:E1; [|exact IH].
      apply String.eqb_eq in E1. subst k0. now rewrite String.eqb_sym, E0.
Qed.

Lemma tableSet_Forall V (P : string * V -> Prop) k v t :
  P (k, v) -> Forall P t -> Forall P (tableSet k v t).
Proof.
  intros Hk. induction 1 as [|[k0 v0] t H0 Ht IH]; cbn [tableSet].
  - now constructor.
  - destruct (k0 === k) eqn:E.
    + apply String.eqb_eq in E. subst k0. now constructor.
    + now constructor.
Qed.

Lemma tableGet_In V k (v : V) t : tableGet k t = Some v -> In (k, v) t.
Proof.
  induction t as [|[k0 v0] t IH]; cbn [tableGet]; [discriminate|].
  destruct (k0 === k) eqn:E.
  - apply String.eqb_eq in E. subst k0. intros H. injection H as ->. now left.
  - intros H. right. auto.
Qed.

Section Invariants.
Variable source : string.
Variable allowed : astate -> Diagnostic -> Prop.

Local Abbreviation entry :=
  (fun e : string * Symbol => declared source (fst e) (snd e)).

Lemma reach_errors declaring st st' :
  reach source allowed declaring st st' ->
  exists l, st_errors st' = st_errors st ++ l /\
    Forall (fun d => phaseDiagnostic source d /\
              exists st0, allowed st0 d /\
                (declaring = false -> st_table st0 = st_table st)) l.
Proof.
  induction 1 as [st|a b c S _ IH].
  - exists []. now rewrite app_nil_r.
  - destruct IH as (l & E & F).
    assert (K : declaring = false -> st_table b = st_table a).
    { intros D. destruct S; try reflexivity; congruence. }
    assert (F' : Forall (fun d => phaseDiagnostic source d /\
                  exists st0, allowed st0 d /\
                    (declaring = false -> st_table st0 = st_table a)) l).
    { eapply Forall_impl; [|exact F]. cbv beta.
      intros d (P & st0 & A & T). split; [exact P|]. exists st0.
      split; [exact A|]. intros D. now rewrite T, K. }
    destruct S; try (exists l; split; [exact E | exact F']).
    exists (d :: l). cbn [pushError st_errors] in E.
    rewrite E, <- app_assoc. split; [reflexivity|].
    constructor; [|exact F']. split; [assumption|]. exists st. auto.
Qed.

Lemma reach_table_fixed st st' :
  reach source allowed false st st' -> st_table st' = st_table st.
Proof.
  induction 1 as [st|a b c S _ IH]; [reflexivity|].
  rewrite IH. destruct S; try reflexivity; discriminate.
Qed.

Lemma setInitialized_declared k v :
  declared source k v -> declared source k (setInitialized v).
Proof. intros H. exact H. Qed.

Lemma reach_entries declaring st st' :
  reach source allowed declaring st st' ->
  Forall entry (st_table st) -> Forall entry (st_table st').
Proof.
  induction 1 as [st|a b c S _ IH]; [auto|]. intros F. apply IH.
  destruct S; try exact F; cbn [declareSymbol setTable st_table].
  - apply tableSet_Forall; assumption.
  - apply tableSet_Forall; [|assumption]. cbn [fst snd].
    apply setInitialized_declared.
    match goal with H : tableGet _ _ = Some _ |- _ => apply tableGet_In in H end.
    rewrite Forall_forall in F. exact (F _ H0).
Qed.

Lemma reach_keys declaring st st' k :
  reach source allowed declaring st st' ->
  tableGet k (st_table st) <> None -> tableGet k (st_table st') <> None.
Proof.
  induction 1 as [st|a b c S _ IH]; [auto|]. intros F. apply IH.
  destruct S; try exact F; cbn [declareSymbol setTable st_table];
    rewrite tableGet_tableSet; destruct (_ === _); congruence.
Qed.

Lemma reach_uses declaring st st' x :
  reach source allowed declaring st st' ->
  In x (variableUses st) -> In x (variableUses st').
Proof.
  induction 1 as [st|a b c S _ IH]; [auto|]. intros F. apply IH.
  destruct S; try exact F. cbn [addUse variableUses].
  destruct (JS.inList _ _); [exact F | apply in_or_app; now left].
Qed.

End Invariants.

(** *** The phases of the analyzer *)

Section Phases.
Variable clock : Clock.
Variable source : string.

Local Abbreviation analysis := (analysis clock source).
Local Abbreviation semanticAnalyzer := (semanticAnalyzer clock source).
Local Abbreviation start := (mkAState [] [] [] 0 0).
Local Abbreviation built := (fun ast =>
  buildSymbolTable clock source ast "global" ["global"]
    (processPreprocessorDirectives source start)).

Lemma reach_analysis_check ast :
  reach source (checkAllowed "global" ["global"]) false (built ast) (analysis ast).
Proof. apply reach_check. Qed.

Lemma analysis_table ast : st_table (analysis ast) = st_table (built ast).
Proof. exact (reach_table_fixed _ _ _ _ (reach_analysis_check ast)). Qed.

Lemma analysis_phase_errors ast :
  Forall (phaseDiagnostic source) (st_errors (analysis ast)).
Proof.
  destruct (reach_errors _ _ _ _ _ (reach_analysis_build clock source ast))
    as (l1 & E1 & F1).
  destruct (reach_errors _ _ _ _ _ (reach_analysis_check ast)) as (l2 & E2 & F2).
  rewrite E2, E1. cbn [st_errors List.app]. apply Forall_app. split.
  - eapply Forall_impl; [|exact F1]. now intros d [P _].
  - eapply Forall_impl; [|exact F2]. now intros d [P _].
Qed.

Lemma analysis_entries ast :
  Forall (fun e => declared source (fst e) (snd e)) (st_table (analysis ast)).
Proof.
  rewrite analysis_table.
  apply (reach_entries _ _ _ _ _ (reach_analysis_build clock source ast)).
  constructor.
Qed.

Lemma performSemanticChecks_table st :
  st_table (performSemanticChecks source st) = st_table st.
Proof.
  unfold performSemanticChecks. cbv zeta.
  change (fun (entry : string * Symbol) (st0 : astate) =>
            if exemptFromUse (snd entry) then st0
            else if negb (JS.inList (sym_name (snd entry)) (variableUses st0))
                 then pushError (unusedVariable source (snd entry)) st0
                 else st0) with (unusedStep source).
  destruct (_ && _).
  - destruct (unused_forEach source (st_table (pushError missingMain st))
                (pushError missingMain st)) as (_ & _ & T).
    rewrite T. reflexivity.
  - destruct (unused_forEach source (st_table st) st) as (_ & _ & T). exact T.
Qed.

Lemma unusedWarnings_warning uses t :
  Forall (fun d => isWarning d = true) (unusedWarnings source uses t).
Proof.
  unfold unusedWarnings. apply Forall_forall. intros d H.
  apply in_map_iff in H. destruct H as (s & <- & _). reflexivity.
Qed.

Lemma filter_all A (p : A -> bool) l :
  Forall (fun a => p a = true) l -> filter p l = l.
Proof.
  induction 1 as [|a l Ha _ IH]; [reflexivity|]. cbn [filter].
  now rewrite Ha, IH.
Qed.

Lemma filter_none A (p : A -> bool) l :
  Forall (fun a => p a = false) l -> filter p l = [].
Proof.
  induction 1 as [|a l Ha _ IH]; [reflexivity|]. cbn [filter].
  now rewrite Ha, IH.
Qed.

(** The diagnostics of the preprocessing pass and of phases 1 and 2 are
    never warnings, so the warnings of a result are exactly the warnings
    of the unused-variable check: one for each symbol of the table, in
    the order of the table, that is not exempt and whose name was never
    recorded as used.  Everything else the analyzer reports is no
    warning and comes before them: the result is the diagnostics of the
    earlier passes, then the missing main, then the warnings. *)
Theorem warnings_are_unused_variables ast :
  errors (semanticAnalyzer ast) =
    errorsOnly (semanticAnalyzer ast) ++ warnings (semanticAnalyzer ast) /\
  warnings (semanticAnalyzer ast) =
    unusedWarnings source (variableUses (analysis ast)) (st_table (analysis ast)) /\
  errorsOnly (semanticAnalyzer ast) =
    st_errors (analysis ast) ++
    (if lacksMain (analysis ast) then [missingMain] else []).
Proof.
  assert (W : warnings (semanticAnalyzer ast) =
              unusedWarnings source (variableUses (analysis ast))
                (st_table (analysis ast)) /\
              errorsOnly (semanticAnalyzer ast) =
              st_errors (analysis ast) ++
              (if lacksMain (analysis ast) then [missingMain] else [])).
  { unfold warnings, errorsOnly, Semantic.semanticAnalyzer. cbn [errors].
    rewrite performSemanticChecks_errors, !filter_app.
    pose proof (analysis_phase_errors ast) as P.
    pose proof (unusedWarnings_warning (variableUses (analysis ast))
                  (st_table (analysis ast))) as U.
    assert (M : forall b : bool,
              Forall (fun d => isWarning d = false)
                (if b then [missingMain] else [])).
    { intros []; repeat constructor. }
    split.
    - rewrite (filter_none _ isWarning (st_errors (analysis ast))),
        (filter_none _ isWarning (if lacksMain (analysis ast) then _ else _)),
        (filter_all _ isWarning); auto.
      eapply Forall_impl; [|exact P]. now intros d (_ & W & _).
    - rewrite (filter_all _ _ (st_errors (analysis ast))),
        (filter_all _ _ (if lacksMain (analysis ast) then _ else _)),
        (filter_none _ (fun d => negb (isWarning d))).
      + now rewrite app_nil_r.
      + eapply Forall_impl; [|exact U]. cbv beta. now intros d ->.
      + eapply Forall_impl; [|apply M]. cbv beta. now intros d ->.
      + eapply Forall_impl; [|exact P]. cbv beta. now intros d (_ & -> & _). }
  destruct W as [W1 W2]. split; [|split; assumption].
  rewrite W1, W2. unfold Semantic.semanticAnalyzer. cbn [errors].
  now rewrite performSemanticChecks_errors, app_assoc.
Qed.

(** Every symbol of the table is stored under the key made of its scope
    and its name, and the line recorded for it is at most the number of
    lines of the source text. *)
Theorem symbol_table_entries ast :
  Forall (fun e =>
            fst e = getSymbolKey (sym_name (snd e)) (sym_scope (snd e)) /\
            sym_line (snd e) <= lineCount source)
    (st_table (performSemanticChecks source (analysis ast))).
Proof.
  rewrite performSemanticChecks_table.
  eapply Forall_impl; [|apply analysis_entries]. cbv beta.
  intros e [K L]. split; [exact K|].
  destruct L as [[-> _]|[p ->]]; [lia|].
  apply getLineNumber_bounds.
Qed.

(** The line of every diagnostic is a line of the source text. *)
Theorem diagnostic_lines_in_range ast :
  Forall (fun d => 1 <= line d <= lineCount source)
    (errors (semanticAnalyzer ast)).
Proof.
  unfold Semantic.semanticAnalyzer. cbn [errors].
  rewrite performSemanticChecks_errors. repeat (apply Forall_app; split).
  - eapply Forall_impl; [|apply analysis_phase_errors]. cbv beta.
    intros d ((p & -> & _) & _). apply getLineNumber_bounds.
  - pose proof (getLineNumber_bounds source None) as B.
    destruct (lacksMain _); repeat constructor; cbn [missingMain line];
      cbn [getLineNumber] in B; lia.
  - unfold unusedWarnings. apply Forall_forall. intros d H.
    apply in_map_iff in H. destruct H as (s & <- & H).
    apply filter_In in H. destruct H as [H X].
    apply in_map_iff in H. destruct H as ([k s'] & <- & H). cbn [snd] in *.
    pose proof (analysis_entries ast) as F. rewrite Forall_forall in F.
    destruct (F _ H) as [_ [[_ B]|[p L]]]; cbn [fst snd] in *.
    + apply andb_prop in X. destruct X as [X _].
      unfold exemptFromUse in X. rewrite B in X. cbn in X.
      now rewrite orb_true_r in X.
    + cbn [unusedVariable line]. rewrite L. apply getLineNumber_bounds.
Qed.

(** Type checking (phase 2) never changes the symbol table, nor do the
    final checks: the table of the result is the one the preprocessing
    pass and phase 1 have built. *)
Theorem type_checking_keeps_table :
  (forall n scope stack st,
     st_table (checkTypes source n scope stack st) = st_table st) /\
  (forall ast,
     symbolTable (semanticAnalyzer ast) = formatSymbolTable (built ast)).
Proof.
  split.
  - intros n scope stack st.
    exact (reach_table_fixed _ _ _ _ (reach_check source n scope stack st)).
  - intros ast. unfold Semantic.semanticAnalyzer. cbn [symbolTable].
    unfold formatSymbolTable.
    now rewrite performSemanticChecks_table, analysis_table.
Qed.


Lemma reach_library st :
  source <> EmptyString ->
  reach source buildAllowed true (addStandardLibraryFunctions st)
    (processPreprocessorDirectives source st).
Proof.
  intros Hs. unfold processPreprocessorDirectives.
  destruct source; [congruence|]. cbn [JS.truthy negb]. cbv zeta.
  match goal with
  | |- reach _ _ _ ?s (forEach _ _ ?s') => apply reach_trans with s'
  end.
  - apply reach_forEach_all. intros m st'.
    apply reach_declare; [reflexivity | diag_side].
  - apply reach_forEach_all. intros m st'.
    apply reach_declare; [reflexivity | diag_side].
Qed.

Lemma library_declared ast g :
  source <> EmptyString ->
  In g (map (fun f => sym_name (snd f)) stdFuncs) ->
  tableGet (getSymbolKey g "builtin") (st_table (analysis ast)) <> None.
Proof.
  intros Hs Hg. rewrite analysis_table.
  apply (reach_keys _ _ _ _ _ _ (reach_build clock source ast "global" ["global"] _)).
  apply (reach_keys _ _ _ _ _ _ (reach_library start Hs)).
  cbn in Hg.
  repeat (destruct Hg as [<-|Hg]; [vm_compute; discriminate|]).
  destruct Hg.
Qed.

Lemma undefinedCall_name g g' : undefinedCall g = undefinedCall g' -> g = g'.
Proof.
  unfold undefinedCall. intros H.
  apply append_cancel_l in H. now apply append_cancel_r in H.
Qed.

(** An undefined-function diagnostic names a function that has no symbol
    in the global scope and none among the library functions (or has the
    empty name): phase 2 looks every callee up from the global scope,
    whatever the place of the call.  In particular, when the source text
    is not empty, no call to a library function is reported as
    undefined. *)
Theorem undefined_call_not_declared ast g :
  In (undefinedCall g) (map message (errors (semanticAnalyzer ast))) ->
  (g = EmptyString \/
   (tableGet (getSymbolKey g "global") (st_table (analysis ast)) = None /\
    tableGet (getSymbolKey g "builtin") (st_table (analysis ast)) = None)) /\
  (source <> EmptyString ->
   ~ In g (map (fun f => sym_name (snd f)) stdFuncs)).
Proof.
  intros H.
  assert (R : g = EmptyString \/
              (tableGet (getSymbolKey g "global") (st_table (analysis ast)) = None /\
               tableGet (getSymbolKey g "builtin") (st_table (analysis ast)) = None)).
  { unfold Semantic.semanticAnalyzer in H. cbn [errors] in H.
    rewrite performSemanticChecks_errors, !map_app, !in_app_iff in H.
    destruct H as [H|[H|H]].
    - destruct (reach_errors _ _ _ _ _ (reach_analysis_build clock source ast))
        as (l1 & E1 & F1).
      destruct (reach_errors _ _ _ _ _ (reach_analysis_check ast))
        as (l2 & E2 & F2).
      rewrite E2, E1 in H. cbn [st_errors List.app] in H.
      rewrite map_app, in_app_iff in H.
      apply or_comm in H. destruct H as [H|H].
      + apply in_map_iff in H. destruct H as (d & M & I).
        rewrite Forall_forall in F2.
        destruct (F2 _ I) as (_ & st0 & A & T).
        destruct A as (g' & M' & N).
        { unfold startsWithC. now rewrite M. }
        rewrite M in M'. apply undefinedCall_name in M'. subst g'.
        rewrite analysis_table, <- (T eq_refl).
        destruct (resolveVariable_none _ _ _ _ "global" N) as [Z|G];
          [now left | now left |].
        destruct (resolveVariable_none _ _ _ _ "builtin" N) as [Z|B];
          [right; right; now left | now left |].
        right. now split.
      + apply in_map_iff in H. destruct H as (d & M & I).
        rewrite Forall_forall in F1.
        destruct (F1 _ I) as (_ & st0 & A & _).
        unfold buildAllowed, startsWithC in A. rewrite M in A. discriminate.
    - destruct (lacksMain _); [|destruct H].
      destruct H as [H|[]]. discriminate.
    - unfold unusedWarnings in H. rewrite map_map in H.
      apply in_map_iff in H. destruct H as (s & E & _). discriminate. }
  split; [exact R|].
  intros Hs Hg. pose proof (library_declared ast g Hs Hg) as L.
  destruct R as [->|[_ B]]; [|congruence].
  cbn in Hg. repeat (destruct Hg as [Hg|Hg]; [discriminate|]). destruct Hg.
Qed.

End Phases.

(** *** Lookup and display *)

(** A symbol entered for a name in a scope is what a lookup of that name
    from that scope returns, whatever the enclosing scopes hold; and
    every symbol a lookup returns is the entry of the table for the name
    in the current scope, in a scope of the stack or among the library
    functions. *)
Theorem lookup_after_declaration x scope stack :
  (forall s st, x <> EmptyString ->
     resolveVariable x scope stack
       (st_table (declareSymbol (getSymbolKey x scope) s st)) =
     Some (getSymbolKey x scope, s)) /\
  (forall t k v, resolveVariable x scope stack t = Some (k, v) ->
     tableGet k t = Some v /\
     exists sc, In sc (scope :: List.rev stack ++ ["builtin"]) /\
                k = getSymbolKey x sc).
Proof.
  split; [|intros t k v; apply resolveVariable_entry].
  intros s st Hx. rewrite resolveVariable_search.
  destruct x as [|c x]; [congruence|]. cbn [JS.truthy negb searchScopes].
  cbn [declareSymbol setTable st_table].
  now rewrite tableGet_tableSet, String.eqb_refl.
Qed.

Lemma tableSet_In V k (v : V) t e :
  In e (tableSet k v t) -> e = (k, v) \/ In e t.
Proof.
  induction t as [|[k0 v0] t IH]; cbn [tableSet].
  - intros [<-|[]]. now left.
  - destruct (k0 === k) eqn:E.
    + apply String.eqb_eq in E. subst k0.
      intros [<-|H]; [now left | right; now right].
    + intros [<-|H]; [right; now left|].
      destruct (IH H) as [->|I]; [now left | right; now right].
Qed.

(** The displayed symbol table shows no library function and no include:
    each of its entries comes from a symbol of the table whose scope is
    neither builtin nor preprocessor, with the type, scope and line of
    that symbol. *)
Theorem display_hides_library st name d :
  In (name, d) (formatSymbolTable st) ->
  d_scope d <> "builtin" /\ d_scope d <> "preprocessor" /\
  exists k s, In (k, s) (st_table st) /\
    d_type d = sym_type s /\ d_scope d = sym_scope s /\ d_line d = sym_line s.
Proof.
  unfold formatSymbolTable.
  assert (G : forall t acc,
    (forall e, In e t -> In e (st_table st)) ->
    (forall name d, In (name, d) acc ->
       d_scope d <> "builtin" /\ d_scope d <> "preprocessor" /\
       exists k s, In (k, s) (st_table st) /\
         d_type d = sym_type s /\ d_scope d = sym_scope s /\
         d_line d = sym_line s) ->
    forall name d,
      In (name, d)
        (forEach t
           (fun entry display =>
              let symbol := snd entry in
              if (sym_scope symbol === "builtin") ||
                 (sym_scope symbol === "preprocessor")
              then display
              else
                let displayName :=
                  if sym_scope symbol === "global" then sym_name symbol
                  else sym_scope symbol +++ "." +++ sym_name symbol in
                tableSet displayName
                  (mkDisplay (sym_type symbol) (sym_scope symbol)
                     (sym_line symbol) (sym_initialized symbol)
                     (sym_params symbol) (sym_isArray symbol)
                     (sym_isPointer symbol)
                     (match sym_value symbol with
                      | Some v => if JS.truthy v then Some v else None
                      | None => None
                      end)) display) acc) ->
      d_scope d <> "builtin" /\ d_scope d <> "preprocessor" /\
      exists k s, In (k, s) (st_table st) /\
        d_type d = sym_type s /\ d_scope d = sym_scope s /\
        d_line d = sym_line s).
  { induction t as [|[k s] t IH]; intros acc Ht Hacc name' d'.
    - apply Hacc.
    - rewrite forEach_cons. apply IH; [intros e He; apply Ht; now right|].
      cbv zeta. cbn [snd].
      destruct ((sym_scope s === "builtin") || (sym_scope s === "preprocessor"))
        eqn:E; [exact Hacc|].
      intros n0 d0 H0. apply tableSet_In in H0. destruct H0 as [H0|H0];
        [|now apply Hacc in H0].
      injection H0 as _ ->. cbn [d_scope d_type d_line].
      apply orb_false_elim in E. destruct E as [E1 E2].
      apply String.eqb_neq in E1, E2. repeat split; try assumption.
      exists k, s. repeat split. apply Ht. now left. }
  apply (G (st_table st) []); [auto | intros ? ? []].
Qed.

End AnalyzerMore.

(** ** The analyzer: names, tables and the recorded uses *)

Module MainProofs.
Import Semantic AnalyzerLogic PhaseLogic Scenario ProgramLogic.
Import AnalyzerProofs AnalyzerMore.

(** *** The names of the symbols *)

Lemma Forall_both A (P Q : A -> Prop) l :
  Forall P l -> Forall Q l -> Forall (fun x => P x /\ Q x) l.
Proof.
  induction 1 as [|a l Ha _ IH]; intros H; [constructor|].
  inversion H; subst. constructor; auto.
Qed.

Lemma case_identifier (Q : astate -> Prop) (n : node) (f : ident -> astate) st :
  (forall i, Q (f i)) -> Q st ->
  Q match n with Identifier i => f i | _ => st end.
Proof. intros F H. destruct n; auto. Qed.

(** *** What marking keeps *)

Lemma framed_refl st : framed st st.
Proof. repeat split. apply incl_refl. Qed.

Lemma framed_trans a b c : framed a b -> framed b c -> framed a c.
Proof.
  intros (T1 & N1 & R1 & U1) (T2 & N2 & R2 & U2).
  repeat split; try congruence. eapply incl_tran; eassumption.
Qed.

Lemma addUse_incl x st : incl (variableUses st) (variableUses (addUse x st)).
Proof.
  unfold addUse. cbn [variableUses].
  destruct (JS.inList x (variableUses st)); [apply incl_refl|].
  apply incl_appl, incl_refl.
Qed.

Lemma framed_addUse x st : framed st (addUse x st).
Proof. repeat split. apply addUse_incl. Qed.

Lemma framed_pushError d st : framed st (pushError d st).
Proof. repeat split. apply incl_refl. Qed.

Lemma framed_forEach A (f : A -> astate -> astate) l :
  Forall (fun a => forall st, framed st (f a st)) l ->
  forall st, framed st (forEach l f st).
Proof.
  induction 1 as [|a l Ha _ IH]; intros st; [apply framed_refl|].
  rewrite forEach_cons. eapply framed_trans; [apply Ha | apply IH].
Qed.

Lemma framed_forEachI A (f : A -> nat -> astate -> astate) l :
  Forall (fun a => forall i st, framed st (f a i st)) l ->
  forall i st, framed st (forEachI l f i st).
Proof.
  induction 1 as [|a l Ha _ IH]; intros i st; [apply framed_refl|].
  change (forEachI (a :: l) f i st) with (forEachI l f (S i) (f a i st)).
  eapply framed_trans; [apply Ha | apply IH].
Qed.

Section Marking.
Variable source : string.

Lemma framed_markIdentifier i scope stack st :
  framed st (markIdentifier source i scope stack st).
Proof.
  unfold markIdentifier.
  destruct (resolveVariable _ _ _ _) as [[k v]|]; [|apply framed_refl].
  cbv zeta. destruct (_ && _).
  - eapply framed_trans; [apply framed_addUse | apply framed_pushError].
  - apply framed_addUse.
Qed.

Ltac frm_step :=
  first
    [ apply framed_refl
    | apply framed_markIdentifier
    | match goal with
      | IH : forall _ _ st, framed st _
        |- framed ?a (markVariablesAsUsed _ ?n ?sc ?stk ?b) =>
          lazymatch a with
          | b => apply IH
          | _ => apply framed_trans with b; [|apply IH]
          end
      | |- framed ?a (markIdentifier _ ?i ?sc ?stk ?b) =>
          apply framed_trans with b; [|apply framed_markIdentifier]
      | |- framed _ (forEach _ _ _) =>
          apply framed_forEach; eapply Forall_impl; [|eassumption];
          cbv beta; intros; try solve [auto]
      | |- framed _ (match ?o with Some _ => _ | None => _ end) =>
          destruct o; cbn [OptP] in *
      end ].

Lemma framed_mark n : forall scope stack st,
  framed st (markVariablesAsUsed source n scope stack st).
Proof.
  induction n using node_nested_ind with
    (Pd := fun d => forall scope stack st,
       framed st
         (match d with
          | VariableDeclarator id _ init _ _ =>
              match init with
              | Some m => markVariablesAsUsed source m scope stack
                            (markIdentifier source id scope stack st)
              | None => markIdentifier source id scope stack st
              end
          end));
    intros scope stack st; cbn [markVariablesAsUsed OptP] in *.
  all: repeat frm_step.
Qed.

Lemma framed_getExpressionType n : forall scope stack st,
  framed st (snd (getExpressionType n scope stack st)).
Proof.
  induction n using node_nested_ind with (Pd := fun _ => True);
    try exact I; intros scope stack st; cbn [getExpressionType]; auto.
  all: try solve [apply framed_refl].
  all: try solve [destruct (resolveVariable _ _ _ _) as [[k v]|]; cbn [snd];
      [apply framed_addUse | apply framed_refl]].
  all: repeat match goal with
       | H : forall _ _ st, framed st (snd (getExpressionType ?n _ _ st))
         |- context [getExpressionType ?n ?sc ?sk ?s] =>
           let H' := fresh in
           pose proof (H sc sk s) as H';
           destruct (getExpressionType n sc sk s); cbn [snd] in H'
       end; cbn [snd].
  all: try solve [eauto using framed_trans, framed_refl].
Qed.

Ltac frm_check :=
  first
    [ apply framed_refl
    | assumption
    | apply framed_pushError
    | match goal with
      | IH : forall _ _ st, framed st (checkTypes _ ?n _ _ st)
        |- framed ?a (checkTypes _ ?n ?sc ?stk ?b) =>
          lazymatch a with
          | b => apply IH
          | _ => apply framed_trans with b; [|apply IH]
          end
      | |- framed ?a (pushError _ ?b) =>
          apply framed_trans with b; [|apply framed_pushError]
      | |- framed _ (let (_, _) := getExpressionType ?n ?sc ?sk ?s in _) =>
          let H := fresh in
          pose proof (framed_getExpressionType n sc sk s) as H;
          destruct (getExpressionType n sc sk s) as [? ?]; cbn [snd] in H
      | |- framed _ (match resolveVariable ?a ?b ?c ?d with _ => _ end) =>
          destruct (resolveVariable a b c d) as [[? ?]|]
      | |- framed ?s (forEach _ _ ?s) =>
          apply framed_forEach; eapply Forall_impl; [|eassumption];
          cbv beta; intros
      | |- framed ?s (forEachI _ _ _ ?s) =>
          apply framed_forEachI; eapply Forall_impl; [|eassumption];
          cbv beta; intros
      | |- framed ?a (forEachI ?l ?f ?i ?b) =>
          apply framed_trans with b
      | |- framed _ (match ?d with VariableDeclarator _ _ _ _ _ => _ end) =>
          destruct d; cbn [OptP] in *
      | |- framed _ (match ?o with Some _ => _ | None => _ end) =>
          destruct o; cbn [OptP] in *
      | |- framed _ (if ?b then _ else _) => destruct b
      | H : framed ?m ?b |- framed ?a ?b =>
          apply framed_trans with m; [|exact H]; clear H
      end ].

(** Phase 2 keeps the table and reads no clock. *)
Lemma framed_check n : forall scope stack st,
  framed st (checkTypes source n scope stack st).
Proof.
  induction n using node_nested_ind with
    (Pd := fun d =>
       match d with
       | VariableDeclarator _ _ init _ _ =>
           OptP (fun n => forall scope stack st,
                   framed st (checkTypes source n scope stack st))
                init
       end);
    intros; cbn [checkTypes OptP] in *; try assumption.
  all: cbv zeta.
  all: try solve [repeat frm_check].
Qed.

End Marking.

Section Names.
Variable P : string -> Prop.

Lemma named_addUse x st : named P st -> named P (addUse x st).
Proof. intros H. exact H. Qed.

Lemma named_counters st u a b :
  named P st -> named P (mkAState (st_table st) (st_errors st) u a b).
Proof. intros H. exact H. Qed.

Lemma named_pushError d st : named P st -> named P (pushError d st).
Proof. intros H. exact H. Qed.

Lemma named_declare k s st :
  P (sym_name s) -> named P st -> named P (declareSymbol k s st).
Proof.
  intros Hs H. unfold named. cbn [declareSymbol setTable st_table].
  now apply tableSet_Forall.
Qed.

Lemma named_forEach A (f : A -> astate -> astate) l :
  Forall (fun a => forall st, named P st -> named P (f a st)) l ->
  forall st, named P st -> named P (forEach l f st).
Proof.
  induction 1 as [|a l Ha _ IH]; intros st Hst; [exact Hst|].
  rewrite forEach_cons. apply IH, Ha, Hst.
Qed.

Lemma named_resolved x scope stack st k v :
  named P st -> resolveVariable x scope stack (st_table st) = Some (k, v) ->
  P (sym_name v).
Proof.
  intros H R. apply resolveVariable_entry in R. destruct R as [G _].
  apply tableGet_In in G. unfold named in H. rewrite Forall_forall in H.
  exact (H _ G).
Qed.

Section Walk.
Variable clock : Clock.
Variable source : string.

Lemma named_mark n scope stack st :
  named P st -> named P (markVariablesAsUsed source n scope stack st).
Proof.
  intros H. unfold named.
  destruct (framed_mark source n scope stack st) as (T & _). now rewrite T.
Qed.

Lemma named_markIdentifier i scope stack st :
  named P st -> named P (markIdentifier source i scope stack st).
Proof. exact (named_mark (Identifier i) scope stack st). Qed.

Ltac names_split :=
  cbn [declaredNames OptP] in *;
  repeat match goal with
  | H : _ /\ _ |- _ => destruct H
  | H : Forall P (_ ++ _) |- _ => apply (proj1 (Forall_app _ _ _)) in H
  | H : Forall P (_ :: _) |- _ => apply (proj1 (Forall_cons_iff _ _ _)) in H
  | H : Forall P (flat_map _ _) |- _ => apply (proj1 (Forall_flat_map _ _ _)) in H
  | H : Forall P (map _ _) |- _ => apply (proj1 (Forall_map _ _ _)) in H
  | IH : ?A -> forall _ _ st, named P st -> named P _, H : ?A |- _ =>
      specialize (IH H)
  | IH : Forall _ ?l, H : Forall _ ?l |- _ =>
      pose proof (Forall_both _ _ _ _ IH H); clear IH H
  end.

Ltac names_step :=
  first
    [ assumption
    | apply named_addUse
    | apply named_markIdentifier
    | apply named_mark
    | apply named_counters
    | apply named_pushError
    | apply named_declare; [cbn [sym_name setInitialized]; try assumption|]
    | match goal with
      | IH : forall _ _ st, named P st -> named P _
        |- named P (buildSymbolTable _ _ ?n _ _ _) => apply IH
      | |- named P (forEach _ _ _) =>
          apply named_forEach;
            [ eapply Forall_impl; [|eassumption]; cbv beta; intros;
              cbv beta in *; names_split
            | ]
      | |- named P (match ?n with Identifier _ => _ | _ => _ end) =>
          apply (case_identifier (named P)); [intros ?|]
      | |- named P (match ?o with Some _ => _ | None => _ end) =>
          destruct o eqn:?; names_split
      | |- named P (match ?d with VariableDeclarator _ _ _ _ _ => _ end) =>
          destruct d; names_split
      | |- named P (if ?b then _ else _) => destruct b eqn:?
      | |- named P (let (_, _) := ?p in _) => destruct p
      | R : resolveVariable _ _ _ (st_table ?s) = Some (_, ?v) |- P (sym_name ?v) =>
          apply (fun H => named_resolved _ _ _ s _ _ H R)
      end ].

Lemma named_build n :
  Forall P (declaredNames n) ->
  forall scope stack st,
    named P st -> named P (buildSymbolTable clock source n scope stack st).
Proof.
  induction n using node_nested_ind with
    (Pd := fun d =>
       match d with
       | VariableDeclarator _ _ init _ _ =>
           OptP (fun n => Forall P (declaredNames n) -> forall scope stack st,
                   named P st ->
                   named P (buildSymbolTable clock source n scope stack st))
                init
       end);
    try (intros Hc scope stack st Hst); cbn [buildSymbolTable OptP] in *;
    try assumption.
  all: unfold markOptional, blockScopeName, timedScope, random, now.
  all: cbv zeta; cbn [st_table st_errors variableUses nowCalls randomCalls].
  all: names_split; repeat names_step.
Qed.

Lemma named_preprocess st :
  Forall (fun f => P (sym_name (snd f))) stdFuncs ->
  (forall h, P ("#include_" +++ h)) ->
  Forall P (definedNames source) ->
  named P st -> named P (processPreprocessorDirectives source st).
Proof.
  intros L I D H. unfold processPreprocessorDirectives, addStandardLibraryFunctions.
  destruct (negb (JS.truthy source)); [exact H|]. cbv zeta.
  apply named_forEach.
  { unfold definedNames in D. apply (proj1 (Forall_map _ _ _)) in D.
    eapply Forall_impl; [|exact D]. cbv beta. intros m Hm st' H'.
    now apply named_declare. }
  apply named_forEach.
  { apply Forall_forall. intros m _ st' H'. apply named_declare; [|exact H'].
    apply I. }
  apply named_forEach; [|exact H].
  eapply Forall_impl; [|exact L]. cbv beta. intros f F st' H'.
  now apply named_declare.
Qed.

Lemma named_analysis ast :
  Forall (fun f => P (sym_name (snd f))) stdFuncs ->
  (forall h, P ("#include_" +++ h)) ->
  Forall P (definedNames source) ->
  Forall P (declaredNames ast) ->
  named P (analysis clock source ast).
Proof.
  intros L I D N. unfold named.
  rewrite (analysis_table clock source ast).
  apply named_build; [exact N|]. apply named_preprocess; auto. constructor.
Qed.

End Walk.
End Names.

(** *** The key of a global main *)

Lemma main_has_no_colon sc x : sc +++ ":" +++ x <> "main".
Proof.
  intros H.
  do 4 (destruct sc as [|? sc]; [discriminate H|];
        cbn [String.append] in H; injection H as _ H).
  destruct sc; discriminate H.
Qed.

Lemma global_main_key x sc : getSymbolKey x sc = "global:main" -> x = "main".
Proof.
  unfold getSymbolKey. intros H.
  do 6 (destruct sc as [|? sc]; [discriminate H|];
        cbn [String.append] in H; injection H as _ H).
  destruct sc as [|? sc]; cbn [String.append] in H.
  - now injection H.
  - injection H as _ H. now apply main_has_no_colon in H.
Qed.

Section Main.
Variable clock : Clock.
Variable source : string.

Lemma no_main_no_key ast :
  ~ In "main" (declaredNames ast) -> ~ In "main" (definedNames source) ->
  tableGet "global:main" (st_table (analysis clock source ast)) = None.
Proof.
  intros N D.
  destruct (tableGet "global:main" (st_table (analysis clock source ast)))
    as [s|] eqn:G; [exfalso | reflexivity].
  apply tableGet_In in G.
  pose proof (analysis_entries clock source ast) as E.
  rewrite Forall_forall in E. destruct (E _ G) as [K _]. cbn [fst snd] in K.
  symmetry in K. apply global_main_key in K.
  assert (M : named (fun y => y <> "main") (analysis clock source ast)).
  { apply named_analysis.
    - unfold stdFuncs. repeat constructor; discriminate.
    - intros h. discriminate.
    - apply Forall_forall. intros y Hy ->. auto.
    - apply Forall_forall. intros y Hy ->. auto. }
  unfold named in M. rewrite Forall_forall in M. exact (M _ G K).
Qed.

Lemma forEach_app A St (f : A -> St -> St) l1 l2 st :
  forEach (l1 ++ l2) f st = forEach l2 f (forEach l1 f st).
Proof.
  revert st. induction l1 as [|a l1 IH]; intros st; [reflexivity|].
  cbn [List.app]. rewrite !forEach_cons. apply IH.
Qed.

Lemma declare_keeps k k' s st :
  tableGet k (st_table st) <> None ->
  tableGet k (st_table (declareSymbol k' s st)) <> None.
Proof.
  intros H. cbn [declareSymbol setTable st_table]. rewrite tableGet_tableSet.
  destruct (_ === _); [discriminate | exact H].
Qed.

Lemma empty_program_empty_table ast :
  source = EmptyString -> declaredNames ast = [] ->
  st_table (analysis clock source ast) = [].
Proof.
  intros Hs N.
  assert (M : named (fun _ => False) (analysis clock source ast)).
  { unfold named. rewrite (analysis_table clock source ast).
    apply (named_build (fun _ => False)); [rewrite N; constructor|].
    unfold processPreprocessorDirectives. rewrite Hs. cbn [JS.truthy negb].
    constructor. }
  unfold named in M. destruct (st_table (analysis clock source ast)); [reflexivity|].
  inversion M; subst. contradiction.
Qed.

End Main.

End MainProofs.

(** ** The analyzer: visible reads *)

Module ReadProofs.
Import Semantic AnalyzerLogic PhaseLogic Scenario ProgramLogic ReadLogic.
Import AnalyzerProofs AnalyzerMore MainProofs.

(** *** Visible symbols *)



Lemma visible_table x stack st st' :
  (forall k, tableGet k (st_table st) <> None ->
             tableGet k (st_table st') <> None) ->
  visible x stack st -> visible x stack st'.
Proof. intros G (T & sc & I & K). split; [exact T|]. exists sc. auto. Qed.




(** *** Marked identifiers are recorded *)

Section Marked.
Variable source : string.
Variable x : string.


Variable scope : string.
Variable stack : list string.

Local Abbreviation U := (fun st => In x (variableUses st)).
Local Abbreviation V := (visible x stack).
Local Abbreviation mark := (fun m => markVariablesAsUsed source m scope stack).










End Marked.

(** *** What the walk keeps *)

Lemma grew_refl st : grew st st.
Proof.
  split; [auto|]. split; [apply incl_refl|]. exists []. now rewrite app_nil_r.
Qed.

Lemma grew_trans a b c : grew a b -> grew b c -> grew a c.
Proof.
  intros (K1 & U1 & l1 & E1) (K2 & U2 & l2 & E2).
  split; [auto|]. split; [eapply incl_tran; eassumption|].
  exists (l1 ++ l2). now rewrite E2, E1, app_assoc.
Qed.

Lemma grew_reach source allowed declaring a b :
  reach source allowed declaring a b -> grew a b.
Proof.
  intros R. split; [|split].
  - intros k. exact (reach_keys _ _ _ _ _ _ R).
  - intros y. exact (reach_uses _ _ _ _ _ _ R).
  - destruct (reach_errors _ _ _ _ _ R) as (l & E & _). eauto.
Qed.

Lemma grew_declare k s st : grew st (declareSymbol k s st).
Proof.
  split; [|split].
  - intros k'. apply declare_keeps.
  - apply incl_refl.
  - exists []. cbn [declareSymbol setTable st_errors]. now rewrite app_nil_r.
Qed.

Lemma grew_pushError d st : grew st (pushError d st).
Proof.
  split; [auto|]. split; [apply incl_refl|]. now exists [d].
Qed.

Lemma grew_addUse y st : grew st (addUse y st).
Proof.
  split; [auto|]. split; [apply addUse_incl|]. exists [].
  cbn [addUse st_errors]. now rewrite app_nil_r.
Qed.

Lemma grew_counters st a b :
  grew st (mkAState (st_table st) (st_errors st) (variableUses st) a b).
Proof.
  split; [auto|]. split; [apply incl_refl|]. exists [].
  cbn [st_errors]. now rewrite app_nil_r.
Qed.

Lemma grew_forEach A (f : A -> astate -> astate) l :
  (forall a st, grew st (f a st)) -> forall st, grew st (forEach l f st).
Proof.
  intros F. induction l as [|a l IH]; intros st; [apply grew_refl|].
  rewrite forEach_cons. eapply grew_trans; [apply F | apply IH].
Qed.

Lemma visible_grew x stack a b : grew a b -> visible x stack a -> visible x stack b.
Proof. intros (K & _). now apply visible_table. Qed.


(** *** Visible reads are recorded *)

Section Built.
Variable clock : Clock.
Variable source : string.
Variable inits : bool.
Variable x : string.

Local Abbreviation G := (recorded inits x).
Local Abbreviation build := (buildSymbolTable clock source).
Local Abbreviation mark := (markVariablesAsUsed source).

Lemma grew_build n scope stack st : grew st (build n scope stack st).
Proof. exact (grew_reach _ _ _ _ _ (reach_build clock source n scope stack st)). Qed.

Lemma grew_mark n scope stack st : grew st (mark n scope stack st).
Proof. exact (grew_reach _ _ _ _ _ (reach_mark source n scope stack st)). Qed.

Lemma grew_markIdentifier i scope stack st :
  grew st (markIdentifier source i scope stack st).
Proof. exact (grew_mark (Identifier i) scope stack st). Qed.

Ltac grew_step :=
  match goal with
  | |- grew ?a ?a => apply grew_refl
  | |- grew ?a (buildSymbolTable _ _ _ _ _ ?s) =>
      apply grew_trans with s; [|apply grew_build]
  | |- grew ?a (markVariablesAsUsed _ _ _ _ ?s) =>
      apply grew_trans with s; [|apply grew_mark]
  | |- grew ?a (markIdentifier _ _ _ _ ?s) =>
      apply grew_trans with s; [|apply grew_markIdentifier]
  | |- grew ?a (declareSymbol _ _ ?s) =>
      apply grew_trans with s; [|apply grew_declare]
  | |- grew ?a (pushError _ ?s) =>
      apply grew_trans with s; [|apply grew_pushError]
  | |- grew ?a (addUse _ ?s) =>
      apply grew_trans with s; [|apply grew_addUse]
  | |- grew ?a (mkAState (st_table ?s) (st_errors ?s) (variableUses ?s) _ _) =>
      apply grew_trans with s; [|apply grew_counters]
  | |- grew ?a (forEach _ _ ?s) =>
      apply grew_trans with s; [|apply grew_forEach; intros; cbv beta]
  | |- grew ?a (match ?n with Identifier _ => _ | _ => _ end) =>
      apply (case_identifier (grew a)); [intros ?|]
  | |- grew ?a (match ?o with Some _ => _ | None => _ end) => destruct o
  | |- grew ?a (if ?b then _ else _) => destruct b
  | |- grew ?a (let (_, _) := ?p in _) => destruct p
  | |- grew ?a (match ?d with VariableDeclarator _ _ _ _ _ => _ end) =>
      destruct d
  end.

Ltac grew_tac := repeat first [grew_step | progress cbv zeta].



(** The step of [buildSymbolTable] on one declarator. *)
Local Abbreviation declaratorStep := (fun (varType scope : string)
    (stack : list string) (loc : location) (d : declarator) (st : astate) =>
  match d with
  | VariableDeclarator id isArray init _ isPointer =>
      if negb (JS.truthy (name id)) then st
      else
        match tableGet (getSymbolKey (name id) scope) (st_table st) with
        | Some _ =>
            pushError
              (mkDiagnostic
                 ("Redeclaration of variable '" +++ name id +++ "' in "
                  +++ scope +++ " scope")
                 (getLineNumber source
                    (Some (match loc_start (id_location id) with
                           | 0 => loc_start loc
                           | p => p
                           end)))
                 (getCodeLine source
                    (Some (match loc_start (id_location id) with
                           | 0 => loc_start loc
                           | p => p
                           end)))
                 "Variable already declared in this scope" None) st
        | None =>
            let st :=
              declareSymbol (getSymbolKey (name id) scope)
                (mkSymbol (name id)
                   (if isArray
                    then (if isPointer then varType +++ "*" else varType) +++ "[]"
                    else if isPointer then varType +++ "*" else varType)
                   None scope
                   (getLineNumber source
                      (Some (match loc_start (id_location id) with
                             | 0 => loc_start loc
                             | p => p
                             end)))
                   (initializedFlag init)
                   None false false isArray isPointer None) st in
            match init with
            | Some i => mark i scope stack (build i scope stack st)
            | None => st
            end
        end
  end).

Lemma build_declaration ds ts loc scope stack st :
  build (VariableDeclaration ds ts loc) scope stack st =
  forEach ds (declaratorStep (specifierNames ts) scope stack loc) st.
Proof. reflexivity. Qed.

Lemma grew_declaratorStep vt scope stack loc d st :
  grew st (declaratorStep vt scope stack loc d st).
Proof. cbv beta. grew_tac. Qed.

Lemma declaratorStep_visible vt scope stack loc d st :
  declaresVar x d = true -> In scope stack ->
  visible x stack (declaratorStep vt scope stack loc d st).
Proof.
  destruct d as [id isArray init l isPointer]. cbn [declaresVar]. intros H I.
  apply andb_prop in H. destruct H as [T E]. apply String.eqb_eq in E.
  cbv beta iota. rewrite T. cbn [negb]. subst x.
  destruct (tableGet (getSymbolKey (name id) scope) (st_table st)) eqn:K.
  - split; [exact T|]. exists scope. split; [exact I|].
    cbn [pushError st_table]. congruence.
  - cbv zeta.
    match goal with
    | |- visible _ _ (match init with Some _ => _ | None => ?s end) =>
        assert (V : visible (name id) stack s)
    end.
    { split; [exact T|]. exists scope. split; [exact I|].
      cbn [declareSymbol setTable st_table]. rewrite tableGet_tableSet.
      rewrite String.eqb_refl. discriminate. }
    destruct init; [|exact V].
    eapply visible_grew; [|exact V]. grew_tac.
Qed.

Lemma declarators_visible vt scope stack loc ds : forall st,
  existsb (declaresVar x) ds = true -> In scope stack ->
  visible x stack (forEach ds (declaratorStep vt scope stack loc) st).
Proof.
  induction ds as [|d ds IH]; intros st H I; [discriminate|].
  cbn [existsb] in H. rewrite forEach_cons.
  apply orb_prop in H. destruct H as [H|H]; [|now apply IH].
  eapply visible_grew.
  - apply grew_forEach. intros. apply grew_declaratorStep.
  - now apply declaratorStep_visible.
Qed.

Lemma declares_visible n scope stack st :
  declares x n = true -> In scope stack -> In "global" stack ->
  visible x stack (build n scope stack st).
Proof.
  destruct n; try discriminate; cbn [declares]; intros H I Ig.
  - apply andb_prop in H. destruct H as [T E]. apply String.eqb_eq in E.
    cbn [buildSymbolTable]. rewrite T. cbn [negb]. cbv zeta.
    rewrite E in *.
    match goal with
    | |- visible _ _ (match ?b with Some _ => _ | None => ?s end) =>
        assert (V : visible x stack s)
    end.
    { split; [exact T|]. exists "global". split; [exact Ig|].
      cbn [declareSymbol setTable st_table]. rewrite tableGet_tableSet.
      rewrite String.eqb_refl. discriminate. }
    match goal with |- visible _ _ (match ?b with _ => _ end) => destruct b end;
      [|exact V].
    eapply visible_grew; [|exact V]. grew_tac.
  - rewrite build_declaration. now apply declarators_visible.
Qed.

Local Abbreviation reads_recorded := (readsRecorded clock source inits x).














End Built.

Section Result.
Variable clock : Clock.
Variable source : string.



End Result.

End ReadProofs.

(** ** The analyzer: the missing main *)

Module ProgramProofs.
Import Semantic Scenario AnalyzerLogic PhaseLogic ProgramLogic ReadLogic.
Import AnalyzerProofs AnalyzerMore MainProofs ReadProofs.

Section Main.
Variable clock : Clock.
Variable source : string.

Local Abbreviation messages := (fun ast =>
  map message (errors (semanticAnalyzer clock source ast))).

Lemma top_declaration_key x ast :
  declaredAtTop x ast = true ->
  tableGet (getSymbolKey x "global") (st_table (analysis clock source ast)) <> None.
Proof.
  destruct ast; try discriminate. cbn [declaredAtTop]. intros H.
  apply existsb_exists in H. destruct H as (m & I & D).
  rewrite (analysis_table clock source).
  apply in_split in I. destruct I as (l1 & l2 & ->).
  cbn [buildSymbolTable]. rewrite forEach_app, forEach_cons.
  match goal with
  | |- tableGet _ (st_table (forEach l2 ?f ?s)) <> None =>
      apply (reach_keys source buildAllowed true s);
        [apply reach_forEach_all; intros; apply reach_build|]
  end.
  match goal with
  | |- tableGet _ (st_table (buildSymbolTable _ _ _ _ _ ?s)) <> None =>
      destruct (declares_visible clock source x m "global" ["global"] s D)
        as (_ & sc & [<-|[]] & K); [now left | now left | exact K]
  end.
Qed.

(** C5 (amended): a program in which nothing is named main (no
    function, parameter, variable or type name of the tree, no macro of
    the text) is reported to lack main as soon as its source text is
    not empty or it declares something at top level, so also when it
    holds no declaration at all; a program that declares main at top
    level is not reported, and neither is a program with an empty text
    that declares nothing.  The source text is taken to be ASCII, the
    range in which the define pattern is modelled. *)
Theorem missing_main_by_program ast :
  (source <> EmptyString \/ (exists y, declaredAtTop y ast = true) ->
   plainText source = true ->
   ~ In "main" (declaredNames ast) -> ~ In "main" (definedNames source) ->
   In "Missing 'main' function" (messages ast)) /\
  (declaredAtTop "main" ast = true ->
   ~ In "Missing 'main' function" (messages ast)) /\
  (source = EmptyString -> declaredNames ast = [] ->
   ~ In "Missing 'main' function" (messages ast)).
Proof.
  destruct (missingMain_guard clock source ast) as [G T]. cbv zeta in G, T.
  split; [|split].
  - intros Hs _ N D. apply G. split; [now apply no_main_no_key|].
    destruct Hs as [Hs|[y Hy]]; [now apply T|].
    apply (top_declaration_key y) in Hy. intros E. rewrite E in Hy.
    now apply Hy.
  - intros M H. apply G in H. destruct H as [H _].
    exact (top_declaration_key "main" ast M H).
  - intros Hs N H. apply G in H. destruct H as [_ H].
    apply H. now apply empty_program_empty_table.
Qed.

End Main.

End ProgramProofs.

(** ** The analyzer: the clock *)

Module ClockProofs.
Import Semantic AnalyzerLogic PhaseLogic ProgramLogic ClockLogic.
Import AnalyzerProofs AnalyzerMore MainProofs.

Section Sync.
Variables c1 c2 : Clock.
Variable source : string.

Local Abbreviation sync := (sync c1 c2).
Local Abbreviation sameTimes := (sameTimes c1 c2).
Local Abbreviation sameTags := (sameTags c1 c2).

Lemma sameTimes_le a b : a <= b -> sameTimes b -> sameTimes a.
Proof. intros L H i Hi. apply H. lia. Qed.

Lemma sameTags_le a b : a <= b -> sameTags b -> sameTags a.
Proof. intros L H i Hi. apply H. lia. Qed.

Lemma sync_refl T R st : sync T R st st st.
Proof. split; [lia|]. split; [lia|]. reflexivity. Qed.

(** Two steps in sequence: the readings add up. *)
Lemma sync_comp T1 R1 T2 R2 T R st a1 a2 (F1 F2 : astate -> astate) :
  (forall s, sync T2 R2 s (F1 s) (F2 s)) ->
  sync T1 R1 st a1 a2 ->
  T1 + T2 <= T -> R1 + R2 <= R ->
  sync T R st (F1 a1) (F2 a2).
Proof.
  intros HF (N1 & M1 & E1) LT LR.
  destruct (HF a1) as (N2 & M2 & E2).
  split; [lia|]. split; [lia|]. intros HT HR.
  rewrite E1.
  - apply E2.
    + eapply sameTimes_le; [|exact HT]. lia.
    + eapply sameTags_le; [|exact HR]. lia.
  - eapply sameTimes_le; [|exact HT]. lia.
  - eapply sameTags_le; [|exact HR]. lia.
Qed.

(** A step that reads no clock and keeps the counters. *)
Lemma sync_still (F : astate -> astate) :
  (forall s, nowCalls (F s) = nowCalls s /\ randomCalls (F s) = randomCalls s) ->
  forall s, sync 0 0 s (F s) (F s).
Proof.
  intros H s. destruct (H s) as [A B].
  split; [lia|]. split; [lia|]. reflexivity.
Qed.

Lemma list_sum_cons x l : list_sum (x :: l) = x + list_sum l.
Proof. reflexivity. Qed.

(** A loop: the readings of its steps add up. *)
Lemma sync_forEach A (t r : A -> nat) (f1 f2 : A -> astate -> astate) l :
  Forall (fun a => forall s, sync (t a) (r a) s (f1 a s) (f2 a s)) l ->
  forall s, sync (list_sum (map t l)) (list_sum (map r l)) s
              (forEach l f1 s) (forEach l f2 s).
Proof.
  induction 1 as [|a l Ha _ IH]; intros s; [apply sync_refl|].
  cbn [map]. rewrite !forEach_cons, !list_sum_cons.
  apply (sync_comp (t a) (r a) (list_sum (map t l)) (list_sum (map r l)) _ _ s
           (f1 a s) (f2 a s) (forEach l f1) (forEach l f2));
    [exact IH | apply Ha | lia | lia].
Qed.

Lemma forEach_counters A (f : A -> astate -> astate) l :
  (forall a s, nowCalls (f a s) = nowCalls s /\
               randomCalls (f a s) = randomCalls s) ->
  forall s, nowCalls (forEach l f s) = nowCalls s /\
            randomCalls (forEach l f s) = randomCalls s.
Proof.
  intros F. induction l as [|a l IH]; intros s; [now split|].
  rewrite forEach_cons. destruct (IH (f a s)) as [A1 B1].
  destruct (F a s) as [A2 B2]. split; congruence.
Qed.

Lemma mark_counters n scope stack s :
  nowCalls (markVariablesAsUsed source n scope stack s) = nowCalls s /\
  randomCalls (markVariablesAsUsed source n scope stack s) = randomCalls s.
Proof. destruct (framed_mark source n scope stack s) as (_ & A & B & _). now split. Qed.

Lemma markIdentifier_counters i scope stack s :
  nowCalls (markIdentifier source i scope stack s) = nowCalls s /\
  randomCalls (markIdentifier source i scope stack s) = randomCalls s.
Proof. exact (mark_counters (Identifier i) scope stack s). Qed.

(** The goal is that a step keeps the two counters. *)
Ltac still_tac :=
  repeat match goal with
  | |- forall _, _ => intro
  | |- nowCalls (markVariablesAsUsed _ _ _ _ _) = _ /\ _ =>
      apply mark_counters
  | |- nowCalls (markIdentifier _ _ _ _ _) = _ /\ _ =>
      apply markIdentifier_counters
  | |- nowCalls (forEach _ _ _) = _ /\ _ => apply forEach_counters
  | |- nowCalls (if ?b then _ else _) = _ /\ _ => destruct b
  | |- nowCalls (match ?o with Some _ => _ | None => _ end) = _ /\ _ =>
      destruct o
  | |- nowCalls (let (_, _) := ?p in _) = _ /\ _ => destruct p
  | |- nowCalls (match ?n with Identifier _ => _ | _ => _ end) = _ /\ _ =>
      destruct n
  | |- nowCalls _ = _ /\ randomCalls _ = _ => split; reflexivity
  end.

Ltac peel_still :=
  match goal with
  | |- ClockLogic.sync _ _ ?T ?R ?st
         (markVariablesAsUsed _ ?m ?sc ?stk ?s1)
         (markVariablesAsUsed _ ?m ?sc ?stk ?s2) =>
      apply (sync_comp T R 0 0 T R st s1 s2
               (markVariablesAsUsed source m sc stk)
               (markVariablesAsUsed source m sc stk));
        [ apply sync_still; still_tac | | lia | lia ]
  | |- ClockLogic.sync _ _ ?T ?R ?st
         (markIdentifier _ ?m ?sc ?stk ?s1) (markIdentifier _ ?m ?sc ?stk ?s2) =>
      apply (sync_comp T R 0 0 T R st s1 s2
               (markIdentifier source m sc stk) (markIdentifier source m sc stk));
        [ apply sync_still; still_tac | | lia | lia ]
  | |- ClockLogic.sync _ _ ?T ?R ?st
         (declareSymbol ?k ?v ?s1) (declareSymbol ?k ?v ?s2) =>
      apply (sync_comp T R 0 0 T R st s1 s2
               (declareSymbol k v) (declareSymbol k v));
        [ apply sync_still; still_tac | | lia | lia ]
  | |- ClockLogic.sync _ _ ?T ?R ?st (pushError ?d ?s1) (pushError ?d ?s2) =>
      apply (sync_comp T R 0 0 T R st s1 s2 (pushError d) (pushError d));
        [ apply sync_still; still_tac | | lia | lia ]
  | |- ClockLogic.sync _ _ ?T ?R ?st (addUse ?y ?s1) (addUse ?y ?s2) =>
      apply (sync_comp T R 0 0 T R st s1 s2 (addUse y) (addUse y));
        [ apply sync_still; still_tac | | lia | lia ]
  | |- ClockLogic.sync _ _ ?T ?R ?st (forEach ?l ?f ?s1) (forEach ?l ?f ?s2) =>
      apply (sync_comp T R 0 0 T R st s1 s2 (forEach l f) (forEach l f));
        [ apply sync_still; still_tac | | lia | lia ]
  end.

Ltac peel_build :=
  match goal with
  | IH : forall scope stack st,
           ClockLogic.sync _ _ (timeReadings ?m) _ st _ _
    |- ClockLogic.sync _ _ ?T ?R ?st
         (buildSymbolTable _ _ ?m ?sc ?stk ?s1)
         (buildSymbolTable _ _ ?m ?sc ?stk ?s2) =>
      apply (sync_comp (T - timeReadings m) (R - randomReadings m)
               (timeReadings m) (randomReadings m) T R st s1 s2
               (buildSymbolTable c1 source m sc stk)
               (buildSymbolTable c2 source m sc stk));
        [ exact (IH sc stk) | | lia | lia ]
  end.

(** A scope named after the time takes one reading of the clock. *)
Lemma sync_timed kind scope (K1 K2 : string -> astate -> astate) T R :
  (forall sc s, sync T R s (K1 sc s) (K2 sc s)) ->
  forall s, sync (S T) R s
              (let (sc, s') := timedScope c1 kind scope s in K1 sc s')
              (let (sc, s') := timedScope c2 kind scope s in K2 sc s').
Proof.
  intros H s. unfold timedScope, now. cbv zeta.
  match goal with
  | |- ClockLogic.sync _ _ _ _ _ (K1 ?sc ?b) _ =>
      destruct (H sc b) as (A & B & E)
  end.
  cbn [nowCalls randomCalls] in A, B, E.
  split; [cbn [nowCalls]; lia|]. split; [cbn [randomCalls]; lia|].
  intros HT HR. rewrite <- (HT (nowCalls s)) by lia. apply E.
  - eapply sameTimes_le; [|exact HT]. lia.
  - exact HR.
Qed.

(** The scope of a block takes one reading of the clock and one of the
    random generator. *)
Lemma sync_block scope (K1 K2 : string -> astate -> astate) T R :
  (forall sc s, sync T R s (K1 sc s) (K2 sc s)) ->
  forall s, sync (S T) (S R) s
              (let (sc, s') := blockScopeName c1 scope s in K1 sc s')
              (let (sc, s') := blockScopeName c2 scope s in K2 sc s').
Proof.
  intros H s. unfold blockScopeName, timedScope, now, random. cbv zeta.
  cbn [nowCalls randomCalls st_table st_errors variableUses].
  match goal with
  | |- ClockLogic.sync _ _ _ _ _ (K1 ?sc ?b) _ =>
      destruct (H sc b) as (A & B & E)
  end.
  cbn [nowCalls randomCalls] in A, B, E.
  split; [lia|]. split; [lia|].
  intros HT HR. rewrite <- (HT (nowCalls s)), <- (HR (randomCalls s)) by lia.
  apply E.
  - eapply sameTimes_le; [|exact HT]. lia.
  - eapply sameTags_le; [|exact HR]. lia.
Qed.

Ltac peel_scope :=
  match goal with
  | |- ClockLogic.sync _ _ _ _ ?st
         (let (_, _) := timedScope _ _ _ ?st in _) _ =>
      apply sync_timed; intros ? ?
  | |- ClockLogic.sync _ _ _ _ ?st
         (let (_, _) := blockScopeName _ _ ?st in _) _ =>
      apply sync_block; intros ? ?
  | |- ClockLogic.sync _ _ ?T ?R ?st
         (let (sc, s) := timedScope _ ?k ?scope ?x1 in
          buildSymbolTable _ _ ?m sc (?stack ++ [sc]) s)
         (let (_, _) := timedScope _ ?k ?scope ?x2 in _) =>
      apply (sync_comp (T - S (timeReadings m)) (R - randomReadings m)
               (S (timeReadings m)) (randomReadings m) T R st x1 x2
               (fun x => let (sc, s) := timedScope c1 k scope x in
                         buildSymbolTable c1 source m sc (stack ++ [sc]) s)
               (fun x => let (sc, s) := timedScope c2 k scope x in
                         buildSymbolTable c2 source m sc (stack ++ [sc]) s));
        [ apply sync_timed; intros ? ? | | lia | lia ]
  end.

Ltac peel_each :=
  match goal with
  | IH : Forall _ ?l
    |- ClockLogic.sync _ _ ?T ?R ?st
         (forEach ?l (fun m => buildSymbolTable _ _ m ?sc ?stk) ?s1)
         (forEach ?l _ ?s2) =>
      apply (sync_comp (T - list_sum (map timeReadings l))
               (R - list_sum (map randomReadings l))
               (list_sum (map timeReadings l)) (list_sum (map randomReadings l))
               T R st s1 s2
               (forEach l (fun m => buildSymbolTable c1 source m sc stk))
               (forEach l (fun m => buildSymbolTable c2 source m sc stk)));
        [ apply sync_forEach; eapply Forall_impl; [|exact IH]; cbv beta;
          let a := fresh "a" in let Ha := fresh "Ha" in
          intros a Ha ?; exact (Ha sc stk _)
        | | lia | lia ]
  end.

Ltac peel_if :=
  match goal with
  | |- ClockLogic.sync _ _ _ _ _ (if ?b then _ else _) (if ?b then _ else _) =>
      destruct b
  | |- ClockLogic.sync _ _ _ _ ?st
         (match tableGet ?k (st_table ?st) with Some _ => _ | None => _ end) _ =>
      destruct (tableGet k (st_table st))
  end.

Ltac sync_tac :=
  repeat first
    [ apply sync_refl
    | peel_scope
    | peel_build
    | peel_each
    | peel_still
    | peel_if ].

(** Phase 1 reads the clock at most [timeReadings n] times and the
    random generator at most [randomReadings n] times, and its result
    depends on the clock through these readings only. *)
Lemma build_sync n : forall scope stack st,
  sync (timeReadings n) (randomReadings n) st
    (buildSymbolTable c1 source n scope stack st)
    (buildSymbolTable c2 source n scope stack st).
Proof.
  induction n using node_nested_ind with
    (Pd := fun d =>
       match d with
       | VariableDeclarator _ _ init _ _ =>
           OptP (fun n => forall scope stack st,
                   sync (timeReadings n) (randomReadings n) st
                     (buildSymbolTable c1 source n scope stack st)
                     (buildSymbolTable c2 source n scope stack st)) init
       end);
    try (intros scope stack st);
    cbn [buildSymbolTable timeReadings randomReadings OptP] in *;
    try assumption.
  all: unfold markOptional.
  all: cbv zeta.
  all: repeat match goal with
       | o : option node |- _ => destruct o; cbn [OptP] in *
       end.
  all: try solve [sync_tac].
  - (* declarators *)
    apply sync_forEach.
    match goal with IH : Forall _ ds |- _ =>
      eapply Forall_impl; [|exact IH] end.
    cbv beta. intros [id isArray init l' isPointer] Hd s.
    destruct init; cbn [OptP] in Hd; sync_tac.
  - (* assignment *)
    set (x1 := markVariablesAsUsed source n2 scope stack
                 (buildSymbolTable c1 source n2 scope stack
                    (buildSymbolTable c1 source n1 scope stack st))).
    set (x2 := markVariablesAsUsed source n2 scope stack
                 (buildSymbolTable c2 source n2 scope stack
                    (buildSymbolTable c2 source n1 scope stack st))).
    match goal with
    | |- ClockLogic.sync _ _ ?T ?R ?st _ _ =>
        apply (sync_comp T R 0 0 T R st x1 x2
                 (fun s =>
                    match n1 with
                    | Identifier i =>
                        match resolveVariable (name i) scope stack (st_table s) with
                        | Some (varKey, variable) =>
                            declareSymbol varKey (setInitialized variable) s
                        | None => s
                        end
                    | _ => s
                    end)
                 (fun s =>
                    match n1 with
                    | Identifier i =>
                        match resolveVariable (name i) scope stack (st_table s) with
                        | Some (varKey, variable) =>
                            declareSymbol varKey (setInitialized variable) s
                        | None => s
                        end
                    | _ => s
                    end));
          [ apply sync_still; still_tac | subst x1 x2; sync_tac | lia | lia ]
    end.
  - (* call *)
    match goal with
    | |- ClockLogic.sync _ _ ?T ?R ?st (forEach ?l ?f1 ?x) (forEach ?l ?f2 ?x) =>
        apply (sync_comp 0 0 T R T R st x x (forEach l f1) (forEach l f2));
          [ apply sync_forEach | | lia | lia ]
    end.
    + match goal with IH : Forall _ args |- _ =>
        eapply Forall_impl; [|exact IH] end.
      cbv beta. intros a Ha s. sync_tac.
    + apply (sync_still
               (fun s =>
                  if JS.inList (name c) ["printf"; "fprintf"; "sprintf"; "scanf"]
                  then forEach args
                         (fun arg st =>
                            markVariablesAsUsed source arg scope stack
                              match arg with
                              | Identifier i => addUse (name i) st
                              | _ => st
                              end) s
                  else s)).
      still_tac.
      match goal with
      | |- nowCalls (markVariablesAsUsed _ ?a ?sc ?stk ?x) = _ /\ _ =>
          destruct (mark_counters a sc stk x) as [A B]; rewrite A, B;
          destruct a; split; reflexivity
      end.
Qed.

(** The preprocessing pass reads no clock. *)
Lemma preprocess_counters st :
  nowCalls (processPreprocessorDirectives source st) = nowCalls st /\
  randomCalls (processPreprocessorDirectives source st) = randomCalls st.
Proof.
  unfold processPreprocessorDirectives, addStandardLibraryFunctions.
  destruct (negb (JS.truthy source)); [now split|]. cbv zeta.
  repeat match goal with
  | |- nowCalls (forEach ?l ?f ?x) = _ /\ _ =>
      destruct (forEach_counters _ f l (fun _ _ => conj eq_refl eq_refl) x)
        as [-> ->]
  end.
  now split.
Qed.

(** C1 (amended): the analyzer reads the clock at most once for every
    block, if, else, for and while of the tree, and the random generator
    at most once for every block.  Two runs on the same tree and source
    text whose clocks agree on that many readings return identical
    results, whatever the clocks return afterwards. *)
Theorem analyzer_reads_clock_per_scope ast :
  (nowCalls (analysis c1 source ast) <= timeReadings ast /\
   randomCalls (analysis c1 source ast) <= randomReadings ast) /\
  ((forall i, i < timeReadings ast -> dateNow c1 i = dateNow c2 i) ->
   (forall i, i < randomReadings ast -> randomTag c1 i = randomTag c2 i) ->
   semanticAnalyzer c1 source ast = semanticAnalyzer c2 source ast).
Proof.
  destruct (build_sync ast "global" ["global"]
              (processPreprocessorDirectives source (mkAState [] [] [] 0 0)))
    as (T & R & E).
  destruct (preprocess_counters (mkAState [] [] [] 0 0)) as [A B].
  cbn [nowCalls randomCalls] in A, B. rewrite A in T, E. rewrite B in R, E.
  split.
  - unfold analysis. cbv zeta.
    match goal with
    | |- nowCalls (checkTypes _ _ ?sc ?stk ?s) <= _ /\ _ =>
        destruct (framed_check source ast sc stk s) as (_ & -> & -> & _)
    end.
    split; lia.
  - intros HT HR. unfold semanticAnalyzer, analysis.
    rewrite E; [reflexivity|exact HT|exact HR].
Qed.

End Sync.

End ClockProofs.

(** ** The parser: the trees it builds *)

Module ParserMore.
Import Parser GrammarLogic.

Section Liberal.
Variable tokens : list Token.

Lemma lp_ret A (a : A) s Q E : Q a s -> wlp (ret a) s Q E.
Proof. exact (fun H => H). Qed.

Lemma lp_bind A B (m : M A) (f : A -> M B) s Q E :
  wlp m s (fun a s' => wlp (f a) s' Q E) E -> wlp (bind m f) s Q E.
Proof. unfold wlp, bind. destruct (m s); auto. Qed.

Lemma lp_conseq A (m : M A) s (Q Q' : A -> pstate -> Prop) (E E' : pstate -> Prop) :
  wlp m s Q E -> (forall a s', Q a s' -> Q' a s') -> (forall s', E s' -> E' s') ->
  wlp m s Q' E'.
Proof. unfold wlp. destruct (m s); auto. Qed.

Lemma lp_throw A msg s (Q : A -> pstate -> Prop) (E : pstate -> Prop) :
  E s -> wlp (throw msg) s Q E.
Proof. exact (fun H => H). Qed.

Lemma lp_outOfFuel A s (Q : A -> pstate -> Prop) (E : pstate -> Prop) :
  wlp outOfFuel s Q E.
Proof. exact I. Qed.

Lemma lp_peek s (Q : option Token -> pstate -> Prop) E :
  Q (nth_error tokens (current s)) s -> wlp (peek tokens) s Q E.
Proof. exact (fun H => H). Qed.

Lemma lp_advance s (Q : option Token -> pstate -> Prop) E :
  (forall s', current s' = S (current s) -> steps s' = S (steps s) ->
              Q (nth_error tokens (current s)) s') ->
  wlp (advance tokens) s Q E.
Proof. intros H. apply H; reflexivity. Qed.

Lemma lp_pushError msg l s (Q : unit -> pstate -> Prop) E :
  (forall s', current s' = current s -> steps s' = steps s -> Q tt s') ->
  wlp (pushError msg l) s Q E.
Proof. intros H. apply H; reflexivity. Qed.

Lemma lp_getCurrent s (Q : nat -> pstate -> Prop) E :
  Q (current s) s -> wlp getCurrent s Q E.
Proof. exact (fun H => H). Qed.

Lemma lp_setCurrent c s (Q : unit -> pstate -> Prop) E :
  (forall s', current s' = c -> steps s' = steps s -> Q tt s') ->
  wlp (setCurrent c) s Q E.
Proof. intros H. apply H; reflexivity. Qed.

Lemma lp_prop A (o : option A) key s (Q : A -> pstate -> Prop) (E : pstate -> Prop) :
  (forall a, o = Some a -> Q a s) -> (o = None -> E s) -> wlp (prop o key) s Q E.
Proof. destruct o; intros H1 H2; [apply H1 | apply H2]; reflexivity. Qed.

Lemma lp_getLoc n s (Q : location -> pstate -> Prop) (E : pstate -> Prop) :
  (forall l, node_location n = Some l -> Q l s) ->
  (node_location n = None -> E s) -> wlp (getLoc n) s Q E.
Proof.
  unfold getLoc. destruct (node_location n); intros H1 H2; [apply H1 | apply H2];
    reflexivity.
Qed.

Lemma lp_tryCatch A (m : M A) h s (Q : A -> pstate -> Prop) E :
  wlp m s Q (fun s' => forall e, wlp (h e) s' Q E) -> wlp (tryCatch m h) s Q E.
Proof. unfold wlp, tryCatch. destruct (m s); auto. intros H. apply H. Qed.

Lemma lp_expect ty msg s (Q : option Token -> pstate -> Prop) E :
  (forall t s', nth_error tokens (current s) = Some t -> tok_type t = ty ->
                current s' = S (current s) -> steps s' = S (steps s) ->
                Q (Some t) s') ->
  (forall s', current s' = current s -> steps s' = steps s -> Q None s') ->
  wlp (expect tokens ty msg) s Q E.
Proof.
  intros H1 H2. unfold expect. apply lp_bind, lp_peek.
  destruct (nth_error tokens (current s)) as [t|] eqn:Hp.
  - destruct (tok_type t === ty) eqn:Ht.
    + apply lp_advance. intros s' Hc Hs. rewrite Hp.
      apply H1; auto. now apply String.eqb_eq.
    + apply lp_bind, lp_pushError. intros s' Hc Hs. apply lp_ret, H2; auto.
  - apply lp_bind, lp_pushError. intros s' Hc Hs. apply lp_ret, H2; auto.
Qed.

Lemma lp_expectValue v msg s (Q : option Token -> pstate -> Prop) E :
  (forall t s', nth_error tokens (current s) = Some t -> tok_value t = v ->
                current s' = S (current s) -> steps s' = S (steps s) ->
                Q (Some t) s') ->
  (forall s', valueIs (nth_error tokens (current s)) v = false ->
              current s' = current s -> steps s' = steps s -> Q None s') ->
  wlp (expectValue tokens v msg) s Q E.
Proof.
  intros H1 H2. unfold expectValue. apply lp_bind, lp_peek.
  destruct (nth_error tokens (current s)) as [t|] eqn:Hp.
  - destruct (tok_value t === v) eqn:Ht.
    + apply lp_advance. intros s' Hc Hs. rewrite Hp.
      apply H1; auto. now apply String.eqb_eq.
    + apply lp_bind, lp_pushError. intros s' Hc Hs. apply lp_ret, H2; auto.
  - apply lp_bind, lp_pushError. intros s' Hc Hs. apply lp_ret, H2; auto.
Qed.

End Liberal.

Lemma lp_any A (m : M A) s : wlp m s (fun _ _ => True) (fun _ => True).
Proof. unfold wlp. destruct (m s); exact I. Qed.

Ltac lp_step :=
  lazymatch goal with
  | |- wlp (bind _ _) _ _ _ => apply lp_bind
  | |- wlp (ret _) _ _ _ => apply lp_ret
  | |- wlp outOfFuel _ _ _ => apply lp_outOfFuel
  | |- wlp (peek _) _ _ _ => apply lp_peek
  | |- wlp (advance _) _ _ _ => apply lp_advance; intros ? ? ?
  | |- wlp (pushError _ _) _ _ _ => apply lp_pushError; intros ? ? ?
  | |- wlp getCurrent _ _ _ => apply lp_getCurrent
  | |- wlp (setCurrent _) _ _ _ => apply lp_setCurrent; intros ? ? ?
  | |- wlp (throw _) _ _ _ => apply lp_throw
  | |- wlp (prop _ _) _ _ _ => apply lp_prop; [intros ? ? | intros ?]
  | |- wlp (getLoc _) _ _ _ => apply lp_getLoc; [intros ? ? | intros ?]
  | |- wlp (expectValue _ _ _) _ _ _ =>
      apply lp_expectValue; [intros ? ? ? ? ? ? | intros ? ? ? ?]
  | |- wlp (expect _ _ _) _ _ _ =>
      apply lp_expect; [intros ? ? ? ? ? ? | intros ? ? ?]
  | |- wlp (if ?b then _ else _) _ _ _ => destruct b eqn:?
  | |- wlp (match ?x with _ => _ end) _ _ _ => destruct x eqn:?
  end; cbv beta zeta.

(** Use a specification at a call. *)
Ltac lp_use L :=
  eapply lp_conseq;
  [ eapply L; try eassumption
  | cbv beta; intros ? ? ?
  | cbv beta; intros ? ?; try exact I ].


(** *** The trees the parser builds *)

Ltac sh_tokens :=
  repeat match goal with
  | H : Some _ = Some _ |- _ => injection H as H; try subst
  | H : nth_error ?t ?c = ?b, H' : nth_error ?t ?c = ?d |- _ =>
      lazymatch b with d => fail | _ => rewrite H in H' end
  | H : nth_error ?t ?c = _ |- context [nth_error ?t ?c] => rewrite H
  | H : nth_error ?t ?c = _, H' : context [nth_error ?t ?c] |- _ =>
      lazymatch type of H' with
      | nth_error _ _ = _ => fail
      | _ => rewrite H in H'
      end
  end.

Ltac sh_bool :=
  cbn [optb expr stmt declaratorOk declaration topLevel program forallb
       valueIs typeIs JS.isSome] in *;
  rewrite ?forallb_app; cbn [forallb];
  repeat match goal with
  | H : (_ && _)%bool = true |- _ => apply andb_prop in H; destruct H
  | H : ?b = true |- context [?b] =>
      lazymatch b with true => fail | _ => rewrite H end
  | H : ?x = Some _ |- context [JS.isSome ?x] => rewrite H; cbn [JS.isSome]
  end;
  cbn [andb orb]; rewrite ?andb_true_r, ?orb_true_r;
  try reflexivity; try assumption.

Ltac sh_finish := try exact I; sh_tokens; sh_bool.

Ltac lp_steps := repeat lp_step; try solve [sh_finish].

Section Shapes.
Variable tokens : list Token.
Variable self : Parsers.
Hypothesis Hself : SelfShaped tokens self.

Local Abbreviation exprOut :=
  (fun (a : option node) (_ : pstate) => optb expr a = true).
Local Abbreviation stmtOut :=
  (fun (a : option node) (_ : pstate) => optb stmt a = true).
Local Abbreviation topOut :=
  (fun (a : option node) (_ : pstate) => optb topLevel a = true).
Local Abbreviation any := (fun _ : pstate => True).

Lemma S_argumentLoop k : forall args s,
  forallb expr args = true ->
  wlp (argumentLoop tokens self k args) s
    (fun out _ => forallb expr out = true) any.
Proof.
  induction k; intros args s Ha; [exact I|]. cbn [argumentLoop].
  lp_steps.
  lp_use (sh_expression _ _ Hself). lp_steps.
  all: try (eapply lp_conseq; [apply IHk| |]; cbv beta; intros; auto).
  all: try solve [destruct a; sh_finish].
Qed.

Lemma S_parsePrimaryExpression s :
  wlp (parsePrimaryExpression tokens self) s exprOut any.
Proof.
  unfold parsePrimaryExpression. lp_steps.
  all: try (lp_use (sh_primary _ _ Hself); assumption).
  all: try (lp_use S_argumentLoop; [reflexivity|]; lp_steps).
  all: try (lp_use (sh_expression _ _ Hself); lp_steps).
Qed.


Lemma S_parseUnaryExpression s :
  wlp (parseUnaryExpression tokens self) s exprOut any.
Proof.
  unfold parseUnaryExpression. lp_steps.
  all: try (lp_use S_parsePrimaryExpression; assumption).
  lp_use (sh_unary _ _ Hself). lp_steps.
Qed.

Lemma S_binaryLoop k : forall p l s,
  expr l = true -> wlp (binaryLoop tokens self k p l) s exprOut any.
Proof.
  induction k; intros p l s Hl; [exact I|]. cbn [binaryLoop].
  lp_steps.
  lp_use (sh_binary _ _ Hself). lp_steps.
  eapply lp_conseq; [apply IHk| |]; cbv beta; intros; auto.
  sh_finish.
Qed.

Lemma S_parseBinaryExpression p s :
  wlp (parseBinaryExpression tokens self p) s exprOut any.
Proof.
  unfold parseBinaryExpression. lp_steps.
  lp_use S_parseUnaryExpression. lp_steps.
  eapply lp_conseq; [apply S_binaryLoop; sh_finish | |];
    cbv beta; intros; auto.
Qed.

Lemma S_parseAssignmentExpression s :
  wlp (parseAssignmentExpression tokens self) s exprOut any.
Proof.
  unfold parseAssignmentExpression. lp_steps.
  lp_use S_parseBinaryExpression. lp_steps.
  lp_use (sh_assignment _ _ Hself). lp_steps.
Qed.

Lemma S_parseExpression s : wlp (parseExpression tokens self) s exprOut any.
Proof. apply S_parseAssignmentExpression. Qed.


Lemma S_parseVariableDeclarator ts s :
  wlp (parseVariableDeclarator tokens self ts) s
    (fun d _ => optb declaratorOk d = true) any.
Proof.
  unfold parseVariableDeclarator. lp_steps.
  all: repeat (lp_use S_parseExpression; lp_steps).
Qed.

Lemma S_declaratorLoop k : forall ts ds s,
  forallb declaratorOk ds = true ->
  wlp (declaratorLoop tokens self k ts ds) s
    (fun out _ => forallb declaratorOk out = true) any.
Proof.
  induction k; intros ts ds s Hd; [exact I|]. cbn [declaratorLoop].
  lp_steps.
  all: lp_use S_parseVariableDeclarator; lp_steps.
  all: try (eapply lp_conseq; [apply IHk| |]; cbv beta; intros; auto).
  all: try solve [match goal with d : declarator |- _ => destruct d end;
                  cbn [setPointer]; sh_finish].
Qed.

Lemma S_parseVariableDeclaration s :
  wlp (parseVariableDeclaration tokens self) s
    (fun a _ => optb declaration a = true /\ optb stmt a = true) any.
Proof.
  unfold parseVariableDeclaration. lp_steps.
  lp_use lp_any. lp_steps.
  all: try solve [split; reflexivity].
  all: try (eapply lp_conseq; [apply S_declaratorLoop; reflexivity| |];
            cbv beta; intros; auto; lp_steps).
  all: try solve [split; sh_finish].
Qed.

Lemma S_parseReturnStatement s :
  wlp (parseReturnStatement tokens self) s stmtOut any.
Proof.
  unfold parseReturnStatement. lp_steps.
  all: try (lp_use S_parseExpression; lp_steps).
Qed.

Lemma S_blockLoop k : forall body s,
  forallb stmt body = true ->
  wlp (blockLoop tokens self k body) s
    (fun out _ => forallb stmt out = true) any.
Proof.
  induction k; intros body s Hb; [exact I|]. cbn [blockLoop].
  lp_steps.
  lp_use (sh_statement _ _ Hself). lp_steps.
  all: try (eapply lp_conseq; [apply IHk| |]; cbv beta; intros; auto).
  all: try solve [sh_finish].
Qed.

Lemma S_parseBlockStatement s :
  wlp (parseBlockStatement tokens self) s stmtOut any.
Proof.
  unfold parseBlockStatement. lp_steps.
  all: try (eapply lp_conseq; [apply S_blockLoop; reflexivity| |];
            cbv beta; intros; auto; lp_steps).
Qed.

Lemma S_parseIfStatement s :
  wlp (parseIfStatement tokens self) s stmtOut any.
Proof.
  unfold parseIfStatement. lp_steps.
  lp_use S_parseExpression. lp_steps.
  lp_use (sh_statement _ _ Hself). lp_steps.
  all: try (lp_use (sh_statement _ _ Hself); lp_steps).
Qed.

Lemma S_parseWhileStatement s :
  wlp (parseWhileStatement tokens self) s stmtOut any.
Proof.
  unfold parseWhileStatement. lp_steps.
  lp_use S_parseExpression. lp_steps.
  lp_use (sh_statement _ _ Hself). lp_steps.
Qed.

Lemma S_parseForStatement s :
  wlp (parseForStatement tokens self) s stmtOut any.
Proof.
  unfold parseForStatement. lp_steps.
  all: try (lp_use S_parseVariableDeclaration; lp_steps).
  all: repeat (try (lp_use S_parseExpression; lp_steps);
               try (lp_use (sh_statement _ _ Hself); lp_steps)).
  all: try solve [repeat match goal with H : _ /\ _ |- _ => destruct H end;
                  match goal with
                  | |- context [ForStatement ?a _ _ _ _] => destruct a
                  end; sh_finish].
Qed.

Lemma S_parseExpressionStatement s :
  wlp (parseExpressionStatement tokens self) s stmtOut any.
Proof.
  unfold parseExpressionStatement. lp_steps.
  lp_use S_parseExpression. lp_steps.
Qed.

Lemma S_parseStatement s : wlp (parseStatement tokens self) s stmtOut any.
Proof.
  unfold parseStatement. lp_steps.
  - lp_use S_parseVariableDeclaration. tauto.
  - apply S_parseReturnStatement.
  - apply S_parseIfStatement.
  - apply S_parseForStatement.
  - apply S_parseWhileStatement.
  - apply S_parseBlockStatement.
  - apply S_parseExpressionStatement.
Qed.


Lemma S_parseFunctionDeclaration s :
  wlp (parseFunctionDeclaration tokens self) s topOut any.
Proof.
  unfold parseFunctionDeclaration, parseFunctionBody. lp_steps.
  lp_use lp_any. lp_steps.
  all: lp_use lp_any; lp_steps.
  all: try (lp_use S_parseBlockStatement; lp_steps).
Qed.

Lemma S_parseTypedef s : wlp (parseTypedef tokens) s topOut any.
Proof.
  unfold parseTypedef. lp_steps.
  lp_use lp_any. lp_steps.
Qed.

Lemma S_parseInclude s : wlp (parseInclude tokens) s topOut any.
Proof.
  unfold parseInclude. lp_steps.
  lp_use lp_any. lp_steps.
Qed.

Lemma S_parsePreprocessorDirective s :
  wlp (parsePreprocessorDirective tokens) s topOut any.
Proof.
  unfold parsePreprocessorDirective. lp_steps.
  - apply S_parseInclude.
  - lp_use lp_any. lp_steps.
Qed.

Lemma stmt_topLevel a : optb stmt a = true -> optb topLevel a = true.
Proof.
  destruct a as [n|]; [|reflexivity]. cbn [optb].
  destruct n; cbn [topLevel stmt]; auto; discriminate.
Qed.

Lemma S_parseTopLevel token s :
  wlp (parseTopLevel tokens self token) s topOut any.
Proof.
  unfold parseTopLevel. lp_steps.
  - apply S_parsePreprocessorDirective.
  - apply S_parseTypedef.
  - lp_use lp_any. lp_steps.
    all: try apply S_parseFunctionDeclaration.
    all: try (lp_use S_parseVariableDeclaration; apply stmt_topLevel; tauto).
  - lp_use S_parseStatement. now apply stmt_topLevel.
  - lp_use S_parseReturnStatement. now apply stmt_topLevel.
  - lp_use S_parseBlockStatement. now apply stmt_topLevel.
Qed.

Lemma S_programLoop k : forall body s,
  forallb topLevel body = true ->
  wlp (programLoop tokens self k body) s
    (fun out _ => forallb topLevel out = true) any.
Proof.
  induction k; intros body s Hb; [exact I|]. cbn [programLoop].
  lp_steps.
  apply lp_tryCatch.
  eapply lp_conseq; [apply S_parseTopLevel | |]; cbv beta; intros.
  - eapply lp_conseq; [apply IHk| |]; cbv beta; intros; auto.
    destruct a; sh_finish.
  - lp_steps.
    eapply lp_conseq; [apply IHk| |]; cbv beta; intros; auto.
Qed.

Lemma S_parseProgram s :
  wlp (parseProgram tokens self) s (fun ast _ => program ast = true) any.
Proof.
  unfold parseProgram. lp_steps.
  eapply lp_conseq; [apply S_programLoop; reflexivity| |];
    cbv beta; intros; auto.
Qed.

End Shapes.

Lemma parsers_shaped tokens fuel : SelfShaped tokens (parsers tokens fuel).
Proof.
  induction fuel as [|f IH].
  - split; intros; exact I.
  - cbn [parsers build]. split; intros; cbn [rec_parsePrimaryExpression
      rec_parseUnaryExpression rec_parseBinaryExpression
      rec_parseAssignmentExpression rec_parseExpression rec_parseStatement].
    + now apply S_parsePrimaryExpression.
    + now apply S_parseUnaryExpression.
    + now apply S_parseBinaryExpression.
    + now apply S_parseAssignmentExpression.
    + now apply S_parseExpression.
    + now apply S_parseStatement.
Qed.

Lemma parser_shaped tokens :
  exists ast s, parser tokens = Ret ast s /\ program ast = true.
Proof.
  destruct (ParserProofs.L_parseProgram tokens) as (body & s & E).
  exists (Program body), s. split; [exact E|].
  pose proof (S_parseProgram tokens _ (parsers_shaped tokens (S (length tokens)))
                (mkState 0 [] 0)) as H.
  unfold wlp in H. unfold parser in E. now rewrite E in H.
Qed.

(** Whatever the tokens, the parser returns a program in which every
    binary operator is one of the thirteen of its precedence table,
    every unary operator is a prefix operator of its list, every
    assignment is the plain one, every literal is a string or a number,
    and no statement is a break or a continue. *)
Theorem parser_output_grammar tokens :
  exists ast s, parser tokens = Ret ast s /\ program ast = true.
Proof. apply parser_shaped. Qed.

End ParserMore.

(** ** From the parser to the code generator *)

Module PipelineMore.
Import Semantic (forEach, forEachI).
Import Parser (operators, unaryOperators).
Import CodeGen GrammarLogic CodeGenProofs.

Lemma complains_refl st : complains st st.
Proof. exists []. now rewrite app_nil_r. Qed.

Lemma complains_trans a b c : complains a b -> complains b c -> complains a c.
Proof.
  intros (l1 & E1 & F1) (l2 & E2 & F2). exists (l1 ++ l2).
  rewrite E2, E1, app_assoc. split; [reflexivity|].
  apply Forall_app. now split.
Qed.

Lemma complains_same st st' : errors st' = errors st -> complains st st'.
Proof. intros E. exists []. now rewrite E, app_nil_r. Qed.

Lemma complains_tilde st :
  complains st (pushError "Unsupported unary operator: ~" st).
Proof. exists [tildeError]. split; [reflexivity | repeat constructor]. Qed.

Lemma complains_forEach A (f : A -> gstate -> gstate) l :
  Forall (fun a => forall st, complains st (f a st)) l ->
  forall st, complains st (forEach l f st).
Proof.
  induction 1 as [|a l Ha _ IH]; intros st; [apply complains_refl|].
  rewrite forEach_cons. eapply complains_trans; [apply Ha | apply IH].
Qed.

Lemma complains_forEachI A (f : A -> nat -> gstate -> gstate) l :
  Forall (fun a => forall i st, complains st (f a i st)) l ->
  forall i st, complains st (forEachI l f i st).
Proof.
  induction 1 as [|a l Ha _ IH]; intros i st; [apply complains_refl|].
  change (forEachI (a :: l) f i st) with (forEachI l f (S i) (f a i st)).
  eapply complains_trans; [apply Ha | apply IH].
Qed.

(** Every binary operator of the parser has an instruction. *)
Lemma operators_binaryOperation op :
  JS.isSome (operators op) = true -> JS.isSome (binaryOperation op) = true.
Proof.
  unfold operators, binaryOperation.
  repeat match goal with
  | |- context [op === ?x] => destruct (op === x) eqn:?
  end; cbn [JS.isSome]; auto.
Qed.

Ltac cmp_solve :=
  repeat match goal with
  | |- complains ?s ?s => apply complains_refl
  | H : complains ?a ?b |- complains ?a _ =>
      apply complains_trans with b; [exact H|]; clear H
  | |- complains ?s (emit _ _ _ _ ?s') =>
      apply complains_trans with s'; [|apply complains_same; reflexivity]
  | |- complains ?s (emitLabel _ ?s') =>
      apply complains_trans with s'; [|apply complains_same; reflexivity]
  | |- complains ?s (setScopeLevel _ ?s') =>
      apply complains_trans with s'; [|apply complains_same; reflexivity]
  | |- complains ?s (setCurrentFunction _ ?s') =>
      apply complains_trans with s'; [|apply complains_same; reflexivity]
  | |- complains ?s (mkGState _ (errors ?s') _ _ _ _ _ _ _) =>
      apply complains_trans with s'; [|apply complains_same; reflexivity]
  | |- complains ?s (pushError _ ?s') =>
      apply complains_trans with s'; [|apply complains_tilde]
  | H : complains ?a ?b |- complains _ ?b =>
      apply complains_trans with a; [|exact H]; clear H
  end.

Ltac shape_split :=
  cbn [expr stmt optb declaratorOk declaration forallb OptP] in *;
  repeat match goal with
  | H : (_ && _)%bool = true |- _ => apply andb_prop in H; destruct H
  | H : (_ || false)%bool = true |- _ => rewrite orb_false_r in H
  end.

Ltac shape_solve :=
  cbn [expr optb forallb];
  repeat match goal with
  | H : ?b = true |- context [?b] =>
      lazymatch b with true => fail | _ => rewrite H end
  end;
  reflexivity.

Ltac cmp_expr :=
  repeat match goal with
  | IH : expr ?n = true -> forall st, complains st (snd (generateExpression ?n st)),
    H : expr ?n = true |- _ => specialize (IH H)
  | IH : forall st, complains st (snd (generateExpression ?n st))
    |- context [generateExpression ?n ?s] =>
      let H := fresh in
      pose proof (IH s) as H;
      destruct (generateExpression n s) as [? ?]; cbn [snd] in H
  end.

Lemma complains_expression n :
  expr n = true -> forall st, complains st (snd (generateExpression n st)).
Proof.
  induction n using node_nested_ind with (Pd := fun _ => True);
    try exact I; intros Hn; try discriminate Hn; intros st;
    cbn [generateExpression snd]; shape_split;
    try apply complains_refl.
  - destruct (_ === _); unfold newStringLiteral; cbn [snd]; cmp_solve.
  - cmp_expr. unfold generateTempVar.
    match goal with H : JS.isSome (operators _) = true |- _ =>
      apply operators_binaryOperation in H end.
    destruct (binaryOperation op); [|discriminate]. cbn [snd]. cmp_solve.
  - cmp_expr. unfold generateTempVar.
    repeat match goal with
    | |- context [if ?b then _ else _] => destruct b eqn:?
    end; cbn [snd]; try solve [cmp_solve].
    assert (op = "~").
    { unfold JS.inList, unaryOperators in *. cbn [existsb] in *.
      repeat match goal with
      | H : (?a === ?b) = false, H' : context [?a === ?b] |- _ =>
          rewrite H in H'
      end. cbn [orb] in *.
      match goal with H : (_ || false)%bool = true |- _ =>
        rewrite orb_false_r in H; now apply String.eqb_eq in H end. }
    subst op. cmp_solve.
  - cmp_expr. cbn [snd]. cmp_solve.
  - unfold generateTempVar. cbn [snd].
    match goal with
    | |- complains ?s (emit _ _ _ _ (mkGState _ (errors ?x) _ _ _ _ _ _ _)) =>
        assert (Hx : complains s x)
    end.
    { apply complains_forEachI. rewrite Forall_forall in *.
      rewrite forallb_forall in Hn.
      intros a Ha i st'. specialize (H a Ha (Hn a Ha)).
      pose proof (H st') as H'.
      destruct (generateExpression a st'); cbn [snd] in H'. cmp_solve. }
    cmp_solve.
Qed.


Lemma complains_declarators ds st :
  forallb declaratorOk ds = true -> complains st (generateDeclarators ds st).
Proof.
  intros Hd. unfold generateDeclarators. revert st. apply complains_forEach.
  apply Forall_forall. intros [id arr init l ptr] Hin st'.
  rewrite forallb_forall in Hd. specialize (Hd _ Hin). cbn [declaratorOk] in Hd.
  destruct (negb _); [apply complains_refl|].
  destruct init as [i|]; [|cmp_solve]. cbn [optb] in Hd.
  pose proof (complains_expression i Hd
                (emit "DECLARE" (str (name id)) None None st')) as H.
  destruct (generateExpression i _) as [v st2]. cbn [snd] in H. cmp_solve.
Qed.

Ltac cmp_known s s' :=
  lazymatch goal with
  | _ : complains s s' |- _ => fail
  | _ => idtac
  end.

Ltac cmp_innermost s :=
  lazymatch s with
  | context [generateExpression _ _] => fail
  | context [generateOptionalExpression _ _] => fail
  | context [generateLabel _ _] => fail
  | _ => idtac
  end.

Ltac cmp_sub :=
  repeat (match goal with
  | Hd : forallb declaratorOk ?ds = true
    |- context [generateDeclarators ?ds ?s] =>
      cmp_innermost s; cmp_known s (generateDeclarators ds s);
      pose proof (complains_declarators ds s Hd)
  | IH : forall e st, complains st (lexicalStatement e ?n st)
    |- context [lexicalStatement ?e ?n ?s] =>
      cmp_innermost s; cmp_known s (lexicalStatement e n s);
      pose proof (IH e s)
  | |- context [generateLabel ?p ?s] =>
      cmp_innermost s;
      let H := fresh in
      assert (H : complains s (snd (generateLabel p s)))
        by (apply complains_same; reflexivity);
      destruct (generateLabel p s) as [? ?]; cbn [snd] in H
  | Ho : optb expr ?o = true
    |- context [generateOptionalExpression ?o ?s] =>
      cmp_innermost s;
      let H := fresh in
      assert (H : complains s (snd (generateOptionalExpression o s)))
        by (destruct o; [apply complains_expression; exact Ho
                        | apply complains_refl]);
      destruct (generateOptionalExpression o s) as [? ?]; cbn [snd] in H
  | |- context [generateExpression ?n ?s] =>
      cmp_innermost s;
      let He := fresh in
      assert (He : expr n = true) by shape_solve;
      let H := fresh in
      pose proof (complains_expression n He s) as H; clear He;
      destruct (generateExpression n s) as [? ?]; cbn [snd] in H
  end; cbv beta iota zeta; cbn [snd]).

Ltac cmp_specialize :=
  repeat match goal with
  | IH : ?A -> forall e st, complains st (lexicalStatement e ?n st),
    H : ?A |- _ => specialize (IH H)
  end.

Lemma complains_statement n :
  stmt n = true ->
  forall enclosing st, complains st (lexicalStatement enclosing n st).
Proof.
  induction n using node_nested_ind with (Pd := fun _ => True);
    try exact I; intros Hn; try discriminate Hn; intros enclosing st;
    cbn [lexicalStatement OptP] in *.
  all: cbv beta iota zeta.
  - (* VariableDeclaration is lowered by its own function *)
    apply complains_refl.
  - (* BlockStatement *)
    cbn [stmt] in Hn. cmp_solve.
    apply complains_trans with (setScopeLevel S st); [cmp_solve|].
    apply complains_forEach. rewrite Forall_forall in *.
    rewrite forallb_forall in Hn.
    intros m Hm st'. specialize (H m Hm). specialize (Hn m Hm).
    destruct m; try (apply H; exact Hn).
    apply complains_declarators. exact Hn.
  - (* IfStatement *)
    destruct c as [c|]; destruct a as [a|]; shape_split; cmp_specialize;
      cmp_sub; cmp_solve.
  - (* WhileStatement *)
    destruct b as [b|]; shape_split; cmp_specialize; cmp_sub; cmp_solve.
  - (* ForStatement *)
    destruct i as [i|]; [destruct i|];
      destruct t as [t|]; destruct u as [u|]; destruct b as [b|];
      shape_split; try discriminate; cbn [orb] in *;
      cmp_specialize; cmp_sub; cmp_solve.
  - (* ReturnStatement *)
    destruct a as [a|]; shape_split; cmp_sub; cmp_solve.
  - (* ExpressionStatement *)
    shape_split. apply complains_expression. assumption.
Qed.

Lemma complains_function id params body st :
  optb stmt body = true -> complains st (lexicalFunction id params body st).
Proof.
  intros Hb. unfold lexicalFunction. destruct (negb _); [apply complains_refl|].
  cmp_solve.
  match goal with
  | |- complains ?s (match body with Some b => _ | None => ?x end) =>
      apply complains_trans with x
  end.
  - cmp_solve.
    apply complains_trans with (emit "FUNCTION_START" (str (name id)) None None
      (emitLabel (name id) (setCurrentFunction (Some (name id)) st))); [cmp_solve|].
    apply complains_forEach. apply Forall_forall. intros p _ st'. cmp_solve.
  - destruct body; [now apply complains_statement | apply complains_refl].
Qed.

Lemma complains_code ast st :
  program ast = true -> complains st (lexicalCode ast st).
Proof.
  destruct ast; try discriminate. cbn [program lexicalCode]. intros Hp.
  revert st. apply complains_forEach. apply Forall_forall. intros m Hm st'.
  rewrite forallb_forall in Hp. specialize (Hp m Hm).
  destruct m; cbn [topLevel] in Hp;
    try (now apply complains_statement); try apply complains_refl.
  - now apply complains_function.
  - now apply complains_declarators.
Qed.

Section Pipeline.
Variable isNaN : option operand -> bool.
Variable sumText differenceText productText :
  option operand -> option operand -> string.

Local Abbreviation codeGenerator :=
  (codeGenerator isNaN sumText differenceText productText).

Lemma generated_complains ast :
  program ast = true ->
  Forall (fun e => e = tildeError) (generatedErrors (codeGenerator ast)).
Proof.
  intros Hp. unfold CodeGen.codeGenerator. cbn [generatedErrors].
  unfold generated. rewrite generateCode_lexical. cbn [snd].
  match goal with
  | |- Forall _ (errors (lexicalCode ast ?s0)) =>
      destruct (complains_code ast s0 Hp) as (l & E & F);
      assert (E0 : errors s0 = []) by (destruct (mentionsStdio ast); reflexivity)
  end.
  rewrite E, E0. exact F.
Qed.

(** The parser and the code generator agree on the language except for
    one operator: whatever the tokens, the only diagnostic the code
    generator can have for the tree the parser returns is the one for
    the unary operator [~].  No binary operator of the parser lacks an
    instruction, and no diagnostic for a break or a continue outside of
    a loop is possible, since the parser builds neither. *)
Theorem generator_accepts_parsed_programs tokens :
  exists ast s,
    Parser.parser tokens = Parser.Ret ast s /\
    Forall (fun e => e = tildeError) (generatedErrors (codeGenerator ast)).
Proof.
  destruct (ParserMore.parser_shaped tokens) as (ast & s & E & P).
  exists ast, s. split; [exact E | now apply generated_complains].
Qed.

End Pipeline.

End PipelineMore.

(** ** The parser: its work *)

Module CostProofs.
Import Parser GrammarLogic CostLogic ParserProofs ParserMore.

Ltac cost_finish :=
  unfold linear, almost, round, loopFuel in *;
  learn_present; cbn [JS.isSome] in *;
  intuition (try discriminate; try congruence; try lia).

Ltac co_steps := repeat lp_step; try solve [cost_finish].

Ltac co_use L :=
  eapply lp_conseq;
  [ eapply L; try solve [cost_finish | eassumption]
  | cbv beta; intros ? ? ?
  | cbv beta; intros ? ?; try solve [cost_finish] ].

Section Costs.
Variable tokens : list Token.
Variable self : Parsers.
Hypothesis Hself : SelfLinear tokens self.

Local Abbreviation n := (length tokens).
Local Abbreviation lin0 := (fun (s : pstate) => linear tokens 0 s).
Local Abbreviation lin1 := (fun (s : pstate) => linear tokens 1 s).

Lemma C_includeHeaderLoop k : forall h s,
  wlp (includeHeaderLoop tokens k h) s (fun _ => lin0 s) (lin0 s).
Proof.
  induction k; intros h s; [exact I|]. cbn [includeHeaderLoop].
  co_steps.
  eapply lp_conseq; [apply IHk| |]; cbv beta; intros; cost_finish.
Qed.

Lemma C_parseInclude s :
  current s < n -> wlp (parseInclude tokens) s (fun _ => lin0 s) (lin0 s).
Proof.
  intros Hc. unfold parseInclude. co_steps.
  co_use C_includeHeaderLoop. co_steps.
Qed.

Lemma C_skipBraces k : forall b s,
  wlp (skipBraces tokens k b) s (fun _ => lin0 s) (lin0 s).
Proof.
  induction k; intros b s; [exact I|]. cbn [skipBraces].
  co_steps.
  eapply lp_conseq; [apply IHk| |]; cbv beta; intros; cost_finish.
Qed.

Lemma C_declarationSpecifierLoop k : forall acc s,
  wlp (declarationSpecifierLoop tokens k acc) s (fun _ => lin0 s) (lin0 s).
Proof.
  induction k; intros acc s; [exact I|]. cbn [declarationSpecifierLoop].
  co_steps.
  all: try (co_use C_skipBraces; co_steps).
  all: try (eapply lp_conseq; [apply IHk| |]; cbv beta; intros; cost_finish).
Qed.

Lemma C_parseDeclarationSpecifiers s :
  wlp (parseDeclarationSpecifiers tokens) s (fun _ => lin0 s) (lin0 s).
Proof.
  unfold parseDeclarationSpecifiers. co_steps.
  co_use C_declarationSpecifierLoop. co_steps.
Qed.


Lemma C_argumentLoop k : forall args s,
  wlp (argumentLoop tokens self k args) s (fun _ => lin0 s) (lin0 s).
Proof.
  induction k; intros args s; [exact I|]. cbn [argumentLoop].
  co_steps.
  co_use (li_expression _ _ Hself). co_steps.
  eapply lp_conseq; [apply IHk| |]; cbv beta; intros; cost_finish.
Qed.

Lemma C_parsePrimaryExpression s :
  wlp (parsePrimaryExpression tokens self) s (fun _ => lin0 s) (lin0 s).
Proof.
  unfold parsePrimaryExpression. co_steps.
  all: try (co_use (li_primary _ _ Hself); cost_finish).
  all: try (co_use C_argumentLoop; co_steps).
  all: try (co_use (li_expression _ _ Hself); co_steps).
Qed.

Lemma C_parseUnaryExpression s :
  wlp (parseUnaryExpression tokens self) s (fun _ => lin0 s) (lin0 s).
Proof.
  unfold parseUnaryExpression. co_steps.
  all: try (co_use C_parsePrimaryExpression; cost_finish).
  co_use (li_unary _ _ Hself). co_steps.
Qed.

Lemma C_binaryLoop k : forall p l s,
  wlp (binaryLoop tokens self k p l) s (fun _ => lin0 s) (lin0 s).
Proof.
  induction k; intros p l s; [exact I|]. cbn [binaryLoop].
  co_steps.
  co_use (li_binary _ _ Hself). co_steps.
  eapply lp_conseq; [apply IHk| |]; cbv beta; intros; cost_finish.
Qed.

Lemma C_parseBinaryExpression p s :
  wlp (parseBinaryExpression tokens self p) s (fun _ => lin0 s) (lin0 s).
Proof.
  unfold parseBinaryExpression. co_steps.
  co_use C_parseUnaryExpression. co_steps.
  co_use C_binaryLoop. cost_finish.
Qed.

Lemma C_parseAssignmentExpression s :
  wlp (parseAssignmentExpression tokens self) s (fun _ => lin0 s) (lin0 s).
Proof.
  unfold parseAssignmentExpression. co_steps.
  co_use C_parseBinaryExpression. co_steps.
  co_use (li_assignment _ _ Hself). co_steps.
Qed.

Lemma C_parseExpression s :
  wlp (parseExpression tokens self) s (fun _ => lin0 s) (lin0 s).
Proof. apply C_parseAssignmentExpression. Qed.

Lemma C_parseVariableDeclarator ts s :
  wlp (parseVariableDeclarator tokens self ts) s (fun _ => lin0 s) (lin0 s).
Proof.
  unfold parseVariableDeclarator. co_steps.
  all: repeat (co_use C_parseExpression; co_steps).
Qed.

Lemma C_declaratorLoop k : forall ts ds s,
  wlp (declaratorLoop tokens self k ts ds) s (fun _ => lin0 s) (lin0 s).
Proof.
  induction k; intros ts ds s; [exact I|]. cbn [declaratorLoop].
  co_steps.
  all: co_use C_parseVariableDeclarator; co_steps.
  all: try (eapply lp_conseq; [apply IHk| |]; cbv beta; intros; cost_finish).
Qed.

Lemma C_parseVariableDeclaration s :
  wlp (parseVariableDeclaration tokens self) s (fun _ => lin0 s) (lin0 s).
Proof.
  unfold parseVariableDeclaration. co_steps.
  co_use C_parseDeclarationSpecifiers. co_steps.
  co_use C_declaratorLoop. co_steps.
Qed.

Lemma C_parseReturnStatement s :
  current s < n ->
  wlp (parseReturnStatement tokens self) s (fun _ => lin0 s) (lin0 s).
Proof.
  intros Hc. unfold parseReturnStatement. co_steps.
  all: try (co_use C_parseExpression; co_steps).
Qed.

Lemma C_blockLoop k : forall body s,
  wlp (blockLoop tokens self k body) s (fun _ => lin1 s) (lin1 s).
Proof.
  induction k; intros body s; [exact I|]. cbn [blockLoop].
  co_steps.
  co_use (li_statement _ _ Hself). co_steps.
  all: try (eapply lp_conseq; [apply IHk| |]; cbv beta; intros; cost_finish).
Qed.

Lemma C_parseBlockStatement s :
  wlp (parseBlockStatement tokens self) s (fun _ => lin1 s) (lin1 s).
Proof.
  unfold parseBlockStatement. co_steps.
  co_use C_blockLoop. co_steps.
Qed.

Lemma C_parseIfStatement s :
  current s < n ->
  wlp (parseIfStatement tokens self) s (fun _ => lin1 s) (lin1 s).
Proof.
  intros Hc. unfold parseIfStatement. co_steps.
  co_use C_parseExpression. co_steps.
  co_use (li_statement _ _ Hself). co_steps.
  all: try (co_use (li_statement _ _ Hself); co_steps).
Qed.

Lemma C_parseWhileStatement s :
  current s < n ->
  wlp (parseWhileStatement tokens self) s (fun _ => lin1 s) (lin1 s).
Proof.
  intros Hc. unfold parseWhileStatement. co_steps.
  co_use C_parseExpression. co_steps.
  co_use (li_statement _ _ Hself). co_steps.
Qed.

Lemma C_parseForStatement s :
  current s < n ->
  wlp (parseForStatement tokens self) s (fun _ => lin1 s) (lin1 s).
Proof.
  intros Hc. unfold parseForStatement. co_steps.
  all: try (co_use C_parseVariableDeclaration; co_steps).
  all: repeat (try (co_use C_parseExpression; co_steps);
               try (co_use (li_statement _ _ Hself); co_steps)).
Qed.

Lemma C_parseExpressionStatement s :
  wlp (parseExpressionStatement tokens self) s (fun _ => lin0 s) (lin0 s).
Proof.
  unfold parseExpressionStatement. co_steps.
  co_use C_parseExpression. co_steps.
Qed.

Lemma C_parseStatement s :
  wlp (parseStatement tokens self) s (fun _ => lin1 s) (lin1 s).
Proof.
  unfold parseStatement. co_steps.
  - co_use C_parseVariableDeclaration. cost_finish.
  - co_use C_parseReturnStatement. cost_finish.
  - co_use C_parseIfStatement. cost_finish.
  - co_use C_parseForStatement. cost_finish.
  - co_use C_parseWhileStatement. cost_finish.
  - co_use C_parseBlockStatement. cost_finish.
  - co_use C_parseExpressionStatement. cost_finish.
Qed.


Lemma C_parameterLoop k : forall ps s,
  wlp (parameterLoop tokens self k ps) s (fun _ => lin0 s) (lin0 s).
Proof.
  induction k; intros ps s; [exact I|]. cbn [parameterLoop].
  co_steps.
  co_use C_parseDeclarationSpecifiers. co_steps.
  all: repeat (co_use C_parseExpression; co_steps).
  all: eapply lp_conseq; [apply IHk| |]; cbv beta; intros; cost_finish.
Qed.

Lemma C_parseParameters s :
  wlp (parseParameters tokens self) s
    (fun _ => almost tokens 0 s) (almost tokens 0 s).
Proof.
  unfold parseParameters. co_steps.
  all: co_use C_parameterLoop; co_steps.
Qed.

Lemma C_parseFunctionDeclaration s :
  wlp (parseFunctionDeclaration tokens self) s
    (fun _ => almost tokens 1 s) (almost tokens 1 s).
Proof.
  unfold parseFunctionDeclaration, parseFunctionBody. co_steps.
  co_use C_parseDeclarationSpecifiers. co_steps.
  all: co_use C_parseParameters; co_steps.
  all: co_use C_parseBlockStatement; co_steps.
Qed.

Lemma C_parseTypedef s :
  current s < n -> wlp (parseTypedef tokens) s (fun _ => lin0 s) (lin0 s).
Proof.
  intros Hc. unfold parseTypedef. co_steps.
  co_use C_parseDeclarationSpecifiers. co_steps.
Qed.

Lemma C_defineLoop k : forall s,
  wlp (defineLoop tokens k) s (fun _ => lin0 s) (lin0 s).
Proof.
  induction k; intros s; [exact I|]. cbn [defineLoop].
  co_steps.
  eapply lp_conseq; [apply IHk| |]; cbv beta; intros; cost_finish.
Qed.

Lemma C_parsePreprocessorDirective s :
  wlp (parsePreprocessorDirective tokens) s (fun _ => lin0 s) (lin0 s).
Proof.
  unfold parsePreprocessorDirective. co_steps.
  - co_use C_parseInclude. cost_finish.
  - co_use C_defineLoop. co_steps.
Qed.

Lemma C_parseTopLevel token s :
  nth_error tokens (current s) = Some token ->
  wlp (parseTopLevel tokens self token) s
    (fun _ => round tokens 1 s) (round tokens 1 s).
Proof.
  intros Htok. unfold parseTopLevel. co_steps.
  - co_use C_parsePreprocessorDirective. cost_finish.
  - co_use C_parseTypedef. cost_finish.
  - co_use C_parseDeclarationSpecifiers. co_steps.
    all: try (co_use C_parseFunctionDeclaration).
    all: try (co_use C_parseVariableDeclaration).
    all: cost_finish.
  - co_use C_parseStatement. cost_finish.
  - co_use C_parseReturnStatement. cost_finish.
  - co_use C_parseBlockStatement. cost_finish.
Qed.

End Costs.

Lemma parsers_linear tokens fuel : SelfLinear tokens (parsers tokens fuel).
Proof.
  induction fuel as [|f IH].
  - split; intros; exact I.
  - cbn [parsers build]. split; intros; cbn [rec_parsePrimaryExpression
      rec_parseUnaryExpression rec_parseBinaryExpression
      rec_parseAssignmentExpression rec_parseExpression rec_parseStatement].
    + now apply C_parsePrimaryExpression.
    + now apply C_parseUnaryExpression.
    + now apply C_parseBinaryExpression.
    + now apply C_parseAssignmentExpression.
    + now apply C_parseExpression.
    + now apply C_parseStatement.
Qed.

Lemma wp_wlp A (m : M A) s (Q Q' : A -> pstate -> Prop) (E E' : pstate -> Prop) :
  ParserLogic.wp m s Q E -> wlp m s Q' E' ->
  wlp m s (fun a s' => Q a s' /\ Q' a s') (fun s' => E s' /\ E' s').
Proof.
  unfold ParserLogic.wp, wlp. destruct (m s); auto.
Qed.

Lemma triangle_step a b :
  b < a -> b * (b + 1) + 2 * a <= a * (a + 1).
Proof. intros H. nia. Qed.

Section Loop.
Variable tokens : list Token.
Local Abbreviation n := (length tokens).
Local Abbreviation top := (parsers tokens (S (length tokens))).

Lemma C_programLoop k : forall body s,
  wlp (programLoop tokens top k body) s
    (fun _ s' =>
       2 * steps s' + 2 * current s <=
         2 * steps s + 2 * current s' + (n - current s) * (n - current s + 1) /\
       n <= current s' /\
       current s' <= Nat.max (current s) (n + 2))
    (fun _ => True).
Proof.
  induction k; intros body s; [exact I|]. cbn [programLoop].
  lp_step. lp_step. lp_step.
  - lp_step. lp_step. lp_step.
    + lp_step. apply lp_tryCatch.
      eapply lp_conseq;
        [ apply wp_wlp;
          [ apply (L_parseTopLevel tokens); eassumption
          | apply (C_parseTopLevel tokens top (parsers_linear tokens _));
            eassumption ]
        | |]; cbv beta.
      * intros a s1 [P R].
        eapply lp_conseq; [apply IHk| |]; cbv beta; [|auto].
        intros _ s2 (B & F & M). unfold round in R.
        apply Nat.ltb_lt in Heqb.
        pose proof (triangle_step (n - current s) (n - current s1)).
        repeat split; lia.
      * intros s1 [P R] e. lp_step. lp_step. lp_step. lp_step. lp_step.
        eapply lp_conseq; [apply IHk| |]; cbv beta; [|auto].
        intros _ s2 (B & F & M). unfold round, ParserLogic.exc in *.
        apply Nat.ltb_lt in Heqb.
        pose proof (triangle_step (n - current s) (n - current s'0)).
        repeat split; lia.
    + lp_step. apply Nat.ltb_lt in Heqb. learn_present. lia.
  - lp_step. apply Nat.ltb_ge in Heqb. repeat split; lia.
Qed.

Lemma parser_cost :
  exists ast s,
    parser tokens = Ret ast s /\
    2 * steps s <= n * (n + 3) + 4 /\ n <= current s <= n + 2.
Proof.
  destruct (L_parseProgram tokens) as (body & s & E).
  exists (Program body), s. split; [exact E|].
  pose proof (C_programLoop (loopFuel tokens) [] (mkState 0 [] 0)) as H.
  unfold parser, parseProgram, bind, ret in E. unfold wlp in H.
  destruct (programLoop tokens top (loopFuel tokens) [] (mkState 0 [] 0))
    as [b s'| |]; try discriminate.
  injection E as _ <-. cbn [current steps] in H.
  destruct H as (B & F & M). rewrite Nat.sub_0_r in B.
  repeat split; lia.
Qed.

End Loop.

(** The parser reads every token: when it returns, the cursor is at the
    end of the token list or at most two positions beyond it. *)
Theorem parser_consumes_input tokens :
  exists ast s,
    parser tokens = Ret ast s /\
    length tokens <= current s <= length tokens + 2.
Proof.
  destruct (parser_cost tokens) as (ast & s & E & _ & B). eauto.
Qed.

(** The work of the parser is at most quadratic: on [n] tokens it calls
    [advance] at most [n * (n + 3) / 2 + 2] times, the look-ahead of the
    top-level loop included. *)
Theorem parser_steps_quadratic tokens :
  2 * parser_steps tokens <= length tokens * (length tokens + 3) + 4.
Proof.
  destruct (parser_cost tokens) as (ast & s & E & B & _).
  unfold parser_steps. now rewrite E.
Qed.

End CostProofs.

(** ** The analyzer: compatible types *)

Module TypeMore.
Import Semantic TypeLogic.

Lemma rev_string_length s : forall acc,
  String.length (JS.rev_string s acc) = String.length s + String.length acc.
Proof.
  induction s as [|c s IH]; intros acc; cbn [JS.rev_string String.length];
    [reflexivity|].
  rewrite IH. cbn [String.length]. lia.
Qed.

Lemma dropSpaces_length s : String.length (JS.dropSpaces s) <= String.length s.
Proof.
  induction s as [|c s IH]; cbn [JS.dropSpaces String.length]; [lia|].
  destruct (JS.isSpace c); cbn [String.length]; lia.
Qed.

Lemma trim_length s : String.length (JS.trim s) <= String.length s.
Proof.
  unfold JS.trim. rewrite rev_string_length. cbn [String.length].
  pose proof (dropSpaces_length (JS.rev_string (JS.dropSpaces s) EmptyString)) as H.
  rewrite rev_string_length in H. cbn [String.length] in H.
  pose proof (dropSpaces_length s). lia.
Qed.

Lemma stripQualifiers_length s : forall skip prevWord,
  String.length (stripQualifiers s skip prevWord) <= String.length s.
Proof.
  induction s as [|c s IH]; intros skip pw; cbn [stripQualifiers String.length];
    [lia|].
  destruct skip as [|k]; [|specialize (IH k (JS.isWord c)); lia].
  cbv zeta.
  repeat match goal with
  | |- context [if ?b then _ else _] => destruct b
  | |- context [let (_, _) := ?p in _] => destruct p
  | |- context [match ?o with Some _ => _ | None => _ end] => destruct o
  end; cbn [String.length];
  match goal with
  | |- context [stripQualifiers s ?k ?w] => specialize (IH k w); lia
  end.
Qed.

Lemma normalizeType_length t :
  String.length (normalizeType t) <= String.length t.
Proof.
  unfold normalizeType.
  pose proof (trim_length (stripQualifiers t 0 false)).
  pose proof (stripQualifiers_length t 0 false). lia.
Qed.

Lemma substring_length s : forall m,
  String.length (String.substring 0 m s) <= m.
Proof.
  induction s as [|c s IH]; intros m.
  - destruct m; cbn; lia.
  - destruct m as [|m]; cbn [String.substring String.length]; [lia|].
    specialize (IH m). lia.
Qed.

Lemma endsWith_nonempty s suffix :
  suffix <> EmptyString -> endsWith s suffix = true -> 0 < String.length s.
Proof.
  intros Hs. unfold endsWith. destruct s as [|c s]; [|cbn; lia].
  cbn [JS.rev_string].
  destruct (JS.rev_string suffix EmptyString) as [|d r] eqn:E.
  - apply (f_equal String.length) in E. rewrite rev_string_length in E.
    destruct suffix; [congruence | cbn in E; lia].
  - cbn. discriminate.
Qed.

Lemma shorter_base t k :
  0 < k -> endsWith (normalizeType t) "*" = true ->
  String.length (JS.trim (sliceEnd k (normalizeType t))) < String.length t.
Proof.
  intros Hk He. apply endsWith_nonempty in He; [|discriminate].
  pose proof (normalizeType_length t).
  pose proof (trim_length (sliceEnd k (normalizeType t))).
  unfold sliceEnd in *.
  pose proof (substring_length (normalizeType t)
                (String.length (normalizeType t) - k)).
  lia.
Qed.

Lemma within_fuel n : forall t s depth fuel,
  String.length t <= n -> n < depth -> n <= fuel ->
  compatibleWithin depth t s = Some (areTypesCompatibleFuel fuel t s).
Proof.
  induction n as [|n IH]; intros t s depth fuel Ht Hd Hf.
  - destruct t; [|cbn in Ht; lia].
    destruct depth as [|depth]; [lia|]. destruct fuel; reflexivity.
  - destruct depth as [|depth]; [lia|].
    destruct fuel as [|fuel]; [lia|].
    cbn [areTypesCompatibleFuel compatibleWithin]. cbv zeta.
    repeat match goal with
    | |- (if ?b then _ else _) = Some (if ?b then _ else _) =>
        destruct b eqn:?; [try reflexivity|try reflexivity]
    end.
    all: apply IH; try lia.
    all: match goal with
         | H : (endsWith (normalizeType ?x) "*" && _)%bool = true |- _ =>
             apply andb_prop in H; destruct H as [H _];
             pose proof (shorter_base x 1 ltac:(lia) H); lia
         end.
Qed.

(** The recursion of [areTypesCompatible] ends on every pair of types.
    Both recursive calls are made when the normalized target type ends
    with a star, on that type without its last character and trimmed,
    which is strictly shorter than the target type; so with a number of
    nested calls larger than the length of the target type the function
    returns, and what it returns is [areTypesCompatible]. *)
Theorem type_compatibility_terminates t s :
  (endsWith (normalizeType t) "*" = true ->
   String.length (JS.trim (sliceEnd 1 (normalizeType t))) < String.length t) /\
  (forall depth, String.length t < depth ->
     compatibleWithin depth t s = Some (areTypesCompatible t s)).
Proof.
  split.
  - apply shorter_base. lia.
  - intros depth H. unfold areTypesCompatible.
    apply (within_fuel (String.length t)); lia.
Qed.

End TypeMore.

(** ** Instances *)

Module MoreWitnesses.

Import Parser Scenario MoreScenario.

(** The program of the shadowing scenario opens two blocks.  A clock
    that drifts after its second reading gives the result of the first
    clock. *)
Lemma analyzer_reads_clock_per_scope_witness :
  Semantic.dateNow clockA 2 <> Semantic.dateNow clockDrift 2 /\
  Semantic.randomTag clockA 2 <> Semantic.randomTag clockDrift 2 /\
  Semantic.semanticAnalyzer clockA shadowText (parsed shadowTokens) =
  Semantic.semanticAnalyzer clockDrift shadowText (parsed shadowTokens).
Proof.
  split; [vm_compute; discriminate|]. split; [vm_compute; discriminate|].
  apply (proj2 (ClockProofs.analyzer_reads_clock_per_scope clockA clockDrift
                  shadowText (parsed shadowTokens))).
  - intros i Hi. vm_compute in Hi.
    destruct i as [|[|i]]; [reflexivity|reflexivity|exfalso; lia].
  - intros i Hi. vm_compute in Hi.
    destruct i as [|[|i]]; [reflexivity|reflexivity|exfalso; lia].
Defined.

(** A program that is one statement and declares nothing is reported
    to lack main; the program of the local scenario declares main and
    is not. *)
Lemma missing_main_by_program_witness :
  statementText <> EmptyString /\
  ProgramLogic.plainText statementText = true /\
  ~ In "main" (declaredNames (parsed statementTokens)) /\
  ~ In "main" (ProgramLogic.definedNames statementText) /\
  In "Missing 'main' function"
     (map Semantic.message
        (Semantic.errors
           (Semantic.semanticAnalyzer clockA statementText (parsed statementTokens)))) /\
  ReadLogic.declaredAtTop "main" (parsed localTokens) = true /\
  ~ In "Missing 'main' function"
       (map Semantic.message
          (Semantic.errors
             (Semantic.semanticAnalyzer clockA localText (parsed localTokens)))).
Proof.
  assert (H1 : statementText <> EmptyString) by discriminate.
  assert (H2 : ProgramLogic.plainText statementText = true)
    by (vm_compute; reflexivity).
  assert (H3 : ~ In "main" (declaredNames (parsed statementTokens)))
    by (vm_compute; tauto).
  assert (H4 : ~ In "main" (ProgramLogic.definedNames statementText))
    by (vm_compute; tauto).
  assert (H5 : ReadLogic.declaredAtTop "main" (parsed localTokens) = true)
    by (vm_compute; reflexivity).
  split; [exact H1|]. split; [exact H2|]. split; [exact H3|].
  split; [exact H4|]. split; [|split; [exact H5|]].
  - exact (proj1 (ProgramProofs.missing_main_by_program clockA statementText
                    (parsed statementTokens)) (or_introl H1) H2 H3 H4).
  - exact (proj1 (proj2 (ProgramProofs.missing_main_by_program clockA localText
                           (parsed localTokens))) H5).
Defined.


(** The call of f in a program that declares no f is reported, and f
    has no symbol in the global scope nor among the library functions. *)
Lemma undefined_call_not_declared_witness :
  In (PhaseLogic.undefinedCall "f")
     (map Semantic.message
        (Semantic.errors
           (Semantic.semanticAnalyzer clockA undefinedCallText
              (parsed undefinedCallTokens)))) /\
  ~ In "f" (map (fun f => Semantic.sym_name (snd f)) Semantic.stdFuncs).
Proof.
  assert (H : In (PhaseLogic.undefinedCall "f")
     (map Semantic.message
        (Semantic.errors
           (Semantic.semanticAnalyzer clockA undefinedCallText
              (parsed undefinedCallTokens)))))
    by (vm_compute; auto).
  split; [exact H|].
  apply (AnalyzerMore.undefined_call_not_declared clockA undefinedCallText
           (parsed undefinedCallTokens) "f" H).
  discriminate.
Defined.

(** The global variable of the second scenario is displayed, with its
    scope. *)
Lemma display_hides_library_witness :
  In ("x", Semantic.mkDisplay "int" "global" 1 true None false false None)
     (Semantic.formatSymbolTable
        (Semantic.analysis clockA globalReadText (parsed globalReadTokens))) /\
  "global" <> "builtin".
Proof.
  assert (H : In ("x", Semantic.mkDisplay "int" "global" 1 true None false false None)
     (Semantic.formatSymbolTable
        (Semantic.analysis clockA globalReadText (parsed globalReadTokens))))
    by (vm_compute; auto).
  split; [exact H|].
  apply (AnalyzerMore.display_hides_library _ _ _ H).
Defined.

(** Two levels of pointers: the first recursive call is on a target
    type of four characters, and six nested calls are enough. *)
Lemma type_compatibility_terminates_witness :
  Semantic.endsWith (Semantic.normalizeType "int**") "*" = true /\
  String.length "int**" < 6 /\
  String.length
    (JS.trim (Semantic.sliceEnd 1 (Semantic.normalizeType "int**"))) <
  String.length "int**" /\
  TypeLogic.compatibleWithin 6 "int**" "char**" =
  Some (Semantic.areTypesCompatible "int**" "char**").
Proof.
  assert (H1 : Semantic.endsWith (Semantic.normalizeType "int**") "*" = true)
    by (vm_compute; reflexivity).
  assert (H2 : String.length "int**" < 6) by (cbn; lia).
  split; [exact H1|]. split; [exact H2|]. split.
  - exact (proj1 (TypeMore.type_compatibility_terminates "int**" "char**") H1).
  - exact (proj2 (TypeMore.type_compatibility_terminates "int**" "char**") 6 H2).
Defined.

End MoreWitnesses.
